(** * Wildcard word-search service: index, matcher and request pipeline

    A shallow embedding of [index.py], [server_threaded.py] and
    [server_basic.py].

    Text.  Python [str] values are Rocq [string]s.  [lower], [upper],
    [isspace] and [isdigit] below are Python's methods on the code
    points 0..127, and a character above 127 is carried along as a
    symbol without case that is neither white space nor a digit.
    Python's own methods fold, strip and count other characters too
    ([lower] can even change the length of a text), so every property
    that rests on [lower] or on the matching of letters is stated for
    ASCII words and patterns ([isascii]).

    Integers.  Python [int] is unbounded: [Z] where a value may be
    negative, [nat] for lengths, counts and list positions.

    Exceptions.  A function that can raise ([KeyError], [IndexError],
    [ValueError]) returns [option]; [None] is the raised exception. *)

From Stdlib Require Import ZArith Lia Bool Ascii String DecimalString.
From stdpp Require Import base option list sorting gmap sets strings.

Local Open Scope Z_scope.
Local Open Scope list_scope.
Local Open Scope stdpp_scope.

(** ** Python built-ins used by the sources *)

Module Py.

(** The line feed, written ["\n"] in the sources. *)
Definition LF : ascii := "010"%char.
Definition nl : string := String LF "".

Definition is_upper_char (c : ascii) : bool :=
  let n := N_of_ascii c in ((65 <=? n) && (n <=? 90))%N.
Definition is_lower_char (c : ascii) : bool :=
  let n := N_of_ascii c in ((97 <=? n) && (n <=? 122))%N.

(** [str.lower] and [str.upper], one character. *)
Definition lower_char (c : ascii) : ascii :=
  if is_upper_char c then ascii_of_N (N_of_ascii c + 32) else c.
Definition upper_char (c : ascii) : ascii :=
  if is_lower_char c then ascii_of_N (N_of_ascii c - 32) else c.

Fixpoint lower (s : string) : string :=
  match s with
  | EmptyString => EmptyString
  | String c r => String (lower_char c) (lower r)
  end.

Fixpoint upper (s : string) : string :=
  match s with
  | EmptyString => EmptyString
  | String c r => String (upper_char c) (upper r)
  end.

(** [len(s)]. *)
Definition len (s : string) : nat := String.length s.

(** The characters of a string, for [for ch in s] and [enumerate(s)]. *)
Definition chars (s : string) : list ascii := list_ascii_of_string s.

(** [str.isspace] on one character: tab, LF, VT, FF, CR, the four
    separators 0x1c..0x1f and the blank. *)
Definition isspace (c : ascii) : bool :=
  let n := N_of_ascii c in
  (((9 <=? n) && (n <=? 13)) || ((28 <=? n) && (n <=? 32)))%N.

Definition isdigit_char (c : ascii) : bool :=
  let n := N_of_ascii c in ((48 <=? n) && (n <=? 57))%N.

(** [s.isdigit()]: non-empty and made of digits only. *)
Definition isdigit (s : string) : bool :=
  match s with
  | EmptyString => false
  | _ => forallb isdigit_char (chars s)
  end.

(** [int(s)] on a string of decimal digits. *)
Definition digit_val (c : ascii) : Z := Z.of_N (N_of_ascii c) - 48.
Definition int_of_digits (s : string) : Z :=
  fold_left (fun acc c => 10 * acc + digit_val c) (chars s) 0.

(** [str(n)] and the [{n}] of an f-string, for an [int]. *)
Definition str_of_Z (z : Z) : string := NilZero.string_of_int (Z.to_int z).
Definition str_of_nat (n : nat) : string := str_of_Z (Z.of_nat n).

(** [s.count(c)] for a one-character [c]. *)
Definition count (c : ascii) (s : string) : nat :=
  List.length (List.filter (fun x => Ascii.eqb x c) (chars s)).

(** [c in s] for a one-character [c]. *)
Definition has_char (c : ascii) (s : string) : bool :=
  existsb (fun x => Ascii.eqb x c) (chars s).

Fixpoint lstrip (s : string) : string :=
  match s with
  | EmptyString => EmptyString
  | String c r => if isspace c then lstrip r else s
  end.

Fixpoint rstrip (s : string) : string :=
  match s with
  | EmptyString => EmptyString
  | String c r =>
      let r' := rstrip r in
      if String.eqb r' "" && isspace c then "" else String c r'
  end.

(** [s.strip()]. *)
Definition strip (s : string) : string := lstrip (rstrip s).

(** [s.split()]: the maximal runs of characters that are not white
    space. [cur] is the run being read. *)
Fixpoint split_go (s cur : string) : list string :=
  match s with
  | EmptyString => if String.eqb cur "" then [] else [cur]
  | String c r =>
      if isspace c
      then (if String.eqb cur "" then split_go r "" else cur :: split_go r "")
      else split_go r (cur +:+ String c "")
  end.
Definition split (s : string) : list string := split_go s "".

(** [s.split(' ', 1)]: one element when [s] has no blank, else the
    text before the first blank and the text after it. *)
Fixpoint split1_blank (s : string) : list string :=
  match s with
  | EmptyString => [""]
  | String c r =>
      if Ascii.eqb c " " then [""; r]
      else match split1_blank r with
           | a :: rest => String c a :: rest
           | [] => [String c ""]
           end
  end.

(** [s[n:]]. *)
Fixpoint sdrop (n : nat) (s : string) : string :=
  match n, s with
  | O, _ => s
  | S n', String _ r => sdrop n' r
  | S _, EmptyString => EmptyString
  end.

(** [sep in s] for a non-empty [sep]. *)
Fixpoint contains (sep s : string) : bool :=
  String.prefix sep s ||
  match s with
  | EmptyString => false
  | String _ r => contains sep r
  end.

(** [s.rsplit(sep, 1)] for a non-empty [sep]: [s] alone when [sep] does
    not occur, else the text before the last occurrence and the text
    after it. *)
Fixpoint rsplit1 (sep s : string) : list string :=
  match s with
  | EmptyString => [""]
  | String c r =>
      match rsplit1 sep r with
      | [a; b] => [String c a; b]
      | _ => if String.prefix sep s then [""; sdrop (len sep) s] else [s]
      end
  end.

(** [sep.join(l)]. *)
Fixpoint join (sep : string) (l : list string) : string :=
  match l with
  | [] => ""
  | [x] => x
  | x :: r => x +:+ sep +:+ join sep r
  end.

(** [l[offset : offset + limit]] for non-negative bounds. *)
Definition slice {A} (l : list A) (offset limit : Z) : list A :=
  take (Z.to_nat limit) (drop (Z.to_nat offset) l).

End Py.

Import Py.


(** ** [_SimpleBloom]: the triple-hash bit set of [index.py] *)

Module Bloom.

(** The three slots of a [_SimpleBloom]; [_bits] is a Python [int] used
    as a bit set. *)
Record t := mk { _bits : Z; _size : Z; _mask : Z }.

(** [__init__]: [1 << n] raises [ValueError] for a negative [n]. *)
Definition init (bits_power_of_two : Z) : option t :=
  if bits_power_of_two <? 0 then None
  else
    let size := Z.shiftl 1 bits_power_of_two in
    Some {| _size := size; _bits := 0; _mask := size - 1 |}.

Definition M64 : Z := Z.shiftl 1 64 - 1.

Definition _h1 (x : Z) : Z :=
  let x := Z.lxor x (Z.shiftr x 33) in
  let x := x * Z.land 0xff51afd7ed558ccd M64 in
  Z.land x M64.

Definition _h2 (x : Z) : Z :=
  let x := Z.lxor x (Z.shiftr x 29) in
  let x := x * Z.land 0xc4ceb9fe1a85ec53 M64 in
  Z.land x M64.

(** [(self._bits >> h) & 1 == 0], negated: bit [h] is set. *)
Definition bit_set (bits h : Z) : bool :=
  negb (Z.land (Z.shiftr bits h) 1 =? 0).

Section WithHash.
(** Python's built-in [hash] on [str]: salted per process, fixed
    during one run. *)
Variable hash : string -> Z.

Definition _hashes (b : t) (s : string) : list Z :=
  let h := hash s in
  let h := if h <? 0 then - h else h in
  let h1 := Z.land (_h1 h) (_mask b) in
  let h2 := Z.land (_h2 h) (_mask b) in
  let h3 := Z.land (h1 * 1315423911 + h2 * 2654435761) (_mask b) in
  [h1; h2; h3].

(** [add]: [self._bits |= (1 << h)] for the three positions. *)
Definition add (b : t) (s : string) : t :=
  {| _bits := fold_left (fun bits h => Z.lor bits (Z.shiftl 1 h))
                        (_hashes b s) (_bits b);
     _size := _size b;
     _mask := _mask b |}.

(** [maybe_contains]: [False] at the first position whose bit is
    clear, [True] when the loop ends. *)
Definition maybe_contains (b : t) (s : string) : bool :=
  forallb (bit_set (_bits b)) (_hashes b s).

(** A run of [add] calls on one filter. *)
Definition add_all (b : t) (l : list string) : t := fold_left add l b.

End WithHash.

End Bloom.

(** ** The three module-level filters and [_init_blooms] *)

Module Globals.

Record t := mk {
  _blooms_built : bool;
  _bloom_words : Bloom.t;
  _bloom_letters : Bloom.t;
  _bloom_bigrams : Bloom.t
}.

Definition bloom_of (p : Z) : Bloom.t :=
  let size := Z.shiftl 1 p in
  {| Bloom._size := size; Bloom._bits := 0; Bloom._mask := size - 1 |}.

(** The module state right after import. *)
Definition initial : t :=
  {| _blooms_built := false;
     _bloom_words := bloom_of 20;
     _bloom_letters := bloom_of 16;
     _bloom_bigrams := bloom_of 18 |}.

(** [wl[i : i + 2] for i in range(len(wl) - 1)]. *)
Fixpoint bigrams (s : string) : list string :=
  match s with
  | String a (String b _ as r) => String a (String b "") :: bigrams r
  | _ => []
  end.

Section WithHash.
Variable hash : string -> Z.

(** The body of the [for wl in words_lower] loop. [set(wl)] is
    walked as the distinct characters of [wl]; [add] only sets bits,
    so the order of the walk does not show. *)
Definition add_word (g : t) (wl : string) : t :=
  {| _blooms_built := _blooms_built g;
     _bloom_words := Bloom.add hash (_bloom_words g) wl;
     _bloom_letters :=
       Bloom.add_all hash (_bloom_letters g)
         (map (fun c => String c "") (remove_dups (chars wl)));
     _bloom_bigrams :=
       if (2 <=? len wl)%nat
       then Bloom.add_all hash (_bloom_bigrams g) (bigrams wl)
       else _bloom_bigrams g |}.

(** [_init_blooms]: the filters are filled by the first index built
    in the process and left alone by every later one. *)
Definition _init_blooms (g : t) (words_lower : list string) : t :=
  if _blooms_built g then g
  else
    let g' := fold_left add_word words_lower g in
    {| _blooms_built := true;
       _bloom_words := _bloom_words g';
       _bloom_letters := _bloom_letters g';
       _bloom_bigrams := _bloom_bigrams g' |}.
End WithHash.

End Globals.

(** ** The fragment of Python's [re] that the sources use

    Every regular expression the sources compile is written by
    [_wildcard_to_regex_body]: literal characters, escaped
    punctuation, [.], [.*] and, when anchored, [^] and [$], compiled
    with [re.IGNORECASE]. [compile] reads that syntax and answers
    [None] outside it. *)

Module Re.

Inductive atom :=
| Any                (* [.] *)
| Lit (c : ascii).   (* a character, plain or escaped *)

Inductive item :=
| Bol                (* [^] *)
| Eol                (* [$] *)
| One (a : atom)
| Star (a : atom).   (* [a*] *)

Definition BACKSLASH : ascii := "092"%char.

(** The characters with a meaning of their own in a pattern. *)
Definition special (c : ascii) : bool :=
  has_char c ".^$*+?{}[]|()" || Ascii.eqb c BACKSLASH.

(** [re.compile(pat, re.IGNORECASE)]. *)
Fixpoint compile (pat : string) : option (list item) :=
  match pat with
  | EmptyString => Some []
  | String c r =>
      if Ascii.eqb c "^" then cons Bol <$> compile r
      else if Ascii.eqb c "$" then cons Eol <$> compile r
      else if Ascii.eqb c BACKSLASH then
        match r with
        | String d r' =>
            if special d then
              match r' with
              | String e r'' =>
                  if Ascii.eqb e "*" then cons (Star (Lit d)) <$> compile r''
                  else cons (One (Lit d)) <$> compile r'
              | EmptyString => cons (One (Lit d)) <$> compile r'
              end
            else None
        | EmptyString => None
        end
      else if Ascii.eqb c "." then
        match r with
        | String e r' =>
            if Ascii.eqb e "*" then cons (Star Any) <$> compile r'
            else cons (One Any) <$> compile r
        | EmptyString => cons (One Any) <$> compile r
        end
      else if special c then None
      else
        match r with
        | String e r' =>
            if Ascii.eqb e "*" then cons (Star (Lit c)) <$> compile r'
            else cons (One (Lit c)) <$> compile r
        | EmptyString => cons (One (Lit c)) <$> compile r
        end
  end.

(** One character against one atom: [.] takes anything but a line
    feed, a literal is compared without case. *)
Definition atom_matches (a : atom) (c : ascii) : bool :=
  match a with
  | Any => negb (Ascii.eqb c LF)
  | Lit l => Ascii.eqb (lower_char l) (lower_char c)
  end.

(** [match_here full items at_start s]: [items] match a prefix of [s],
    the whole of [s] when [full]. [at_start] tells whether [s] starts
    the subject string. *)
Fixpoint match_here (full : bool) (items : list item) (at_start : bool)
    (s : string) : bool :=
  match items with
  | [] => if full then String.eqb s "" else true
  | Bol :: r => at_start && match_here full r at_start s
  | Eol :: r =>
      (String.eqb s "" || String.eqb s nl) && match_here full r at_start s
  | One a :: r =>
      match s with
      | String c s' => atom_matches a c && match_here full r false s'
      | EmptyString => false
      end
  | Star a :: r =>
      (fix star (s : string) (at_start : bool) : bool :=
         match_here full r at_start s
         || match s with
            | String c s' => atom_matches a c && star s' false
            | EmptyString => false
            end) s at_start
  end.

(** [rx.fullmatch(s) is not None]. *)
Definition fullmatch (rx : list item) (s : string) : bool :=
  match_here true rx true s.

Fixpoint search_from (rx : list item) (at_start : bool) (s : string) : bool :=
  match_here false rx at_start s
  || match s with
     | String _ s' => search_from rx false s'
     | EmptyString => false
     end.

(** [rx.search(s) is not None]. *)
Definition search (rx : list item) (s : string) : bool :=
  search_from rx true s.

End Re.

(** ** [index.py]: pattern helpers *)

Definition is_wild (ch : ascii) : bool := Ascii.eqb ch "?" || Ascii.eqb ch "*".

(** [_letter_segments]; [cur] is the segment being read. *)
Fixpoint _letter_segments_go (p : list ascii) (cur : string) : list string :=
  match p with
  | [] => if String.eqb cur "" then [] else [cur]
  | ch :: r =>
      if is_wild ch
      then (if String.eqb cur "" then _letter_segments_go r ""
            else cur :: _letter_segments_go r "")
      else _letter_segments_go r (cur +:+ String ch "")
  end.
Definition _letter_segments (pattern : string) : list string :=
  _letter_segments_go (chars pattern) "".

Section ShouldSkip.
Variable hash : string -> Z.
Variable g : Globals.t.

(** [should_skip_pattern], reading the module-level filters [g]. *)
Definition should_skip_pattern (pattern : string) : bool :=
  if String.eqb pattern "" then true
  else
    let p := lower pattern in
    let has_letter := existsb (fun ch => negb (is_wild ch)) (chars p) in
    if negb has_letter then false
    else if existsb
              (fun ch => negb (Bloom.maybe_contains hash
                                 (Globals._bloom_letters g) (String ch "")))
              (remove_dups (List.filter (fun c => negb (is_wild c)) (chars p)))
    then true
    else existsb
           (fun seg =>
              (2 <=? len seg)%nat
              && existsb (fun bg => negb (Bloom.maybe_contains hash
                                            (Globals._bloom_bigrams g) bg))
                         (Globals.bigrams seg))
           (_letter_segments p).
End ShouldSkip.

(** [_wildcard_to_regex_body]. *)
Definition escape_char (allow_star : bool) (ch : ascii) : string :=
  if has_char ch ".^$+{}[]|()" || Ascii.eqb ch Re.BACKSLASH
  then String Re.BACKSLASH (String ch "")
  else if Ascii.eqb ch "?" then "."
  else if Ascii.eqb ch "*" && allow_star then ".*"
  else String ch "".

Fixpoint escape_all (allow_star : bool) (pattern : string) : string :=
  match pattern with
  | EmptyString => ""
  | String ch r => escape_char allow_star ch +:+ escape_all allow_star r
  end.

Definition _wildcard_to_regex_body (pattern : string) (allow_star partial : bool)
  : string :=
  let body := escape_all allow_star pattern in
  if partial then ".*" +:+ body +:+ ".*" else body.

(** [_compile_regex_body]. The [lru_cache] around it only saves work:
    the result is a function of the two arguments. *)
Definition _compile_regex_body (body : string) (anchored : bool)
  : option (list Re.item) :=
  let pat := if anchored then "^" +:+ body +:+ "$" else body in
  Re.compile pat.

(** ** [index.py]: [WordIndex] *)

(** [len_to_indices] is a [dict] that is walked with [items()], so its
    insertion order shows in the results: an association list, oldest
    key first. [pos_char_index] and the dictionaries and sets under it
    are only ever looked up. *)
Record WordIndex := mkWordIndex {
  words : list string;
  words_lower : list string;
  len_to_indices : list (nat * list nat);
  pos_char_index : gmap nat (list (gmap ascii (gset nat)))
}.

(** [d.get(k)] on the ordered dictionary. *)
Fixpoint dict_get {V} (d : list (nat * V)) (k : nat) : option V :=
  match d with
  | [] => None
  | (k', v) :: r => if (k' =? k)%nat then Some v else dict_get r k
  end.

(** [d.setdefault(L, []).append(i)]. *)
Fixpoint setdefault_append (d : list (nat * list nat)) (L i : nat)
  : list (nat * list nat) :=
  match d with
  | [] => [(L, [i])]
  | (k, v) :: r =>
      if (k =? L)%nat then (k, v ++ [i]) :: r
      else (k, v) :: setdefault_append r L i
  end.

(** First loop of [_build_indexes]: [for i, w in enumerate(words_lower)],
    [i] counting from the position reached. *)
Fixpoint build_buckets (ws : list string) (i : nat) (d : list (nat * list nat))
  : list (nat * list nat) :=
  match ws with
  | [] => d
  | w :: r => build_buckets r (S i) (setdefault_append d (len w) i)
  end.

(** [d = by_pos[p]; s = d.get(ch); ...; s.add(i)]. *)
Definition add_at (by_pos : list (gmap ascii (gset nat))) (p : nat) (ch : ascii)
    (i : nat) : list (gmap ascii (gset nat)) :=
  alter (fun d => <[ch := default ∅ (d !! ch) ∪ {[i]}]> d) p by_pos.

(** [for p, ch in enumerate(wl)]. *)
Fixpoint index_word (cs : list ascii) (p i : nat)
    (by_pos : list (gmap ascii (gset nat))) : list (gmap ascii (gset nat)) :=
  match cs with
  | [] => by_pos
  | ch :: r => index_word r (S p) i (add_at by_pos p ch i)
  end.

(** The body of the second loop, for one bucket. Its indices come from
    the first loop, so [words_lower[i]] is in range and has [L]
    characters. *)
Definition index_bucket (wsl : list string) (L : nat) (idxs : list nat)
  : list (gmap ascii (gset nat)) :=
  fold_left
    (fun by_pos i =>
       match wsl !! i with
       | Some wl => index_word (chars wl) 0 i by_pos
       | None => by_pos
       end)
    idxs (replicate L ∅).

Definition _build_indexes (wsl : list string)
  : list (nat * list nat) * gmap nat (list (gmap ascii (gset nat))) :=
  let lti := build_buckets wsl 0 [] in
  let pci :=
    fold_left (fun m '(L, idxs) => <[L := index_bucket wsl L idxs]> m) lti ∅ in
  (lti, pci).

Section Index.
Variable hash : string -> Z.

(** [WordIndex.__init__]: the new index, and the module-level filters
    as [_init_blooms] leaves them. *)
Definition WordIndex_init (g : Globals.t) (ws : list string)
  : WordIndex * Globals.t :=
  let wsl := map lower ws in
  let '(lti, pci) := _build_indexes wsl in
  ({| words := ws; words_lower := wsl;
      len_to_indices := lti; pos_char_index := pci |},
   Globals._init_blooms hash g wsl).

Variable g : Globals.t.
Variable self : WordIndex.

(** [(i, c) for i, c in enumerate(pat) if c != '?']. *)
Fixpoint fixed_positions_from (cs : list ascii) (i : nat) : list (nat * ascii) :=
  match cs with
  | [] => []
  | c :: r =>
      if Ascii.eqb c "?" then fixed_positions_from r (S i)
      else (i, c) :: fixed_positions_from r (S i)
  end.

(** The loop over [fixed_positions] and the final comprehension of
    [_exact_indices_via_pos_index]. *)
Fixpoint narrow (by_pos : list (gmap ascii (gset nat))) (idxs : list nat)
    (fixed : list (nat * ascii)) (candidate : option (gset nat))
  : option (list nat) :=
  match fixed with
  | [] =>
      cand ← candidate;
      Some (filter (fun i => i ∈ cand) idxs)
  | (pos, ch) :: r =>
      d ← by_pos !! pos;
      let s := default ∅ (d !! ch) in
      let candidate :=
        match candidate with
        | None => s
        | Some c => c ∩ s
        end in
      if decide (candidate = ∅) then Some []
      else narrow by_pos idxs r (Some candidate)
  end.

Definition _exact_indices_via_pos_index (pattern : string) : option (list nat) :=
  let L := len pattern in
  match dict_get (len_to_indices self) L with
  | None | Some [] => Some []
  | Some idxs =>
      let pat := lower pattern in
      let fixed_positions := fixed_positions_from (chars pat) 0 in
      match fixed_positions with
      | [] => Some idxs
      | _ =>
          by_pos ← pos_char_index self !! L;
          narrow by_pos idxs fixed_positions None
      end
  end.

(** [sum(1 for ch in pattern if ch != '*')]. *)
Definition min_len_of (pattern : string) : nat :=
  length (List.filter (fun ch => negb (Ascii.eqb ch "*")) (chars pattern)).

(** The scan shared by the regex branches, list-producing:
    [for i in idxs: if test(self.words[i]): result.append(self.words[i])]. *)
Fixpoint scan_bucket (test : string -> bool) (idxs : list nat)
    (result : list string) : option (list string) :=
  match idxs with
  | [] => Some result
  | i :: r =>
      w ← words self !! i;
      scan_bucket test r (if test w then result ++ [w] else result)
  end.

(** [for L, idxs in self.len_to_indices.items(): if L < min_len: continue; ...]. *)
Fixpoint scan_buckets (test : string -> bool) (min_len : nat)
    (items : list (nat * list nat)) (result : list string)
  : option (list string) :=
  match items with
  | [] => Some result
  | (L, idxs) :: r =>
      if (L <? min_len)%nat then scan_buckets test min_len r result
      else
        result' ← scan_bucket test idxs result;
        scan_buckets test min_len r result'
  end.

(** The same scan, counting: [cnt += 1]. *)
Fixpoint count_bucket (test : string -> bool) (idxs : list nat) (cnt : nat)
  : option nat :=
  match idxs with
  | [] => Some cnt
  | i :: r =>
      w ← words self !! i;
      count_bucket test r (if test w then S cnt else cnt)
  end.

Fixpoint count_buckets (test : string -> bool) (min_len : nat)
    (items : list (nat * list nat)) (cnt : nat) : option nat :=
  match items with
  | [] => Some cnt
  | (L, idxs) :: r =>
      if (L <? min_len)%nat then count_buckets test min_len r cnt
      else
        cnt' ← count_bucket test idxs cnt;
        count_buckets test min_len r cnt'
  end.

Definition find_exact (pattern : string) : option (list string) :=
  if should_skip_pattern hash g pattern then Some []
  else if negb (has_char "*" pattern) then
    idxs ← _exact_indices_via_pos_index pattern;
    mapM (fun i => words self !! i) idxs
  else
    let min_len := min_len_of pattern in
    let body := _wildcard_to_regex_body pattern true false in
    rx ← _compile_regex_body body true;
    scan_buckets (Re.fullmatch rx) min_len (len_to_indices self) [].

Definition count_exact (pattern : string) : option nat :=
  if should_skip_pattern hash g pattern then Some 0%nat
  else if negb (has_char "*" pattern) then
    idxs ← _exact_indices_via_pos_index pattern;
    Some (length idxs)
  else
    let min_len := min_len_of pattern in
    let body := _wildcard_to_regex_body pattern true false in
    rx ← _compile_regex_body body true;
    count_buckets (Re.fullmatch rx) min_len (len_to_indices self) 0%nat.

Definition all_questions (pattern : string) : bool :=
  forallb (fun ch => Ascii.eqb ch "?") (chars pattern).

Definition find_partial (pattern : string) : option (list string) :=
  if should_skip_pattern hash g pattern then Some []
  else if negb (has_char "*" pattern) then
    let L := len pattern in
    if all_questions pattern
    then Some (List.filter (fun w => (L <=? len w)%nat) (words self))
    else
      let body := _wildcard_to_regex_body pattern false true in
      rx ← _compile_regex_body body false;
      scan_buckets (Re.search rx) L (len_to_indices self) []
  else
    let min_len := min_len_of pattern in
    let body := _wildcard_to_regex_body pattern true true in
    rx ← _compile_regex_body body false;
    scan_buckets (Re.search rx) min_len (len_to_indices self) [].

Definition count_partial (pattern : string) : option nat :=
  if should_skip_pattern hash g pattern then Some 0%nat
  else if negb (has_char "*" pattern) then
    let L := len pattern in
    if all_questions pattern
    then Some (list_sum (map (fun '(LL, idxs) =>
                                if (L <=? LL)%nat then length idxs else 0%nat)
                             (len_to_indices self)))
    else
      let body := _wildcard_to_regex_body pattern false true in
      rx ← _compile_regex_body body false;
      count_buckets (Re.search rx) L (len_to_indices self) 0%nat
  else
    let min_len := min_len_of pattern in
    let body := _wildcard_to_regex_body pattern true true in
    rx ← _compile_regex_body body false;
    count_buckets (Re.search rx) min_len (len_to_indices self) 0%nat.

End Index.

(** ** Base64 and gzip, as the servers use them *)

Module Codec.

(** Python [bytes]. *)
Definition bytes := list ascii.

(** A group of six bits, lowest bit first, kept in a byte. *)
Definition sextet (b0 b1 b2 b3 b4 b5 : bool) : ascii :=
  Ascii b0 b1 b2 b3 b4 b5 false false.

(** The standard alphabet: [A-Z], [a-z], [0-9], [+], [/]. *)
Definition b64_char (s : ascii) : ascii :=
  let n := N_of_ascii s in
  if (n <? 26)%N then ascii_of_N (n + 65)
  else if (n <? 52)%N then ascii_of_N (n - 26 + 97)
  else if (n <? 62)%N then ascii_of_N (n - 52 + 48)
  else if (n =? 62)%N then "+"%char
  else "/"%char.

Definition b64_val (c : ascii) : option ascii :=
  let n := N_of_ascii c in
  if ((65 <=? n) && (n <=? 90))%N then Some (ascii_of_N (n - 65))
  else if ((97 <=? n) && (n <=? 122))%N then Some (ascii_of_N (n - 97 + 26))
  else if ((48 <=? n) && (n <=? 57))%N then Some (ascii_of_N (n - 48 + 52))
  else if Ascii.eqb c "+" then Some (ascii_of_N 62)
  else if Ascii.eqb c "/" then Some (ascii_of_N 63)
  else None.

Definition PAD : ascii := "="%char.

(** [base64.b64encode]: three bytes make four characters; one or two
    bytes left over are padded with [=]. *)
Fixpoint b64encode (data : bytes) : bytes :=
  match data with
  | [] => []
  | [Ascii a0 a1 a2 a3 a4 a5 a6 a7] =>
      [b64_char (sextet a2 a3 a4 a5 a6 a7);
       b64_char (sextet false false false false a0 a1); PAD; PAD]
  | [Ascii a0 a1 a2 a3 a4 a5 a6 a7; Ascii b0 b1 b2 b3 b4 b5 b6 b7] =>
      [b64_char (sextet a2 a3 a4 a5 a6 a7);
       b64_char (sextet b4 b5 b6 b7 a0 a1);
       b64_char (sextet false false b0 b1 b2 b3); PAD]
  | Ascii a0 a1 a2 a3 a4 a5 a6 a7 :: Ascii b0 b1 b2 b3 b4 b5 b6 b7
      :: Ascii c0 c1 c2 c3 c4 c5 c6 c7 :: r =>
      b64_char (sextet a2 a3 a4 a5 a6 a7)
      :: b64_char (sextet b4 b5 b6 b7 a0 a1)
      :: b64_char (sextet c6 c7 b0 b1 b2 b3)
      :: b64_char (sextet c0 c1 c2 c3 c4 c5)
      :: b64encode r
  end.

(** [base64.b64decode] on padded text of the standard alphabet;
    [None] for anything else. *)
Fixpoint b64decode (text : bytes) : option bytes :=
  match text with
  | [] => Some []
  | c1 :: c2 :: c3 :: c4 :: r =>
      match b64_val c1, b64_val c2 with
      | Some (Ascii p0 p1 p2 p3 p4 p5 _ _), Some (Ascii q0 q1 q2 q3 q4 q5 _ _) =>
          let first := Ascii q4 q5 p0 p1 p2 p3 p4 p5 in
          match b64_val c3, b64_val c4 with
          | Some (Ascii r0 r1 r2 r3 r4 r5 _ _), Some (Ascii s0 s1 s2 s3 s4 s5 _ _) =>
              cons first
                <$> (cons (Ascii r2 r3 r4 r5 q0 q1 q2 q3)
                       <$> (cons (Ascii s0 s1 s2 s3 s4 s5 r0 r1) <$> b64decode r))
          | Some (Ascii r0 r1 r2 r3 r4 r5 _ _), None =>
              if Ascii.eqb c4 PAD && bool_decide (r = [])
              then Some [first; Ascii r2 r3 r4 r5 q0 q1 q2 q3]
              else None
          | None, _ =>
              if Ascii.eqb c3 PAD && Ascii.eqb c4 PAD && bool_decide (r = [])
              then Some [first]
              else None
          end
      | _, _ => None
      end
  | _ => None
  end.

End Codec.

(** ** The request pipeline of [server_threaded.py] and [server_basic.py]

    One request is one decoded line, without its line end. The
    counters of [Stats], the latency clock and the log lines are
    written on the way and never read back by the code modelled here;
    they are left out. *)

Module Server.

(** What a server does with one line. *)
Inductive outcome :=
| Reply (text : string)   (* the text sent on the socket *)
| Silent                  (* nothing is sent, the next line is read *)
| Quit.                   (* the connection is left *)

(** The body of the request loop leaves early with a reply
    ([send ...; continue] or [return]) or with an exception. *)
Definition step (A : Type) : Type := option (outcome + A).

Definition ret {A} (a : A) : step A := Some (inr a).
Definition leave {A} (o : outcome) : step A := Some (inl o).
Definition raise {A} : step A := None.
Definition bind {A B} (m : step A) (k : A -> step B) : step B :=
  match m with
  | None => None
  | Some (inl o) => Some (inl o)
  | Some (inr a) => k a
  end.
(** A call into the index, which raises or returns. *)
Definition call {A} (r : option A) : step A :=
  match r with
  | None => None
  | Some a => Some (inr a)
  end.

(** The outcome of one turn of the loop, however it was left. *)
Definition settle (s : step outcome) : option outcome :=
  match s with
  | None => None
  | Some (inl o) => Some o
  | Some (inr o) => Some o
  end.

Notation "x <- m ;; k" := (bind m (fun x => k))
  (at level 100, m at next level, right associativity).


(** A status line followed by [END], each ended by a line feed. *)
Definition framed (status : string) : string :=
  status +:+ nl +:+ "END" +:+ nl.

Definition NOT_FOUND : string := framed "404 NOT-FOUND 0".
Definition BAD_SYNTAX : string :=
  framed "400 BAD-REQUEST expected 'FIND <pattern>' or 'COUNT <pattern>' or 'STATS'".
Definition BAD_ENCODING : string := framed "400 BAD-REQUEST invalid encoding".
Definition BAD_RANGE : string := framed "400 BAD-REQUEST invalid RANGE".
Definition BAD_MODE : string := framed "400 BAD-REQUEST invalid mode".
Definition MODE_NOT_SUPPORTED : string :=
  framed "400 BAD-REQUEST mode not supported".
Definition EXPECTED_FIND : string :=
  framed "400 BAD-REQUEST expected 'FIND <pattern>'".
Definition TOO_LONG : string := framed "400 BAD-REQUEST pattern too long".
Definition BAD_BATCH : string := framed "400 BAD-REQUEST invalid batch payload".
Definition TOO_COMPLEX : string := "400 BAD-REQUEST pattern too complex: ".

(** [CFG_COMPLEXITY]. The two entries can be reset from the
    configuration file and the environment, to any integer. *)
Record complexity := mkComplexity { max_questions : Z; max_stars : Z }.

Definition CFG_COMPLEXITY_default : complexity :=
  {| max_questions := 5000; max_stars := 50 |}.

(** What [_memory_pressure_handler] reads: the soft limit in MB and the
    resident size [psutil] reports, [None] when [psutil] is missing or
    raises. *)
Record memory := mkMemory { limit_mb : Z; rss : option Z }.

(** [_memory_pressure_handler]: the value it leaves in
    [UNDER_MEMORY_PRESSURE]. *)
Definition _memory_pressure_handler (m : memory) : bool :=
  match rss m with
  | None => false
  | Some r => if limit_mb m <=? 0 then false else limit_mb m * 1024 * 1024 <? r
  end.

(** [_effective_complexity_limits]; [//] is the floor division. *)
Definition _effective_complexity_limits (under_pressure : bool)
    (cfg : complexity) : complexity :=
  if under_pressure
  then {| max_questions := Z.max 1 (max_questions cfg / 2);
          max_stars := Z.max 1 (max_stars cfg / 2) |}
  else cfg.

(** [is_pattern_too_complex]. *)
Definition is_pattern_too_complex (pat : string) (max_q max_s : Z)
  : bool * string :=
  let q := Z.of_nat (count "?" pat) in
  let s := Z.of_nat (count "*" pat) in
  if max_q <? q
  then (true, "too many '?' wildcards (> " +:+ str_of_Z max_q +:+ ")")
  else if max_s <? s
  then (true, "too many '*' wildcards (> " +:+ str_of_Z max_s +:+ ")")
  else (false, "").

(** A request once its options are read. *)
Record request := mkRequest {
  cmd : string;
  pattern : string;
  req_mode : string;
  request_gzip : bool;
  offset : Z;
  limit : option Z
}.

Definition one_of (s : string) (l : list string) : bool :=
  existsb (String.eqb s) l.

(** [ if ' --accept-encoding ' in rest: ... ]. *)
Definition read_encoding (rest : string) : step (string * bool) :=
  if contains " --accept-encoding " rest then
    match rsplit1 " --accept-encoding " rest with
    | [rest'; enc_part] =>
        if negb (String.eqb (lower (strip enc_part)) "gzip")
        then leave (Reply BAD_ENCODING)
        else ret (rest', true)
    | _ => raise
    end
  else ret (rest, false).

(** [ if ' RANGE ' in rest: ... ]. *)
Definition read_range (rest : string) : step (string * Z * option Z) :=
  if contains " RANGE " rest then
    match rsplit1 " RANGE " rest with
    | [rest'; range_part] =>
        let rng_tokens := split (strip range_part) in
        if negb (length rng_tokens =? 2)%nat || negb (forallb isdigit rng_tokens)
        then leave (Reply BAD_RANGE)
        else
          match rng_tokens with
          | [t0; t1] => ret (rest', int_of_digits t0, Some (int_of_digits t1))
          | _ => raise
          end
    | _ => raise
    end
  else ret (rest, 0, None).

(** [matches[offset : offset + limit]] after the two clamps, when a
    RANGE was given. *)
Definition paginate (matches : list string) (offset : Z) (limit : option Z)
  : list string :=
  match limit with
  | None => matches
  | Some limit =>
      let offset := if offset <? 0 then 0 else offset in
      let limit := if limit <? 0 then 0 else limit in
      slice matches offset limit
  end.

(** [for w in ms: if w not in seen: seen.add(w); out.append(w)]. *)
Fixpoint merge_unseen (ms : list string) (seen : gset string)
    (out : list string) : gset string * list string :=
  match ms with
  | [] => (seen, out)
  | w :: r =>
      if decide (w ∈ seen) then merge_unseen r seen out
      else merge_unseen r ({[w]} ∪ seen) (out ++ [w])
  end.

(** The loop of FIND_MULTI over its patterns; [find] is the query of
    the mode in force. *)
Fixpoint find_multi (find : string -> option (list string))
    (tokens : list string) (seen : gset string) (out : list string)
  : option (list string) :=
  match tokens with
  | [] => Some out
  | pat :: r =>
      ms ← find pat;
      let '(seen, out) := merge_unseen ms seen out in
      find_multi find r seen out
  end.

Section Servers.
Variable hash : string -> Z.
(** The module-level filters of [index.py] while the server runs. *)
Variable g : Globals.t.
Variable index : WordIndex.

(** The text the STATS branch sends: counters, timings and process
    figures, none of which is modelled. *)
Variable stats_text : string.
(** [json.loads] followed by the check for a list of strings; [None]
    when either fails. *)
Variable json_string_list : string -> option (list string).
(** [str.encode('utf-8')] and [gzip.compress]. *)
Variable encode_utf8 : string -> Codec.bytes.
Variable gzip_compress : Codec.bytes -> Codec.bytes.

Variable CFG_COMPLEXITY : complexity.
Variable mem : memory.
Variable max_pattern_length : nat.

(** The start of both request loops: the command word, then the
    encoding and RANGE options. [commands] are the words served past
    QUIT and STATS. *)
Definition read_command (commands : list string) (line : string)
  : step (string * string * bool * Z * option Z) :=
  let parts := split1_blank line in
  let cmd := upper (default "" (parts !! 0%nat)) in
  if String.eqb cmd "QUIT" then leave Quit
  else if String.eqb cmd "STATS" then leave (Reply stats_text)
  else if negb (one_of cmd commands) || negb (length parts =? 2)%nat
          || String.eqb (default "" (parts !! 1%nat)) ""
  then leave (Reply BAD_SYNTAX)
  else
    let rest := default "" (parts !! 1%nat) in
    enc <- read_encoding rest ;;
    let '(rest, request_gzip) := enc in
    rng <- read_range rest ;;
    let '(rest, offset, limit) := rng in
    ret (cmd, rest, request_gzip, offset, limit).

(** The body the FIND branches share: paginate, then answer 404 for an
    empty page, the compressed line when gzip was asked for, the words
    otherwise. *)
Definition send_matches (matches : list string) (r : request) : outcome :=
  let matches := paginate matches (offset r) (limit r) in
  let count := length matches in
  if (count =? 0)%nat then Reply NOT_FOUND
  else if request_gzip r then
    let payload := encode_utf8 (join nl matches) in
    let gz := gzip_compress payload in
    let b64 := string_of_list_ascii (Codec.b64encode gz) in
    Reply ("200 OK 1" +:+ nl +:+ "GZIP " +:+ b64 +:+ nl +:+ "END" +:+ nl)
  else
    Reply ("200 OK " +:+ str_of_nat count +:+ nl
           +:+ String.concat "" (map (fun w => w +:+ nl) matches)
           +:+ "END" +:+ nl).

(** The complexity guard of both servers. *)
Definition complexity_guard (under_pressure : bool) (pat : string) : step unit :=
  let limits := _effective_complexity_limits under_pressure CFG_COMPLEXITY in
  let '(too_complex, reason) :=
    is_pattern_too_complex pat (max_questions limits) (max_stars limits) in
  if too_complex
  then leave (Reply (TOO_COMPLEX +:+ reason +:+ nl +:+ "END" +:+ nl))
  else ret tt.

(** *** [server_threaded.handle_connection], one turn of its loop *)

Section Threaded.
Variable default_mode : string.

Definition COMMANDS_THREADED : list string :=
  ["FIND"; "FIND_MULTI"; "COUNT"; "BATCH"].

(** [ if ' --mode ' in rest: ... ]. *)
Definition read_mode_threaded (rest : string) : step (string * string) :=
  if contains " --mode " rest then
    match rsplit1 " --mode " rest with
    | [pattern_part; mode_part] =>
        if String.eqb pattern_part "" then leave (Reply EXPECTED_FIND)
        else
          let mv := lower (strip mode_part) in
          if negb (one_of mv ["exact"; "partial"]) then leave (Reply BAD_MODE)
          else ret (pattern_part, mv)
    | _ => raise
    end
  else ret (rest, default_mode).

(** The line up to the request with all its options. *)
Definition parse_threaded (line : string) : step request :=
  if String.eqb line "" then leave Silent
  else
    head <- read_command COMMANDS_THREADED line ;;
    let '(cmd, rest, request_gzip, offset, limit) := head in
    pm <- read_mode_threaded rest ;;
    let '(pattern, req_mode) := pm in
    ret {| cmd := cmd; pattern := pattern; req_mode := req_mode;
           request_gzip := request_gzip; offset := offset; limit := limit |}.

(** The two guards before matching. *)
Definition guard_threaded (r : request) : step unit :=
  let under_pressure := _memory_pressure_handler mem in
  if (max_pattern_length <? len (pattern r))%nat then leave (Reply TOO_LONG)
  else complexity_guard under_pressure (pattern r).

Definition count_in_mode (mode pat : string) : option nat :=
  if String.eqb mode "exact" then count_exact hash g index pat
  else count_partial hash g index pat.

Definition find_in_mode (mode pat : string) : option (list string) :=
  if String.eqb mode "exact" then find_exact hash g index pat
  else find_partial hash g index pat.

(** The BATCH branch: one count per pattern, 0 for a pattern over the
    limits. *)
Definition batch_counts (under_pressure : bool) (mode : string)
    (pats : list string) : option (list nat) :=
  mapM (fun p =>
          let limits := _effective_complexity_limits under_pressure CFG_COMPLEXITY in
          if (is_pattern_too_complex p (max_questions limits) (max_stars limits)).1
          then Some 0%nat
          else count_in_mode mode p)
       pats.

Definition batch_text (counts : list nat) : string :=
  "200 OK " +:+ str_of_nat (length counts) +:+ nl
  +:+ String.concat ""
        (imap (fun i c => "COUNT " +:+ str_of_nat i +:+ " " +:+ str_of_nat c +:+ nl)
              counts)
  +:+ "END" +:+ nl.

(** The matches of a FIND or FIND_MULTI request, before pagination. *)
Definition matches_threaded (r : request) : step (list string) :=
  if String.eqb (cmd r) "FIND_MULTI" then
    let tokens := split (strip (pattern r)) in
    match tokens with
    | [] => leave (Reply (framed
              "400 BAD-REQUEST expected 'FIND_MULTI <pattern1> <pattern2> ...'"))
    | _ => call (find_multi (find_in_mode (req_mode r)) tokens ∅ [])
    end
  else call (find_in_mode (req_mode r) (pattern r)).

(** Dispatch on the command. *)
Definition execute_threaded (r : request) : step outcome :=
  if String.eqb (cmd r) "BATCH" then
    match json_string_list (pattern r) with
    | None => leave (Reply BAD_BATCH)
    | Some pats =>
        counts <- call (batch_counts (_memory_pressure_handler mem)
                                     (req_mode r) pats) ;;
        ret (Reply (batch_text counts))
    end
  else if String.eqb (cmd r) "COUNT" then
    count <- call (count_in_mode (req_mode r) (pattern r)) ;;
    if (count =? 0)%nat then ret (Reply NOT_FOUND)
    else ret (Reply (framed ("200 OK " +:+ str_of_nat count)))
  else
    matches <- matches_threaded r ;;
    ret (send_matches matches r).

(** What the server does with [line]; [None] is an exception that
    leaves the loop. *)
Definition handle_line (line : string) : option outcome :=
  settle (r <- parse_threaded line ;;
          _ <- guard_threaded r ;;
          execute_threaded r).

End Threaded.

(** *** [server_basic.serve_once], from the decoded line on *)

Definition COMMANDS_BASIC : list string := ["FIND"; "FIND_MULTI"; "COUNT"].

Definition read_mode_basic (rest : string) : step string :=
  if contains " --mode " rest then
    match rsplit1 " --mode " rest with
    | [pattern_part; mode_part] =>
        let mv := lower (strip mode_part) in
        if negb (String.eqb mv "exact") then leave (Reply MODE_NOT_SUPPORTED)
        else ret pattern_part
    | _ => raise
    end
  else ret rest.

Definition parse_basic (line : string) : step request :=
  head <- read_command COMMANDS_BASIC line ;;
  let '(cmd, rest, request_gzip, offset, limit) := head in
  pattern <- read_mode_basic rest ;;
  ret {| cmd := cmd; pattern := pattern; req_mode := "exact";
         request_gzip := request_gzip; offset := offset; limit := limit |}.

Definition guard_basic (r : request) : step unit :=
  if (max_pattern_length <? len (pattern r))%nat then leave (Reply TOO_LONG)
  else complexity_guard (_memory_pressure_handler mem) (pattern r).

(** [handle_find]; [serve_once] always passes the index. *)
Definition handle_find (pat : string) (idx : option WordIndex)
  : option (list string) :=
  match idx with
  | Some i => find_exact hash g i pat
  | None =>
      rx ← Re.compile ("^" +:+ escape_all false pat +:+ "$");
      Some (List.filter (Re.fullmatch rx) (words index))
  end.

Definition matches_basic (r : request) : step (list string) :=
  if String.eqb (cmd r) "FIND_MULTI" then
    let tokens := split (strip (pattern r)) in
    match tokens with
    | [] => leave (Reply (framed
              "400 BAD-REQUEST expected 'FIND_MULTI <p1> <p2> ...'"))
    | _ => call (find_multi (find_exact hash g index) tokens ∅ [])
    end
  else call (handle_find (pattern r) (Some index)).

Definition execute_basic (r : request) : step outcome :=
  if String.eqb (cmd r) "COUNT" then
    count <- call (count_exact hash g index (pattern r)) ;;
    if (count =? 0)%nat then ret (Reply NOT_FOUND)
    else ret (Reply (framed ("200 OK " +:+ str_of_nat count)))
  else
    matches <- matches_basic r ;;
    ret (send_matches matches r).

Definition serve_once (line : string) : option outcome :=
  settle (r <- parse_basic line ;;
          _ <- guard_basic r ;;
          execute_basic r).

End Servers.
End Server.

(** ** Notions used to state the properties *)

(** What [re.compile] makes of an escaped pattern, character by
    character. *)
Definition token (allow_star : bool) (ch : ascii) : Re.item :=
  if has_char ch ".^$+{}[]|()" || Ascii.eqb ch Re.BACKSLASH
  then Re.One (Re.Lit ch)
  else if Ascii.eqb ch "?" then Re.One Re.Any
  else if Ascii.eqb ch "*" && allow_star then Re.Star Re.Any
  else Re.One (Re.Lit ch).

Definition tokens (allow_star : bool) (pattern : string) : list Re.item :=
  map (token allow_star) (chars pattern).

Definition lower_atom (a : Re.atom) : Re.atom :=
  match a with
  | Re.Any => Re.Any
  | Re.Lit c => Re.Lit (lower_char c)
  end.

Definition lower_item (i : Re.item) : Re.item :=
  match i with
  | Re.One a => Re.One (lower_atom a)
  | Re.Star a => Re.Star (lower_atom a)
  | other => other
  end.

(** Whether a pattern text starts with the repetition sign. *)
Definition star_head (s : string) : bool :=
  match s with
  | String c _ => Ascii.eqb c "*"
  | EmptyString => false
  end.

(** Position of the first word with [L] characters, [length ws] when
    there is none. *)
Fixpoint first_of_len (ws : list string) (L : nat) : nat :=
  match ws with
  | [] => 0%nat
  | w :: r => if (len w =? L)%nat then 0%nat else S (first_of_len r L)
  end.

(** A bucket of [len_to_indices] over the word list [wsl]: not empty,
    ascending, and holding exactly the positions of the words with as
    many characters as its key. *)
Definition bucket_ok (wsl : list string) (b : nat * list nat) : Prop :=
  b.2 <> [] /\ StronglySorted lt b.2
  /\ forall j, j ∈ b.2 <-> exists w, wsl !! j = Some w /\ len w = b.1.

(** The state of [len_to_indices] once [wsl] has been walked: sound
    buckets, one for every length met, in the order the lengths were
    first met. *)
Record buckets_inv (wsl : list string) (d : list (nat * list nat)) : Prop := {
  inv_ok : Forall (bucket_ok wsl) d;
  inv_complete : forall j w, wsl !! j = Some w -> len w ∈ d.*1;
  inv_order :
    StronglySorted (fun k k' => (first_of_len wsl k < first_of_len wsl k')%nat)
                   (d.*1)
}.

(** The positions a scan keeps from a bucket, and the words at a list
    of positions. *)
Definition kept (ws : list string) (test : string -> bool) (idxs : list nat)
  : list nat :=
  List.filter (fun i => from_option test false (ws !! i)) idxs.

Definition words_at (ws : list string) (positions : list nat) : list string :=
  omap (fun i => ws !! i) positions.

(** The positions a scan over all buckets keeps, bucket after bucket. *)
Definition kept_all (ws : list string) (test : string -> bool) (min_len : nat)
    (items : list (nat * list nat)) : list nat :=
  concat (map (fun '(L, idxs) =>
                 if (L <? min_len)%nat then [] else kept ws test idxs) items).

(** Every position held in the buckets is a position of the word list. *)
Definition in_range (n : nat) (items : list (nat * list nat)) : Prop :=
  Forall (fun b => Forall (fun i => (i < n)%nat) b.2) items.

(** The corpus position of the first word that is as long as the word
    at position [i]: the rank of the length bucket of [i]. *)
Definition rank (ws : list string) (i : nat) : nat :=
  first_of_len ws (len (default "" (ws !! i))).

(** Bucket order: by bucket first, by corpus position inside a bucket. *)
Definition bucket_order (ws : list string) (i j : nat) : Prop :=
  (rank ws i < rank ws j)%nat \/ (rank ws i = rank ws j /\ (i < j)%nat).

(** [result] lists the words at the corpus positions [positions]. *)
Definition listed (ws : list string) (positions : list nat)
    (result : list string) : Prop :=
  Forall2 (fun i w => ws !! i = Some w) positions result.

(** The positions of the words of [ws] that pass [f], ascending. *)
Definition positions_where (f : string -> bool) (ws : list string) : list nat :=
  List.filter (fun i => from_option f false (ws !! i)) (seq 0 (length ws)).

(** The sum [count_partial] takes over the buckets. *)
Definition long_enough (L : nat) (d : list (nat * list nat)) : nat :=
  list_sum (map (fun '(LL, idxs) =>
                   if (L <=? LL)%nat then length idxs else 0%nat) d).

(** Every literal character of the pattern, and every pair of adjacent
    literal characters, occurs in some word of the lowered corpus
    [wsl]. *)
Definition covered (wsl : list string) (pattern : string) : bool :=
  let p := lower pattern in
  forallb (fun ch => is_wild ch || existsb (has_char ch) wsl) (chars p)
  && forallb
       (fun seg =>
          forallb (fun bg => existsb (fun wl => bool_decide (bg ∈ Globals.bigrams wl)) wsl)
                  (Globals.bigrams seg))
       (_letter_segments p).

(** The strings [_init_blooms] adds to the letter filter for one word. *)
Definition letters_of (wl : string) : list string :=
  map (fun c => String c "") (remove_dups (chars wl)).

(** ** A corpus and a hash to run the sources on

    The corpus is the one of the repository's tests. Python salts
    [hash] anew in every process; [sample_hash] stands for one such
    function wherever a result has to be computed. *)

Definition fixture : list string :=
  ["hello"; "hallo"; "hxllo"; "heLLo"; "world"; "hell"; "shell"].

Definition sample_hash (s : string) : Z :=
  fold_left (fun h c => (31 * h + Z.of_N (N_of_ascii c)) mod 2 ^ 61 - 7)
            (chars s) 0.

(** The index of [fixture] and the module-level filters after its
    construction in a fresh process. *)
Definition fixture_index : WordIndex :=
  (WordIndex_init sample_hash Globals.initial fixture).1.
Definition fixture_globals : Globals.t :=
  (WordIndex_init sample_hash Globals.initial fixture).2.

(** ** A deployment to run the servers on

    Stand-ins for what lies outside the sources: no [psutil], a JSON
    reader that knows no payload, the identity for UTF-8 (exact on
    ASCII text) and a gzip that stores its input behind the two magic
    bytes. *)

Definition sample_memory : Server.memory :=
  {| Server.limit_mb := 0; Server.rss := None |}.
Definition sample_json (payload : string) : option (list string) := None.
Definition sample_utf8 (s : string) : Codec.bytes := list_ascii_of_string s.
Definition sample_gzip (data : Codec.bytes) : Codec.bytes :=
  "031"%char :: "139"%char :: data.
Definition sample_gunzip (data : Codec.bytes) : option Codec.bytes :=
  match data with
  | "031"%char :: "139"%char :: r => Some r
  | _ => None
  end.

(** The threaded server over [fixture], started with [--mode]
    [default_mode]. *)
Definition sample_threaded (default_mode line : string) : option Server.outcome :=
  Server.handle_line sample_hash fixture_globals fixture_index "" sample_json
    sample_utf8 sample_gzip Server.CFG_COMPLEXITY_default sample_memory 1000
    default_mode line.

(** The basic server over [fixture]. *)
Definition sample_basic (line : string) : option Server.outcome :=
  Server.serve_once sample_hash fixture_globals fixture_index "" sample_utf8
    sample_gzip Server.CFG_COMPLEXITY_default sample_memory 1000 line.

(** ** ASCII text *)

(** [str.isascii]: every character is one of the code points 0..127.
    On such text [lower], [upper] and the comparison without case of
    [Re.atom_matches] are those of Python's [str] and of
    [re.IGNORECASE]; the properties that rest on them are stated for
    ASCII words and patterns. *)
Definition isascii (s : string) : bool :=
  forallb (fun c => (N_of_ascii c <? 128)%N) (chars s).

(** ** The matchers the servers keep beside the index *)

(** [server_threaded.compile_pattern]. Its loop over the pattern is the
    one of [_wildcard_to_regex_body] with [allow_star] set. *)
Definition compile_pattern (pattern mode : string) : option (list Re.item) :=
  let body := escape_all true pattern in
  if String.eqb mode "exact" then Re.compile ("^" +:+ body +:+ "$")
  else Re.compile (".*" +:+ body +:+ ".*").

(** [Worker.handle_find]: the scan of the whole word list. *)
Definition Worker_handle_find (words : list string) (pattern mode : string)
  : option (list string) :=
  rx ← compile_pattern pattern mode;
  if String.eqb mode "exact" then Some (List.filter (Re.fullmatch rx) words)
  else Some (List.filter (Re.search rx) words).

(** ** Notions used to state the properties of the index *)

(** A pattern without [*] against a word, position by position: as
    many characters, and every pattern character is [?] or the word's
    character, case apart. *)
Fixpoint glob_fixed (p w : list ascii) : bool :=
  match p, w with
  | [], [] => true
  | c :: p', d :: w' =>
      (Ascii.eqb c "?" || Ascii.eqb (lower_char c) (lower_char d))
      && glob_fixed p' w'
  | _, _ => false
  end.

(** The set [pos_char_index[L][p]] keeps for the character [ch], empty
    when there is none. *)
Definition stored (by_pos : list (gmap ascii (gset nat))) (p : nat) (ch : ascii)
  : gset nat :=
  from_option (fun d => default ∅ (d !! ch)) ∅ (by_pos !! p).

(** The number of characters a compiled pattern takes at least. *)
Definition consumes (i : Re.item) : nat :=
  match i with
  | Re.One _ => 1%nat
  | _ => 0%nat
  end.
Definition min_width (rx : list Re.item) : nat := list_sum (map consumes rx).

(** No line feed inside any word: what [load_wordlist] hands over. *)
Definition single_line (w : string) : bool := negb (has_char LF w).

(** ** The reply of STATS and the raw line, in both servers *)

(** The STATS branch: a status line with the number of lines, the
    lines, [END]. What the lines say (counters, timings, process
    figures) is left open. *)
Definition stats_reply (lines : list string) : string :=
  "200 OK " +:+ str_of_nat (length lines) +:+ nl
  +:+ String.concat "" (map (fun s => s +:+ nl) lines)
  +:+ "END" +:+ nl.

Definition CR : ascii := "013"%char.

(** [s.rstrip('\r\n')]. *)
Fixpoint rstrip_crlf (s : string) : string :=
  match s with
  | EmptyString => EmptyString
  | String c r =>
      let r' := rstrip_crlf r in
      if String.eqb r' "" && (Ascii.eqb c CR || Ascii.eqb c LF) then ""
      else String c r'
  end.

Module Wire.
Import Server.

Definition NON_UTF8 : string := framed "400 BAD-REQUEST non-utf8".

Section Raw.
Variable hash : string -> Z.
Variable g : Globals.t.
Variable index : WordIndex.
(** The lines the STATS branch would send. *)
Variable stats_lines : list string.
Variable json_string_list : string -> option (list string).
Variable encode_utf8 : string -> Codec.bytes.
Variable gzip_compress : Codec.bytes -> Codec.bytes.
(** [bytes.decode('utf-8')]; [None] is [UnicodeDecodeError]. *)
Variable decode_utf8 : Codec.bytes -> option string.
Variable CFG_COMPLEXITY : complexity.
Variable mem : memory.
Variable max_pattern_length : nat.
Variable default_mode : string.

(** One turn of the loop of [handle_connection], from the bytes
    [readline] returned: the end of the stream, the size guard, the
    decoding, then the request. A read that times out is not
    modelled. *)
Definition receive_threaded (raw : Codec.bytes) : option outcome :=
  match raw with
  | [] => Some Quit
  | _ =>
      if (max_pattern_length <? length raw)%nat then Some (Reply TOO_LONG)
      else
        match decode_utf8 raw with
        | None => Some (Reply NON_UTF8)
        | Some s =>
            handle_line hash g index (stats_reply stats_lines) json_string_list
              encode_utf8 gzip_compress CFG_COMPLEXITY mem max_pattern_length
              default_mode (rstrip_crlf s)
        end
  end.

(** [serve_once], from the bytes [readline] returned. *)
Definition receive_basic (raw : Codec.bytes) : option outcome :=
  match raw with
  | [] => Some Quit
  | _ =>
      if (max_pattern_length <? length raw)%nat then Some (Reply TOO_LONG)
      else
        match decode_utf8 raw with
        | None => Some (Reply NON_UTF8)
        | Some s =>
            serve_once hash g index (stats_reply stats_lines) encode_utf8
              gzip_compress CFG_COMPLEXITY mem max_pattern_length
              (rstrip_crlf s)
        end
  end.

End Raw.
End Wire.

(** ** Notions used to state the properties of the servers *)

(** A list without the later copies of its elements. *)
Fixpoint keep_first (l : list string) : list string :=
  match l with
  | [] => []
  | w :: r => w :: filter (fun x => x <> w) (keep_first r)
  end.

(** The replies that are one fixed text. *)
Definition fixed_replies : list string :=
  [Server.NOT_FOUND; Server.BAD_SYNTAX; Server.BAD_ENCODING; Server.BAD_RANGE;
   Server.BAD_MODE; Server.MODE_NOT_SUPPORTED; Server.EXPECTED_FIND;
   Server.TOO_LONG; Server.BAD_BATCH; Wire.NON_UTF8;
   Server.framed "400 BAD-REQUEST expected 'FIND_MULTI <pattern1> <pattern2> ...'";
   Server.framed "400 BAD-REQUEST expected 'FIND_MULTI <p1> <p2> ...'"].

(** A reply with status 200: the status line carries [n], the body is
    [lines], one per line, and [END] closes it. *)
Definition ok_reply (n : nat) (lines : list string) : string :=
  "200 OK " +:+ str_of_nat n +:+ nl
  +:+ String.concat "" (map (fun s => s +:+ nl) lines)
  +:+ "END" +:+ nl.

(** The replies by their frame alone, which is what tells the reply
    of the size guard from the others: a fixed text, the complexity
    error with its reason, or a 200 reply, with a body the status line
    counts or without one. [strict_shape] below says which command has
    which. *)
Definition reply_shape (text : string) : Prop :=
  text ∈ fixed_replies
  \/ (exists reason,
        text = Server.TOO_COMPLEX +:+ reason +:+ nl +:+ "END" +:+ nl)
  \/ (exists n lines,
        text = ok_reply n lines /\ (n = length lines \/ lines = [])).

(** A reply ends with the line [END], and starts with one of the
    status codes 200, 400 and 404. *)
Definition well_framed (text : string) : Prop :=
  exists head,
    text = head +:+ nl +:+ "END" +:+ nl
    /\ (String.prefix "200 OK " head || String.prefix "400 BAD-REQUEST " head
        || String.eqb head "404 NOT-FOUND 0") = true.

(** The command word a server reads from a line: what precedes the
    first blank, in upper case. For the bytes of a line it is read as
    the servers read it, after the decoding and without the line end;
    bytes that are no UTF-8 have none. *)
Definition command_of (line : string) : string :=
  upper (default "" (split1_blank line !! 0%nat)).

Definition command_read (decode_utf8 : Codec.bytes -> option string)
    (raw : Codec.bytes) : string :=
  match decode_utf8 raw with
  | Some s => command_of (rstrip_crlf s)
  | None => ""
  end.

(** A 200 reply with a body: the status line carries the number of the
    body lines, and no body line holds a line feed, so that the lines
    a reader finds between the status line and [END] are these. *)
Definition listing (text : string) : Prop :=
  exists lines,
    text = ok_reply (length lines) lines
    /\ forallb single_line lines = true.

(** The replies to a line whose command word is [command]: a fixed
    text, the complexity error with its reason, a listing for every
    command but COUNT, and for COUNT alone the status line with a
    count that is not zero, without a body. *)
Definition strict_shape (command text : string) : Prop :=
  text ∈ fixed_replies
  \/ (exists reason,
        text = Server.TOO_COMPLEX +:+ reason +:+ nl +:+ "END" +:+ nl)
  \/ (command <> "COUNT" /\ listing text)
  \/ (command = "COUNT"
      /\ exists n, n <> 0%nat
                   /\ text = Server.framed ("200 OK " +:+ str_of_nat n)).

Definition outcome_strict (command : string) (o : option Server.outcome)
  : Prop :=
  match o with
  | Some (Server.Reply text) => strict_shape command text /\ well_framed text
  | _ => True
  end.

(** What holds of the reply a stage of the request loop leaves with,
    when it leaves with one. *)
Definition step_holds {A} (P : string -> Prop) (s : Server.step A) : Prop :=
  match s with
  | Some (inl (Server.Reply text)) => P text
  | _ => True
  end.

(** A decoder for the sample deployment: exact on ASCII bytes. *)
Definition sample_decode (raw : Codec.bytes) : option string :=
  Some (string_of_list_ascii raw).

(** The replies of the stages before and after the guards: shaped, and
    never the reply of the size guard. *)
Definition plain (text : string) : Prop :=
  reply_shape text /\ text <> Server.TOO_LONG.

(** ** [Stats]: the counters and the latency histogram of both servers

    The two float fields, [total_request_time_ms] and
    [last_request_time_ms], are written and only read back for the
    STATS lines; they are left out. *)

Module Stats.

Definition LATENCY_BUCKETS_MS : list Z := [1; 5; 10; 50; 100; 500; 1000].

(** A latency in milliseconds: a finite float, that is the ratio
    [num / den] of two integers. *)
Record latency := mkLatency { num : Z; den : positive }.

(** [ms < b] for an integer [b]; Python compares a float and an
    integer exactly. *)
Definition below (ms : latency) (b : Z) : bool := num ms <? b * Z.pos (den ms).

(** The key [f"lt{b}"]. *)
Definition lt_key (b : Z) : string := "lt" +:+ str_of_Z b.

Record t := mk {
  connections : Z;
  active_connections : Z;
  requests : Z;
  find_requests : Z;
  count_requests : Z;
  stats_requests : Z;
  ok_responses : Z;
  not_found_responses : Z;
  bad_request_responses : Z;
  latency_hist : gmap string Z
}.

(** [__init__]. *)
Definition init : t :=
  {| connections := 0; active_connections := 0; requests := 0;
     find_requests := 0; count_requests := 0; stats_requests := 0;
     ok_responses := 0; not_found_responses := 0; bad_request_responses := 0;
     latency_hist :=
       <["ge1000" := 0]>
         (list_to_map (map (fun b => (lt_key b, 0)) LATENCY_BUCKETS_MS)) |}.

(** The attribute names the servers pass to [inc]. *)
Inductive counter :=
| Requests | Find_requests | Count_requests | Stats_requests
| Ok_responses | Not_found_responses | Bad_request_responses.

(** [inc]: [setattr(self, attr, getattr(self, attr) + delta)]. *)
Definition inc (s : t) (attr : counter) (delta : Z) : t :=
  {| connections := connections s;
     active_connections := active_connections s;
     requests := if attr is Requests then requests s + delta else requests s;
     find_requests :=
       if attr is Find_requests then find_requests s + delta
       else find_requests s;
     count_requests :=
       if attr is Count_requests then count_requests s + delta
       else count_requests s;
     stats_requests :=
       if attr is Stats_requests then stats_requests s + delta
       else stats_requests s;
     ok_responses :=
       if attr is Ok_responses then ok_responses s + delta else ok_responses s;
     not_found_responses :=
       if attr is Not_found_responses then not_found_responses s + delta
       else not_found_responses s;
     bad_request_responses :=
       if attr is Bad_request_responses then bad_request_responses s + delta
       else bad_request_responses s;
     latency_hist := latency_hist s |}.

Definition connection_opened (s : t) : t :=
  {| connections := connections s + 1;
     active_connections := active_connections s + 1;
     requests := requests s; find_requests := find_requests s;
     count_requests := count_requests s; stats_requests := stats_requests s;
     ok_responses := ok_responses s;
     not_found_responses := not_found_responses s;
     bad_request_responses := bad_request_responses s;
     latency_hist := latency_hist s |}.

Definition connection_closed (s : t) : t :=
  {| connections := connections s;
     active_connections :=
       if 0 <? active_connections s then active_connections s - 1
       else active_connections s;
     requests := requests s; find_requests := find_requests s;
     count_requests := count_requests s; stats_requests := stats_requests s;
     ok_responses := ok_responses s;
     not_found_responses := not_found_responses s;
     bad_request_responses := bad_request_responses s;
     latency_hist := latency_hist s |}.

(** The loop over the thresholds: the key of the first [b] with
    [ms < b], [ge1000] when the loop ends without one. *)
Fixpoint bucket_key (ms : latency) (buckets : list Z) : string :=
  match buckets with
  | [] => "ge1000"
  | b :: r =>
      if below ms b then lt_key b else bucket_key ms r
  end.

(** [record_request_time]; [self.latency_hist[key] += 1] raises
    [KeyError] for a key the dictionary does not hold. *)
Definition record_request_time (s : t) (ms : latency) : option t :=
  let key := bucket_key ms LATENCY_BUCKETS_MS in
  v ← latency_hist s !! key;
  Some {| connections := connections s;
          active_connections := active_connections s;
          requests := requests s; find_requests := find_requests s;
          count_requests := count_requests s;
          stats_requests := stats_requests s;
          ok_responses := ok_responses s;
          not_found_responses := not_found_responses s;
          bad_request_responses := bad_request_responses s;
          latency_hist := <[key := v + 1]> (latency_hist s) |}.

(** The calls the servers make on the one [Stats] object. Each holds
    the lock for its whole body, so what the threads of the threaded
    server do to the object is some sequence of these calls. *)
Inductive call :=
| Inc (attr : counter) (delta : Z)
| Connection_opened
| Connection_closed
| Record_request_time (ms : latency).

Definition step (s : t) (c : call) : option t :=
  match c with
  | Inc attr delta => Some (inc s attr delta)
  | Connection_opened => Some (connection_opened s)
  | Connection_closed => Some (connection_closed s)
  | Record_request_time ms => record_request_time s ms
  end.

Fixpoint run (calls : list call) (s : t) : option t :=
  match calls with
  | [] => Some s
  | c :: r => s' ← step s c; run r s'
  end.

(** How many calls of a run opened a connection, and how many
    recorded a latency that falls under [key]. *)
Definition opened (calls : list call) : nat :=
  length (List.filter (fun c => if c is Connection_opened then true else false)
                      calls).

Definition recorded (key : string) (calls : list call) : nat :=
  length (List.filter
            (fun c => if c is Record_request_time ms
                      then String.eqb (bucket_key ms LATENCY_BUCKETS_MS) key
                      else false)
            calls).

Definition keys : list string :=
  map lt_key LATENCY_BUCKETS_MS ++ ["ge1000"].

End Stats.

(** ** The accept loop of [server_basic.main] *)

Module BasicLoop.

Definition BUSY : string := Server.framed "503 BUSY 0".

(** What [serve_once] does to the [Stats] object: it counts and it
    records a latency, it opens and closes no connection. *)
Inductive served :=
| Counted (attr : Stats.counter)
| Timed (ms : Stats.latency).

Definition call_of (c : served) : Stats.call :=
  match c with
  | Counted attr => Stats.Inc attr 1
  | Timed ms => Stats.Record_request_time ms
  end.

(** One accepted connection: [cap] is
    [int(cfg['max_concurrent_connections'])] as the loop finds it,
    [calls] what [serve_once] does to the statistics before it returns
    or raises. The result says whether the connection was refused with
    [BUSY]. *)
Definition turn (s : Stats.t) (cap : Z) (calls : list served)
  : option (Stats.t * bool) :=
  if (0 <? cap) && (cap <=? Stats.active_connections s) then Some (s, true)
  else
    s' ← Stats.run (map call_of calls) (Stats.connection_opened s);
    Some (Stats.connection_closed s', false).

(** The loop, connection after connection; the answers are listed in
    order. *)
Fixpoint serve (turns : list (Z * list served)) (s : Stats.t)
  : option (Stats.t * list bool) :=
  match turns with
  | [] => Some (s, [])
  | (cap, calls) :: r =>
      '(s', refused) ← turn s cap calls;
      '(s'', rest) ← serve r s';
      Some (s'', refused :: rest)
  end.

End BasicLoop.

(** ** [_validate]: the configuration values of [main] *)

Module Config.

(** What [int(v)] makes of a configuration value: an integer,
    [TypeError] or [ValueError], or another exception ([OverflowError]
    for an infinite float). *)
Inductive int_result :=
| Int_value (z : Z)
| Int_rejected
| Int_failed.

(** A Python [float]: a finite one is the ratio [num / den] of two
    integers; the others are the two infinities and the not-a-number. *)
Inductive float_value :=
| Finite (num : Z) (den : positive)
| Infinite (negative : bool)
| NaN.

(** What [float(v)] makes of a configuration value: a float,
    [TypeError] or [ValueError], or another exception ([OverflowError]
    for an [int] too large for a float). *)
Inductive float_result :=
| Float_value (x : float_value)
| Float_rejected
| Float_failed.

(** A value found in the configuration, by what the two conversions
    make of it. *)
Record value := mkValue { as_int : int_result; as_float : float_result }.

(** [x < y] on numbers; it is false whenever one of them is the
    not-a-number. *)
Definition lt (x y : float_value) : bool :=
  match x, y with
  | Finite a b, Finite c d => a * Z.pos d <? c * Z.pos b
  | Finite _ _, Infinite negative => negb negative
  | Infinite negative, Finite _ _ => negative
  | Infinite n1, Infinite n2 => n1 && negb n2
  | NaN, _ => false
  | _, NaN => false
  end.

(** [min(a, b)] and [max(a, b)] of Python: the first argument, unless
    the second is smaller, respectively larger. *)
Definition min (a b : float_value) : float_value := if lt b a then b else a.
Definition max (a b : float_value) : float_value := if lt a b then b else a.

(** [_clampi] and [_clampf]; [None] is the exception they do not
    catch. *)
Definition _clampi (v : int_result) (lo hi : Z) : option Z :=
  match v with
  | Int_value z => Some (Z.max lo (Z.min hi z))
  | Int_rejected => Some lo
  | Int_failed => None
  end.

Definition _clampf (v : float_result) (lo hi : float_value)
  : option float_value :=
  match v with
  | Float_value x => Some (max lo (min hi x))
  | Float_rejected => Some lo
  | Float_failed => None
  end.

(** The literals of [_validate]: the defaults 30, 1000, 100 and 50 and
    the bound 3600 are small integers, which [float] converts without
    loss; [0.1] is the double nearest to one tenth. *)
Definition literal (z : Z) : value :=
  {| as_int := Int_value z; as_float := Float_value (Finite z 1) |}.

Definition TENTH : float_value :=
  Finite 3602879701896397 36028797018963968.
Definition HOUR : float_value := Finite 3600 1.

(** [_clampi(out.get(key, d), lo, hi)] and [_clampf(out.get(key, d), lo, hi)]. *)
Definition clamped_int (cfg_in : gmap string value) (key : string) (d lo hi : Z)
  : option Z :=
  _clampi (as_int (default (literal d) (cfg_in !! key))) lo hi.

Definition clamped_float (cfg_in : gmap string value) (key : string) (d : Z)
    (lo hi : float_value) : option float_value :=
  _clampf (as_float (default (literal d) (cfg_in !! key))) lo hi.

(** The entries [_validate] writes: four in [server_basic.py], and
    [max_workers] besides in [server_threaded.py]. The other entries
    of the dictionary are copied as they are and left out here. *)
Record limits := mkLimits {
  request_timeout : float_value;
  max_pattern_length : Z;
  cache_size : Z;
  max_concurrent_connections : Z
}.

(** [_validate] of [server_basic.main]. *)
Definition _validate_basic (cfg_in : gmap string value) : option limits :=
  rt ← clamped_float cfg_in "request_timeout" 30 TENTH HOUR;
  mpl ← clamped_int cfg_in "max_pattern_length" 1000 1 1000000;
  cs ← clamped_int cfg_in "cache_size" 100 0 1000000;
  mcc ← clamped_int cfg_in "max_concurrent_connections" 1000 1 1000000;
  Some {| request_timeout := rt; max_pattern_length := mpl; cache_size := cs;
          max_concurrent_connections := mcc |}.

(** [_validate] of [server_threaded.main]: the entries above and
    [max_workers]. *)
Definition _validate_threaded (cfg_in : gmap string value)
  : option (limits * Z) :=
  rt ← clamped_float cfg_in "request_timeout" 30 TENTH HOUR;
  mpl ← clamped_int cfg_in "max_pattern_length" 1000 1 1000000;
  cs ← clamped_int cfg_in "cache_size" 100 0 1000000;
  mw ← clamped_int cfg_in "max_workers" 50 1 10000;
  mcc ← clamped_int cfg_in "max_concurrent_connections" 1000 1 1000000;
  Some ({| request_timeout := rt; max_pattern_length := mpl; cache_size := cs;
           max_concurrent_connections := mcc |}, mw).

(** A conversion of the entry under [key] raises what [_validate] does
    not catch. *)
Definition int_fails (cfg_in : gmap string value) (key : string) : Prop :=
  exists v, cfg_in !! key = Some v /\ as_int v = Int_failed.

Definition float_fails (cfg_in : gmap string value) (key : string) : Prop :=
  exists v, cfg_in !! key = Some v /\ as_float v = Float_failed.

(** The validated entries are in their ranges, and each is what its
    clamp makes of it again. *)
Definition in_range (l : limits) : Prop :=
  (exists num den,
      request_timeout l = Finite num den
      /\ lt (Finite num den) TENTH = false /\ lt HOUR (Finite num den) = false)
  /\ _clampf (Float_value (request_timeout l)) TENTH HOUR
     = Some (request_timeout l)
  /\ (1 <= max_pattern_length l <= 1000000
      /\ _clampi (Int_value (max_pattern_length l)) 1 1000000
         = Some (max_pattern_length l))
  /\ (0 <= cache_size l <= 1000000
      /\ _clampi (Int_value (cache_size l)) 0 1000000 = Some (cache_size l))
  /\ (1 <= max_concurrent_connections l <= 1000000
      /\ _clampi (Int_value (max_concurrent_connections l)) 1 1000000
         = Some (max_concurrent_connections l)).

End Config.

(** ** [load_wordlist] *)

(** [load_wordlist], on the lines the iteration over the file gives. *)
Definition load_wordlist (lines : list string) : list string :=
  map strip (List.filter (fun line => negb (String.eqb (strip line) "")) lines).

(** A line as the iteration over a text file gives it: no line feed,
    except for one at its end. *)
Definition file_line (line : string) : Prop :=
  exists body, has_char LF body = false /\ (line = body \/ line = body +:+ nl).

(** ** The clients: [client_basic.py] and [client_multi.py] *)

From Stdlib Require DecimalPos.

Module Client.

(** The FIND line [main] of [client_multi.py] builds for the query
    [q], without its line feed: the options given on the command line
    follow the query, [--mode] first, then [RANGE], then the encoding.
    [client_basic.py] builds the same line and has no [--mode]. *)
Definition request_line (q : string) (mode : option string)
    (range : option (Z * Z)) (gzip : bool) : string :=
  let suffix := "" in
  let suffix :=
    match mode with
    | Some m => suffix +:+ " --mode " +:+ m
    | None => suffix
    end in
  let suffix :=
    match range with
    | Some (off, lim) =>
        suffix +:+ " RANGE " +:+ str_of_Z off +:+ " " +:+ str_of_Z lim
    | None => suffix
    end in
  let suffix := if gzip then suffix +:+ " --accept-encoding gzip" else suffix in
  "FIND " +:+ q +:+ suffix.

(** What the user typed at the prompt of [client_multi.py], stripped;
    [None] is the end of the input or an interrupt, which the client
    takes for [quit]. *)
Definition typed_query (typed : option string) : string :=
  match typed with
  | Some text => strip text
  | None => "quit"
  end.

(** One turn of the loop of [client_multi.main], up to what it sends:
    nothing for an empty query ([None], the loop goes on), [QUIT] for
    the word [quit] in any case, the request line otherwise. *)
Definition multi_sends (typed : option string) (mode : option string)
    (range : option (Z * Z)) (gzip : bool) : option string :=
  let q := typed_query typed in
  if String.eqb q "" then None
  else if String.eqb (lower q) "quit" then Some ("QUIT" +:+ nl)
  else Some (request_line q mode range gzip +:+ nl).

(** What [client_basic.main] sends for [--query], which it neither
    strips nor reads for [quit]; it has no [--mode]. *)
Definition basic_sends (query : string) (range : option (Z * Z)) (gzip : bool)
  : string :=
  request_line query None range gzip +:+ nl.

(** The lines of a stream, as successive calls of [readline] give
    them until it returns nothing: each ends with its line feed,
    except a last one the stream does not end. *)
Fixpoint lines_of_go (s cur : string) : list string :=
  match s with
  | EmptyString => if String.eqb cur "" then [] else [cur]
  | String c r =>
      if Ascii.eqb c LF then (cur +:+ String c "") :: lines_of_go r ""
      else lines_of_go r (cur +:+ String c "")
  end.
Definition lines_of (s : string) : list string := lines_of_go s "".

(** [s.split('\n')]. *)
Fixpoint split_lf_go (s cur : string) : list string :=
  match s with
  | EmptyString => [cur]
  | String c r =>
      if Ascii.eqb c LF then cur :: split_lf_go r ""
      else split_lf_go r (cur +:+ String c "")
  end.
Definition split_lf (s : string) : list string := split_lf_go s "".

(** The loop of [recv_until_end] over the lines still to come: it
    stops at the end of the stream and at the first line that is [END]
    once stripped. *)
Fixpoint body_lines (stream : list string) : list string :=
  match stream with
  | [] => []
  | sline :: r =>
      if String.eqb (strip sline) "END" then []
      else rstrip_crlf sline :: body_lines r
  end.

(** What [gzip.decompress] makes of its input: the data, the
    [OSError] of a text that is no gzip stream, or one of the errors
    the clients do not catch ([EOFError], [zlib.error]). *)
Inductive inflated :=
| Inflated (data : Codec.bytes)
| Bad_gzip
| Broken.

Section Decode.
Variable gzip_decompress : Codec.bytes -> inflated.
(** [bytes.decode('utf-8')]; [None] is [UnicodeDecodeError], a
    [ValueError]. *)
Variable decode_utf8 : Codec.bytes -> option string.

(** [recv_until_end], on the lines that follow the status line. [None]
    stands for an exception the function does not catch, and for a
    [GZIP] line that is not padded base64, which is not modelled. *)
Definition recv_until_end (stream : list string) : option (list string) :=
  let lines := body_lines stream in
  match lines with
  | [l] =>
      if String.prefix "GZIP " l then
        match Codec.b64decode (chars (sdrop 5 l)) with
        | Some raw =>
            match gzip_decompress raw with
            | Inflated bytes =>
                match decode_utf8 bytes with
                | Some data =>
                    Some (if String.eqb data "" then [] else split_lf data)
                | None => Some lines
                end
            | Bad_gzip => Some lines
            | Broken => None
            end
        | None => None
        end
      else Some lines
  | _ => Some lines
  end.

(** What a client makes of a reply: the status line, read first and
    stripped of its line end, and the body. *)
Definition read_reply (text : string) : string * option (list string) :=
  match lines_of text with
  | [] => ("", recv_until_end [])
  | status :: stream => (rstrip_crlf status, recv_until_end stream)
  end.

(** [lines[:count]]; a negative [count] is counted from the end. *)
Definition upto (lines : list string) (count : Z) : list string :=
  if 0 <=? count then take (Z.to_nat count) lines
  else take (length lines - Z.to_nat (- count)) lines.

(** [int(s)]; [None] is [ValueError]. *)
Variable int_of : string -> option Z.

(** What [main] prints for a reply, line by line: the status line,
    then, when it has three words or more, starts with a number and
    ends with one, as many body lines as that last number says,
    [END] and the total. *)
Definition report (status : string) (lines : list string) : list string :=
  let toks := split status in
  status ::
  (if (3 <=? length toks)%nat && isdigit (default "" (toks !! 0%nat)) then
     match int_of (List.last toks "") with
     | Some count =>
         upto lines count
         ++ ["END"; "(client) total words: " +:+ str_of_Z count]
     | None => []
     end
   else []).

(** One request of a client, from the reply on; [None] when
    [recv_until_end] leaves with an exception. *)
Definition main_prints (text : string) : option (list string) :=
  let '(status, body) := read_reply text in
  match body with
  | Some lines => Some (report status lines)
  | None => None
  end.

End Decode.
End Client.

(** A text made of decimal digits, and a text without white space, as
    a word typed on a command line is. *)
Definition digits (s : string) : Prop :=
  Forall (fun c => isdigit_char c = true) (chars s).

Definition no_space (s : string) : bool :=
  forallb (fun c => negb (isspace c)) (chars s).

(** The options of a request line, as they follow the query, and the
    request a server is to make of the line. *)
Definition mode_option (mode : option string) : string :=
  match mode with
  | Some m => " --mode " +:+ m
  | None => ""
  end.

Definition range_option (range : option (Z * Z)) : string :=
  match range with
  | Some (off, lim) => " RANGE " +:+ str_of_Z off +:+ " " +:+ str_of_Z lim
  | None => ""
  end.

Definition gzip_option (gzip : bool) : string :=
  if gzip then " --accept-encoding gzip" else "".

Definition asked (q mode : string) (range : option (Z * Z)) (gzip : bool)
  : Server.request :=
  {| Server.cmd := "FIND"; Server.pattern := q; Server.req_mode := mode;
     Server.request_gzip := gzip;
     Server.offset := match range with Some (off, _) => off | None => 0 end;
     Server.limit := match range with Some (_, lim) => Some lim | None => None end |}.

(** The numbers [argparse] hands over for [--range], when the user
    gave none below zero. *)
Definition natural_range (range : option (Z * Z)) : Prop :=
  match range with
  | Some (off, lim) => 0 <= off /\ 0 <= lim
  | None => True
  end.

(** The words a client can tell from the frame of a reply: not empty,
    without white space, and not the line that ends a reply. *)
Definition plain_word (w : string) : Prop :=
  w <> "" /\ no_space w = true /\ w <> "END".

(** The status line of the reply to a FIND request with the page
    [page]. *)
Definition find_status (page : list string) (gzip : bool) : string :=
  match page with
  | [] => "404 NOT-FOUND 0"
  | _ => if gzip then "200 OK 1" else "200 OK " +:+ str_of_nat (length page)
  end.

(** The decoders of the sample deployment, on the client's side. *)
Definition sample_inflate (data : Codec.bytes) : Client.inflated :=
  match sample_gunzip data with
  | Some d => Client.Inflated d
  | None => Client.Bad_gzip
  end.

Definition sample_decode_text (data : Codec.bytes) : option string :=
  Some (string_of_list_ascii data).

Definition sample_int (s : string) : option Z :=
  if isdigit s then Some (int_of_digits s) else None.

(** What a client shows of a page: all of it, the first word alone
    when the reply was compressed. *)
Definition shown (page : list string) (gzip : bool) : list string :=
  if gzip then take 1 page else page.

(** ** The accept loop and the worker pool of [server_threaded.main] *)

Module Pool.

(** The statistics object, and the connections the loop has handed
    to the executor: those waiting for a worker, those a worker has
    started on ([handle_connection] before [connection_opened]) and
    those it has opened; [refused] counts the answers [503 BUSY]. *)
Record state := mk {
  stats : Stats.t;
  queued : nat;
  started : nat;
  opened : nat;
  refused : nat
}.

Definition init : state :=
  {| stats := Stats.init; queued := 0; started := 0; opened := 0; refused := 0 |}.

(** What the threads do to that state, one atomic step each: the main
    thread accepts a connection, with [cap] the value of
    [int(cfg['max_concurrent_connections'])] at that time; a worker of
    the pool takes a waiting connection; a worker reaches
    [connection_opened]; a worker leaves for [finally] before that
    call, or after it. The other calls on the statistics leave the
    two connection counters alone. *)
Inductive event :=
| Accept (cap : Z)
| Begin
| Open
| Fail
| Leave.

Section Executor.
(** [ThreadPoolExecutor(max_workers=...)]: no more than that many
    submitted calls run at a time. *)
Variable max_workers : nat.

(** [None]: the step cannot be taken in that state. *)
Definition step (s : state) (e : event) : option state :=
  match e with
  | Accept cap =>
      if (0 <? cap) && (cap <=? Stats.active_connections (stats s))
      then Some {| stats := stats s; queued := queued s; started := started s;
                   opened := opened s; refused := S (refused s) |}
      else Some {| stats := stats s; queued := S (queued s);
                   started := started s; opened := opened s;
                   refused := refused s |}
  | Begin =>
      match queued s with
      | S q =>
          if (started s + opened s <? max_workers)%nat
          then Some {| stats := stats s; queued := q; started := S (started s);
                       opened := opened s; refused := refused s |}
          else None
      | O => None
      end
  | Open =>
      match started s with
      | S n =>
          Some {| stats := Stats.connection_opened (stats s); queued := queued s;
                  started := n; opened := S (opened s); refused := refused s |}
      | O => None
      end
  | Fail =>
      match started s with
      | S n =>
          Some {| stats := Stats.connection_closed (stats s); queued := queued s;
                  started := n; opened := opened s; refused := refused s |}
      | O => None
      end
  | Leave =>
      match opened s with
      | S n =>
          Some {| stats := Stats.connection_closed (stats s); queued := queued s;
                  started := started s; opened := n; refused := refused s |}
      | O => None
      end
  end.

Fixpoint run (events : list event) (s : state) : option state :=
  match events with
  | [] => Some s
  | e :: r => s' ← step s e; run r s'
  end.

End Executor.

(** What every step keeps: the counter is not negative and not above
    the connections held open, and the running calls are no more
    than the workers. *)
Definition bounded (max_workers : nat) (s : state) : Prop :=
  0 <= Stats.active_connections (stats s) <= Z.of_nat (opened s)
  /\ (started s + opened s <= max_workers)%nat.

(** [n] connections accepted in a row, then taken by the workers, then
    opened. *)
Definition burst (cap : Z) (n : nat) : list event :=
  replicate n (Accept cap) ++ replicate n Begin ++ replicate n Open.

End Pool.

(** * Properties *)

(** ** Checks of the built-ins against Python *)

Example lower_mixed : lower "heLLo*?" = "hello*?".
Proof. reflexivity. Qed.
Example split_runs : split "  h?llo   world " = ["h?llo"; "world"].
Proof. reflexivity. Qed.
Example split1_two : split1_blank "a b  c" = ["a"; "b  c"].
Proof. reflexivity. Qed.
Example rsplit1_last :
  rsplit1 " --mode " "a --mode b --mode c" = ["a --mode b"; "c"].
Proof. reflexivity. Qed.
Example rsplit1_overlap :
  rsplit1 " --mode " "x  --mode --mode  y" = ["x  --mode"; " y"].
Proof. reflexivity. Qed.
Example rsplit1_empty_head : rsplit1 " --mode " " --mode x" = [""; "x"].
Proof. reflexivity. Qed.
Example str_of_nat_0 : str_of_nat 0 = "0" /\ str_of_Z (-25) = "-25".
Proof. split; reflexivity. Qed.
Example int_leading_zeros : int_of_digits "0012" = 12.
Proof. reflexivity. Qed.
Example bloom_init_negative : Bloom.init (-1) = None.
Proof. reflexivity. Qed.
Example bloom_init_16 :
  Bloom.init 16 = Some (Globals.bloom_of 16)
  /\ Bloom._mask (Globals.bloom_of 16) = 65535.
Proof. split; reflexivity. Qed.
Example bigrams_hell : Globals.bigrams "hell" = ["he"; "el"; "ll"].
Proof. reflexivity. Qed.

(** ** The Bloom-like filter *)

Module BloomFacts.
Import Bloom.

Lemma bit_set_testbit bits h : bit_set bits h = Z.testbit bits h.
Proof.
  unfold bit_set. rewrite Z.testbit_odd.
  change 1 with (Z.ones 1). rewrite Z.land_ones by lia.
  change (2 ^ 1) with 2. rewrite Zmod_odd.
  by destruct (Z.odd (Z.shiftr bits h)).
Qed.

Lemma _h1_nonneg x : 0 <= _h1 x.
Proof. unfold _h1. apply Z.land_nonneg. right. by vm_compute. Qed.

Lemma _h2_nonneg x : 0 <= _h2 x.
Proof. unfold _h2. apply Z.land_nonneg. right. by vm_compute. Qed.

(** Every position [_hashes] returns is a valid bit number, whatever
    the mask. *)
Lemma _hashes_nonneg hash b s : Forall (fun h => 0 <= h) (_hashes hash b s).
Proof.
  unfold _hashes.
  set (h := if hash s <? 0 then _ else _).
  assert (0 <= Z.land (_h1 h) (_mask b)) as H1
    by (apply Z.land_nonneg; left; apply _h1_nonneg).
  assert (0 <= Z.land (_h2 h) (_mask b)) as H2
    by (apply Z.land_nonneg; left; apply _h2_nonneg).
  repeat constructor; try done.
  apply Z.land_nonneg. left. lia.
Qed.

Lemma set_bits_keeps hs bits h :
  Z.testbit bits h = true ->
  Z.testbit (fold_left (fun a k => Z.lor a (Z.shiftl 1 k)) hs bits) h = true.
Proof.
  revert bits. induction hs as [|k hs IH]; intros bits Hb; [done|].
  cbn [fold_left]. apply IH. rewrite Z.lor_spec, Hb. done.
Qed.

Lemma set_bits_sets hs bits h :
  0 <= h -> In h hs ->
  Z.testbit (fold_left (fun a k => Z.lor a (Z.shiftl 1 k)) hs bits) h = true.
Proof.
  intros Hh. revert bits. induction hs as [|k hs IH]; intros bits Hin; [done|].
  cbn [fold_left]. destruct Hin as [->|Hin]; [|by apply IH].
  apply set_bits_keeps.
  rewrite Z.lor_spec, Z.shiftl_spec, Z.sub_diag by lia.
  by rewrite orb_true_r.
Qed.

Lemma add_mask hash b s : _mask (add hash b s) = _mask b.
Proof. done. Qed.

Lemma add_bits hash b s :
  _bits (add hash b s)
  = fold_left (fun a k => Z.lor a (Z.shiftl 1 k)) (_hashes hash b s) (_bits b).
Proof. done. Qed.

Lemma add_all_mask hash b l : _mask (add_all hash b l) = _mask b.
Proof.
  revert b. induction l as [|x l IH]; intros b; [done|].
  cbn. unfold add_all in IH. by rewrite IH.
Qed.

Lemma _hashes_mask hash b b' s :
  _mask b = _mask b' -> _hashes hash b s = _hashes hash b' s.
Proof. unfold _hashes. by intros ->. Qed.

(** Bits are only ever set: a later [add] keeps every bit. *)
Lemma add_keeps hash b s h :
  Z.testbit (_bits b) h = true -> Z.testbit (_bits (add hash b s)) h = true.
Proof. intros H. rewrite add_bits. by apply set_bits_keeps. Qed.

Lemma add_all_keeps hash b l h :
  Z.testbit (_bits b) h = true ->
  Z.testbit (_bits (add_all hash b l)) h = true.
Proof.
  revert b. induction l as [|x l IH]; intros b H; [done|].
  apply IH. by apply add_keeps.
Qed.

Lemma added_is_found hash b s later :
  maybe_contains hash (add_all hash (add hash b s) later) s = true.
Proof.
  unfold maybe_contains.
  apply forallb_forall. intros h Hin.
  rewrite (_hashes_mask hash _ b) in Hin by (by rewrite add_all_mask).
  assert (0 <= h) as Hh.
  { pose proof (_hashes_nonneg hash b s) as HF.
    rewrite Forall_forall in HF. apply HF. by apply list_elem_of_In. }
  rewrite bit_set_testbit.
  apply add_all_keeps. rewrite add_bits.
  by apply set_bits_sets.
Qed.

End BloomFacts.

(** C7. The filter has no false negatives: once [s] was added, every
    later [maybe_contains s] on the same filter answers true, whatever
    else was added in between; so a false answer means that [s] is not
    among the strings added so far. *)
Theorem bloom_no_false_negative (hash : string -> Z) (b : Bloom.t) :
  (forall s later,
      Bloom.maybe_contains hash
        (Bloom.add_all hash (Bloom.add hash b s) later) s = true)
  /\ (forall added s,
      Bloom.maybe_contains hash (Bloom.add_all hash b added) s = false ->
      ~ In s added).
Proof.
  split.
  - intros s later. apply BloomFacts.added_is_found.
  - intros added s Hf Hin. apply in_split in Hin as (l1 & l2 & ->).
    unfold Bloom.add_all in Hf. rewrite fold_left_app in Hf. cbn [fold_left] in Hf.
    pose proof (BloomFacts.added_is_found hash
                  (fold_left (Bloom.add hash) l1 b) s l2) as Ht.
    unfold Bloom.add_all in Ht. congruence.
Qed.

(** ** Facts about the built-ins *)

Module PyFacts.

Lemma lower_len s : len (lower s) = len s.
Proof. induction s as [|c s IH]; [done|]. cbn. by f_equal. Qed.

Lemma chars_length s : length (chars s) = len s.
Proof. induction s as [|c s IH]; [done|]. cbn. by f_equal. Qed.

Lemma lower_char_idem c : lower_char (lower_char c) = lower_char c.
Proof. by destruct c as [[] [] [] [] [] [] [] []]. Qed.

(** The characters the sources test for are not letters: [lower]
    neither makes nor unmakes them. *)
Lemma lower_char_is c d :
  is_upper_char d = false -> is_lower_char d = false ->
  Ascii.eqb (lower_char c) d = Ascii.eqb c d.
Proof.
  intros Hu Hl.
  destruct (Ascii.eqb_spec c d) as [->|Hne].
  - unfold lower_char. rewrite Hu. apply Ascii.eqb_refl.
  - apply Ascii.eqb_neq. intros <-.
    unfold lower_char in *. destruct (is_upper_char c) eqn:Hc; [|done].
    revert Hc Hl Hne. by destruct c as [[] [] [] [] [] [] [] []].
Qed.

Lemma lower_char_star c : Ascii.eqb (lower_char c) "*" = Ascii.eqb c "*".
Proof. by apply lower_char_is. Qed.

Lemma lower_char_question c : Ascii.eqb (lower_char c) "?" = Ascii.eqb c "?".
Proof. by apply lower_char_is. Qed.

Lemma chars_lower s : chars (lower s) = map lower_char (chars s).
Proof. induction s as [|c s IH]; [done|]. cbn. by f_equal. Qed.

Lemma lower_eq_empty s : lower s = "" <-> s = "".
Proof. by destruct s. Qed.

End PyFacts.

(** ** The regular expressions the index compiles *)

Module ReFacts.
Import Re.

Lemma sapp_cons c s t : String c s +:+ t = String c (s +:+ t).
Proof. done. Qed.

Lemma sapp_nil_l t : "" +:+ t = t.
Proof. done. Qed.

Lemma sapp_assoc s t u : (s +:+ t) +:+ u = s +:+ (t +:+ u).
Proof. induction s as [|c s IH]; [done|]. rewrite !sapp_cons. by f_equal. Qed.

(** The characters [compile] singles out are all [special]. *)
Lemma special_false c :
  special c = false ->
  Ascii.eqb c "^" = false /\ Ascii.eqb c "$" = false
  /\ Ascii.eqb c BACKSLASH = false /\ Ascii.eqb c "." = false.
Proof. destruct c as [[] [] [] [] [] [] [] []]; vm_compute; by intros. Qed.

Lemma compile_one_lit c s :
  special c = false -> star_head s = false ->
  compile (String c s) = cons (One (Lit c)) <$> compile s.
Proof.
  intros Hc Hs. cbn [compile].
  destruct (special_false c Hc) as (-> & -> & -> & ->). rewrite Hc.
  destruct s as [|d s]; [done|]. cbn [star_head] in Hs. by rewrite Hs.
Qed.

Lemma compile_escaped c s :
  special c = true -> star_head s = false ->
  compile (String BACKSLASH (String c s)) = cons (One (Lit c)) <$> compile s.
Proof.
  intros Hc Hs. cbn [compile]. change (Ascii.eqb BACKSLASH "^") with false.
  change (Ascii.eqb BACKSLASH "$") with false.
  change (Ascii.eqb BACKSLASH BACKSLASH) with true. cbv iota. rewrite Hc.
  destruct s as [|d s]; [done|]. cbn [star_head] in Hs. by rewrite Hs.
Qed.

Lemma compile_dot s :
  star_head s = false ->
  compile (String "." s) = cons (One Any) <$> compile s.
Proof.
  intros Hs. cbn [compile]. change (Ascii.eqb "." "^") with false.
  change (Ascii.eqb "." "$") with false.
  change (Ascii.eqb "." BACKSLASH) with false.
  change (Ascii.eqb "." ".") with true. cbv iota.
  destruct s as [|d s]; [done|]. cbn [star_head] in Hs. by rewrite Hs.
Qed.

Lemma compile_dot_star s :
  compile (String "." (String "*" s)) = cons (Star Any) <$> compile s.
Proof. done. Qed.

Lemma special_meta c :
  has_char c ".^$+{}[]|()" || Ascii.eqb c BACKSLASH = true -> special c = true.
Proof. destruct c as [[] [] [] [] [] [] [] []]; vm_compute; by intros. Qed.

Lemma special_plain c :
  has_char c ".^$+{}[]|()" || Ascii.eqb c BACKSLASH = false ->
  Ascii.eqb c "?" = false -> Ascii.eqb c "*" = false -> special c = false.
Proof. destruct c as [[] [] [] [] [] [] [] []]; vm_compute; by intros. Qed.

(** No escaped character starts with the repetition sign, as long as a
    star is either translated or absent. *)
Lemma star_head_escape_char allow c t :
  allow = true \/ Ascii.eqb c "*" = false ->
  star_head (escape_char allow c +:+ t) = false.
Proof.
  intros H. unfold escape_char.
  destruct (has_char c ".^$+{}[]|()" || Ascii.eqb c BACKSLASH); [done|].
  destruct (Ascii.eqb c "?"); [done|].
  destruct (Ascii.eqb c "*") eqn:Hs; destruct allow; cbn; try done.
  by destruct H.
Qed.

Lemma has_char_cons c d s :
  has_char c (String d s) = Ascii.eqb d c || has_char c s.
Proof. done. Qed.

Lemma star_head_escape_all allow p rest :
  allow = true \/ has_char "*" p = false ->
  star_head rest = false ->
  star_head (escape_all allow p +:+ rest) = false.
Proof.
  intros H Hr. destruct p as [|c p]; [done|].
  cbn [escape_all]. rewrite sapp_assoc. apply star_head_escape_char.
  destruct H as [H|H]; [by left|right].
  rewrite has_char_cons in H. by apply orb_false_elim in H as [? _].
Qed.

Lemma compile_escape_all allow p rest :
  allow = true \/ has_char "*" p = false ->
  star_head rest = false ->
  compile (escape_all allow p +:+ rest)
  = (fun r => tokens allow p ++ r) <$> compile rest.
Proof.
  intros H Hr. induction p as [|c p IH].
  - rewrite sapp_nil_l. by destruct (compile rest).
  - assert (allow = true \/ has_char "*" p = false) as Hp.
    { destruct H as [H|H]; [by left|right].
      rewrite has_char_cons in H. by apply orb_false_elim in H as [_ ?]. }
    assert (allow = true \/ Ascii.eqb c "*" = false) as Hc.
    { destruct H as [H|H]; [by left|right].
      rewrite has_char_cons in H. by apply orb_false_elim in H as [? _]. }
    specialize (IH Hp).
    pose proof (star_head_escape_all allow p rest Hp Hr) as Hh.
    cbn [escape_all]. rewrite sapp_assoc.
    unfold tokens. cbn [chars list_ascii_of_string map].
    fold (chars p). fold (tokens allow p).
    unfold escape_char, token.
    destruct (has_char c ".^$+{}[]|()" || Ascii.eqb c BACKSLASH) eqn:Hm.
    { rewrite !sapp_cons, sapp_nil_l.
      rewrite compile_escaped by (done || by apply special_meta).
      rewrite IH. by destruct (compile rest). }
    destruct (Ascii.eqb c "?") eqn:Hq.
    { rewrite !sapp_cons, sapp_nil_l. rewrite compile_dot by done.
      rewrite IH. by destruct (compile rest). }
    destruct (Ascii.eqb c "*" && allow) eqn:Hs.
    { rewrite !sapp_cons, sapp_nil_l. rewrite compile_dot_star.
      rewrite IH. by destruct (compile rest). }
    rewrite !sapp_cons, sapp_nil_l.
    rewrite compile_one_lit; [rewrite IH; by destruct (compile rest)| |done].
    apply special_plain; [done..|].
    destruct Hc as [->|Hc]; [|done]. by rewrite andb_true_r in Hs.
Qed.

(** The anchored expression of the exact mode. *)
Lemma compile_anchored p :
  _compile_regex_body (_wildcard_to_regex_body p true false) true
  = Some (Bol :: tokens true p ++ [Eol]).
Proof.
  unfold _compile_regex_body, _wildcard_to_regex_body.
  rewrite sapp_cons, sapp_nil_l.
  change (compile (String "^" ?s)) with (cons Bol <$> compile s).
  rewrite compile_escape_all by (done || by left). done.
Qed.

(** The wrapped expression of the partial mode. *)
Lemma compile_wrapped allow p :
  allow = true \/ has_char "*" p = false ->
  _compile_regex_body (_wildcard_to_regex_body p allow true) false
  = Some (Star Any :: tokens allow p ++ [Star Any]).
Proof.
  intros H. unfold _compile_regex_body, _wildcard_to_regex_body.
  rewrite !sapp_cons, sapp_nil_l. rewrite compile_dot_star.
  rewrite compile_escape_all by done. done.
Qed.

End ReFacts.

(** ** Case of the pattern *)

Module CaseFacts.
Import Re PyFacts.

Lemma atom_matches_lower a c : atom_matches (lower_atom a) c = atom_matches a c.
Proof. destruct a as [|l]; [done|]. cbn. by rewrite lower_char_idem. Qed.

(** One unfolding of the loop behind a starred atom. *)
Lemma match_here_star full a r at_start s :
  match_here full (Star a :: r) at_start s
  = match_here full r at_start s
    || match s with
       | String c s' => atom_matches a c && match_here full (Star a :: r) false s'
       | EmptyString => false
       end.
Proof. by destruct s. Qed.

Lemma match_here_lower full items :
  forall at_start s,
    match_here full (map lower_item items) at_start s
    = match_here full items at_start s.
Proof.
  induction items as [|i items IH]; [done|].
  destruct i as [| |a|a]; intros at_start s.
  - cbn. by rewrite IH.
  - cbn. by rewrite IH.
  - cbn. destruct s as [|c s]; [done|]. by rewrite atom_matches_lower, IH.
  - change (map lower_item (Star a :: items))
      with (Star (lower_atom a) :: map lower_item items).
    revert at_start. induction s as [|c s IHs]; intros at_start.
    + by rewrite !match_here_star, IH.
    + rewrite (match_here_star _ (lower_atom a)), (match_here_star _ a).
      by rewrite IH, atom_matches_lower, IHs.
Qed.

Lemma search_from_lower items :
  forall at_start s,
    search_from (map lower_item items) at_start s = search_from items at_start s.
Proof.
  intros at_start s. revert at_start.
  induction s as [|c s IHs]; intros at_start; cbn; rewrite match_here_lower;
    [done|by rewrite IHs].
Qed.

Lemma token_lower allow c : token allow (lower_char c) = lower_item (token allow c).
Proof. by destruct allow, c as [[] [] [] [] [] [] [] []]. Qed.

Lemma tokens_lower allow p : tokens allow (lower p) = map lower_item (tokens allow p).
Proof.
  unfold tokens. rewrite chars_lower, !map_map.
  apply map_ext. intros c. apply token_lower.
Qed.

Lemma lower_idem p : lower (lower p) = lower p.
Proof. induction p as [|c p IH]; [done|]. cbn. by rewrite lower_char_idem, IH. Qed.

Lemma has_star_lower p : has_char "*" (lower p) = has_char "*" p.
Proof.
  induction p as [|c p IH]; [done|].
  cbn [lower]. rewrite !ReFacts.has_char_cons, IH. by rewrite lower_char_star.
Qed.

Lemma min_len_of_lower p : min_len_of (lower p) = min_len_of p.
Proof.
  unfold min_len_of. rewrite chars_lower.
  induction (chars p) as [|c l IH]; [done|].
  cbn [map List.filter]. rewrite lower_char_star.
  destruct (negb (Ascii.eqb c "*")); cbn [length]; by rewrite IH.
Qed.

Lemma all_questions_lower p : all_questions (lower p) = all_questions p.
Proof.
  unfold all_questions. rewrite chars_lower.
  induction (chars p) as [|c l IH]; [done|].
  cbn [map forallb]. by rewrite lower_char_question, IH.
Qed.

Lemma should_skip_lower hash g p :
  should_skip_pattern hash g (lower p) = should_skip_pattern hash g p.
Proof.
  unfold should_skip_pattern. rewrite lower_idem. by destruct p.
Qed.

End CaseFacts.

Module IndexCase.
Import Re PyFacts CaseFacts.

Section Ext.
Variable self : WordIndex.
Variables test test' : string -> bool.
Hypothesis Htest : forall w, test w = test' w.

Lemma scan_bucket_ext idxs result :
  scan_bucket self test idxs result = scan_bucket self test' idxs result.
Proof.
  revert result. induction idxs as [|i idxs IH]; intros result; [done|].
  simpl. destruct (words self !! i) as [w|]; [|done]. simpl. by rewrite Htest, IH.
Qed.

Lemma scan_buckets_ext min_len items result :
  scan_buckets self test min_len items result
  = scan_buckets self test' min_len items result.
Proof.
  revert result. induction items as [|[L idxs] items IH]; intros result; [done|].
  simpl. destruct (L <? min_len)%nat; [apply IH|].
  rewrite scan_bucket_ext.
  destruct (scan_bucket self test' idxs result); simpl; [apply IH|done].
Qed.

Lemma count_bucket_ext idxs cnt :
  count_bucket self test idxs cnt = count_bucket self test' idxs cnt.
Proof.
  revert cnt. induction idxs as [|i idxs IH]; intros cnt; [done|].
  simpl. destruct (words self !! i) as [w|]; [|done]. simpl. by rewrite Htest, IH.
Qed.

Lemma count_buckets_ext min_len items cnt :
  count_buckets self test min_len items cnt
  = count_buckets self test' min_len items cnt.
Proof.
  revert cnt. induction items as [|[L idxs] items IH]; intros cnt; [done|].
  simpl. destruct (L <? min_len)%nat; [apply IH|].
  rewrite count_bucket_ext.
  destruct (count_bucket self test' idxs cnt); simpl; [apply IH|done].
Qed.
End Ext.

Lemma fullmatch_lower p w :
  fullmatch (Bol :: tokens true (lower p) ++ [Eol]) w
  = fullmatch (Bol :: tokens true p ++ [Eol]) w.
Proof.
  unfold fullmatch. rewrite tokens_lower.
  change (Bol :: map lower_item (tokens true p) ++ [Eol])
    with (map lower_item [Bol] ++ map lower_item (tokens true p)
            ++ map lower_item [Eol]).
  rewrite <- !map_app. apply match_here_lower.
Qed.

Lemma search_lower allow p w :
  search (Star Any :: tokens allow (lower p) ++ [Star Any]) w
  = search (Star Any :: tokens allow p ++ [Star Any]) w.
Proof.
  unfold search. rewrite tokens_lower.
  change (Star Any :: map lower_item (tokens allow p) ++ [Star Any])
    with (map lower_item [Star Any] ++ map lower_item (tokens allow p)
            ++ map lower_item [Star Any]).
  rewrite <- !map_app. apply search_from_lower.
Qed.

Section Normal.
Variable hash : string -> Z.
Variable g : Globals.t.
Variable self : WordIndex.

Lemma exact_indices_lower p :
  _exact_indices_via_pos_index self (lower p) = _exact_indices_via_pos_index self p.
Proof. unfold _exact_indices_via_pos_index. by rewrite lower_len, lower_idem. Qed.

(** Each of the four queries sees its pattern through [lower] only. *)
Lemma find_exact_lower p :
  find_exact hash g self (lower p) = find_exact hash g self p.
Proof.
  unfold find_exact.
  rewrite should_skip_lower, has_star_lower, exact_indices_lower, min_len_of_lower.
  rewrite !ReFacts.compile_anchored. simpl.
  destruct (should_skip_pattern hash g p); [done|].
  destruct (negb (has_char "*" p)); [done|].
  apply scan_buckets_ext, fullmatch_lower.
Qed.

Lemma count_exact_lower p :
  count_exact hash g self (lower p) = count_exact hash g self p.
Proof.
  unfold count_exact.
  rewrite should_skip_lower, has_star_lower, exact_indices_lower, min_len_of_lower.
  rewrite !ReFacts.compile_anchored. simpl.
  destruct (should_skip_pattern hash g p); [done|].
  destruct (negb (has_char "*" p)); [done|].
  apply count_buckets_ext, fullmatch_lower.
Qed.

Lemma find_partial_lower p :
  find_partial hash g self (lower p) = find_partial hash g self p.
Proof.
  unfold find_partial.
  rewrite should_skip_lower, has_star_lower, all_questions_lower,
    min_len_of_lower, lower_len.
  destruct (should_skip_pattern hash g p); [done|].
  destruct (has_char "*" p) eqn:Hs; cbn [negb].
  - rewrite !ReFacts.compile_wrapped by (by left). simpl.
    apply scan_buckets_ext, search_lower.
  - destruct (all_questions p); [done|].
    rewrite !ReFacts.compile_wrapped
      by (right; by rewrite ?has_star_lower).
    simpl. apply scan_buckets_ext, search_lower.
Qed.

Lemma count_partial_lower p :
  count_partial hash g self (lower p) = count_partial hash g self p.
Proof.
  unfold count_partial.
  rewrite should_skip_lower, has_star_lower, all_questions_lower,
    min_len_of_lower, lower_len.
  destruct (should_skip_pattern hash g p); [done|].
  destruct (has_char "*" p) eqn:Hs; cbn [negb].
  - rewrite !ReFacts.compile_wrapped by (by left). simpl.
    apply count_buckets_ext, search_lower.
  - destruct (all_questions p); [done|].
    rewrite !ReFacts.compile_wrapped
      by (right; by rewrite ?has_star_lower).
    simpl. apply count_buckets_ext, search_lower.
Qed.

End Normal.
End IndexCase.

(** ** The length buckets [_build_indexes] makes *)

Module BuildFacts.
Import PyFacts.

Lemma build_buckets_snoc ws w i d :
  build_buckets (ws ++ [w]) i d
  = setdefault_append (build_buckets ws i d) (len w) (i + length ws)%nat.
Proof.
  revert i d. induction ws as [|x ws IH]; intros i d; cbn.
  - by rewrite Nat.add_0_r.
  - rewrite IH. f_equal. lia.
Qed.

Lemma sa_fresh d L i :
  L ∉ (d.*1) -> setdefault_append d L i = d ++ [(L, [i])].
Proof.
  induction d as [|[k v] d IH]; intros Hn; [done|].
  cbn in *. apply not_elem_of_cons in Hn as [Hne Hn].
  destruct (Nat.eqb_spec k L) as [->|_]; [done|]. by rewrite IH.
Qed.

Lemma sa_found d L i :
  L ∈ (d.*1) ->
  exists d1 v d2,
    d = d1 ++ (L, v) :: d2 /\ (L ∉ d1.*1)
    /\ setdefault_append d L i = d1 ++ (L, v ++ [i]) :: d2.
Proof.
  induction d as [|[k v] d IH]; intros Hin; [by apply elem_of_nil in Hin|].
  cbn in *. destruct (Nat.eqb_spec k L) as [->|Hne].
  - exists [], v, d. split_and!; [done| |done]. apply not_elem_of_nil.
  - apply elem_of_cons in Hin as [->|Hin]; [done|].
    destruct (IH Hin) as (d1 & v' & d2 & -> & Hn & ->).
    exists ((k, v) :: d1), v', d2. split_and!; [done| |done].
    cbn. apply not_elem_of_cons. split; [congruence|done].
Qed.

Lemma first_of_len_le ws j w L :
  ws !! j = Some w -> len w = L -> (first_of_len ws L <= j)%nat.
Proof.
  revert j. induction ws as [|x ws IH]; intros j Hj HL; [done|].
  cbn. destruct (Nat.eqb_spec (len x) L) as [_|Hne]; [lia|].
  destruct j as [|j]; cbn in Hj.
  - congruence.
  - specialize (IH j Hj HL). lia.
Qed.

Lemma first_of_len_app ws r L j w :
  ws !! j = Some w -> len w = L -> first_of_len (ws ++ r) L = first_of_len ws L.
Proof.
  revert j. induction ws as [|x ws IH]; intros j Hj HL; [done|].
  cbn. destruct (Nat.eqb_spec (len x) L) as [_|Hne]; [done|].
  destruct j as [|j]; cbn in Hj; [congruence|]. f_equal. by eapply IH.
Qed.

Lemma first_of_len_fresh ws w :
  (forall j w0, ws !! j = Some w0 -> len w0 <> len w) ->
  first_of_len (ws ++ [w]) (len w) = length ws.
Proof.
  induction ws as [|x ws IH]; intros H; cbn.
  - by rewrite Nat.eqb_refl.
  - destruct (Nat.eqb_spec (len x) (len w)) as [He|_].
    + by destruct (H O x).
    + f_equal. apply IH. intros j w0 Hj. by apply (H (S j)).
Qed.

Lemma sorted_snoc (v : list nat) n :
  StronglySorted lt v -> Forall (fun j => (j < n)%nat) v ->
  StronglySorted lt (v ++ [n]).
Proof.
  intros Hs Hf. apply StronglySorted_app. split_and!.
  - intros x y Hx Hy. apply list_elem_of_singleton in Hy as ->.
    rewrite Forall_forall in Hf. by apply Hf.
  - done.
  - repeat constructor.
Qed.

Lemma sorted_change {A} (R R' : A -> A -> Prop) l :
  StronglySorted R l ->
  (forall x y, x ∈ l -> y ∈ l -> R x y -> R' x y) ->
  StronglySorted R' l.
Proof.
  induction 1 as [|x l Hs IH Hf]; intros HR; [constructor|].
  constructor.
  - apply IH. intros a b Ha Hb. apply HR; by right.
  - rewrite Forall_forall in *. intros y Hy.
    apply HR; [by left|by right|by apply Hf].
Qed.

End BuildFacts.

Module BuildInv.
Import PyFacts BuildFacts.

Lemma bucket_lt wsl b j : bucket_ok wsl b -> j ∈ b.2 -> (j < length wsl)%nat.
Proof.
  intros (_ & _ & Hm) Hj. apply Hm in Hj as (w & Hw & _).
  by eapply lookup_lt_Some.
Qed.

Lemma bucket_has_word wsl b :
  bucket_ok wsl b -> exists j w, wsl !! j = Some w /\ len w = b.1.
Proof.
  intros (Hne & _ & Hm). destruct b as [k [|j v]]; [done|].
  exists j. apply Hm. by left.
Qed.

Lemma key_has_word wsl d k :
  Forall (bucket_ok wsl) d -> k ∈ d.*1 ->
  exists j w, wsl !! j = Some w /\ len w = k.
Proof.
  intros Hok Hk. apply list_elem_of_fmap in Hk as ([k' v] & -> & Hb).
  rewrite Forall_forall in Hok. by apply (bucket_has_word wsl (k', v)), Hok.
Qed.

(** A bucket whose key is not the length of the new word is still sound. *)
Lemma bucket_ok_other wsl w b :
  bucket_ok wsl b -> b.1 <> len w -> bucket_ok (wsl ++ [w]) b.
Proof.
  intros (Hne & Hs & Hm) Hk. split_and!; [done..|].
  intros j. rewrite Hm. split; intros (w0 & Hw & Hl); exists w0; split; try done.
  - by apply lookup_app_l_Some.
  - apply lookup_app_Some in Hw as [Hw|[_ Hw]]; [done|].
    apply list_lookup_singleton_Some in Hw as [_ <-]. done.
Qed.

(** The bucket of the new word's length takes its position. *)
Lemma bucket_ok_grow wsl w v :
  bucket_ok wsl (len w, v) ->
  bucket_ok (wsl ++ [w]) (len w, v ++ [length wsl]).
Proof.
  intros Hb. pose proof Hb as (Hne & Hs & Hm). cbn in *. split_and!; cbn.
  - by destruct v.
  - apply sorted_snoc; [done|]. apply Forall_forall. intros j Hj.
    by apply (bucket_lt wsl (len w, v)).
  - intros j. rewrite elem_of_app, list_elem_of_singleton, Hm.
    split.
    + intros [(w0 & Hw & Hl)| ->].
      * exists w0. split; [by apply lookup_app_l_Some|done].
      * exists w. split; [|done]. by rewrite lookup_app_r, Nat.sub_diag.
    + intros (w0 & Hw & Hl).
      apply lookup_app_Some in Hw as [Hw|[Hge Hw]]; [left; by exists w0|right].
      apply list_lookup_singleton_Some in Hw as [Hz _]. lia.
Qed.

Lemma ok_others wsl w d :
  Forall (bucket_ok wsl) d -> len w ∉ (d.*1) ->
  Forall (bucket_ok (wsl ++ [w])) d.
Proof.
  rewrite !Forall_forall. intros Hok Hn b Hb.
  apply bucket_ok_other; [by apply Hok|].
  intros He. apply Hn. rewrite <- He. apply list_elem_of_fmap. by exists b.
Qed.

Lemma inv_step wsl d w :
  buckets_inv wsl d ->
  buckets_inv (wsl ++ [w]) (setdefault_append d (len w) (length wsl)).
Proof.
  intros [Hok Hcomp Hord].
  assert (forall k, k ∈ (d.*1) ->
            first_of_len (wsl ++ [w]) k = first_of_len wsl k) as Hrank.
  { intros k Hk. destruct (key_has_word _ _ _ Hok Hk) as (j & w0 & Hj & Hl).
    by eapply first_of_len_app. }
  destruct (decide (len w ∈ (d.*1))) as [Hin|Hnin].
  - destruct (sa_found d (len w) (length wsl) Hin)
      as (d1 & v & d2 & Hd & Hn1 & ->).
    assert ((d1 ++ (len w, v ++ [length wsl]) :: d2).*1 = d.*1) as Hkeys
      by (by rewrite Hd, !fmap_app).
    split.
    + rewrite Hd in Hok, Hord.
      rewrite fmap_app in Hord. cbn in Hord.
      assert (len w ∉ (d2.*1)) as Hn2.
      { intros H2. apply StronglySorted_app in Hord as (_ & _ & Hord).
        apply StronglySorted_cons in Hord as [Hall _].
        rewrite Forall_forall in Hall. specialize (Hall _ H2). cbn in Hall. lia. }
      apply Forall_app in Hok as [Hok1 Hok2].
      apply Forall_cons in Hok2 as [Hokv Hok2].
      apply Forall_app. split; [by apply ok_others|].
      apply Forall_cons. split; [by apply bucket_ok_grow|by apply ok_others].
    + intros j w0 Hj. rewrite Hkeys.
      apply lookup_app_Some in Hj as [Hj|[_ Hj]]; [by eapply Hcomp|].
      by apply list_lookup_singleton_Some in Hj as [_ <-].
    + rewrite Hkeys. eapply sorted_change; [exact Hord|].
      intros x y Hx Hy. by rewrite !Hrank.
  - rewrite sa_fresh by done.
    assert (forall j w0, wsl !! j = Some w0 -> len w0 <> len w) as Hnew.
    { intros j w0 Hj He. apply Hnin. rewrite <- He. by eapply Hcomp. }
    split.
    + apply Forall_app. split; [by apply ok_others|].
      apply Forall_singleton. split_and!; cbn; [done|repeat constructor|].
      intros j. rewrite list_elem_of_singleton. split.
      * intros ->. exists w. split; [|done]. by rewrite lookup_app_r, Nat.sub_diag.
      * intros (w0 & Hw & Hl).
        apply lookup_app_Some in Hw as [Hw|[Hge Hw]]; [by destruct (Hnew j w0)|].
        apply list_lookup_singleton_Some in Hw as [Hz _]. lia.
    + intros j w0 Hj. rewrite fmap_app. cbn. apply elem_of_app.
      apply lookup_app_Some in Hj as [Hj|[_ Hj]]; [left; by eapply Hcomp|right].
      apply list_lookup_singleton_Some in Hj as [_ <-]. by left.
    + rewrite fmap_app. cbn. apply StronglySorted_app. split_and!.
      * intros k k' Hk Hk'. apply list_elem_of_singleton in Hk' as ->.
        rewrite (Hrank k Hk), first_of_len_fresh by done.
        destruct (key_has_word _ _ _ Hok Hk) as (j & w0 & Hj & Hl).
        pose proof (first_of_len_le _ _ _ _ Hj Hl).
        apply lookup_lt_Some in Hj. lia.
      * eapply sorted_change; [exact Hord|].
        intros x y Hx Hy. by rewrite !Hrank.
      * repeat constructor.
Qed.

(** The buckets [_build_indexes] leaves satisfy the invariant. *)
Lemma build_buckets_inv wsl : buckets_inv wsl (build_buckets wsl 0 []).
Proof.
  induction wsl as [|w wsl IH] using rev_ind.
  - split; cbn; [constructor| |constructor].
    intros j w Hj. by rewrite lookup_nil in Hj.
  - rewrite build_buckets_snoc. cbn. by apply inv_step.
Qed.

End BuildInv.

(** ** The scans, in terms of the positions they keep *)

Module ScanFacts.

Lemma words_at_app ws l1 l2 : words_at ws (l1 ++ l2) = words_at ws l1 ++ words_at ws l2.
Proof. unfold words_at. apply omap_app. Qed.

Lemma words_at_cons ws i w l :
  ws !! i = Some w -> words_at ws (i :: l) = w :: words_at ws l.
Proof. intros H. unfold words_at. simpl. by rewrite H. Qed.

Lemma words_at_Forall2 ws positions :
  Forall (fun i => (i < length ws)%nat) positions ->
  Forall2 (fun i w => ws !! i = Some w) positions (words_at ws positions).
Proof.
  induction 1 as [|i l Hi Hl IH]; [constructor|].
  destruct (lookup_lt_is_Some_2 ws i Hi) as [w Hw].
  rewrite (words_at_cons _ _ _ _ Hw). by constructor.
Qed.

Lemma words_at_length ws positions :
  Forall (fun i => (i < length ws)%nat) positions ->
  length (words_at ws positions) = length positions.
Proof. intros H. symmetry. by eapply Forall2_length, words_at_Forall2. Qed.

Lemma filter_sublist {A} (f : A -> bool) l : List.filter f l `sublist_of` l.
Proof.
  induction l as [|x l IH]; [constructor|].
  cbn. destruct (f x); by constructor.
Qed.

Lemma kept_sublist ws test idxs : kept ws test idxs `sublist_of` idxs.
Proof. apply filter_sublist. Qed.

Lemma sublist_Forall {A} (P : A -> Prop) l1 l2 :
  l1 `sublist_of` l2 -> Forall P l2 -> Forall P l1.
Proof.
  intros Hs Hf. apply Forall_forall. intros x Hx.
  rewrite Forall_forall in Hf. apply Hf. by eapply elem_of_sublist.
Qed.

Lemma sublist_sorted {A} (R : A -> A -> Prop) l1 l2 :
  l1 `sublist_of` l2 -> StronglySorted R l2 -> StronglySorted R l1.
Proof.
  induction 1 as [|x l1 l2 Hs IH|x l1 l2 Hs IH]; intros Hsort; [done|..].
  - apply StronglySorted_cons in Hsort as [Hall Hsort].
    apply StronglySorted_cons. split; [|by apply IH].
    by eapply sublist_Forall.
  - apply StronglySorted_cons in Hsort as [_ Hsort]. by apply IH.
Qed.

Lemma kept_cons ws test i idxs :
  kept ws test (i :: idxs)
  = if from_option test false (ws !! i)
    then i :: kept ws test idxs else kept ws test idxs.
Proof. done. Qed.

Section Scan.
Variable self : WordIndex.
Variable test : string -> bool.

Lemma scan_bucket_spec idxs result :
  Forall (fun i => (i < length (words self))%nat) idxs ->
  scan_bucket self test idxs result
  = Some (result ++ words_at (words self) (kept (words self) test idxs)).
Proof.
  intros H. revert result.
  induction H as [|i idxs Hi Hl IH]; intros result.
  - cbn. by rewrite app_nil_r.
  - destruct (lookup_lt_is_Some_2 _ i Hi) as [w Hw].
    rewrite kept_cons, Hw. cbn [scan_bucket from_option].
    rewrite Hw. simpl. rewrite IH.
    destruct (test w); [|done].
    rewrite (words_at_cons _ _ _ _ Hw). by rewrite <- app_assoc.
Qed.

Lemma count_bucket_spec idxs cnt :
  Forall (fun i => (i < length (words self))%nat) idxs ->
  count_bucket self test idxs cnt
  = Some (cnt + length (kept (words self) test idxs))%nat.
Proof.
  intros H. revert cnt.
  induction H as [|i idxs Hi Hl IH]; intros cnt.
  - cbn. f_equal. lia.
  - destruct (lookup_lt_is_Some_2 _ i Hi) as [w Hw].
    rewrite kept_cons, Hw. cbn [count_bucket from_option].
    rewrite Hw. simpl. rewrite IH.
    destruct (test w); cbn [length]; f_equal; lia.
Qed.

Lemma scan_buckets_spec min_len items result :
  in_range (length (words self)) items ->
  scan_buckets self test min_len items result
  = Some (result ++ words_at (words self)
                      (kept_all (words self) test min_len items)).
Proof.
  intros H. revert result.
  induction H as [|[L idxs] items Hb Hl IH]; intros result.
  - cbn. by rewrite app_nil_r.
  - simpl. unfold kept_all. cbn [map concat]. fold (kept_all (words self) test min_len items).
    destruct (L <? min_len)%nat; [by rewrite IH|].
    rewrite scan_bucket_spec by done. simpl. rewrite IH.
    by rewrite words_at_app, app_assoc.
Qed.

Lemma count_buckets_spec min_len items cnt :
  in_range (length (words self)) items ->
  count_buckets self test min_len items cnt
  = Some (cnt + length (kept_all (words self) test min_len items))%nat.
Proof.
  intros H. revert cnt.
  induction H as [|[L idxs] items Hb Hl IH]; intros cnt.
  - cbn. f_equal. lia.
  - simpl. unfold kept_all. cbn [map concat]. fold (kept_all (words self) test min_len items).
    destruct (L <? min_len)%nat; [by rewrite IH|].
    rewrite count_bucket_spec by done. simpl. rewrite IH.
    rewrite length_app. f_equal. lia.
Qed.

Lemma kept_all_in_range min_len items :
  in_range (length (words self)) items ->
  Forall (fun i => (i < length (words self))%nat)
         (kept_all (words self) test min_len items).
Proof.
  induction 1 as [|[L idxs] items Hb Hl IH]; [constructor|].
  unfold kept_all. cbn [map concat]. apply Forall_app. split; [|done].
  destruct (L <? min_len)%nat; [constructor|].
  eapply sublist_Forall; [apply kept_sublist|done].
Qed.

End Scan.
End ScanFacts.

(** ** The position index and [_exact_indices_via_pos_index] *)

Module ExactFacts.
Import PyFacts BuildFacts BuildInv ScanFacts.

Lemma add_at_length by_pos p ch i : length (add_at by_pos p ch i) = length by_pos.
Proof. apply length_alter. Qed.

Lemma index_word_length cs p i by_pos :
  length (index_word cs p i by_pos) = length by_pos.
Proof.
  revert p by_pos. induction cs as [|c cs IH]; intros p by_pos; [done|].
  cbn. by rewrite IH, add_at_length.
Qed.

Lemma index_bucket_length wsl L idxs : length (index_bucket wsl L idxs) = L.
Proof.
  unfold index_bucket.
  assert (forall acc : list (gmap ascii (gset nat)),
            length (fold_left
                      (fun by_pos i =>
                         match wsl !! i with
                         | Some wl => index_word (chars wl) 0 i by_pos
                         | None => by_pos
                         end) idxs acc) = length acc) as H.
  { induction idxs as [|i idxs IH]; intros acc; [done|].
    cbn. rewrite IH. destruct (wsl !! i); [apply index_word_length|done]. }
  by rewrite H, length_replicate.
Qed.

(** [pos_char_index] has an entry of the right size for every key of
    [len_to_indices]. *)
Lemma pci_fold wsl (lti : list (nat * list nat))
    (m : gmap nat (list (gmap ascii (gset nat)))) k :
  (forall v, m !! k = Some v -> length v = k) ->
  k ∈ (lti.*1) \/ is_Some (m !! k) ->
  exists by_pos,
    fold_left (fun m '(L, idxs) => <[L := index_bucket wsl L idxs]> m) lti m !! k
    = Some by_pos
    /\ length by_pos = k.
Proof.
  revert m. induction lti as [|[L idxs] lti IH]; intros m Hm Hk.
  - cbn. destruct Hk as [Hk|[v Hv]]; [by apply elem_of_nil in Hk|].
    exists v. split; [done|by apply Hm].
  - cbn [fold_left]. apply IH.
    + intros v. destruct (decide (L = k)) as [->|Hne].
      * rewrite lookup_insert_eq. intros [= <-]. apply index_bucket_length.
      * rewrite lookup_insert_ne by done. apply Hm.
    + destruct (decide (L = k)) as [->|Hne].
      * right. rewrite lookup_insert_eq. by eexists.
      * rewrite lookup_insert_ne by done.
        destruct Hk as [Hk|Hk]; [left|by right].
        cbn in Hk. apply elem_of_cons in Hk as [Hk|Hk]; [congruence|done].
Qed.

Lemma dict_get_elem {V} (d : list (nat * V)) k v :
  dict_get d k = Some v -> (k, v) ∈ d.
Proof.
  induction d as [|[k' v'] d IH]; [done|]. cbn.
  destruct (Nat.eqb_spec k' k) as [->|_].
  - intros [= ->]. by left.
  - intros H. right. by apply IH.
Qed.

Lemma fixed_positions_bound cs i :
  Forall (fun pc => (pc.1 < i + length cs)%nat) (fixed_positions_from cs i).
Proof.
  revert i. induction cs as [|c cs IH]; intros i; [constructor|].
  cbn. specialize (IH (S i)).
  assert (Forall (fun pc : nat * ascii => (pc.1 < i + S (length cs))%nat)
                 (fixed_positions_from cs (S i))) as IH'.
  { eapply Forall_impl; [exact IH|]. cbn. intros. lia. }
  destruct (Ascii.eqb c "?"); [done|]. constructor; [cbn; lia|done].
Qed.

(** The loop over the fixed positions ends without raising and keeps
    part of the bucket, in the bucket's order. *)
Lemma narrow_total by_pos idxs fixed cand :
  Forall (fun pc => (pc.1 < length by_pos)%nat) fixed ->
  fixed <> [] \/ is_Some cand ->
  exists r, narrow by_pos idxs fixed cand = Some r /\ r `sublist_of` idxs.
Proof.
  intros Hf. revert cand. induction Hf as [|[pos ch] fixed Hpos Hf IH]; intros cand Hc.
  - destruct Hc as [Hc|[c ->]]; [done|]. simpl.
    eexists. split; [done|]. apply sublist_filter.
  - destruct (lookup_lt_is_Some_2 by_pos pos Hpos) as [d Hd].
    simpl. rewrite Hd. simpl.
    case_decide.
    + exists []. split; [done|]. apply sublist_nil_l.
    + apply IH. right. by eexists.
Qed.

End ExactFacts.

(** ** An index made by [WordIndex.__init__] *)

Module BuiltFacts.
Import PyFacts BuildFacts BuildInv ScanFacts ExactFacts.

Lemma first_of_len_lower ws L :
  first_of_len (map lower ws) L = first_of_len ws L.
Proof.
  induction ws as [|w ws IH]; [done|]. cbn. by rewrite lower_len, IH.
Qed.

Lemma positions_where_shift f pre ws :
  words_at (pre ++ ws)
    (List.filter (fun i => from_option f false ((pre ++ ws) !! i))
                 (seq (length pre) (length ws)))
  = List.filter f ws
  /\ length (List.filter (fun i => from_option f false ((pre ++ ws) !! i))
                         (seq (length pre) (length ws)))
     = length (List.filter f ws).
Proof.
  revert pre. induction ws as [|w ws IH]; intros pre; [done|].
  cbn [length seq List.filter].
  assert ((pre ++ w :: ws) !! length pre = Some w) as Hw
    by (by rewrite lookup_app_r, Nat.sub_diag).
  rewrite Hw. cbn [from_option].
  specialize (IH (pre ++ [w])). rewrite <- app_assoc, length_app in IH.
  cbn in IH. rewrite Nat.add_1_r in IH. destruct IH as [IH1 IH2].
  destruct (f w); [|done].
  rewrite (words_at_cons _ _ _ _ Hw). cbn [length]. by rewrite IH1, IH2.
Qed.

Lemma positions_where_words f ws :
  words_at ws (positions_where f ws) = List.filter f ws.
Proof. apply (positions_where_shift f [] ws). Qed.

Lemma positions_where_length f ws :
  length (positions_where f ws) = length (List.filter f ws).
Proof. apply (positions_where_shift f [] ws). Qed.

Lemma seq_sorted a n : StronglySorted lt (seq a n).
Proof.
  revert a. induction n as [|n IH]; intros a; [constructor|].
  cbn. constructor; [apply IH|].
  apply Forall_forall. intros x Hx. apply list_elem_of_In, in_seq in Hx. lia.
Qed.

Lemma positions_where_sorted f ws : StronglySorted lt (positions_where f ws).
Proof. eapply sublist_sorted; [apply filter_sublist|apply seq_sorted]. Qed.

Lemma positions_where_range f ws :
  Forall (fun i => (i < length ws)%nat) (positions_where f ws).
Proof.
  eapply sublist_Forall; [apply filter_sublist|].
  apply Forall_forall. intros x Hx. apply list_elem_of_In, in_seq in Hx. lia.
Qed.

Lemma long_enough_cons L k v d :
  long_enough L ((k, v) :: d)
  = ((if (L <=? k)%nat then length v else 0) + long_enough L d)%nat.
Proof. done. Qed.

Lemma long_enough_step L d Lw i :
  long_enough L (setdefault_append d Lw i)
  = (long_enough L d + if (L <=? Lw)%nat then 1 else 0)%nat.
Proof.
  induction d as [|[k v] d IH]; cbn [setdefault_append].
  - rewrite long_enough_cons. cbn. destruct (L <=? Lw)%nat; cbn; lia.
  - destruct (Nat.eqb_spec k Lw) as [->|Hne]; rewrite !long_enough_cons.
    + rewrite length_app. cbn. destruct (L <=? Lw)%nat; lia.
    + rewrite IH. lia.
Qed.

Lemma long_enough_build L wsl :
  long_enough L (build_buckets wsl 0 [])
  = length (List.filter (fun w => (L <=? len w)%nat) wsl).
Proof.
  induction wsl as [|w wsl IH] using rev_ind; [done|].
  rewrite build_buckets_snoc, long_enough_step, IH, List.filter_app, length_app.
  cbn. by destruct (L <=? len w)%nat.
Qed.

Lemma filter_len_lower L ws :
  length (List.filter (fun w => (L <=? len w)%nat) (map lower ws))
  = length (List.filter (fun w => (L <=? len w)%nat) ws).
Proof.
  induction ws as [|w ws IH]; [done|]. cbn. rewrite lower_len.
  destruct (L <=? len w)%nat; cbn; by rewrite IH.
Qed.

Lemma star_not_all_questions p :
  has_char "*" p = true -> all_questions p = false.
Proof.
  unfold has_char, all_questions. induction (chars p) as [|c l IH]; [done|].
  cbn. destruct (Ascii.eqb_spec c "*") as [->|_]; [done|].
  cbn. intros H. rewrite (IH H). apply andb_false_r.
Qed.

Section Built.
Variable hash : string -> Z.
Variables g0 g : Globals.t.
Variable ws : list string.

Let self := (WordIndex_init hash g0 ws).1.
Let wsl := map lower ws.
Let lti := build_buckets wsl 0 [].

Lemma self_words : words self = ws.
Proof. done. Qed.

Lemma self_lti : len_to_indices self = lti.
Proof. done. Qed.

Lemma self_pci :
  pos_char_index self
  = fold_left (fun m '(L, idxs) => <[L := index_bucket wsl L idxs]> m) lti ∅.
Proof. done. Qed.

Lemma lti_inv : buckets_inv wsl lti.
Proof. apply build_buckets_inv. Qed.

Lemma bucket_elem_len b j :
  b ∈ lti -> j ∈ b.2 -> exists w, ws !! j = Some w /\ len w = b.1.
Proof.
  intros Hb Hj. pose proof (inv_ok _ _ lti_inv) as Hok.
  rewrite Forall_forall in Hok. destruct (Hok b Hb) as (_ & _ & Hm).
  apply Hm in Hj as (w' & Hw' & Hl). unfold wsl in Hw'.
  rewrite list_lookup_fmap in Hw'.
  destruct (ws !! j) as [w|]; [|done]. cbn in Hw'. injection Hw' as <-.
  exists w. split; [done|]. by rewrite <- lower_len.
Qed.

Lemma lti_in_range : in_range (length ws) lti.
Proof.
  apply Forall_forall. intros b Hb. apply Forall_forall. intros j Hj.
  destruct (bucket_elem_len b j Hb Hj) as (w & Hw & _).
  by eapply lookup_lt_Some.
Qed.

Lemma bucket_rank b j :
  b ∈ lti -> j ∈ b.2 -> rank ws j = first_of_len wsl b.1.
Proof.
  intros Hb Hj. destruct (bucket_elem_len b j Hb Hj) as (w & Hw & Hl).
  unfold rank, wsl. by rewrite Hw, first_of_len_lower, <- Hl.
Qed.

(** Part of one bucket, in the bucket's order, is ascending, also in
    bucket order. *)
Lemma bucket_part_sorted b l :
  b ∈ lti -> l `sublist_of` b.2 ->
  Forall (fun i => (i < length ws)%nat) l
  /\ StronglySorted lt l /\ StronglySorted (bucket_order ws) l.
Proof.
  intros Hb Hl. pose proof (inv_ok _ _ lti_inv) as Hok.
  rewrite Forall_forall in Hok. destruct (Hok b Hb) as (_ & Hs & _).
  assert (StronglySorted lt l) as Hsl by (by eapply sublist_sorted).
  split_and!; [|done|].
  - pose proof lti_in_range as Hr. unfold in_range in Hr.
    rewrite Forall_forall in Hr. eapply sublist_Forall; [done|by apply Hr].
  - eapply sorted_change; [exact Hsl|].
    intros x y Hx Hy Hxy. right. split; [|done].
    rewrite (bucket_rank b x), (bucket_rank b y); try done;
      by eapply elem_of_sublist.
Qed.

Lemma kept_all_part test min_len items :
  Forall (fun b => b ∈ lti) items ->
  StronglySorted
    (fun k k' => (first_of_len wsl k < first_of_len wsl k')%nat) (items.*1) ->
  StronglySorted (bucket_order ws) (kept_all ws test min_len items)
  /\ forall j, j ∈ kept_all ws test min_len items ->
               exists b, b ∈ items /\ j ∈ b.2.
Proof.
  induction 1 as [|b items Hb Hl IH]; intros Hs.
  - split; [constructor|]. intros j Hj. by apply elem_of_nil in Hj.
  - cbn [fmap list_fmap] in Hs. apply StronglySorted_cons in Hs as [Hall Hs].
    destruct (IH Hs) as [IH1 IH2].
    unfold kept_all. cbn [map concat].
    fold (kept_all ws test min_len items).
    set (here := let '(L, idxs) := b in
                 if (L <? min_len)%nat then [] else kept ws test idxs).
    assert (here `sublist_of` b.2) as Hhere.
    { unfold here. destruct b as [L idxs]. cbn [snd].
      destruct (L <? min_len)%nat; [apply sublist_nil_l|apply kept_sublist]. }
    split.
    + apply StronglySorted_app.
      split_and!; [|by apply (bucket_part_sorted b here)|done].
      intros x y Hx Hy. left.
      destruct (IH2 y Hy) as (b' & Hb' & Hy').
      rewrite Forall_forall in Hl. rewrite Forall_forall in Hall.
      rewrite (bucket_rank b x), (bucket_rank b' y);
        [|by apply Hl|done|done|by eapply elem_of_sublist].
      apply Hall. apply list_elem_of_fmap. by exists b'.
    + intros j Hj. apply elem_of_app in Hj as [Hj|Hj].
      * exists b. split; [by left|by eapply elem_of_sublist].
      * destruct (IH2 j Hj) as (b' & Hb' & Hj'). exists b'. split; [by right|done].
Qed.

(** What a scan keeps comes bucket after bucket. *)
Lemma kept_all_sorted test min_len :
  StronglySorted (bucket_order ws) (kept_all ws test min_len lti).
Proof.
  apply kept_all_part; [by apply Forall_forall|]. apply (inv_order _ _ lti_inv).
Qed.

Lemma kept_all_range test min_len :
  Forall (fun i => (i < length ws)%nat) (kept_all ws test min_len lti).
Proof.
  pose proof (kept_all_in_range self test min_len lti) as H.
  rewrite self_words in H. apply H, lti_in_range.
Qed.

(** On a built index the exact lookup never raises; it answers with
    part of one bucket. *)
Lemma exact_built p :
  exists r,
    _exact_indices_via_pos_index self p = Some r
    /\ Forall (fun i => (i < length ws)%nat) r
    /\ StronglySorted lt r /\ StronglySorted (bucket_order ws) r.
Proof.
  assert (exists r : list nat, r = [] /\ Forall (fun i => (i < length ws)%nat) r
            /\ StronglySorted lt r /\ StronglySorted (bucket_order ws) r)
    as (e & -> & He) by (exists []; repeat constructor).
  unfold _exact_indices_via_pos_index. rewrite self_lti.
  destruct (dict_get lti (len p)) as [idxs|] eqn:Hget; [|by exists []].
  apply dict_get_elem in Hget.
  destruct idxs as [|i idxs]; [by exists []|].
  destruct (fixed_positions_from (chars (lower p)) 0) as [|pc fixed] eqn:Hfix.
  - eexists. split; [done|]. by apply (bucket_part_sorted (len p, i :: idxs)).
  - destruct (pci_fold wsl lti ∅ (len p)) as (by_pos & Hbp & Hlen).
    { intros v. by rewrite lookup_empty. }
    { left. apply list_elem_of_fmap. by exists (len p, i :: idxs). }
    rewrite self_pci, Hbp. cbn [mbind option_bind].
    destruct (narrow_total by_pos (i :: idxs) (pc :: fixed) None)
      as (r & -> & Hsub); [|by left|].
    { rewrite <- Hfix, Hlen.
      pose proof (fixed_positions_bound (chars (lower p)) 0) as Hb.
      by rewrite chars_length, lower_len in Hb. }
    exists r. split; [done|]. by apply (bucket_part_sorted (len p, i :: idxs)).
Qed.

Lemma mapM_words r :
  Forall (fun i => (i < length ws)%nat) r ->
  mapM (fun i => words self !! i) r = Some (words_at ws r).
Proof. intros H. apply mapM_Some_2. by apply words_at_Forall2. Qed.

(** Exact mode on a built index: both queries return, [count_exact]
    with the length of what [find_exact] lists, and the words listed
    are in bucket order, in corpus order when the pattern has no star. *)
Lemma exact_mode p :
  exists positions,
    find_exact hash g self p = Some (words_at ws positions)
    /\ count_exact hash g self p = Some (length positions)
    /\ Forall (fun i => (i < length ws)%nat) positions
    /\ StronglySorted (bucket_order ws) positions
    /\ (has_char "*" p = false -> StronglySorted lt positions).
Proof.
  unfold find_exact, count_exact.
  destruct (should_skip_pattern hash g p).
  { exists []. split_and!; try done; constructor. }
  destruct (has_char "*" p) eqn:Hstar; cbn [negb].
  - rewrite ReFacts.compile_anchored. simpl.
    rewrite scan_buckets_spec, count_buckets_spec by apply lti_in_range.
    eexists. split_and!; [done|done|apply kept_all_range|apply kept_all_sorted|done].
  - destruct (exact_built p) as (r & -> & Hr & Hs1 & Hs2). simpl.
    exists r. by rewrite mapM_words.
Qed.

(** Partial mode on a built index. *)
Lemma partial_mode p :
  exists positions,
    find_partial hash g self p = Some (words_at ws positions)
    /\ count_partial hash g self p = Some (length positions)
    /\ Forall (fun i => (i < length ws)%nat) positions
    /\ (if all_questions p then StronglySorted lt positions
        else StronglySorted (bucket_order ws) positions).
Proof.
  unfold find_partial, count_partial.
  destruct (should_skip_pattern hash g p).
  { exists []. split_and!; try done. destruct (all_questions p); constructor. }
  destruct (has_char "*" p) eqn:Hstar; cbn [negb].
  - rewrite (star_not_all_questions p Hstar).
    rewrite ReFacts.compile_wrapped by (by left). simpl.
    rewrite scan_buckets_spec, count_buckets_spec by apply lti_in_range.
    eexists. split_and!; [done|done|apply kept_all_range|apply kept_all_sorted].
  - destruct (all_questions p).
    + exists (positions_where (fun w => (len p <=? len w)%nat) ws).
      split_and!.
      * by rewrite positions_where_words.
      * rewrite positions_where_length. f_equal.
        change (long_enough (len p) lti
                = length (List.filter (fun w => (len p <=? len w)%nat) ws)).
        unfold lti. rewrite long_enough_build. unfold wsl.
        by rewrite filter_len_lower.
      * apply positions_where_range.
      * apply positions_where_sorted.
    + rewrite ReFacts.compile_wrapped by (by right). simpl.
      rewrite scan_buckets_spec, count_buckets_spec by apply lti_in_range.
      eexists. split_and!; [done|done|apply kept_all_range|apply kept_all_sorted].
Qed.

End Built.
End BuiltFacts.

(** ** The filters never hide a pattern the corpus covers *)

Module SkipFacts.
Import Bloom BloomFacts Globals.

Lemma add_all_app hash b l1 l2 :
  add_all hash (add_all hash b l1) l2 = add_all hash b (l1 ++ l2).
Proof. unfold add_all. by rewrite fold_left_app. Qed.

Lemma added_all_found hash b l s :
  s ∈ l -> maybe_contains hash (add_all hash b l) s = true.
Proof.
  intros Hin. apply list_elem_of_In, in_split in Hin as (l1 & l2 & ->).
  rewrite <- add_all_app. apply added_is_found.
Qed.

Lemma fold_add_word hash wsl g :
  _bloom_letters (fold_left (add_word hash) wsl g)
  = add_all hash (_bloom_letters g) (concat (map letters_of wsl))
  /\ _bloom_bigrams (fold_left (add_word hash) wsl g)
     = add_all hash (_bloom_bigrams g) (concat (map bigrams wsl)).
Proof.
  revert g. induction wsl as [|wl wsl IH]; intros g; [done|].
  cbn [fold_left map concat]. destruct (IH (add_word hash g wl)) as [-> ->].
  rewrite <- !add_all_app. split; [done|].
  cbn [add_word _bloom_bigrams]. destruct (2 <=? len wl)%nat eqn:Hl; [done|].
  replace (bigrams wl) with (@nil string); [done|].
  destruct wl as [|a [|b wl]]; done.
Qed.

Lemma init_blooms_fresh hash wsl :
  _bloom_letters (_init_blooms hash initial wsl)
  = add_all hash (_bloom_letters initial) (concat (map letters_of wsl))
  /\ _bloom_bigrams (_init_blooms hash initial wsl)
     = add_all hash (_bloom_bigrams initial) (concat (map bigrams wsl)).
Proof. unfold _init_blooms. cbn [_blooms_built initial]. apply fold_add_word. Qed.

Lemma has_char_elem ch s : has_char ch s = true -> ch ∈ chars s.
Proof.
  unfold has_char. intros H. apply existsb_exists in H as (x & Hx & He).
  apply Ascii.eqb_eq in He as ->. by apply list_elem_of_In.
Qed.

(** In a process whose first index is built from [ws], a pattern that
    the lowered corpus covers is never skipped, whatever [hash] is. *)
Lemma covered_not_skipped hash ws p :
  p <> "" -> covered (map lower ws) p = true ->
  should_skip_pattern hash (WordIndex_init hash initial ws).2 p = false.
Proof.
  intros Hp Hcov. unfold should_skip_pattern.
  apply String.eqb_neq in Hp. rewrite Hp.
  destruct (negb (existsb _ _)); [done|].
  change (WordIndex_init hash initial ws).2
    with (_init_blooms hash initial (map lower ws)).
  destruct (init_blooms_fresh hash (map lower ws)) as [-> ->].
  unfold covered in Hcov. apply andb_prop in Hcov as [Hl Hb].
  rewrite forallb_forall in Hl. rewrite forallb_forall in Hb.
  match goal with
  | |- context [existsb ?f (remove_dups ?l)] =>
      assert (existsb f (remove_dups l) = false) as Hletters
  end.
  { apply not_true_is_false. intros He.
    apply existsb_exists in He as (ch & Hch & He).
    apply list_elem_of_In, elem_of_remove_dups, list_elem_of_In, filter_In in Hch
      as [Hch Hw].
    specialize (Hl ch Hch). apply negb_true_iff in Hw. rewrite Hw in Hl.
    cbn [orb] in Hl. apply existsb_exists in Hl as (wl & Hwl & Hin).
    rewrite added_all_found in He; [done|].
    apply list_elem_of_In, in_concat. exists (letters_of wl). split.
    + by apply in_map.
    + apply list_elem_of_In, list_elem_of_fmap. exists ch. split; [done|].
      apply elem_of_remove_dups. by apply has_char_elem. }
  rewrite Hletters.
  apply not_true_is_false. intros He.
  apply existsb_exists in He as (seg & Hseg & He).
  apply andb_prop in He as [_ He].
  apply existsb_exists in He as (bg & Hbg & He).
  specialize (Hb seg Hseg). rewrite forallb_forall in Hb.
  specialize (Hb bg Hbg). apply existsb_exists in Hb as (wl & Hwl & Hin).
  apply bool_decide_eq_true in Hin.
  rewrite added_all_found in He; [done|].
  apply list_elem_of_In, in_concat. exists (bigrams wl). split.
  - by apply in_map.
  - by apply list_elem_of_In.
Qed.

End SkipFacts.

(** ** The queries of the index *)

Example fixture_buckets :
  len_to_indices fixture_index
  = [(5, [0; 1; 2; 3; 4; 6]); (4, [5])]%nat.
Proof. reflexivity. Qed.

(** The filters of the sample process hide no pattern that the
    corpus covers. *)
Lemma fixture_not_skipped p :
  p <> "" -> covered (map lower fixture) p = true ->
  should_skip_pattern sample_hash fixture_globals p = false.
Proof. apply SkipFacts.covered_not_skipped. Qed.

Ltac run_query :=
  unfold find_exact, count_exact, find_partial, count_partial;
  rewrite fixture_not_skipped by (discriminate || reflexivity);
  reflexivity.

Example fixture_exact_question :
  find_exact sample_hash fixture_globals fixture_index "h?llo"
  = Some ["hello"; "hallo"; "hxllo"; "heLLo"]
  /\ count_exact sample_hash fixture_globals fixture_index "h?llo" = Some 4%nat.
Proof. split; run_query. Qed.

Example fixture_exact_star :
  find_exact sample_hash fixture_globals fixture_index "h*o"
  = Some ["hello"; "hallo"; "hxllo"; "heLLo"]
  /\ find_exact sample_hash fixture_globals fixture_index "abc" = Some [].
Proof.
  split; [run_query|]. unfold find_exact.
  by destruct (should_skip_pattern _ _ _).
Qed.

Example fixture_exact_world :
  find_exact sample_hash fixture_globals fixture_index "world" = Some ["world"].
Proof. run_query. Qed.

Example fixture_partial_ell :
  find_partial sample_hash fixture_globals fixture_index "ell"
  = Some ["hello"; "heLLo"; "shell"; "hell"]
  /\ count_partial sample_hash fixture_globals fixture_index "ell" = Some 4%nat.
Proof. split; run_query. Qed.

Example fixture_partial_all_questions :
  find_partial sample_hash fixture_globals fixture_index "??" = Some fixture
  /\ count_partial sample_hash fixture_globals fixture_index "??" = Some 7%nat.
Proof. split; run_query. Qed.

(** X25. The counts agree with the lists, on ASCII text. On an index
    made by [WordIndex.__init__] from ASCII words, for every ASCII
    pattern both exact queries return and [count_exact] is the length
    of the list [find_exact] returns; likewise [count_partial] and
    [find_partial]. The counting functions keep a counter and build
    no list. *)
Theorem count_agrees_with_find (hash : string -> Z) (g0 g : Globals.t)
    (ws : list string) (p : string) :
  forallb isascii ws = true -> isascii p = true ->
  let self := (WordIndex_init hash g0 ws).1 in
  (exists l, find_exact hash g self p = Some l
             /\ count_exact hash g self p = Some (length l))
  /\ (exists l, find_partial hash g self p = Some l
                /\ count_partial hash g self p = Some (length l)).
Proof.
  intros Hascii Hpattern self. split.
  - destruct (BuiltFacts.exact_mode hash g0 g ws p)
      as (positions & Hf & Hc & Hr & _).
    eexists. split; [exact Hf|]. by rewrite ScanFacts.words_at_length.
  - destruct (BuiltFacts.partial_mode hash g0 g ws p)
      as (positions & Hf & Hc & Hr & _).
    eexists. split; [exact Hf|]. by rewrite ScanFacts.words_at_length.
Qed.

Lemma count_agrees_with_find_witness :
  forallb isascii fixture = true
  /\ exists l, find_partial sample_hash fixture_globals fixture_index "ell" = Some l
               /\ count_partial sample_hash fixture_globals fixture_index "ell"
                  = Some (length l).
Proof.
  split; [reflexivity|].
  exact (proj2 (count_agrees_with_find sample_hash Globals.initial
                  fixture_globals fixture "ell" eq_refl eq_refl)).
Defined.

(** X26. Matching ignores the case of the pattern, on ASCII text:
    two ASCII patterns that differ only in the case of some letters
    get the same answer from [find_exact], [count_exact],
    [find_partial] and [count_partial], and on an index made by
    [WordIndex.__init__] from ASCII words that answer is a result,
    not an exception. *)
Theorem matching_ignores_pattern_case (hash : string -> Z)
    (g0 g : Globals.t) (ws : list string) (p p' : string) :
  forallb isascii ws = true -> isascii p = true -> isascii p' = true ->
  lower p = lower p' ->
  let self := (WordIndex_init hash g0 ws).1 in
  (exists l, find_exact hash g self p = Some l
             /\ find_exact hash g self p' = Some l)
  /\ (exists n, count_exact hash g self p = Some n
                /\ count_exact hash g self p' = Some n)
  /\ (exists l, find_partial hash g self p = Some l
                /\ find_partial hash g self p' = Some l)
  /\ (exists n, count_partial hash g self p = Some n
                /\ count_partial hash g self p' = Some n).
Proof.
  intros Hascii Hpattern Hpattern' Hpp self.
  destruct (BuiltFacts.exact_mode hash g0 g ws p) as (e & Hfe & Hce & _).
  destruct (BuiltFacts.partial_mode hash g0 g ws p) as (q & Hfp & Hcp & _).
  split_and!; eexists; (split; [eassumption|]).
  - rewrite <- (IndexCase.find_exact_lower _ _ _ p'), <- Hpp.
    by rewrite IndexCase.find_exact_lower.
  - rewrite <- (IndexCase.count_exact_lower _ _ _ p'), <- Hpp.
    by rewrite IndexCase.count_exact_lower.
  - rewrite <- (IndexCase.find_partial_lower _ _ _ p'), <- Hpp.
    by rewrite IndexCase.find_partial_lower.
  - rewrite <- (IndexCase.count_partial_lower _ _ _ p'), <- Hpp.
    by rewrite IndexCase.count_partial_lower.
Qed.

Lemma matching_ignores_pattern_case_witness :
  forallb isascii fixture = true
  /\ lower "h?LLo" = lower "H?llO"
  /\ (exists l, find_exact sample_hash fixture_globals fixture_index "h?LLo" = Some l
                /\ find_exact sample_hash fixture_globals fixture_index "H?llO" = Some l).
Proof.
  split_and!; [reflexivity..|].
  exact (proj1 (matching_ignores_pattern_case sample_hash Globals.initial
                  fixture_globals fixture "h?LLo" "H?llO" eq_refl eq_refl
                  eq_refl eq_refl)).
Defined.

(** C9. The empty pattern is skipped before any matching: the four
    queries answer the empty list or 0 on every index, although the
    expression the partial mode would compile for it is found in every
    word. *)
Theorem empty_pattern_matches_nothing (hash : string -> Z) (g : Globals.t)
    (self : WordIndex) :
  should_skip_pattern hash g "" = true
  /\ find_exact hash g self "" = Some []
  /\ count_exact hash g self "" = Some 0%nat
  /\ find_partial hash g self "" = Some []
  /\ count_partial hash g self "" = Some 0%nat
  /\ exists rx,
       _compile_regex_body (_wildcard_to_regex_body "" false true) false = Some rx
       /\ forall w, Re.search rx w = true.
Proof.
  split_and!; try reflexivity.
  exists [Re.Star Re.Any; Re.Star Re.Any]. split; [reflexivity|].
  intros w. unfold Re.search.
  assert (forall s b, Re.match_here false [Re.Star Re.Any; Re.Star Re.Any] b s = true)
    as H.
  { intros s b. rewrite CaseFacts.match_here_star.
    rewrite (CaseFacts.match_here_star false Re.Any []). done. }
  destruct w; cbn [Re.search_from]; by rewrite H.
Qed.

(** ** Order of the results *)

Lemma slice_contiguous {A} (l : list A) (offset limit : Z) :
  exists before after,
    l = before ++ Py.slice l offset limit ++ after
    /\ length before = Nat.min (Z.to_nat offset) (length l).
Proof.
  exists (take (Z.to_nat offset) l),
         (drop (Z.to_nat limit) (drop (Z.to_nat offset) l)).
  unfold Py.slice. rewrite !take_drop. split; [done|]. apply length_take.
Qed.

(** C1. The regex branches do not keep the order of the corpus. On
    the corpus of the tests the partial query for [ell] lists [shell]
    (position 6) before [hell] (position 5): no ascending list of
    corpus positions lists that result. *)
Lemma ell_not_in_corpus_order :
  find_partial sample_hash fixture_globals fixture_index "ell"
  = Some ["hello"; "heLLo"; "shell"; "hell"]
  /\ ~ exists positions,
         listed fixture positions ["hello"; "heLLo"; "shell"; "hell"]
         /\ StronglySorted lt positions.
Proof.
  split; [run_query|].
  intros (positions & Hl & Hs). unfold listed in Hl.
  apply Forall2_cons_inv_r in Hl as (i0 & r0 & _ & Hl & ->).
  apply Forall2_cons_inv_r in Hl as (i1 & r1 & _ & Hl & ->).
  apply Forall2_cons_inv_r in Hl as (i2 & r2 & H2 & Hl & ->).
  apply Forall2_cons_inv_r in Hl as (i3 & r3 & H3 & Hl & ->).
  assert (i2 = 6%nat) as ->
    by (do 7 (destruct i2 as [|i2]; [by cbn in H2|]); by cbn in H2).
  assert (i3 = 5%nat) as ->
    by (do 7 (destruct i3 as [|i3]; [by cbn in H3|]); by cbn in H3).
  apply StronglySorted_cons in Hs as [_ Hs].
  apply StronglySorted_cons in Hs as [_ Hs].
  apply StronglySorted_cons in Hs as [Hall _].
  apply Forall_cons in Hall as [Hlt _]. lia.
Qed.

(** X27. The paths that keep the order of the corpus, on ASCII text.
    On an index made by [WordIndex.__init__] from ASCII words, and
    for an ASCII pattern, both queries return a list of corpus words,
    each found at a corpus position; [find_exact] with a pattern
    without star and [find_partial] with a pattern of question marks
    only list them in ascending order of corpus position. The page
    the servers cut for a RANGE, after the clamps of the offset and
    the limit, is a contiguous part of the list it is cut from. *)
Theorem results_keep_corpus_order (hash : string -> Z) (g0 g : Globals.t)
    (ws : list string) (p : string) :
  forallb isascii ws = true -> isascii p = true ->
  let self := (WordIndex_init hash g0 ws).1 in
  (exists positions result,
      find_exact hash g self p = Some result
      /\ listed ws positions result
      /\ (has_char "*" p = false -> StronglySorted lt positions))
  /\ (exists positions result,
         find_partial hash g self p = Some result
         /\ listed ws positions result
         /\ (all_questions p = true -> StronglySorted lt positions))
  /\ (forall (matches : list string) (offset : Z) (limit : option Z),
         exists before after,
           matches = before ++ Server.paginate matches offset limit ++ after).
Proof.
  intros Hascii Hpattern self. split_and!.
  - destruct (BuiltFacts.exact_mode hash g0 g ws p)
      as (positions & Hf & _ & Hr & Hb & Hc).
    exists positions, (words_at ws positions).
    split_and!; [done|by apply ScanFacts.words_at_Forall2|done].
  - destruct (BuiltFacts.partial_mode hash g0 g ws p)
      as (positions & Hf & _ & Hr & Hs).
    exists positions, (words_at ws positions).
    split_and!; [done|by apply ScanFacts.words_at_Forall2|].
    intros Hq. by rewrite Hq in Hs.
  - intros matches offset [limit|]; unfold Server.paginate.
    + destruct (slice_contiguous matches (if offset <? 0 then 0 else offset)
                  (if limit <? 0 then 0 else limit)) as (before & after & H & _).
      by exists before, after.
    + exists [], []. by rewrite app_nil_r.
Qed.

Lemma results_keep_corpus_order_witness :
  forallb isascii fixture = true
  /\ exists positions result,
       find_exact sample_hash fixture_globals fixture_index "h?llo" = Some result
       /\ listed fixture positions result
       /\ StronglySorted lt positions.
Proof.
  split; [reflexivity|].
  destruct (proj1 (results_keep_corpus_order sample_hash Globals.initial
                     fixture_globals fixture "h?llo" eq_refl eq_refl))
    as (positions & result & Hfind & Hlisted & Hsorted).
  exists positions, result. split_and!; [exact Hfind|exact Hlisted|].
  apply Hsorted. reflexivity.
Defined.

(** ** The request pipeline *)

Example threaded_bad_command :
  sample_threaded "exact" "PING" = Some (Server.Reply Server.BAD_SYNTAX)
  /\ sample_threaded "exact" "" = Some Server.Silent
  /\ sample_threaded "exact" "quit" = Some Server.Quit.
Proof. split_and!; vm_compute; reflexivity. Qed.

Example basic_rejects_partial :
  sample_basic "FIND h?llo --mode partial"
  = Some (Server.Reply Server.MODE_NOT_SUPPORTED).
Proof. vm_compute. reflexivity. Qed.

Module ServerFacts.
Import Server.

(** Under its guard, [rsplit] always yields two parts. *)
Lemma rsplit1_found sep s :
  sep <> "" -> contains sep s = true -> exists a b, rsplit1 sep s = [a; b].
Proof.
  intros Hsep. induction s as [|c s IH]; cbn [contains rsplit1].
  - rewrite orb_false_r. by destruct sep.
  - intros H.
    destruct (rsplit1 sep s) as [|a [|b [|x l]]] eqn:Hr; try by eauto.
    all: destruct (String.prefix sep (String c s)) eqn:Hp; [by eauto|].
    all: cbn [orb] in H; destruct (IH H) as (a' & b' & [=]).
Qed.

Lemma prefix_app s t : String.prefix s (s +:+ t) = true.
Proof.
  induction s as [|c s IH]; [by destruct t|].
  rewrite ReFacts.sapp_cons. cbn. by destruct (ascii_dec c c).
Qed.

Section Replies.
Variable hash : string -> Z.
Variable g : Globals.t.
Variable index : WordIndex.
Variable stats_text : string.
Variable json_string_list : string -> option (list string).
Variable encode_utf8 : string -> Codec.bytes.
Variable gzip_compress : Codec.bytes -> Codec.bytes.
Variable CFG : complexity.
Variable mem : memory.
Variable max_pattern_length : nat.

(** No reply of the FIND branches starts like the complexity reply. *)
Lemma send_matches_text matches r :
  exists text,
    send_matches encode_utf8 gzip_compress matches r = Reply text
    /\ String.prefix TOO_COMPLEX text = false.
Proof.
  unfold send_matches.
  destruct (length _ =? 0)%nat; [by eexists|].
  destruct (request_gzip r); by eexists.
Qed.

Lemma execute_threaded_text r o :
  settle (execute_threaded hash g index json_string_list encode_utf8
            gzip_compress CFG mem r) = Some o ->
  exists text, o = Reply text /\ String.prefix TOO_COMPLEX text = false.
Proof.
  unfold execute_threaded.
  destruct (String.eqb (cmd r) "BATCH").
  { destruct (json_string_list (pattern r)) as [pats|]; [|intros [= <-]; by eexists].
    destruct (batch_counts _ _ _ _ _ _ _) as [counts|]; [|done].
    intros [= <-]. by eexists. }
  destruct (String.eqb (cmd r) "COUNT").
  { destruct (count_in_mode _ _ _ _ _) as [n|]; [|done]. cbn [call bind].
    destruct (n =? 0)%nat; intros [= <-]; by eexists. }
  unfold matches_threaded.
  destruct (String.eqb (cmd r) "FIND_MULTI").
  - destruct (split (strip (pattern r))) as [|t ts]; [intros [= <-]; by eexists|].
    destruct (find_multi _ _ _ _) as [ms|]; [|done]. cbn [call bind settle].
    intros [= <-]. destruct (send_matches_text ms r) as (text & -> & H). by eexists.
  - destruct (find_in_mode _ _ _ _ _) as [ms|]; [|done]. cbn [call bind settle].
    intros [= <-]. destruct (send_matches_text ms r) as (text & -> & H). by eexists.
Qed.

Lemma execute_basic_text r o :
  settle (execute_basic hash g index encode_utf8 gzip_compress r) = Some o ->
  exists text, o = Reply text /\ String.prefix TOO_COMPLEX text = false.
Proof.
  unfold execute_basic.
  destruct (String.eqb (cmd r) "COUNT").
  { destruct (count_exact _ _ _ _) as [n|]; [|done]. cbn [call bind].
    destruct (n =? 0)%nat; intros [= <-]; by eexists. }
  unfold matches_basic.
  destruct (String.eqb (cmd r) "FIND_MULTI").
  - destruct (split (strip (pattern r))) as [|t ts]; [intros [= <-]; by eexists|].
    destruct (find_multi _ _ _ _) as [ms|]; [|done]. cbn [call bind settle].
    intros [= <-]. destruct (send_matches_text ms r) as (text & -> & H). by eexists.
  - cbn [handle_find].
    destruct (find_exact _ _ _ _) as [ms|]; [|done]. cbn [call bind settle].
    intros [= <-]. destruct (send_matches_text ms r) as (text & -> & H). by eexists.
Qed.

(** The guard answers with the complexity reply exactly when a count
    is over its limit. *)
Lemma complexity_guard_spec under_pressure pat :
  let limits := _effective_complexity_limits under_pressure CFG in
  let q := Z.of_nat (count "?" pat) in
  let s := Z.of_nat (count "*" pat) in
  (max_questions limits < q \/ max_stars limits < s ->
   exists reason,
     complexity_guard CFG under_pressure pat
     = leave (Reply (TOO_COMPLEX +:+ reason +:+ nl +:+ "END" +:+ nl))
     /\ reason
        = (is_pattern_too_complex pat (max_questions limits)
             (max_stars limits)).2)
  /\ (~ (max_questions limits < q \/ max_stars limits < s) ->
      complexity_guard CFG under_pressure pat = ret tt).
Proof.
  intros limits q s. unfold complexity_guard, is_pattern_too_complex.
  fold limits. fold q. fold s.
  destruct (Z.ltb_spec (max_questions limits) q);
    [split; [by eexists|intros H'; destruct H'; by left]|].
  destruct (Z.ltb_spec (max_stars limits) s);
    [split; [by eexists|intros H'; destruct H'; by right]|].
  split; [intros [?|?]; lia|done].
Qed.

(** A FIND or FIND_MULTI request that passes the parser and the
    guards is answered from its matches. *)
Lemma find_reply_threaded default_mode line r ms :
  one_of (cmd r) ["FIND"; "FIND_MULTI"] = true ->
  parse_threaded stats_text default_mode line = ret r ->
  guard_threaded CFG mem max_pattern_length r = ret tt ->
  matches_threaded hash g index r = ret ms ->
  handle_line hash g index stats_text json_string_list encode_utf8
    gzip_compress CFG mem max_pattern_length default_mode line
  = Some (send_matches encode_utf8 gzip_compress ms r).
Proof.
  intros Hcmd Hp Hg Hm.
  assert (String.eqb (cmd r) "BATCH" = false
          /\ String.eqb (cmd r) "COUNT" = false) as [Hb Hc].
  { unfold one_of in Hcmd. cbn [existsb] in Hcmd.
    destruct (String.eqb_spec (cmd r) "FIND") as [->|_]; [done|].
    destruct (String.eqb_spec (cmd r) "FIND_MULTI") as [->|_]; done. }
  unfold handle_line. rewrite Hp. cbn [bind ret]. rewrite Hg.
  cbn [bind ret]. unfold execute_threaded. by rewrite Hb, Hc, Hm.
Qed.

Lemma find_reply_basic line r ms :
  one_of (cmd r) ["FIND"; "FIND_MULTI"] = true ->
  parse_basic stats_text line = ret r ->
  guard_basic CFG mem max_pattern_length r = ret tt ->
  matches_basic hash g index r = ret ms ->
  serve_once hash g index stats_text encode_utf8 gzip_compress CFG mem
    max_pattern_length line
  = Some (send_matches encode_utf8 gzip_compress ms r).
Proof.
  intros Hcmd Hp Hg Hm.
  assert (String.eqb (cmd r) "COUNT" = false) as Hc.
  { unfold one_of in Hcmd. cbn [existsb] in Hcmd.
    destruct (String.eqb_spec (cmd r) "FIND") as [->|_]; [done|].
    destruct (String.eqb_spec (cmd r) "FIND_MULTI") as [->|_]; done. }
  unfold serve_once. rewrite Hp. cbn [bind ret]. rewrite Hg.
  cbn [bind ret]. unfold execute_basic. by rewrite Hc, Hm.
Qed.

End Replies.
End ServerFacts.

Section ServerClaims.
Import Server.
Variable hash : string -> Z.
Variables g0 g : Globals.t.
Variable ws : list string.
Variable stats_text : string.
Variable json_string_list : string -> option (list string).
Variable encode_utf8 : string -> Codec.bytes.
Variable gzip_compress : Codec.bytes -> Codec.bytes.
Variable CFG : complexity.
Variable mem : memory.
Variable max_pattern_length : nat.
Variable default_mode : string.

(** The index the servers are started with. *)
Let index := (WordIndex_init hash g0 ws).1.

Let threaded :=
  handle_line hash g index stats_text json_string_list encode_utf8
    gzip_compress CFG mem max_pattern_length default_mode.
Let basic :=
  serve_once hash g index stats_text encode_utf8 gzip_compress CFG mem
    max_pattern_length.

(** C3. A COUNT request that passes the parser and the guards is
    answered from the count the index returns: when [count_exact]
    (exact mode) or [count_partial] (any other mode) returns [n] for
    the pattern, the threaded server sends [404 NOT-FOUND 0], [END]
    if [n] is zero and [200 OK n], [END] with nothing in between
    otherwise; the basic server does so with [count_exact]. The two
    texts differ, so the reply is the 404 exactly when the count is
    zero. *)
Theorem count_reply (line : string) (r : request) (n : nat) :
  (parse_threaded stats_text default_mode line = ret r ->
   guard_threaded CFG mem max_pattern_length r = ret tt ->
   cmd r = "COUNT" ->
   (if String.eqb (req_mode r) "exact"
    then count_exact hash g index (pattern r)
    else count_partial hash g index (pattern r)) = Some n ->
   threaded line
   = Some (Reply (if (n =? 0)%nat then framed "404 NOT-FOUND 0"
                  else framed ("200 OK " +:+ str_of_nat n))))
  /\ (parse_basic stats_text line = ret r ->
      guard_basic CFG mem max_pattern_length r = ret tt ->
      cmd r = "COUNT" ->
      count_exact hash g index (pattern r) = Some n ->
      basic line
      = Some (Reply (if (n =? 0)%nat then framed "404 NOT-FOUND 0"
                     else framed ("200 OK " +:+ str_of_nat n))))
  /\ framed "404 NOT-FOUND 0" <> framed ("200 OK " +:+ str_of_nat n).
Proof.
  split_and!.
  - intros Hp Hg Hc Hn.
    unfold threaded, handle_line. rewrite Hp. cbn [bind ret]. rewrite Hg. cbn [bind ret].
    unfold execute_threaded. rewrite Hc. cbn [String.eqb Ascii.eqb Bool.eqb].
    unfold count_in_mode. rewrite Hn. cbn [call bind ret]. by destruct (n =? 0)%nat.
  - intros Hp Hg Hc Hn.
    unfold basic, serve_once. rewrite Hp. cbn [bind ret]. rewrite Hg. cbn [bind ret].
    unfold execute_basic. rewrite Hc. cbn [String.eqb Ascii.eqb Bool.eqb].
    rewrite Hn. cbn [call bind ret]. by destruct (n =? 0)%nat.
  - unfold framed. intros H. apply (f_equal (String.get 0)) in H.
    by vm_compute in H.
Qed.

(** C4. For a request whose options parse and whose pattern is within
    the length limit, the reply is [400 BAD-REQUEST pattern too
    complex: <reason>] exactly when the pattern has more question
    marks than the effective [max_questions] or more stars than the
    effective [max_stars]; under memory pressure each effective limit
    is the configured one halved, and at least 1. Both servers. *)
Theorem complexity_reply (line : string) (r : request) :
  let limits := _effective_complexity_limits (_memory_pressure_handler mem) CFG in
  let over :=
    max_questions limits < Z.of_nat (count "?" (pattern r))
    \/ max_stars limits < Z.of_nat (count "*" (pattern r)) in
  let complex_reply (o : option outcome) :=
    exists reason,
      o = Some (Reply (TOO_COMPLEX +:+ reason +:+ nl +:+ "END" +:+ nl)) in
  (len (pattern r) <= max_pattern_length)%nat ->
  (parse_threaded stats_text default_mode line = ret r ->
   (complex_reply (threaded line) <-> over))
  /\ (parse_basic stats_text line = ret r ->
      (complex_reply (basic line) <-> over))
  /\ _effective_complexity_limits true CFG
     = {| max_questions := Z.max 1 (max_questions CFG / 2);
          max_stars := Z.max 1 (max_stars CFG / 2) |}
  /\ _effective_complexity_limits false CFG = CFG.
Proof.
  intros limits over complex_reply Hlen.
  assert ((max_pattern_length <? len (pattern r))%nat = false) as Hlen'
    by (apply Nat.ltb_ge; lia).
  pose proof (ServerFacts.complexity_guard_spec CFG
                (_memory_pressure_handler mem) (pattern r)) as [Hover Hunder].
  fold limits in Hover, Hunder. fold over in Hover, Hunder.
  assert (over \/ ~ over) as Hdec by (unfold over; lia).
  split_and!; [| |done|done].
  - intros Hp. unfold threaded, handle_line. rewrite Hp. cbn [bind ret].
    unfold guard_threaded. rewrite Hlen'. split.
    + intros [reason Hr]. destruct Hdec as [?|Hn]; [done|].
      rewrite (Hunder Hn) in Hr. cbn [bind ret] in Hr.
      apply ServerFacts.execute_threaded_text in Hr as (text & [= <-] & Hpre).
      by rewrite ServerFacts.prefix_app in Hpre.
    + intros Ho. destruct (Hover Ho) as (reason & -> & _). by exists reason.
  - intros Hp. unfold basic, serve_once. rewrite Hp. cbn [bind ret].
    unfold guard_basic. rewrite Hlen'. split.
    + intros [reason Hr]. destruct Hdec as [?|Hn]; [done|].
      rewrite (Hunder Hn) in Hr. cbn [bind ret] in Hr.
      apply ServerFacts.execute_basic_text in Hr as (text & [= <-] & Hpre).
      by rewrite ServerFacts.prefix_app in Hpre.
    + intros Ho. destruct (Hover Ho) as (reason & -> & _). by exists reason.
Qed.

(** C8, amended. On the threaded server, when the remainder left after
    the encoding and RANGE options holds [ --mode ] and the text after
    its last occurrence, trimmed and in lower case, is neither [exact]
    nor [partial], the reply is [400 BAD-REQUEST invalid mode] if some
    text stands before that occurrence and [400 BAD-REQUEST expected
    'FIND <pattern>'] if none does. On the basic server every such
    tail other than [exact], [partial] included, is answered
    [400 BAD-REQUEST mode not supported]. *)
Theorem mode_reply (line c rest : string) (gz : bool) (off : Z)
    (lim : option Z) (pattern_part mode_part : string) :
  contains " --mode " rest = true ->
  rsplit1 " --mode " rest = [pattern_part; mode_part] ->
  (line <> "" ->
   read_command stats_text COMMANDS_THREADED line = ret (c, rest, gz, off, lim) ->
   one_of (lower (strip mode_part)) ["exact"; "partial"] = false ->
   threaded line
   = Some (Reply (if String.eqb pattern_part ""
                  then framed "400 BAD-REQUEST expected 'FIND <pattern>'"
                  else framed "400 BAD-REQUEST invalid mode")))
  /\ (read_command stats_text COMMANDS_BASIC line = ret (c, rest, gz, off, lim) ->
      lower (strip mode_part) <> "exact" ->
      basic line = Some (Reply (framed "400 BAD-REQUEST mode not supported"))).
Proof.
  intros Hin Hsplit. split.
  - intros Hline Hread Hmode.
    unfold threaded, handle_line, parse_threaded.
    apply String.eqb_neq in Hline. rewrite Hline, Hread. cbn [bind ret].
    unfold read_mode_threaded. rewrite Hin, Hsplit.
    destruct (String.eqb pattern_part ""); [done|]. by rewrite Hmode.
  - intros Hread Hmode.
    unfold basic, serve_once, parse_basic. rewrite Hread. cbn [bind ret].
    unfold read_mode_basic. rewrite Hin, Hsplit.
    apply String.eqb_neq in Hmode. by rewrite Hmode.
Qed.

(** C10. A FIND or FIND_MULTI request with a RANGE whose window holds
    none of the matches, its offset at or past their end or its limit
    0, is answered [404 NOT-FOUND 0] whatever the matches are: the test
    for an empty result comes after the cut. Both servers. *)
Theorem empty_page_reply (line : string) (r : request) (ms : list string)
    (l : Z) :
  one_of (cmd r) ["FIND"; "FIND_MULTI"] = true ->
  limit r = Some l ->
  Z.of_nat (length ms) <= offset r \/ l = 0 ->
  (parse_threaded stats_text default_mode line = ret r ->
   guard_threaded CFG mem max_pattern_length r = ret tt ->
   matches_threaded hash g index r = ret ms ->
   threaded line = Some (Reply (framed "404 NOT-FOUND 0")))
  /\ (parse_basic stats_text line = ret r ->
      guard_basic CFG mem max_pattern_length r = ret tt ->
      matches_basic hash g index r = ret ms ->
      basic line = Some (Reply (framed "404 NOT-FOUND 0"))).
Proof.
  intros Hcmd Hlim Hwin.
  assert (paginate ms (offset r) (limit r) = []) as Hpage.
  { rewrite Hlim. unfold paginate, slice.
    destruct Hwin as [Hoff| ->]; [|done].
    destruct (Z.ltb_spec (offset r) 0); [lia|].
    rewrite drop_ge by lia. by destruct (Z.to_nat _). }
  assert (send_matches encode_utf8 gzip_compress ms r = Reply NOT_FOUND) as Hsend
    by (unfold send_matches; by rewrite Hpage).
  split; intros Hp Hg Hm.
  - unfold threaded. erewrite ServerFacts.find_reply_threaded by done.
    by rewrite Hsend.
  - unfold basic. erewrite ServerFacts.find_reply_basic by done.
    by rewrite Hsend.
Qed.

End ServerClaims.

(** ** Base64 *)

Module CodecFacts.
Import Codec.

Lemma b64_val_char b0 b1 b2 b3 b4 b5 :
  b64_val (b64_char (sextet b0 b1 b2 b3 b4 b5)) = Some (sextet b0 b1 b2 b3 b4 b5).
Proof. by destruct b0, b1, b2, b3, b4, b5. Qed.

Lemma b64_val_pad : b64_val PAD = None.
Proof. done. Qed.

Lemma b64_char_not_LF s : Ascii.eqb (b64_char s) LF = false.
Proof. by destruct s as [[] [] [] [] [] [] [] []]. Qed.

(** Decoding undoes encoding. *)
Lemma b64_roundtrip_upto n data :
  (length data <= n)%nat -> b64decode (b64encode data) = Some data.
Proof.
  revert data. induction n as [|n IH]; intros data Hlen.
  { destruct data; [done|cbn in Hlen; lia]. }
  destruct data as [|[a0 a1 a2 a3 a4 a5 a6 a7] data]; [done|].
  destruct data as [|[b0 b1 b2 b3 b4 b5 b6 b7] data].
  { cbn [b64encode b64decode]. rewrite !b64_val_char, b64_val_pad. done. }
  destruct data as [|[c0 c1 c2 c3 c4 c5 c6 c7] data].
  { cbn [b64encode b64decode]. rewrite !b64_val_char, b64_val_pad. done. }
  cbn [b64encode b64decode]. rewrite !b64_val_char.
  cbn [sextet]. rewrite IH by (cbn in Hlen; lia). done.
Qed.

Lemma b64_roundtrip data : b64decode (b64encode data) = Some data.
Proof. by apply (b64_roundtrip_upto (length data)). Qed.

(** The encoded text has no line feed in it. *)
Lemma b64_no_LF_upto n data :
  (length data <= n)%nat ->
  existsb (fun c => Ascii.eqb c LF) (b64encode data) = false.
Proof.
  revert data. induction n as [|n IH]; intros data Hlen.
  { destruct data; [done|cbn in Hlen; lia]. }
  destruct data as [|[a0 a1 a2 a3 a4 a5 a6 a7] data]; [done|].
  destruct data as [|[b0 b1 b2 b3 b4 b5 b6 b7] data].
  { cbn [b64encode existsb]. by rewrite !b64_char_not_LF. }
  destruct data as [|[c0 c1 c2 c3 c4 c5 c6 c7] data].
  { cbn [b64encode existsb]. by rewrite !b64_char_not_LF. }
  cbn [b64encode existsb]. rewrite !b64_char_not_LF.
  cbn [orb]. apply IH. cbn in Hlen. lia.
Qed.

Lemma b64_one_line data :
  has_char LF (string_of_list_ascii (b64encode data)) = false.
Proof.
  unfold has_char, chars. rewrite list_ascii_of_string_of_list_ascii.
  by apply (b64_no_LF_upto (length data)).
Qed.

End CodecFacts.

Example b64_hello :
  string_of_list_ascii (Codec.b64encode (list_ascii_of_string "hello")) = "aGVsbG8="
  /\ Codec.b64decode (list_ascii_of_string "TWE=") = Some (list_ascii_of_string "Ma").
Proof. split; reflexivity. Qed.

(** ** The compressed reply *)

Section GzipClaim.
Import Server Codec.
Variable hash : string -> Z.
Variables g0 g : Globals.t.
Variable ws : list string.
Variable stats_text : string.
Variable json_string_list : string -> option (list string).
Variable encode_utf8 : string -> bytes.
Variable gzip_compress : bytes -> bytes.
(** [gzip.decompress], on the client side; [None] when it raises. *)
Variable gunzip : bytes -> option bytes.
Variable CFG : complexity.
Variable mem : memory.
Variable max_pattern_length : nat.
Variable default_mode : string.

Let index := (WordIndex_init hash g0 ws).1.

(** C6. When gzip was negotiated and the page of matches is not
    empty, the reply of a FIND or FIND_MULTI request is the status
    line [200 OK 1], one body line [GZIP <base64>] and [END]; the
    base64 text holds no line feed, and decoding it and then
    decompressing gives back the bytes of the page's words joined by
    line feeds, the words the plain reply lists one per line. Both
    servers. [gzip.decompress] is taken to undo [gzip.compress]. *)
Theorem gzip_reply (line : string) (r : request) (ms page : list string) :
  (forall data, gunzip (gzip_compress data) = Some data) ->
  one_of (cmd r) ["FIND"; "FIND_MULTI"] = true ->
  request_gzip r = true ->
  paginate ms (offset r) (limit r) = page ->
  page <> [] ->
  let payload := encode_utf8 (join nl page) in
  let b64 := string_of_list_ascii (b64encode (gzip_compress payload)) in
  let reply :=
    Some (Reply ("200 OK 1" +:+ nl +:+ "GZIP " +:+ b64 +:+ nl +:+ "END" +:+ nl)) in
  (parse_threaded stats_text default_mode line = ret r ->
   guard_threaded CFG mem max_pattern_length r = ret tt ->
   matches_threaded hash g index r = ret ms ->
   handle_line hash g index stats_text json_string_list encode_utf8
     gzip_compress CFG mem max_pattern_length default_mode line = reply)
  /\ (parse_basic stats_text line = ret r ->
      guard_basic CFG mem max_pattern_length r = ret tt ->
      matches_basic hash g index r = ret ms ->
      serve_once hash g index stats_text encode_utf8 gzip_compress CFG mem
        max_pattern_length line = reply)
  /\ has_char LF b64 = false
  /\ b64decode (chars b64) ≫= gunzip = Some payload
  /\ send_matches encode_utf8 gzip_compress ms
       {| cmd := cmd r; pattern := pattern r; req_mode := req_mode r;
          request_gzip := false; offset := offset r; limit := limit r |}
     = Reply ("200 OK " +:+ str_of_nat (length page) +:+ nl
              +:+ String.concat "" (map (fun w => w +:+ nl) page)
              +:+ "END" +:+ nl).
Proof.
  intros Hgz Hcmd Hflag Hpage Hne payload b64 reply.
  assert ((length page =? 0)%nat = false) as Hlen
    by (destruct page; [done|by cbn]).
  assert (send_matches encode_utf8 gzip_compress ms r
          = Reply ("200 OK 1" +:+ nl +:+ "GZIP " +:+ b64 +:+ nl +:+ "END" +:+ nl))
    as Hsend by (unfold send_matches; by rewrite Hpage, Hlen, Hflag).
  split_and!.
  - intros Hp Hg Hm. erewrite ServerFacts.find_reply_threaded by done.
    by rewrite Hsend.
  - intros Hp Hg Hm. erewrite ServerFacts.find_reply_basic by done.
    by rewrite Hsend.
  - apply CodecFacts.b64_one_line.
  - unfold b64, chars. rewrite list_ascii_of_string_of_list_ascii.
    rewrite CodecFacts.b64_roundtrip. apply Hgz.
  - unfold send_matches. cbn [offset limit request_gzip].
    by rewrite Hpage, Hlen.
Qed.

End GzipClaim.

(** ** The claims on the servers, run on the sample deployment *)

Lemma fixture_matches_ell gz off lim :
  Server.matches_threaded sample_hash fixture_globals fixture_index
    {| Server.cmd := "FIND"; Server.pattern := "ell";
       Server.req_mode := "partial"; Server.request_gzip := gz;
       Server.offset := off; Server.limit := lim |}
  = Server.ret ["hello"; "heLLo"; "shell"; "hell"].
Proof.
  unfold Server.matches_threaded, Server.find_in_mode.
  cbn [Server.cmd Server.pattern Server.req_mode].
  change (String.eqb "FIND" "FIND_MULTI") with false.
  change (String.eqb "partial" "exact") with false. cbv iota.
  by rewrite (proj1 fixture_partial_ell).
Qed.

Example threaded_find_ell :
  sample_threaded "partial" "FIND ell"
  = Some (Server.Reply
            ("200 OK 4" +:+ nl +:+ "hello" +:+ nl +:+ "heLLo" +:+ nl
             +:+ "shell" +:+ nl +:+ "hell" +:+ nl +:+ "END" +:+ nl)).
Proof.
  unfold sample_threaded.
  rewrite (ServerFacts.find_reply_threaded sample_hash fixture_globals
             fixture_index "" sample_json sample_utf8 sample_gzip
             Server.CFG_COMPLEXITY_default sample_memory 1000 "partial"
             "FIND ell"
             {| Server.cmd := "FIND"; Server.pattern := "ell";
                Server.req_mode := "partial"; Server.request_gzip := false;
                Server.offset := 0; Server.limit := None |}
             ["hello"; "heLLo"; "shell"; "hell"]);
    [reflexivity|reflexivity|reflexivity|reflexivity|apply fixture_matches_ell].
Qed.

Lemma fixture_matches_multi gz off lim :
  Server.matches_threaded sample_hash fixture_globals fixture_index
    {| Server.cmd := "FIND_MULTI"; Server.pattern := "h?llo world";
       Server.req_mode := "exact"; Server.request_gzip := gz;
       Server.offset := off; Server.limit := lim |}
  = Server.ret ["hello"; "hallo"; "hxllo"; "heLLo"; "world"].
Proof.
  unfold Server.matches_threaded, Server.find_in_mode.
  cbn [Server.cmd Server.pattern Server.req_mode].
  change (String.eqb "FIND_MULTI" "FIND_MULTI") with true.
  change (String.eqb "exact" "exact") with true. cbv iota.
  change (split (strip "h?llo world")) with ["h?llo"; "world"].
  cbn [Server.find_multi].
  rewrite (proj1 fixture_exact_question). cbn [mbind option_bind].
  destruct (Server.merge_unseen ["hello"; "hallo"; "hxllo"; "heLLo"] ∅ [])
    as [seen out] eqn:Hmerge.
  vm_compute in Hmerge. injection Hmerge as <- <-.
  rewrite fixture_exact_world. cbn [mbind option_bind].
  reflexivity.
Qed.

Example threaded_find_multi_range :
  sample_threaded "exact" "FIND_MULTI h?llo world RANGE 0 2"
  = Some (Server.Reply
            ("200 OK 2" +:+ nl +:+ "hello" +:+ nl +:+ "hallo" +:+ nl
             +:+ "END" +:+ nl)).
Proof.
  unfold sample_threaded.
  rewrite (ServerFacts.find_reply_threaded sample_hash fixture_globals
             fixture_index "" sample_json sample_utf8 sample_gzip
             Server.CFG_COMPLEXITY_default sample_memory 1000 "exact"
             "FIND_MULTI h?llo world RANGE 0 2"
             {| Server.cmd := "FIND_MULTI"; Server.pattern := "h?llo world";
                Server.req_mode := "exact"; Server.request_gzip := false;
                Server.offset := 0; Server.limit := Some 2 |}
             ["hello"; "hallo"; "hxllo"; "heLLo"; "world"]);
    [reflexivity|reflexivity|reflexivity|reflexivity|apply fixture_matches_multi].
Qed.

Lemma count_exact_abc :
  count_exact sample_hash fixture_globals fixture_index "abc" = Some 0%nat.
Proof. unfold count_exact. by destruct (should_skip_pattern _ _ _). Defined.

Lemma count_reply_witness :
  sample_threaded "partial" "COUNT h?llo --mode exact"
  = Some (Server.Reply (Server.framed "200 OK 4"))
  /\ sample_basic "COUNT abc"
     = Some (Server.Reply (Server.framed "404 NOT-FOUND 0")).
Proof.
  split.
  - apply (proj1 (count_reply sample_hash Globals.initial fixture_globals fixture
                    "" sample_json sample_utf8 sample_gzip
                    Server.CFG_COMPLEXITY_default sample_memory 1000 "partial"
                    "COUNT h?llo --mode exact"
                    {| Server.cmd := "COUNT"; Server.pattern := "h?llo";
                       Server.req_mode := "exact"; Server.request_gzip := false;
                       Server.offset := 0; Server.limit := None |} 4));
      [reflexivity|reflexivity|reflexivity|exact (proj2 fixture_exact_question)].
  - apply (proj1 (proj2
             (count_reply sample_hash Globals.initial fixture_globals fixture
                "" sample_json sample_utf8 sample_gzip
                Server.CFG_COMPLEXITY_default sample_memory 1000 "partial"
                "COUNT abc"
                {| Server.cmd := "COUNT"; Server.pattern := "abc";
                   Server.req_mode := "exact"; Server.request_gzip := false;
                   Server.offset := 0; Server.limit := None |} 0)));
      [reflexivity|reflexivity|reflexivity|exact count_exact_abc].
Defined.

Lemma complexity_reply_witness :
  let cfg := {| Server.max_questions := 4; Server.max_stars := 50 |} in
  let pressed := {| Server.limit_mb := 1; Server.rss := Some 2000000 |} in
  let r := {| Server.cmd := "FIND"; Server.pattern := "h???o";
              Server.req_mode := "partial"; Server.request_gzip := false;
              Server.offset := 0; Server.limit := None |} in
  (len (Server.pattern r) <= 1000)%nat
  /\ Server.parse_threaded "" "partial" "FIND h???o" = Server.ret r
  /\ Server._effective_complexity_limits
       (Server._memory_pressure_handler pressed) cfg
     = {| Server.max_questions := 2; Server.max_stars := 25 |}
  /\ exists reason,
       Server.handle_line sample_hash fixture_globals fixture_index ""
         sample_json sample_utf8 sample_gzip cfg pressed 1000 "partial"
         "FIND h???o"
       = Some (Server.Reply
                 (Server.TOO_COMPLEX +:+ reason +:+ nl +:+ "END" +:+ nl)).
Proof.
  intros cfg pressed r.
  assert (len (Server.pattern r) <= 1000)%nat as Hlen by (vm_compute; lia).
  split_and!; [done|vm_compute; reflexivity..|].
  destruct (complexity_reply sample_hash Globals.initial fixture_globals fixture
              "" sample_json sample_utf8 sample_gzip cfg pressed 1000 "partial"
              "FIND h???o" r Hlen) as (Ht & _).
  apply Ht; [vm_compute; reflexivity|]. left. vm_compute. reflexivity.
Defined.

(** C8, as stated, fails. The basic server answers a tail that is
    neither [exact] nor [partial] with [mode not supported], and the
    threaded server answers [expected 'FIND <pattern>'] when nothing
    stands before [ --mode ]: neither reply is [invalid mode]. *)
Lemma unknown_mode_other_replies :
  contains " --mode " "h?llo --mode fuzzy" = true
  /\ rsplit1 " --mode " "h?llo --mode fuzzy" = ["h?llo"; "fuzzy"]
  /\ sample_basic "FIND h?llo --mode fuzzy"
     = Some (Server.Reply (Server.framed "400 BAD-REQUEST mode not supported"))
  /\ sample_basic "FIND h?llo --mode fuzzy"
     <> Some (Server.Reply (Server.framed "400 BAD-REQUEST invalid mode"))
  /\ rsplit1 " --mode " " --mode fuzzy" = [""; "fuzzy"]
  /\ sample_threaded "exact" "FIND  --mode fuzzy"
     = Some (Server.Reply
               (Server.framed "400 BAD-REQUEST expected 'FIND <pattern>'"))
  /\ sample_threaded "exact" "FIND  --mode fuzzy"
     <> Some (Server.Reply (Server.framed "400 BAD-REQUEST invalid mode")).
Proof.
  split_and!; try (vm_compute; reflexivity); vm_compute; discriminate.
Qed.

Lemma mode_reply_witness :
  contains " --mode " "h?llo --mode fuzzy" = true
  /\ rsplit1 " --mode " "h?llo --mode fuzzy" = ["h?llo"; "fuzzy"]
  /\ Server.read_command "" Server.COMMANDS_THREADED "FIND h?llo --mode fuzzy"
     = Server.ret ("FIND", "h?llo --mode fuzzy", false, 0, None)
  /\ sample_threaded "exact" "FIND h?llo --mode fuzzy"
     = Some (Server.Reply (Server.framed "400 BAD-REQUEST invalid mode"))
  /\ sample_basic "FIND h?llo --mode fuzzy"
     = Some (Server.Reply (Server.framed "400 BAD-REQUEST mode not supported")).
Proof.
  assert (contains " --mode " "h?llo --mode fuzzy" = true) as Hin
    by (vm_compute; reflexivity).
  assert (rsplit1 " --mode " "h?llo --mode fuzzy" = ["h?llo"; "fuzzy"]) as Hsplit
    by (vm_compute; reflexivity).
  destruct (mode_reply sample_hash Globals.initial fixture_globals fixture
              "" sample_json sample_utf8 sample_gzip
              Server.CFG_COMPLEXITY_default sample_memory 1000 "exact"
              "FIND h?llo --mode fuzzy" "FIND" "h?llo --mode fuzzy" false 0 None
              "h?llo" "fuzzy" Hin Hsplit) as [Ht Hb].
  split_and!; [done|done|vm_compute; reflexivity| |].
  - apply Ht; [discriminate|vm_compute; reflexivity..].
  - apply Hb; [vm_compute; reflexivity|vm_compute; discriminate].
Defined.

Lemma empty_page_reply_witness :
  let r := {| Server.cmd := "FIND"; Server.pattern := "ell";
              Server.req_mode := "partial"; Server.request_gzip := false;
              Server.offset := 4; Server.limit := Some 2 |} in
  let ms := ["hello"; "heLLo"; "shell"; "hell"] in
  Server.parse_threaded "" "partial" "FIND ell RANGE 4 2" = Server.ret r
  /\ Server.matches_threaded sample_hash fixture_globals fixture_index r
     = Server.ret ms
  /\ Z.of_nat (length ms) <= Server.offset r
  /\ sample_threaded "partial" "FIND ell RANGE 4 2"
     = Some (Server.Reply (Server.framed "404 NOT-FOUND 0")).
Proof.
  intros r ms.
  assert (Z.of_nat (length ms) <= Server.offset r) as Hwin by (vm_compute; discriminate).
  split_and!; [reflexivity|apply fixture_matches_ell|done|].
  apply (proj1 (empty_page_reply sample_hash Globals.initial fixture_globals
                  fixture "" sample_json sample_utf8 sample_gzip
                  Server.CFG_COMPLEXITY_default sample_memory 1000 "partial"
                  "FIND ell RANGE 4 2" r ms 2 eq_refl eq_refl (or_introl Hwin)));
    [reflexivity|reflexivity|apply fixture_matches_ell].
Defined.

Lemma gzip_reply_witness :
  let r := {| Server.cmd := "FIND"; Server.pattern := "ell";
              Server.req_mode := "partial"; Server.request_gzip := true;
              Server.offset := 1; Server.limit := Some 2 |} in
  let ms := ["hello"; "heLLo"; "shell"; "hell"] in
  let page := ["heLLo"; "shell"] in
  let line := "FIND ell RANGE 1 2 --accept-encoding gzip" in
  (forall data, sample_gunzip (sample_gzip data) = Some data)
  /\ Server.parse_threaded "" "partial" line = Server.ret r
  /\ Server.paginate ms (Server.offset r) (Server.limit r) = page
  /\ sample_threaded "partial" line
     = Some (Server.Reply
               ("200 OK 1" +:+ nl +:+ "GZIP H4toZUxMbwpzaGVsbA==" +:+ nl
                +:+ "END" +:+ nl))
  /\ Codec.b64decode (chars "H4toZUxMbwpzaGVsbA==") ≫= sample_gunzip
     = Some (sample_utf8 (join nl page)).
Proof.
  intros r ms page line.
  assert (forall data, sample_gunzip (sample_gzip data) = Some data) as Hgz
    by (intros data; reflexivity).
  assert (page <> []) as Hne by discriminate.
  destruct (gzip_reply sample_hash Globals.initial fixture_globals fixture ""
              sample_json sample_utf8 sample_gzip sample_gunzip
              Server.CFG_COMPLEXITY_default sample_memory 1000 "partial"
              line r ms page Hgz eq_refl eq_refl eq_refl Hne)
    as (Ht & _ & _ & Hround & _).
  split_and!; [done|reflexivity|reflexivity| |].
  - etransitivity;
      [apply Ht; [reflexivity|reflexivity|apply fixture_matches_ell]|].
    reflexivity.
  - exact Hround.
Defined.

(** ** What a match tells about the word *)

Module MatchFacts.
Import Re PyFacts ReFacts CaseFacts.

Lemma sapp_nil_r s : s +:+ "" = s.
Proof. induction s as [|c s IH]; [done|]. by rewrite sapp_cons, IH. Qed.

Lemma len_sapp s t : len (s +:+ t) = (len s + len t)%nat.
Proof.
  induction s as [|c s IH]; [by rewrite sapp_nil_l|].
  rewrite sapp_cons. unfold len in *. simpl. by rewrite IH.
Qed.

Lemma chars_sapp s t : chars (s +:+ t) = chars s ++ chars t.
Proof.
  induction s as [|c s IH]; [by rewrite sapp_nil_l|].
  rewrite sapp_cons. unfold chars in *. simpl. by rewrite IH.
Qed.

Lemma lower_sapp s t : lower (s +:+ t) = lower s +:+ lower t.
Proof.
  induction s as [|c s IH]; [by rewrite !sapp_nil_l|].
  rewrite sapp_cons. simpl. by rewrite IH, sapp_cons.
Qed.

(** The items at the end of a pattern match a tail of the subject. *)
Lemma match_split full i1 i2 :
  forall at_start s,
    match_here full (i1 ++ i2) at_start s = true ->
    exists s1 s2 at', s = s1 +:+ s2 /\ match_here full i2 at' s2 = true.
Proof.
  induction i1 as [|i i1 IH]; intros at_start s H.
  - exists "", s, at_start. by rewrite sapp_nil_l.
  - destruct i as [| |a|a].
    + simpl in H. apply andb_true_iff in H as [_ H]. by eapply IH.
    + simpl in H. apply andb_true_iff in H as [_ H]. by eapply IH.
    + simpl in H. destruct s as [|c s']; [done|].
      apply andb_true_iff in H as [_ H].
      destruct (IH _ _ H) as (s1 & s2 & at' & -> & Hm).
      exists (String c s1), s2, at'. by rewrite sapp_cons.
    + change ((Star a :: i1) ++ i2) with (Star a :: (i1 ++ i2)) in H.
      revert at_start H. induction s as [|c s' IHs]; intros at_start H.
      * rewrite match_here_star in H. rewrite orb_false_r in H. by eapply IH.
      * rewrite match_here_star in H. apply orb_true_iff in H as [H|H].
        -- by eapply IH.
        -- apply andb_true_iff in H as [_ H].
           destruct (IHs _ H) as (s1 & s2 & at' & -> & Hm).
           exists (String c s1), s2, at'. by rewrite sapp_cons.
Qed.

Lemma search_split rx :
  forall at_start s,
    search_from rx at_start s = true ->
    exists s1 s2 at', s = s1 +:+ s2 /\ match_here false rx at' s2 = true.
Proof.
  intros at_start s. revert at_start.
  induction s as [|c s IH]; intros at_start H; simpl in H.
  - rewrite orb_false_r in H. exists "", "", at_start. by rewrite sapp_nil_l.
  - apply orb_true_iff in H as [H|H].
    + exists "", (String c s), at_start. by rewrite sapp_nil_l.
    + destruct (IH _ H) as (s1 & s2 & at' & -> & Hm).
      exists (String c s1), s2, at'. by rewrite sapp_cons.
Qed.

(** A match takes one character for every [One]. *)
Lemma match_width full items :
  forall at_start s,
    match_here full items at_start s = true -> (min_width items <= len s)%nat.
Proof.
  unfold min_width.
  induction items as [|i items IH]; intros at_start s H; [simpl; lia|].
  destruct i as [| |a|a]; simpl in H |- *.
  - apply andb_true_iff in H as [_ H]. by eapply IH.
  - apply andb_true_iff in H as [_ H]. by eapply IH.
  - destruct s as [|c s']; [done|].
    apply andb_true_iff in H as [_ H]. apply IH in H. unfold len in *. simpl. lia.
  - change (match_here full (Star a :: items) at_start s = true) in H.
    revert at_start H. induction s as [|c s' IHs]; intros at_start H.
    + rewrite match_here_star, orb_false_r in H. by eapply IH.
    + rewrite match_here_star in H. apply orb_true_iff in H as [H|H].
      * by eapply IH.
      * apply andb_true_iff in H as [_ H]. apply IHs in H.
        unfold len in *. simpl. lia.
Qed.

Lemma search_width rx :
  forall at_start s,
    search_from rx at_start s = true -> (min_width rx <= len s)%nat.
Proof.
  intros at_start s H.
  destruct (search_split _ _ _ H) as (s1 & s2 & at' & -> & Hm).
  apply match_width in Hm. rewrite len_sapp. lia.
Qed.

Lemma min_width_app l1 l2 : min_width (l1 ++ l2) = (min_width l1 + min_width l2)%nat.
Proof. unfold min_width. by rewrite map_app, list_sum_app. Qed.

Lemma token_plain allow ch : is_wild ch = false -> token allow ch = One (Lit ch).
Proof.
  unfold is_wild, token. intros H. apply orb_false_iff in H as [-> ->].
  simpl. by destruct (_ || _).
Qed.

Lemma min_width_tokens_star p : min_width (tokens true p) = min_len_of p.
Proof.
  unfold min_width, tokens, min_len_of.
  induction (chars p) as [|c l IH]; [done|].
  simpl. rewrite IH. unfold token.
  destruct (has_char c _ || Ascii.eqb c BACKSLASH) eqn:Hm.
  - assert (Ascii.eqb c "*" = false) as ->; [|done].
    destruct (Ascii.eqb_spec c "*") as [->|]; [|done]. by vm_compute in Hm.
  - destruct (Ascii.eqb_spec c "?") as [->|]; [done|].
    rewrite andb_true_r. by destruct (Ascii.eqb c "*").
Qed.

Lemma min_width_tokens_plain p : min_width (tokens false p) = len p.
Proof.
  unfold min_width, tokens. rewrite <- chars_length.
  induction (chars p) as [|c l IH]; [done|].
  simpl. rewrite IH. unfold token. rewrite andb_false_r.
  by repeat case_match.
Qed.

Lemma tokens_no_star p : has_char "*" p = false -> tokens true p = tokens false p.
Proof.
  unfold tokens, has_char.
  induction (chars p) as [|c l IH]; [done|].
  simpl. intros H. apply orb_false_iff in H as [Hc Hl].
  rewrite IH by done. f_equal. unfold token. by rewrite Hc.
Qed.

End MatchFacts.

(** ** The prefilter against the brute-force matchers *)

Module CoverFacts.
Import Re PyFacts ReFacts CaseFacts MatchFacts Globals.

Lemma compile_pattern_exact p :
  compile_pattern p "exact" = Some (Bol :: tokens true p ++ [Eol]).
Proof. apply compile_anchored. Qed.

Lemma compile_pattern_other p mode :
  mode <> "exact" ->
  compile_pattern p mode = Some (Star Any :: tokens true p ++ [Star Any]).
Proof.
  intros Hm. unfold compile_pattern.
  destruct (String.eqb_spec mode "exact") as [->|_]; [done|].
  apply (compile_wrapped true p). by left.
Qed.

Lemma is_wild_lower c : is_wild (lower_char c) = is_wild c.
Proof. unfold is_wild. by rewrite lower_char_star, lower_char_question. Qed.

Lemma bigrams_adjacent s bg :
  bg ∈ bigrams s ->
  exists a b pre post, chars s = pre ++ a :: b :: post /\ bg = String a (String b "").
Proof.
  induction s as [|a s IH]; [by intros ?%elem_of_nil|].
  destruct s as [|b s]; [by intros ?%elem_of_nil|].
  intros [->|H]%elem_of_cons.
  - by exists a, b, [], (chars s).
  - destruct (IH H) as (a' & b' & pre & post & Hc & ->).
    exists a', b', (a :: pre), post. split; [|done].
    change (chars (String a (String b s))) with (a :: chars (String b s)).
    by rewrite Hc.
Qed.

Lemma adjacent_bigram s pre a b post :
  chars s = pre ++ a :: b :: post -> String a (String b "") ∈ bigrams s.
Proof.
  revert s. induction pre as [|x pre IH]; intros s H.
  - destruct s as [|a' [|b' s]]; try done.
    injection H as -> -> _. apply elem_of_cons. by left.
  - destruct s as [|x' s]; [done|]. injection H as -> H.
    destruct s as [|y s]; [by destruct pre|].
    change (bigrams (String x (String y s)))
      with (String x (String y "") :: bigrams (String y s)).
    apply elem_of_cons. right. by apply IH.
Qed.

(** The bigrams of the letter segments are pairs of neighbours of the
    pattern, neither of them a wildcard. *)
Lemma segments_adjacent q :
  forall cur seg bg,
    forallb (fun c => negb (is_wild c)) (chars cur) = true ->
    seg ∈ _letter_segments_go q cur -> bg ∈ bigrams seg ->
    exists a b pre post,
      chars cur ++ q = pre ++ a :: b :: post
      /\ is_wild a = false /\ is_wild b = false
      /\ bg = String a (String b "").
Proof.
  assert (forall cur bg rest,
             forallb (fun c => negb (is_wild c)) (chars cur) = true ->
             bg ∈ bigrams cur ->
             exists a b pre post,
               chars cur ++ rest = pre ++ a :: b :: post
               /\ is_wild a = false /\ is_wild b = false
               /\ bg = String a (String b "")) as Hcur.
  { intros cur bg rest Hall Hbg.
    destruct (bigrams_adjacent _ _ Hbg) as (a & b & pre & post & Hc & ->).
    rewrite Hc in Hall. rewrite forallb_app in Hall.
    apply andb_true_iff in Hall as [_ Hall]. simpl in Hall.
    apply andb_true_iff in Hall as [Ha Hall].
    apply andb_true_iff in Hall as [Hb _].
    exists a, b, pre, (post ++ rest). rewrite Hc, <- app_assoc.
    split_and!; [done|by apply negb_true_iff..|done]. }
  induction q as [|ch q IH]; intros cur seg bg Hall Hseg Hbg; simpl in Hseg.
  - destruct (String.eqb cur ""); [by apply elem_of_nil in Hseg|].
    apply list_elem_of_singleton in Hseg as ->. by apply Hcur.
  - destruct (is_wild ch) eqn:Hw.
    + assert (seg ∈ _letter_segments_go q "" ->
              exists a b pre post,
                chars cur ++ ch :: q = pre ++ a :: b :: post
                /\ is_wild a = false /\ is_wild b = false
                /\ bg = String a (String b "")) as Hrest.
      { intros Hs. destruct (IH "" seg bg eq_refl Hs Hbg)
          as (a & b & pre & post & Hq & Ha & Hb & ->).
        simpl in Hq. exists a, b, (chars cur ++ ch :: pre), post.
        rewrite Hq, <- app_assoc. done. }
      destruct (String.eqb cur ""); [by apply Hrest|].
      apply elem_of_cons in Hseg as [->|Hseg]; [by apply Hcur|by apply Hrest].
    + assert (forallb (fun c => negb (is_wild c)) (chars (cur +:+ String ch "")) = true)
        as Hall'.
      { rewrite chars_sapp, forallb_app, Hall. simpl. by rewrite Hw. }
      destruct (IH _ seg bg Hall' Hseg Hbg)
        as (a & b & pre & post & Hq & Ha & Hb & ->).
      exists a, b, pre, post. rewrite <- Hq, chars_sapp, <- app_assoc. done.
Qed.

Lemma has_char_chars c s : has_char c s = true <-> c ∈ chars s.
Proof.
  unfold has_char. rewrite existsb_exists. split.
  - intros (x & Hin & ->%Ascii.eqb_eq). by apply list_elem_of_In.
  - intros Hin. exists c. split; [by apply list_elem_of_In|apply Ascii.eqb_refl].
Qed.

(** A word matched by the items a pattern compiles to holds every
    literal character of the pattern and every pair of neighbouring
    literal characters, case apart. *)
Lemma match_covered allow p pre post full at_start s s0 w ws :
  w ∈ ws -> w = s0 +:+ s ->
  match_here full (pre ++ tokens allow p ++ post) at_start s = true ->
  covered (map lower ws) p = true.
Proof.
  intros Hw Hs Hm. unfold covered.
  assert (In (lower w) (map lower ws)) as Hlw
    by (apply in_map; by apply list_elem_of_In).
  apply andb_true_iff. split.
  - apply forallb_forall. intros ch Hch.
    destruct (is_wild ch) eqn:Hwild; [done|]. simpl.
    apply existsb_exists. exists (lower w). split; [done|].
    rewrite chars_lower in Hch. apply in_map_iff in Hch as (a & <- & Ha).
    rewrite is_wild_lower in Hwild.
    apply in_split in Ha as (l1 & l2 & Hp).
    unfold tokens in Hm. rewrite Hp, map_app in Hm. simpl in Hm.
    rewrite (token_plain _ _ Hwild), <- app_assoc, app_assoc in Hm. simpl in Hm.
    apply match_split in Hm as (s1 & s2 & at' & -> & Hm).
    simpl in Hm. destruct s2 as [|c s2]; [done|].
    apply andb_true_iff in Hm as [Hc%Ascii.eqb_eq _].
    apply has_char_chars. rewrite Hs, !lower_sapp, !chars_sapp. simpl.
    rewrite Hc. set_solver.
  - apply forallb_forall. intros seg Hseg. apply forallb_forall. intros bg Hbg.
    apply existsb_exists. exists (lower w). split; [done|].
    apply bool_decide_eq_true.
    apply list_elem_of_In in Hseg, Hbg.
    destruct (segments_adjacent _ "" seg bg eq_refl Hseg Hbg)
      as (a & b & l1 & l2 & Hq & Ha & Hb & ->).
    simpl in Hq. rewrite chars_lower in Hq.
    apply map_eq_app in Hq as (l1' & r & Hp & <- & Hr).
    apply map_eq_cons in Hr as (a0 & r' & -> & <- & Hr).
    apply map_eq_cons in Hr as (b0 & l2' & -> & <- & <-).
    rewrite is_wild_lower in Ha, Hb.
    unfold tokens in Hm. rewrite Hp, map_app in Hm. simpl in Hm.
    rewrite (token_plain _ _ Ha), (token_plain _ _ Hb), <- app_assoc, app_assoc in Hm.
    simpl in Hm.
    apply match_split in Hm as (s1 & s2 & at' & -> & Hm).
    simpl in Hm. destruct s2 as [|c [|d s2]]; [done| |].
    { by rewrite andb_false_r in Hm. }
    apply andb_true_iff in Hm as [Hc%Ascii.eqb_eq Hm].
    apply andb_true_iff in Hm as [Hd%Ascii.eqb_eq _].
    rewrite Hc, Hd.
    apply (adjacent_bigram _ (chars (lower s0) ++ chars (lower s1)) _ _
             (chars (lower s2))).
    rewrite Hs, !lower_sapp, !chars_sapp. simpl. by rewrite <- app_assoc.
Qed.

Lemma fullmatch_covered p w ws :
  w ∈ ws -> fullmatch (Bol :: tokens true p ++ [Eol]) w = true ->
  covered (map lower ws) p = true.
Proof.
  intros Hw Hm.
  by apply (match_covered true p [Bol] [Eol] true true w "" w ws).
Qed.

Lemma search_covered allow p w ws :
  w ∈ ws -> search (Star Any :: tokens allow p ++ [Star Any]) w = true ->
  covered (map lower ws) p = true.
Proof.
  intros Hw Hm. unfold search in Hm.
  apply search_split in Hm as (s1 & s2 & at' & Hs & Hm).
  by apply (match_covered allow p [Star Any] [Star Any] false at' s2 s1 w ws).
Qed.

End CoverFacts.

(** X1. The prefilter never hides a match, on ASCII text. In a
    process whose first index is built from the corpus [ws], with the
    words of [ws] and the pattern ASCII, a pattern that the
    brute-force matcher of [server_threaded.py] ([compile_pattern]
    with [fullmatch] in exact mode, with [search] otherwise) matches
    against some word of [ws] is not skipped by
    [should_skip_pattern]. *)
Theorem prefilter_keeps_matches (hash : string -> Z) (ws : list string)
    (p mode : string) (rx : list Re.item) (w : string) :
  forallb isascii ws = true -> isascii p = true ->
  p <> "" -> w ∈ ws ->
  compile_pattern p mode = Some rx ->
  (if String.eqb mode "exact" then Re.fullmatch rx w else Re.search rx w) = true ->
  should_skip_pattern hash (WordIndex_init hash Globals.initial ws).2 p = false.
Proof.
  intros Hascii Hpattern Hp Hw Hrx Hm.
  apply SkipFacts.covered_not_skipped; [done|].
  destruct (String.eqb_spec mode "exact") as [->|Hmode].
  - rewrite CoverFacts.compile_pattern_exact in Hrx. injection Hrx as <-.
    by eapply CoverFacts.fullmatch_covered.
  - rewrite CoverFacts.compile_pattern_other in Hrx by done. injection Hrx as <-.
    by eapply CoverFacts.search_covered.
Qed.

Lemma prefilter_keeps_matches_witness :
  forallb isascii fixture = true
  /\ "hello" ∈ fixture
  /\ should_skip_pattern sample_hash fixture_globals "h?l*" = false.
Proof.
  assert ("hello" ∈ fixture) as Hin by (apply elem_of_cons; by left).
  split_and!; [reflexivity|done|].
  apply (prefilter_keeps_matches sample_hash fixture "h?l*" "exact"
           [Re.Bol; Re.One (Re.Lit "h"); Re.One Re.Any; Re.One (Re.Lit "l");
            Re.Star Re.Any; Re.Eol] "hello");
    [reflexivity|reflexivity|discriminate|done|reflexivity|reflexivity].
Defined.

(** ** The length buckets as a partition of the corpus positions *)

Module PartitionFacts.
Import PyFacts BuildFacts BuildInv ScanFacts BuiltFacts.

(** Two ascending lists with the same elements are one list. *)
Lemma sorted_eq (l1 l2 : list nat) :
  StronglySorted lt l1 -> StronglySorted lt l2 ->
  (forall i, i ∈ l1 <-> i ∈ l2) -> l1 = l2.
Proof.
  revert l2. induction l1 as [|a l1 IH]; intros [|b l2] H1 H2 Hiff.
  - done.
  - exfalso. eapply elem_of_nil, Hiff, elem_of_cons. by left.
  - exfalso. eapply elem_of_nil, Hiff, elem_of_cons. by left.
  - apply StronglySorted_inv in H1 as [H1 Ha], H2 as [H2 Hb].
    rewrite Forall_forall in Ha, Hb.
    assert (a = b) as ->.
    { assert (a ∈ b :: l2) as Hab by (apply Hiff, elem_of_cons; by left).
      assert (b ∈ a :: l1) as Hba by (apply Hiff, elem_of_cons; by left).
      apply elem_of_cons in Hab as [?|Hab]; [done|].
      apply elem_of_cons in Hba as [?|Hba]; [done|].
      apply Ha in Hba. apply Hb in Hab. lia. }
    f_equal. apply IH; [done..|].
    intros i. split; intros Hi.
    + assert (i ∈ b :: l2) as [->|?]%elem_of_cons
        by (apply Hiff, elem_of_cons; by right); [|done].
      apply Ha in Hi. lia.
    + assert (i ∈ b :: l1) as [->|?]%elem_of_cons
        by (apply Hiff, elem_of_cons; by right); [|done].
      apply Hb in Hi. lia.
Qed.

Lemma sorted_lt_NoDup (l : list nat) : StronglySorted lt l -> NoDup l.
Proof.
  induction 1 as [|a l Hs IH Ha]; constructor; [|done].
  intros Hin. rewrite Forall_forall in Ha. apply Ha in Hin. lia.
Qed.

Lemma keys_NoDup wsl d : buckets_inv wsl d -> NoDup (d.*1).
Proof.
  intros [_ _ Ho]. induction Ho as [|k ks Hs IH Hk]; constructor; [|done].
  intros Hin. rewrite Forall_forall in Hk. apply Hk in Hin. lia.
Qed.

Lemma buckets_concat_elem (d : list (nat * list nat)) j :
  j ∈ concat (d.*2) <-> exists b, b ∈ d /\ j ∈ b.2.
Proof.
  rewrite list_elem_of_In, in_concat. split.
  - intros (v & Hv & Hj). apply list_elem_of_In, list_elem_of_fmap in Hv as (b & -> & Hb).
    exists b. split; [done|by apply list_elem_of_In].
  - intros (b & Hb & Hj). exists b.2. split; [|by apply list_elem_of_In].
    apply list_elem_of_In, list_elem_of_fmap. by exists b.
Qed.

Lemma buckets_concat_NoDup wsl d :
  Forall (bucket_ok wsl) d -> NoDup (d.*1) -> NoDup (concat (d.*2)).
Proof.
  induction d as [|[k v] d IH]; intros Hok Hk; [constructor|].
  apply Forall_cons in Hok as [Hb Hok]. apply NoDup_cons in Hk as [Hk Hks].
  simpl. apply NoDup_app. split_and!.
  - destruct Hb as (_ & Hs & _). by apply sorted_lt_NoDup.
  - intros j Hj Hj'. apply buckets_concat_elem in Hj' as (b & Hbd & Hjb).
    rewrite Forall_forall in Hok. destruct (Hok b Hbd) as (_ & _ & Hm).
    destruct Hb as (_ & _ & Hm'). simpl in Hm'.
    apply Hm in Hjb as (w & Hw & Hl). apply Hm' in Hj as (w' & Hw' & Hl').
    apply Hk. apply list_elem_of_fmap. exists b. split; [|done].
    simpl in Hl'. rewrite Hw in Hw'. injection Hw' as <-. by rewrite <- Hl', Hl.
  - by apply IH.
Qed.

(** The buckets hold every position of the word list once. *)
Lemma buckets_partition wsl d :
  buckets_inv wsl d -> concat (d.*2) ≡ₚ seq 0 (length wsl).
Proof.
  intros Hinv. apply NoDup_Permutation.
  - eapply buckets_concat_NoDup; [apply Hinv|by eapply keys_NoDup].
  - apply NoDup_seq.
  - intros j. rewrite buckets_concat_elem, elem_of_seq. split.
    + intros (b & Hb & Hj). destruct Hinv as [Hok _ _].
      rewrite Forall_forall in Hok. pose proof (bucket_lt _ _ _ (Hok b Hb) Hj). lia.
    + intros [_ Hj]. simpl in Hj.
      destruct (lookup_lt_is_Some_2 wsl j Hj) as [w Hw].
      pose proof (inv_complete _ _ Hinv j w Hw) as Hk.
      apply list_elem_of_fmap in Hk as (b & Hl & Hb). exists b. split; [done|].
      destruct Hinv as [Hok _ _]. rewrite Forall_forall in Hok.
      destruct (Hok b Hb) as (_ & _ & Hm). apply Hm. by exists w.
Qed.

Lemma filter_bool_perm {A} (f : A -> bool) l k :
  l ≡ₚ k -> List.filter f l ≡ₚ List.filter f k.
Proof.
  induction 1 as [|x l k _ IH|x y l|l k m _ IH1 _ IH2]; simpl.
  - done.
  - destruct (f x); [by constructor|done].
  - destruct (f x), (f y); try done. apply perm_swap.
  - by etrans.
Qed.

Lemma filter_bool_concat {A} (f : A -> bool) (ls : list (list A)) :
  List.filter f (concat ls) = concat (map (List.filter f) ls).
Proof.
  induction ls as [|l ls IH]; [done|]. simpl. by rewrite List.filter_app, IH.
Qed.

Lemma elem_of_positions_where f ws i :
  i ∈ positions_where f ws <-> exists w, ws !! i = Some w /\ f w = true.
Proof.
  unfold positions_where. rewrite list_elem_of_In, filter_In, <- list_elem_of_In, elem_of_seq.
  split.
  - intros [_ Hf]. destruct (ws !! i) as [w|]; [|done]. by exists w.
  - intros (w & Hw & Hf). rewrite Hw. split; [|done].
    apply lookup_lt_Some in Hw. lia.
Qed.

Lemma kept_none ws test idxs :
  (forall j, j ∈ idxs -> from_option test false (ws !! j) = false) ->
  kept ws test idxs = [].
Proof.
  induction idxs as [|j idxs IH]; intros H; [done|].
  rewrite kept_cons, H by (apply elem_of_cons; by left).
  apply IH. intros j' Hj'. apply H, elem_of_cons. by right.
Qed.

(** A scan that leaves out the buckets of words too short to pass the
    test keeps the positions a scan of the whole list does. *)
Lemma kept_all_perm ws test min_len :
  (forall w, test w = true -> (min_len <= len w)%nat) ->
  kept_all ws test min_len (build_buckets (map lower ws) 0 [])
  ≡ₚ positions_where test ws.
Proof.
  intros Hlen. set (lti := build_buckets (map lower ws) 0 []).
  assert (kept_all ws test min_len lti = kept ws test (concat (lti.*2))) as ->.
  { unfold kept at 1. rewrite filter_bool_concat. unfold kept_all. f_equal.
    rewrite <- list_fmap_compose.
    apply map_ext_in. intros [L idxs] Hb. apply list_elem_of_In in Hb. simpl.
    destruct (L <? min_len)%nat eqn:HL; [|done].
    apply Nat.ltb_lt in HL. symmetry. apply kept_none. intros j Hj.
    destruct (bucket_elem_len ws (L, idxs) j Hb Hj) as (w & -> & Hl). simpl in *.
    destruct (test w) eqn:Ht; [|done]. apply Hlen in Ht. lia. }
  unfold kept, positions_where. apply filter_bool_perm.
  rewrite <- (length_map lower ws). apply buckets_partition, lti_inv.
Qed.

End PartitionFacts.

(** X2. [_build_indexes] cuts the corpus positions into the length
    buckets. For a corpus of ASCII words, whose lowered forms are as
    long as the words: the keys of [len_to_indices] are distinct and
    stand in the order in which the corpus first shows each length; a
    bucket is not empty, ascends, and holds exactly the positions of
    the words with as many characters as its key; all buckets together
    hold every position [0 .. n-1] once. *)
Theorem buckets_partition_positions (hash : string -> Z) (g0 : Globals.t)
    (ws : list string) :
  forallb isascii ws = true ->
  let lti := len_to_indices (WordIndex_init hash g0 ws).1 in
  NoDup (lti.*1)
  /\ StronglySorted (fun k k' => (first_of_len ws k < first_of_len ws k')%nat)
                    (lti.*1)
  /\ Forall (fun b =>
               b.2 <> [] /\ StronglySorted lt b.2
               /\ forall i, i ∈ b.2 <-> exists w, ws !! i = Some w /\ len w = b.1)
            lti
  /\ concat (lti.*2) ≡ₚ seq 0 (length ws).
Proof.
  intros Hascii lti. unfold lti. rewrite BuiltFacts.self_lti.
  pose proof (BuiltFacts.lti_inv ws) as Hinv.
  split_and!.
  - by eapply PartitionFacts.keys_NoDup.
  - eapply BuildFacts.sorted_change; [apply Hinv|].
    intros x y _ _ H. cbv beta in H. by rewrite !BuiltFacts.first_of_len_lower in H.
  - destruct Hinv as [Hok _ _]. eapply Forall_impl; [apply Hok|].
    intros b (Hne & Hs & Hm). split_and!; [done..|].
    intros i. rewrite Hm. rewrite list_lookup_fmap. split.
    + intros (wl & Hw & Hl). destruct (ws !! i) as [w|]; [|done].
      injection Hw as <-. exists w. by rewrite <- PyFacts.lower_len.
    + intros (w & -> & Hl). exists (lower w). by rewrite PyFacts.lower_len.
  - rewrite <- (length_map lower ws). by apply PartitionFacts.buckets_partition.
Qed.

Lemma buckets_partition_positions_witness :
  forallb isascii fixture = true
  /\ concat ((len_to_indices fixture_index).*2) ≡ₚ seq 0 (length fixture).
Proof.
  split; [reflexivity|].
  apply (buckets_partition_positions sample_hash Globals.initial fixture eq_refl).
Defined.

(** ** The position index and the exact lookup *)

Module PosIndexFacts.
Import PyFacts BuildFacts BuildInv ScanFacts ExactFacts BuiltFacts PartitionFacts.

Lemma stored_add_at by_pos p ch i q c j :
  j ∈ stored (add_at by_pos p ch i) q c
  <-> j ∈ stored by_pos q c
      \/ (q = p /\ c = ch /\ j = i /\ (p < length by_pos)%nat).
Proof.
  unfold stored, add_at. rewrite list_lookup_alter.
  destruct (decide (p = q)) as [<-|Hq].
  - destruct (by_pos !! p) as [d|] eqn:Hd; simpl.
    + apply lookup_lt_Some in Hd as Hlt.
      destruct (decide (c = ch)) as [->|Hc].
      * rewrite lookup_insert_eq. simpl. rewrite elem_of_union, elem_of_singleton.
        split; (intros [?|?]; [by left|right]); [done|by destruct_and!].
      * rewrite lookup_insert_ne by done.
        split; [by left|]. intros [?|(_ & ? & _)]; done.
    + apply lookup_ge_None in Hd. split; [by left|].
      intros [?|(_ & _ & _ & ?)]; [done|lia].
  - split; [by left|]. intros [?|(? & _)]; done.
Qed.

Lemma stored_index_word cs :
  forall p i by_pos q c j,
    j ∈ stored (index_word cs p i by_pos) q c
    <-> j ∈ stored by_pos q c
        \/ (j = i /\ (q < length by_pos)%nat /\ (p <= q)%nat
            /\ cs !! (q - p)%nat = Some c).
Proof.
  induction cs as [|ch cs IH]; intros p i by_pos q c j; simpl.
  - split; [by left|]. by intros [?|(_ & _ & _ & ?)].
  - rewrite IH, stored_add_at, add_at_length. split.
    + intros [[?|(-> & -> & -> & ?)]|(-> & ? & ? & Hc)].
      * by left.
      * right. split_and!; [done..|]. by rewrite Nat.sub_diag.
      * right. split_and!; [done|done|lia|].
        replace (q - p)%nat with (S (q - S p)) by lia. done.
    + intros [?|(-> & ? & ? & Hc)]; [by left; left|].
      destruct (decide (q = p)) as [->|Hq].
      * rewrite Nat.sub_diag in Hc. injection Hc as ->. left. right. done.
      * right. split_and!; [done|done|lia|].
        replace (q - p)%nat with (S (q - S p)) in Hc by lia. done.
Qed.

Lemma stored_replicate L q c : stored (replicate L ∅) q c = ∅.
Proof.
  unfold stored. destruct (replicate L ∅ !! q) as [d|] eqn:Hd; [|done].
  apply lookup_replicate in Hd as [-> _]. done.
Qed.

(** What the second loop of [_build_indexes] leaves at position [q]
    under the character [c], for a bucket [idxs]. *)
Lemma stored_index_bucket wsl L idxs q c j :
  j ∈ stored (index_bucket wsl L idxs) q c
  <-> j ∈ idxs /\ (q < L)%nat
      /\ exists wl, wsl !! j = Some wl /\ chars wl !! q = Some c.
Proof.
  unfold index_bucket.
  assert (forall by_pos,
    j ∈ stored
          (fold_left
             (fun by_pos i =>
                match wsl !! i with
                | Some wl => index_word (chars wl) 0 i by_pos
                | None => by_pos
                end) idxs by_pos) q c
    <-> j ∈ stored by_pos q c
        \/ (j ∈ idxs /\ (q < length by_pos)%nat
            /\ exists wl, wsl !! j = Some wl /\ chars wl !! q = Some c)) as H.
  { induction idxs as [|i idxs IH]; intros by_pos; simpl.
    - split; [by left|]. intros [?|(?%elem_of_nil & _)]; done.
    - rewrite IH. destruct (wsl !! i) as [wl|] eqn:Hi.
      + rewrite stored_index_word, index_word_length, Nat.sub_0_r. split.
        * intros [[?|(-> & ? & _ & ?)]|(? & ? & ?)].
          -- by left.
          -- right. split_and!; [apply elem_of_cons; by left|done|by exists wl].
          -- right. split_and!; [apply elem_of_cons; by right|done..].
        * intros [?|([->|?]%elem_of_cons & ? & wl' & Hw & ?)].
          -- by left; left.
          -- left. right. rewrite Hi in Hw. injection Hw as <-.
             split_and!; [done|done|lia|done].
          -- right. split_and!; [done..|by exists wl'].
      + split.
        * intros [?|(? & ? & ?)]; [by left|].
          right. split_and!; [apply elem_of_cons; by right|done..].
        * intros [?|([->|?]%elem_of_cons & ? & wl' & Hw & ?)]; [by left| |].
          -- by rewrite Hi in Hw.
          -- right. split_and!; [done..|by exists wl']. }
  rewrite H, stored_replicate, length_replicate. split; [|by right].
  intros [?%elem_of_empty|?]; done.
Qed.

Lemma fold_insert_other {V} (f : nat -> list nat -> V) lti :
  forall (m : gmap nat V) k,
    k ∉ lti.*1 ->
    fold_left (fun m '(L, idxs) => <[L := f L idxs]> m) lti m !! k = m !! k.
Proof.
  induction lti as [|[L idxs] lti IH]; intros m k Hk; [done|].
  simpl. simpl in Hk. apply not_elem_of_cons in Hk as [Hne Hk].
  rewrite IH by done. by rewrite lookup_insert_ne.
Qed.

Lemma fold_insert_found {V} (f : nat -> list nat -> V) lti :
  forall (m : gmap nat V) k v,
    NoDup (lti.*1) -> (k, v) ∈ lti ->
    fold_left (fun m '(L, idxs) => <[L := f L idxs]> m) lti m !! k = Some (f k v).
Proof.
  induction lti as [|[L idxs] lti IH]; intros m k v Hnd Hin.
  - by apply elem_of_nil in Hin.
  - simpl in *. apply NoDup_cons in Hnd as [HL Hnd].
    apply elem_of_cons in Hin as [[= -> ->]|Hin].
    + rewrite fold_insert_other by done. by rewrite lookup_insert_eq.
    + by apply IH.
Qed.

Lemma dict_get_None {V} (d : list (nat * V)) k :
  dict_get d k = None -> k ∉ d.*1.
Proof.
  induction d as [|[k' v] d IH]; simpl; [intros _; apply not_elem_of_nil|].
  destruct (Nat.eqb_spec k' k) as [->|Hne]; [done|].
  intros H. apply not_elem_of_cons. split; [done|by apply IH].
Qed.

Lemma fixed_positions_elem cs :
  forall i pos ch,
    (pos, ch) ∈ fixed_positions_from cs i
    <-> (i <= pos)%nat /\ cs !! (pos - i)%nat = Some ch /\ ch <> "?"%char.
Proof.
  induction cs as [|c cs IH]; intros i pos ch; simpl.
  - split; [by intros ?%elem_of_nil|]. by intros (_ & ? & _).
  - destruct (Ascii.eqb_spec c "?") as [->|Hc].
    + rewrite IH. split.
      * intros (? & Hl & ?). split_and!; [lia| |done].
        replace (pos - i)%nat with (S (pos - S i)) by lia. done.
      * intros (? & Hl & ?). destruct (decide (pos = i)) as [->|?].
        -- rewrite Nat.sub_diag in Hl. by injection Hl as <-.
        -- split_and!; [lia| |done].
           replace (pos - i)%nat with (S (pos - S i)) in Hl by lia. done.
    + rewrite elem_of_cons, IH. split.
      * intros [[= -> ->]|(? & Hl & ?)].
        -- by rewrite Nat.sub_diag.
        -- split_and!; [lia| |done].
           replace (pos - i)%nat with (S (pos - S i)) by lia. done.
      * intros (? & Hl & ?). destruct (decide (pos = i)) as [->|?].
        -- rewrite Nat.sub_diag in Hl. injection Hl as <-. by left.
        -- right. split_and!; [lia| |done].
           replace (pos - i)%nat with (S (pos - S i)) in Hl by lia. done.
Qed.

(** The loop over the fixed positions keeps the indices of the bucket
    that every fixed position stores. *)
Lemma narrow_spec by_pos idxs fixed :
  forall cand,
    Forall (fun pc => (pc.1 < length by_pos)%nat) fixed ->
    fixed <> [] \/ is_Some cand ->
    exists r,
      narrow by_pos idxs fixed cand = Some r
      /\ r `sublist_of` idxs
      /\ forall i, i ∈ r
                   <-> i ∈ idxs
                       /\ (forall c, cand = Some c -> i ∈ c)
                       /\ Forall (fun pc => i ∈ stored by_pos pc.1 pc.2) fixed.
Proof.
  induction fixed as [|[pos ch] fixed IH]; intros cand Hpos Hcand.
  - destruct Hcand as [?|[c ->]]; [done|]. simpl.
    exists (filter (fun i => i ∈ c) idxs). split_and!; [done|apply sublist_filter|].
    intros i. rewrite list_elem_of_filter. split.
    + intros [? ?]. split_and!; [done| |constructor]. by intros ? [= <-].
    + intros (? & Hc & _). split; [by apply Hc|done].
  - apply Forall_cons in Hpos as [Hp Hpos]. simpl in Hp.
    destruct (lookup_lt_is_Some_2 by_pos pos Hp) as [d Hd].
    simpl. rewrite Hd. simpl.
    assert (stored by_pos pos ch = default ∅ (d !! ch)) as Hst
      by (unfold stored; by rewrite Hd).
    rewrite <- Hst.
    set (cand' := match cand with
                  | Some c => c ∩ stored by_pos pos ch
                  | None => stored by_pos pos ch
                  end).
    assert (forall i, i ∈ cand'
                      <-> (forall c, cand = Some c -> i ∈ c)
                          /\ i ∈ stored by_pos pos ch) as Hc'.
    { intros i. unfold cand'. destruct cand as [c|].
      - rewrite elem_of_intersection. split.
        + intros [? ?]. split; [|done]. by intros ? [= <-].
        + intros [Hc ?]. split; [by apply Hc|done].
      - split; [intros ?; split; [done|done]|by intros [_ ?]]. }
    destruct (decide (cand' = ∅)) as [He|Hne].
    + exists []. split_and!; [done|apply sublist_nil_l|].
      intros i. split; [by intros ?%elem_of_nil|].
      intros (_ & Hc & [Hs _]%Forall_cons). simpl in Hs.
      assert (i ∈ cand') as Hi by (by apply Hc'). rewrite He in Hi.
      by apply elem_of_empty in Hi.
    + destruct (IH (Some cand') Hpos) as (r & Hr & Hsub & Hm); [right; by eexists|].
      exists r. split_and!; [done..|].
      intros i. rewrite Hm, Forall_cons. simpl. split.
      * intros (? & Hc & ?). specialize (Hc _ eq_refl). apply Hc' in Hc as [? ?].
        done.
      * intros (? & Hc & ? & ?). split_and!; [done| |done].
        intros ? [= <-]. by apply Hc'.
Qed.

(** [glob_fixed], position by position. *)
Lemma glob_fixed_spec p :
  forall w,
    glob_fixed p w = true
    <-> length p = length w
        /\ forall pos ch,
             map lower_char p !! pos = Some ch -> ch <> "?"%char ->
             map lower_char w !! pos = Some ch.
Proof.
  induction p as [|c p IH]; intros [|d w]; simpl.
  - split; [|done]. intros _. split; [done|]. by intros ? ? ?.
  - split; [done|]. by intros [? _].
  - split; [done|]. by intros [? _].
  - rewrite andb_true_iff, IH. split.
    + intros [Hc [Hl Hrest]]. split; [by rewrite Hl|].
      intros [|pos] ch Hch Hq; simpl in *.
      * injection Hch as <-. apply orb_true_iff in Hc as [Hc|Hc%Ascii.eqb_eq].
        -- apply Ascii.eqb_eq in Hc as ->. done.
        -- by rewrite Hc.
      * by apply Hrest.
    + intros [Hl Hall]. split_and!.
      * destruct (Ascii.eqb_spec c "?") as [->|Hc]; [done|]. simpl.
        apply Ascii.eqb_eq.
        assert (lower_char c <> "?"%char) as Hlc.
        { intros Heq. apply Hc. apply Ascii.eqb_eq.
          rewrite <- lower_char_question. by apply Ascii.eqb_eq. }
        specialize (Hall O (lower_char c) eq_refl Hlc). simpl in Hall.
        by injection Hall as ->.
      * by injection Hl.
      * intros pos ch. apply (Hall (S pos) ch).
Qed.

Section Built.
Variable hash : string -> Z.
Variable g0 : Globals.t.
Variable ws : list string.

Let self := (WordIndex_init hash g0 ws).1.
Let wsl := map lower ws.
Let lti := build_buckets wsl 0 [].

Lemma pci_bucket L idxs :
  (L, idxs) ∈ lti ->
  pos_char_index self !! L = Some (index_bucket wsl L idxs).
Proof.
  intros Hin. unfold self. rewrite self_pci.
  apply (fold_insert_found (index_bucket (map lower ws))); [|done].
  eapply keys_NoDup, lti_inv.
Qed.

Lemma pci_no_bucket L : L ∉ lti.*1 -> pos_char_index self !! L = None.
Proof.
  intros Hin. unfold self. rewrite self_pci.
  by rewrite (fold_insert_other (index_bucket (map lower ws))).
Qed.

Lemma bucket_members L idxs i :
  (L, idxs) ∈ lti ->
  i ∈ idxs <-> exists w, ws !! i = Some w /\ len w = L.
Proof.
  intros Hin. pose proof (inv_ok _ _ (lti_inv ws)) as Hok.
  rewrite Forall_forall in Hok. destruct (Hok _ Hin) as (_ & _ & Hm).
  rewrite Hm. simpl. rewrite list_lookup_fmap. split.
  - intros (wl & Hw & Hl). destruct (ws !! i) as [w|]; [|done].
    injection Hw as <-. exists w. by rewrite <- lower_len.
  - intros (w & -> & Hl). exists (lower w). by rewrite lower_len.
Qed.

(** The lookup of a pattern without [*] gives the positions of the
    words the pattern fits position by position, ascending. *)
Lemma exact_lookup p :
  _exact_indices_via_pos_index self p
  = Some (positions_where (fun w => glob_fixed (chars p) (chars w)) ws).
Proof.
  assert (exists r,
             _exact_indices_via_pos_index self p = Some r
             /\ StronglySorted lt r
             /\ forall i, i ∈ r
                          <-> exists w, ws !! i = Some w
                                        /\ glob_fixed (chars p) (chars w) = true)
    as (r & -> & Hs & Hm).
  2:{ f_equal. apply sorted_eq; [done|apply positions_where_sorted|].
      intros i. by rewrite Hm, elem_of_positions_where. }
  assert (forall w, length (chars p) = length (chars w) <-> len w = len p) as Hlen.
  { intros w. rewrite !chars_length. split; congruence. }
  unfold _exact_indices_via_pos_index. unfold self at 1. rewrite self_lti.
  fold wsl. fold lti.
  destruct (dict_get lti (len p)) as [idxs|] eqn:Hget.
  - apply dict_get_elem in Hget as Hin.
    pose proof (inv_ok _ _ (lti_inv ws)) as Hok.
    rewrite Forall_forall in Hok. destruct (Hok _ Hin) as (Hne & Hsorted & _).
    simpl in Hne, Hsorted.
    destruct idxs as [|i0 idxs']; [done|]. set (idxs := i0 :: idxs') in *.
    destruct (fixed_positions_from (chars (lower p)) 0) as [|f fixed] eqn:Hfixed.
    + exists idxs. split_and!; [done..|].
      intros i. rewrite (bucket_members _ _ i Hin).
      apply exist_proper. intros w. apply and_iff_compat_l.
      rewrite glob_fixed_spec, Hlen. split; [|by intros [? _]].
      intros Hl. split; [done|]. intros pos ch Hch Hq. exfalso.
      eapply elem_of_nil. rewrite <- Hfixed. apply fixed_positions_elem.
      rewrite chars_lower, Nat.sub_0_r. split_and!; [lia|done..].
    + rewrite <- Hfixed. rewrite (pci_bucket _ _ Hin). simpl.
      destruct (narrow_spec (index_bucket wsl (len p) idxs) idxs
                  (fixed_positions_from (chars (lower p)) 0) None)
        as (r & Hr & Hsub & Hm).
      { rewrite index_bucket_length.
        eapply Forall_impl; [apply fixed_positions_bound|].
        intros pc Hpc. simpl in Hpc. by rewrite chars_length, lower_len in Hpc. }
      { left. by rewrite Hfixed. }
      exists r. split_and!; [done|by eapply sublist_sorted|].
      intros i. rewrite Hm, (bucket_members _ _ i Hin). split.
      * intros ((w & Hw & Hl) & _ & Hall). exists w. split; [done|].
        apply glob_fixed_spec. split; [by apply Hlen|].
        intros pos ch Hch Hq. rewrite Forall_forall in Hall.
        assert ((pos, ch) ∈ fixed_positions_from (chars (lower p)) 0) as Hpc.
        { apply fixed_positions_elem. rewrite chars_lower, Nat.sub_0_r.
          split_and!; [lia|done..]. }
        apply Hall in Hpc. simpl in Hpc.
        apply stored_index_bucket in Hpc as (_ & _ & wl & Hwl & Hc).
        unfold wsl in Hwl. rewrite list_lookup_fmap, Hw in Hwl.
        injection Hwl as <-. by rewrite chars_lower in Hc.
      * intros (w & Hw & Hg). apply glob_fixed_spec in Hg as [Hl Hall].
        apply Hlen in Hl. split_and!; [by exists w|done|].
        apply Forall_forall. intros [pos ch] Hpc. simpl.
        apply fixed_positions_elem in Hpc as (_ & Hch & Hq).
        rewrite chars_lower, Nat.sub_0_r in Hch.
        apply stored_index_bucket. split_and!.
        -- apply (bucket_members _ _ i Hin). by exists w.
        -- apply lookup_lt_Some in Hch.
           by rewrite length_map, chars_length in Hch.
        -- exists (lower w). split.
           ++ unfold wsl. by rewrite list_lookup_fmap, Hw.
           ++ rewrite chars_lower. by apply Hall.
  - exists []. split_and!; [done|constructor|].
    intros i. split; [by intros ?%elem_of_nil|].
    intros (w & Hw & Hg). apply glob_fixed_spec in Hg as [Hl _]. apply Hlen in Hl.
    exfalso. apply dict_get_None in Hget. apply Hget.
    rewrite <- Hl, <- (lower_len w).
    apply (inv_complete _ _ (lti_inv ws) i (lower w)).
    by rewrite list_lookup_fmap, Hw.
Qed.

End Built.
End PosIndexFacts.

(** X3. What [_build_indexes] leaves in [pos_char_index], for a
    corpus of ASCII words. There is an entry for the length [L]
    exactly when the corpus has a word of [L] characters; the entry
    has [L] positions, and the set kept at position [q] for the
    character [c] holds exactly the corpus positions of the words of
    [L] characters whose lowered form has [c] at [q]. *)
Theorem position_index_content (hash : string -> Z) (g0 : Globals.t)
    (ws : list string) (L : nat) :
  forallb isascii ws = true ->
  match pos_char_index (WordIndex_init hash g0 ws).1 !! L with
  | Some by_pos =>
      length by_pos = L
      /\ (exists w, w ∈ ws /\ len w = L)
      /\ forall q c i,
           i ∈ stored by_pos q c
           <-> exists w, ws !! i = Some w /\ len w = L
                         /\ chars (lower w) !! q = Some c
  | None => forall w, w ∈ ws -> len w <> L
  end.
Proof.
  intros Hascii.
  set (lti := build_buckets (map lower ws) 0 []).
  pose proof (BuiltFacts.lti_inv ws) as Hinv. fold lti in Hinv.
  destruct (decide (L ∈ lti.*1)) as [Hin|Hout].
  - apply list_elem_of_fmap in Hin as ([L' idxs] & -> & Hin). cbn [fst].
    rewrite (PosIndexFacts.pci_bucket hash g0 ws _ _ Hin).
    pose proof (inv_ok _ _ Hinv) as Hok. rewrite Forall_forall in Hok.
    destruct (Hok _ Hin) as (Hne & _ & _). simpl in Hne.
    split_and!.
    + apply ExactFacts.index_bucket_length.
    + destruct idxs as [|i idxs]; [done|].
      destruct (proj1 (PosIndexFacts.bucket_members ws _ _ i Hin)) as (w & Hw & Hl);
        [apply elem_of_cons; by left|].
      exists w. split; [by eapply list_elem_of_lookup_2|done].
    + intros q c i. rewrite PosIndexFacts.stored_index_bucket.
      rewrite (PosIndexFacts.bucket_members ws _ _ i Hin).
      rewrite list_lookup_fmap. split.
      * intros ((w & Hw & Hl) & _ & wl & Hwl & Hc). exists w.
        rewrite Hw in Hwl. injection Hwl as <-. done.
      * intros (w & Hw & Hl & Hc). split_and!; [by exists w| |].
        -- apply lookup_lt_Some in Hc.
           by rewrite PyFacts.chars_length, PyFacts.lower_len, Hl in Hc.
        -- exists (lower w). by rewrite Hw.
  - rewrite (PosIndexFacts.pci_no_bucket hash g0 ws _ Hout).
    intros w Hw <-. apply Hout.
    apply list_elem_of_lookup_1 in Hw as [i Hw]. rewrite <- (PyFacts.lower_len w).
    apply (inv_complete _ _ Hinv i (lower w)). by rewrite list_lookup_fmap, Hw.
Qed.

Lemma position_index_content_witness :
  forallb isascii fixture = true
  /\ match pos_char_index fixture_index !! 4%nat with
     | Some by_pos =>
         length by_pos = 4%nat
         /\ (exists w, w ∈ fixture /\ len w = 4%nat)
         /\ forall q c i,
              i ∈ stored by_pos q c
              <-> exists w, fixture !! i = Some w /\ len w = 4%nat
                            /\ chars (lower w) !! q = Some c
     | None => forall w, w ∈ fixture -> len w <> 4%nat
     end.
Proof.
  split; [reflexivity|].
  apply (position_index_content sample_hash Globals.initial fixture 4 eq_refl).
Defined.

(** X4. [_exact_indices_via_pos_index] is a position-by-position
    comparison, on ASCII text. On an index made by
    [WordIndex.__init__] from ASCII words, and for an ASCII pattern,
    it returns, in ascending order, exactly the corpus positions of
    the words that have as many characters as the pattern and agree
    with it, case apart, wherever the pattern has no [?]; it does not
    raise. *)
Theorem exact_lookup_by_position (hash : string -> Z) (g0 : Globals.t)
    (ws : list string) (p : string) :
  forallb isascii ws = true -> isascii p = true ->
  _exact_indices_via_pos_index (WordIndex_init hash g0 ws).1 p
  = Some (positions_where (fun w => glob_fixed (chars p) (chars w)) ws).
Proof. intros Hascii Hpattern. apply PosIndexFacts.exact_lookup. Qed.

Lemma exact_lookup_by_position_witness :
  forallb isascii fixture = true
  /\ _exact_indices_via_pos_index fixture_index "h?llo"
     = Some (positions_where (fun w => glob_fixed (chars "h?llo") (chars w))
                             fixture).
Proof.
  split; [reflexivity|].
  apply (exact_lookup_by_position sample_hash Globals.initial fixture "h?llo"
           eq_refl eq_refl).
Defined.

(** ** The index against the scan of the whole word list *)

Module RefineFacts.
Import Re PyFacts ReFacts CaseFacts MatchFacts CoverFacts ScanFacts BuiltFacts
  PartitionFacts PosIndexFacts.

Lemma token_fixed allow c :
  Ascii.eqb c "*" = false ->
  token allow c = if Ascii.eqb c "?" then One Any else One (Lit c).
Proof.
  intros Hs. unfold token. rewrite Hs. simpl.
  destruct (has_char c _ || Ascii.eqb c BACKSLASH) eqn:Hm; [|done].
  destruct (Ascii.eqb_spec c "?") as [->|]; [|done]. by vm_compute in Hm.
Qed.

(** The anchored items of a pattern without [*] compare position by
    position; [.] takes no line feed, so the word must have none where
    the pattern has [?]. *)
Lemma match_fixed allow cs :
  forallb (fun c => negb (Ascii.eqb c "*")) cs = true ->
  forall at_start s,
    forallb (fun c => negb (Ascii.eqb c "?")) cs = true \/ has_char LF s = false ->
    match_here true (map (token allow) cs ++ [Eol]) at_start s
    = glob_fixed cs (chars s).
Proof.
  induction cs as [|c cs IH]; intros Hstar at_start s Hline.
  - simpl. destruct s; [done|]. by rewrite andb_false_r.
  - simpl in Hstar. apply andb_true_iff in Hstar as [Hc Hstar].
    apply negb_true_iff in Hc. simpl. rewrite (token_fixed _ _ Hc).
    destruct s as [|d s].
    + by destruct (Ascii.eqb c "?").
    + change (chars (String d s)) with (d :: chars s). simpl.
      assert (forallb (fun c => negb (Ascii.eqb c "?")) cs = true
              \/ has_char LF s = false) as Hline'.
      { destruct Hline as [H|H].
        - left. simpl in H. by apply andb_true_iff in H as [_ H].
        - right. rewrite has_char_cons in H. by apply orb_false_iff in H as [_ H]. }
      destruct (Ascii.eqb_spec c "?") as [->|Hq]; simpl.
      * rewrite (IH Hstar false s Hline'). f_equal.
        destruct Hline as [H|H]; [done|].
        rewrite has_char_cons in H. apply orb_false_iff in H as [H _]. by rewrite H.
      * by rewrite (IH Hstar false s Hline').
Qed.

Lemma no_star_chars p :
  has_char "*" p = false ->
  forallb (fun c => negb (Ascii.eqb c "*")) (chars p) = true.
Proof.
  unfold has_char. induction (chars p) as [|c l IH]; [done|]. simpl.
  intros [-> H]%orb_false_iff. by rewrite IH.
Qed.

Lemma fullmatch_fixed allow p w :
  has_char "*" p = false ->
  has_char "?" p = false \/ has_char LF w = false ->
  fullmatch (Bol :: tokens allow p ++ [Eol]) w = glob_fixed (chars p) (chars w).
Proof.
  intros Hs Hline. unfold fullmatch, tokens. simpl.
  apply match_fixed; [by apply no_star_chars|].
  destruct Hline as [H|H]; [left|by right].
  unfold has_char in H. induction (chars p) as [|c l IH]; [done|]. simpl in *.
  apply orb_false_iff in H as [-> H]. by rewrite IH.
Qed.

Lemma questions_tokens allow cs :
  forallb (fun ch => Ascii.eqb ch "?") cs = true ->
  map (token allow) cs = replicate (length cs) (One Any).
Proof.
  induction cs as [|c cs IH]; [done|]. simpl.
  intros [->%Ascii.eqb_eq H]%andb_true_iff. by rewrite IH.
Qed.

Lemma questions_no_star p : all_questions p = true -> has_char "*" p = false.
Proof.
  intros H. destruct (has_char "*" p) eqn:Hs; [|done].
  apply star_not_all_questions in Hs. congruence.
Qed.

Lemma match_any_run n :
  forall at_start s,
    has_char LF s = false -> (n <= len s)%nat ->
    match_here false (replicate n (One Any) ++ [Star Any]) at_start s = true.
Proof.
  induction n as [|n IH]; intros at_start s Hline Hn.
  - simpl replicate. simpl app. by rewrite match_here_star.
  - destruct s as [|c s]; [unfold len in Hn; simpl in Hn; lia|].
    rewrite has_char_cons in Hline. apply orb_false_iff in Hline as [Hc Hline].
    simpl. rewrite Hc. simpl. apply IH; [done|]. unfold len in *. simpl in Hn. lia.
Qed.

Lemma search_from_here rx at_start s :
  match_here false rx at_start s = true -> search_from rx at_start s = true.
Proof. intros H. destruct s; cbn [search_from]; by rewrite H. Qed.

(** The wrapped items of a pattern made of [?] only ask for a word
    that is long enough. *)
Lemma search_questions allow p w :
  all_questions p = true -> has_char LF w = false ->
  search (Star Any :: tokens allow p ++ [Star Any]) w = (len p <=? len w)%nat.
Proof.
  intros Hq Hline. destruct (len p <=? len w)%nat eqn:Hl.
  - apply Nat.leb_le in Hl. unfold search. apply search_from_here.
    rewrite match_here_star.
    unfold tokens. rewrite (questions_tokens _ _ Hq), chars_length.
    by rewrite match_any_run.
  - apply Nat.leb_gt in Hl.
    destruct (search _ w) eqn:Hs; [|done]. exfalso.
    apply search_width in Hs.
    change (Star Any :: tokens allow p ++ [Star Any])
      with ([Star Any] ++ tokens allow p ++ [Star Any]) in Hs.
    rewrite !min_width_app in Hs.
    assert (tokens allow p = tokens false p) as Ht.
    { destruct allow; [|done]. by apply tokens_no_star, questions_no_star. }
    rewrite Ht, min_width_tokens_plain in Hs. unfold min_width in Hs.
    simpl in Hs. lia.
Qed.

Lemma filter_nil_iff {A} (f : A -> bool) l :
  (forall x, x ∈ l -> f x = false) -> List.filter f l = [].
Proof.
  induction l as [|x l IH]; intros H; [done|]. simpl.
  rewrite H by (apply elem_of_cons; by left).
  apply IH. intros y Hy. apply H, elem_of_cons. by right.
Qed.

Lemma single_line_elem ws w :
  forallb single_line ws = true -> w ∈ ws -> has_char LF w = false.
Proof.
  intros H Hw. rewrite forallb_forall in H.
  apply list_elem_of_In, H in Hw. unfold single_line in Hw.
  by apply negb_true_iff in Hw.
Qed.

Section Fresh.
Variable hash : string -> Z.
Variable ws : list string.

Let self := (WordIndex_init hash Globals.initial ws).1.
Let g := (WordIndex_init hash Globals.initial ws).2.

Lemma scan_words test min_len :
  (forall w, test w = true -> (min_len <= len w)%nat) ->
  exists found,
    scan_buckets self test min_len (len_to_indices self) [] = Some found
    /\ found ≡ₚ List.filter test ws.
Proof.
  intros Hlen. unfold self at 2. rewrite self_lti.
  assert (words self = ws) as Hws by apply self_words.
  rewrite scan_buckets_spec by (rewrite Hws; apply lti_in_range).
  eexists. split; [done|]. rewrite Hws, app_nil_l.
  rewrite <- (positions_where_words test ws). unfold words_at.
  apply omap_Permutation. by apply kept_all_perm.
Qed.

Lemma skipped_no_fullmatch p :
  p <> "" -> should_skip_pattern hash g p = true ->
  List.filter (fullmatch (Bol :: tokens true p ++ [Eol])) ws = [].
Proof.
  intros Hp Hskip. apply filter_nil_iff. intros w Hw.
  destruct (fullmatch _ w) eqn:Hm; [|done].
  apply (fullmatch_covered p w ws Hw) in Hm.
  apply (SkipFacts.covered_not_skipped hash) in Hm; [|done].
  unfold g in Hskip. congruence.
Qed.

Lemma skipped_no_search allow p :
  p <> "" -> should_skip_pattern hash g p = true ->
  List.filter (search (Star Any :: tokens allow p ++ [Star Any])) ws = [].
Proof.
  intros Hp Hskip. apply filter_nil_iff. intros w Hw.
  destruct (search _ w) eqn:Hm; [|done].
  apply (search_covered allow p w ws Hw) in Hm.
  apply (SkipFacts.covered_not_skipped hash) in Hm; [|done].
  unfold g in Hskip. congruence.
Qed.

(** [find_exact] against the scan with the anchored expression. *)
Lemma find_exact_scan p :
  p <> "" -> forallb single_line ws = true ->
  exists found,
    find_exact hash g self p = Some found
    /\ found ≡ₚ List.filter (fullmatch (Bol :: tokens true p ++ [Eol])) ws
    /\ (has_char "*" p = false ->
        found = List.filter (fullmatch (Bol :: tokens true p ++ [Eol])) ws).
Proof.
  intros Hp Hline. unfold find_exact.
  destruct (should_skip_pattern hash g p) eqn:Hskip.
  { exists []. by rewrite skipped_no_fullmatch. }
  destruct (has_char "*" p) eqn:Hstar; cbn [negb].
  - rewrite compile_anchored. cbn [mbind option_bind].
    destruct (scan_words (fullmatch (Bol :: tokens true p ++ [Eol])) (min_len_of p))
      as (found & Hf & Hperm).
    { intros w Hm. apply match_width in Hm.
      change (Bol :: tokens true p ++ [Eol])
        with ([Bol] ++ tokens true p ++ [Eol]) in Hm.
      rewrite !min_width_app, min_width_tokens_star in Hm.
      unfold min_width in Hm. simpl in Hm. lia. }
    exists found. by split_and!.
  - unfold self. rewrite exact_lookup. cbn [mbind option_bind].
    rewrite mapM_words by apply positions_where_range.
    rewrite positions_where_words.
    assert (List.filter (fun w => glob_fixed (chars p) (chars w)) ws
            = List.filter (fullmatch (Bol :: tokens true p ++ [Eol])) ws) as ->.
    { apply List.filter_ext_in. intros w Hw. symmetry.
      apply fullmatch_fixed; [done|]. right.
      apply (single_line_elem ws); [done|by apply list_elem_of_In]. }
    eexists. by split_and!.
Qed.

(** [find_partial] against the scan with the wrapped expression. *)
Lemma find_partial_scan p :
  p <> "" -> forallb single_line ws = true ->
  exists found,
    find_partial hash g self p = Some found
    /\ found ≡ₚ List.filter (search (Star Any :: tokens true p ++ [Star Any])) ws
    /\ (all_questions p = true ->
        found = List.filter (search (Star Any :: tokens true p ++ [Star Any])) ws).
Proof.
  intros Hp Hline. unfold find_partial.
  destruct (should_skip_pattern hash g p) eqn:Hskip.
  { exists []. by rewrite skipped_no_search. }
  destruct (has_char "*" p) eqn:Hstar; cbn [negb].
  - rewrite (star_not_all_questions p Hstar).
    rewrite (compile_wrapped true p) by (by left). cbn [mbind option_bind].
    destruct (scan_words (search (Star Any :: tokens true p ++ [Star Any]))
                (min_len_of p)) as (found & Hf & Hperm).
    { intros w Hm. apply search_width in Hm.
      change (Star Any :: tokens true p ++ [Star Any])
        with ([Star Any] ++ tokens true p ++ [Star Any]) in Hm.
      rewrite !min_width_app, min_width_tokens_star in Hm.
      unfold min_width in Hm. simpl in Hm. lia. }
    exists found. by split_and!.
  - rewrite (tokens_no_star p Hstar).
    destruct (all_questions p) eqn:Hq.
    + unfold self. rewrite self_words.
      assert (List.filter (fun w => (len p <=? len w)%nat) ws
              = List.filter (search (Star Any :: tokens false p ++ [Star Any])) ws)
        as ->.
      { apply List.filter_ext_in. intros w Hw. symmetry.
        apply search_questions; [done|].
        apply (single_line_elem ws); [done|by apply list_elem_of_In]. }
      eexists. by split_and!.
    + rewrite (compile_wrapped false p) by (by right). cbn [mbind option_bind].
      destruct (scan_words (search (Star Any :: tokens false p ++ [Star Any]))
                  (len p)) as (found & Hf & Hperm).
      { intros w Hm. apply search_width in Hm.
        change (Star Any :: tokens false p ++ [Star Any])
          with ([Star Any] ++ tokens false p ++ [Star Any]) in Hm.
        rewrite !min_width_app, min_width_tokens_plain in Hm.
        unfold min_width in Hm. simpl in Hm. lia. }
      exists found. by split_and!.
Qed.

End Fresh.
End RefineFacts.

(** X5. The exact query of the index agrees with the brute-force scan
    of [Worker.handle_find], on ASCII text. For a corpus of
    single-line ASCII words, in a process whose first index is built
    from it, and an ASCII pattern that is not empty, [find_exact]
    returns the words the scan of the whole
    list with [compile_pattern(pattern, 'exact')] returns: the same
    words as often, in the same order when the pattern has no [*];
    [count_exact] is the number of words the scan returns. *)
Theorem find_exact_agrees_with_scan (hash : string -> Z) (ws : list string)
    (p : string) :
  forallb isascii ws = true -> isascii p = true ->
  p <> "" -> forallb single_line ws = true ->
  let self := (WordIndex_init hash Globals.initial ws).1 in
  let g := (WordIndex_init hash Globals.initial ws).2 in
  exists found scanned,
    find_exact hash g self p = Some found
    /\ Worker_handle_find ws p "exact" = Some scanned
    /\ found ≡ₚ scanned
    /\ (has_char "*" p = false -> found = scanned)
    /\ count_exact hash g self p = Some (length scanned).
Proof.
  intros Hascii Hpattern Hp Hline self g.
  destruct (RefineFacts.find_exact_scan hash ws p Hp Hline)
    as (found & Hfind & Hperm & Heq).
  destruct (BuiltFacts.exact_mode hash Globals.initial g ws p)
    as (positions & Hfind' & Hcount & Hrange & _).
  fold self g in Hfind. fold self in Hfind', Hcount.
  exists found, (List.filter (Re.fullmatch (Re.Bol :: tokens true p ++ [Re.Eol])) ws).
  split_and!; [done| |done|done|].
  - unfold Worker_handle_find. by rewrite CoverFacts.compile_pattern_exact.
  - rewrite Hcount. f_equal. rewrite <- (Permutation_length Hperm).
    rewrite Hfind in Hfind'. injection Hfind' as ->.
    symmetry. by apply ScanFacts.words_at_length.
Qed.

Lemma find_exact_agrees_with_scan_witness :
  forallb isascii fixture = true
  /\ forallb single_line fixture = true
  /\ exists found scanned,
       find_exact sample_hash fixture_globals fixture_index "h*o" = Some found
       /\ Worker_handle_find fixture "h*o" "exact" = Some scanned
       /\ found ≡ₚ scanned
       /\ (has_char "*" "h*o" = false -> found = scanned)
       /\ count_exact sample_hash fixture_globals fixture_index "h*o"
          = Some (length scanned).
Proof.
  split_and!; [reflexivity..|].
  apply (find_exact_agrees_with_scan sample_hash fixture "h*o");
    [reflexivity|reflexivity|discriminate|reflexivity].
Defined.

(** X6. The partial query of the index agrees with the brute-force
    scan of [Worker.handle_find], on ASCII text. Under the conditions
    of the exact case (single-line ASCII words, the first index of
    the process, an ASCII pattern that is not empty), [find_partial]
    returns the words the scan of the whole list
    with [compile_pattern(pattern, 'partial')] and [search] returns:
    the same words as often, in the same order when the pattern is made
    of [?] only; [count_partial] is the number of words the scan
    returns. *)
Theorem find_partial_agrees_with_scan (hash : string -> Z) (ws : list string)
    (p : string) :
  forallb isascii ws = true -> isascii p = true ->
  p <> "" -> forallb single_line ws = true ->
  let self := (WordIndex_init hash Globals.initial ws).1 in
  let g := (WordIndex_init hash Globals.initial ws).2 in
  exists found scanned,
    find_partial hash g self p = Some found
    /\ Worker_handle_find ws p "partial" = Some scanned
    /\ found ≡ₚ scanned
    /\ (all_questions p = true -> found = scanned)
    /\ count_partial hash g self p = Some (length scanned).
Proof.
  intros Hascii Hpattern Hp Hline self g.
  destruct (RefineFacts.find_partial_scan hash ws p Hp Hline)
    as (found & Hfind & Hperm & Heq).
  destruct (BuiltFacts.partial_mode hash Globals.initial g ws p)
    as (positions & Hfind' & Hcount & Hrange & _).
  fold self g in Hfind. fold self in Hfind', Hcount.
  exists found,
    (List.filter (Re.search (Re.Star Re.Any :: tokens true p ++ [Re.Star Re.Any])) ws).
  split_and!; [done| |done|done|].
  - unfold Worker_handle_find.
    by rewrite CoverFacts.compile_pattern_other.
  - rewrite Hcount. f_equal. rewrite <- (Permutation_length Hperm).
    rewrite Hfind in Hfind'. injection Hfind' as ->.
    symmetry. by apply ScanFacts.words_at_length.
Qed.

Lemma find_partial_agrees_with_scan_witness :
  forallb isascii fixture = true
  /\ forallb single_line fixture = true
  /\ exists found scanned,
       find_partial sample_hash fixture_globals fixture_index "ell" = Some found
       /\ Worker_handle_find fixture "ell" "partial" = Some scanned
       /\ found ≡ₚ scanned
       /\ (all_questions "ell" = true -> found = scanned)
       /\ count_partial sample_hash fixture_globals fixture_index "ell"
          = Some (length scanned).
Proof.
  split_and!; [reflexivity..|].
  apply (find_partial_agrees_with_scan sample_hash fixture "ell");
    [reflexivity|reflexivity|discriminate|reflexivity].
Defined.

(** X7. The two paths of [server_basic.handle_find] agree on patterns
    without [*], on ASCII text. For a corpus of single-line ASCII
    words, in a process whose first index is built from it, and an
    ASCII pattern that is not empty and has no [*], the call with the index and the call without it (the
    scan with [compile_pattern_exact]) return the same list. *)
Theorem handle_find_paths_agree (hash : string -> Z) (ws : list string)
    (p : string) :
  forallb isascii ws = true -> isascii p = true ->
  p <> "" -> has_char "*" p = false -> forallb single_line ws = true ->
  let self := (WordIndex_init hash Globals.initial ws).1 in
  let g := (WordIndex_init hash Globals.initial ws).2 in
  exists found,
    Server.handle_find hash g self p (Some self) = Some found
    /\ Server.handle_find hash g self p None = Some found.
Proof.
  intros Hascii Hpattern Hp Hstar Hline self g.
  destruct (RefineFacts.find_exact_scan hash ws p Hp Hline)
    as (found & Hfind & _ & Heq).
  exists found. split; [done|].
  unfold Server.handle_find.
  assert (Re.compile ("^" +:+ escape_all false p +:+ "$")
          = Some (Re.Bol :: tokens false p ++ [Re.Eol])) as ->.
  { rewrite ReFacts.sapp_cons, ReFacts.sapp_nil_l.
    change (Re.compile (String "^" ?s)) with (cons Re.Bol <$> Re.compile s).
    rewrite ReFacts.compile_escape_all by (done || by right). done. }
  cbn [mbind option_bind]. unfold self at 1. rewrite BuiltFacts.self_words.
  rewrite (Heq Hstar). by rewrite (MatchFacts.tokens_no_star p Hstar).
Qed.

Lemma handle_find_paths_agree_witness :
  forallb isascii fixture = true
  /\ forallb single_line fixture = true
  /\ exists found,
       Server.handle_find sample_hash fixture_globals fixture_index "h?llo"
         (Some fixture_index) = Some found
       /\ Server.handle_find sample_hash fixture_globals fixture_index "h?llo"
            None = Some found.
Proof.
  split_and!; [reflexivity..|].
  apply (handle_find_paths_agree sample_hash fixture "h?llo");
    [reflexivity|reflexivity|discriminate|reflexivity|reflexivity].
Defined.

(** ** Patterns without wildcards *)

Module LiteralFacts.
Import Re PyFacts ReFacts CaseFacts MatchFacts CoverFacts RefineFacts.

Lemma no_wild_chars p :
  forallb (fun c => negb (is_wild c)) (chars p) = true ->
  has_char "*" p = false /\ has_char "?" p = false.
Proof.
  unfold has_char. induction (chars p) as [|c l IH]; [done|]. simpl.
  intros [Hc Hl]%andb_true_iff. destruct (IH Hl) as [-> ->].
  unfold is_wild in Hc. apply negb_true_iff, orb_false_iff in Hc as [-> ->]. done.
Qed.

Lemma glob_fixed_literal cs :
  forallb (fun c => negb (is_wild c)) cs = true ->
  forall ds,
    glob_fixed cs ds = bool_decide (map lower_char cs = map lower_char ds).
Proof.
  induction cs as [|c cs IH]; intros Hw [|d ds]; simpl; try done.
  simpl in Hw. apply andb_true_iff in Hw as [Hc Hw].
  unfold is_wild in Hc. apply negb_true_iff, orb_false_iff in Hc as [Hq _].
  rewrite Hq, (IH Hw). simpl.
  destruct (Ascii.eqb_spec (lower_char c) (lower_char d)) as [->|Hne]; simpl.
  - apply bool_decide_ext. split; [by intros ->|by intros [= ->]].
  - symmetry. apply bool_decide_eq_false. by intros [= ? _].
Qed.

Lemma lower_chars_eq s t : map lower_char (chars s) = map lower_char (chars t)
                             <-> lower s = lower t.
Proof.
  rewrite <- !chars_lower. split; [|by intros ->].
  generalize (lower s) (lower t). clear. intros s.
  induction s as [|c s IH]; intros [|d t]; try done.
  unfold chars. simpl. intros [= -> H]. f_equal. by apply IH.
Qed.

(** The literal items of a pattern, met at the head of a string. *)
Lemma match_literals cs rest :
  forallb (fun c => negb (is_wild c)) cs = true ->
  forall at_start s,
    match_here false (map (token true) cs ++ rest) at_start s = true
    <-> exists s1 s2,
          s = s1 +:+ s2 /\ map lower_char cs = map lower_char (chars s1)
          /\ match_here false rest (at_start && bool_decide (cs = [])) s2 = true.
Proof.
  induction cs as [|c cs IH]; intros Hw at_start s.
  - simpl. rewrite andb_true_r. split.
    + intros H. exists "", s. by rewrite sapp_nil_l.
    + intros (s1 & s2 & -> & Hs1 & H). destruct s1; [|done].
      by rewrite sapp_nil_l.
  - simpl in Hw. apply andb_true_iff in Hw as [Hc Hw].
    apply negb_true_iff in Hc. simpl. rewrite (token_plain _ _ Hc).
    rewrite andb_false_r. split.
    + destruct s as [|d s]; [done|]. simpl.
      intros [Hd%Ascii.eqb_eq H]%andb_true_iff.
      apply IH in H as (s1 & s2 & -> & Hs1 & H); [|done].
      exists (String d s1), s2. rewrite sapp_cons. split_and!; [done| |done].
      change (chars (String d s1)) with (d :: chars s1). simpl. by rewrite Hd, Hs1.
    + intros (s1 & s2 & -> & Hs1 & H). destruct s1 as [|d s1]; [done|].
      change (chars (String d s1)) with (d :: chars s1) in Hs1. simpl in Hs1.
      injection Hs1 as Hd Hs1. rewrite sapp_cons. simpl.
      rewrite Hd, Ascii.eqb_refl. simpl. apply IH; [done|].
      exists s1, s2. by rewrite andb_false_l.
Qed.

Lemma contains_split sep s :
  contains sep s = true <-> exists s1 s2, s = s1 +:+ sep +:+ s2.
Proof.
  assert (forall t, String.prefix sep t = true <-> exists s2, t = sep +:+ s2) as Hpre.
  { induction sep as [|c sep IH]; intros t.
    - split; [intros _; exists t; by rewrite sapp_nil_l|]. by destruct t.
    - destruct t as [|d t]; simpl.
      + split; [done|]. intros [s2 H]. by rewrite sapp_cons in H.
      + destruct (Ascii.eqb_spec c d) as [<-|Hne]; simpl.
        * destruct (ascii_dec c c); [|done]. rewrite IH. split.
          -- intros [s2 ->]. exists s2. by rewrite sapp_cons.
          -- intros [s2 H]. rewrite sapp_cons in H. injection H as ->. by exists s2.
        * destruct (ascii_dec c d); [done|]. split; [done|].
          intros [s2 H]. rewrite sapp_cons in H. by injection H as -> _. }
  induction s as [|c s IH]; cbn [contains].
  - rewrite orb_false_r, Hpre. split.
    + intros [s2 H]. exists "", s2. by rewrite sapp_nil_l.
    + intros (s1 & s2 & H). destruct s1 as [|d s1]; [|by rewrite sapp_cons in H].
      rewrite sapp_nil_l in H. by exists s2.
  - rewrite orb_true_iff, Hpre, IH. split.
    + intros [[s2 H]|(s1 & s2 & ->)].
      * exists "", s2. by rewrite sapp_nil_l.
      * exists (String c s1), s2. by rewrite sapp_cons.
    + intros (s1 & s2 & H). destruct s1 as [|d s1].
      * left. exists s2. by rewrite sapp_nil_l in H.
      * right. rewrite sapp_cons in H. injection H as -> ->. by exists s1, s2.
Qed.

Lemma lower_split s t1 t2 :
  lower s = t1 +:+ t2 ->
  exists s1 s2, s = s1 +:+ s2 /\ lower s1 = t1 /\ lower s2 = t2.
Proof.
  revert s. induction t1 as [|c t1 IH]; intros s H.
  - exists "", s. by rewrite sapp_nil_l in *.
  - rewrite sapp_cons in H. destruct s as [|d s]; [done|]. simpl in H.
    injection H as Hd H. destruct (IH _ H) as (s1 & s2 & -> & <- & <-).
    exists (String d s1), s2. rewrite sapp_cons. simpl. by rewrite Hd.
Qed.

Lemma search_from_suffix rx c s at_start :
  search_from rx false s = true -> search_from rx at_start (String c s) = true.
Proof. intros H. cbn [search_from]. rewrite H. apply orb_true_r. Qed.

(** The wrapped literal items find the pattern anywhere in the word. *)
Lemma search_literal p w :
  forallb (fun c => negb (is_wild c)) (chars p) = true ->
  search (Star Any :: tokens true p ++ [Star Any]) w
  = contains (lower p) (lower w).
Proof.
  intros Hw. apply eq_true_iff_eq. rewrite contains_split. split.
  - intros H. unfold search in H.
    apply search_split in H as (s0 & s & at' & -> & H).
    change (Star Any :: tokens true p ++ [Star Any])
      with ([Star Any] ++ tokens true p ++ [Star Any]) in H.
    apply match_split in H as (s0' & s' & at'' & -> & H).
    apply (match_literals _ _ Hw) in H as (s1 & s2 & -> & Hs1 & _).
    apply lower_chars_eq in Hs1.
    exists (lower (s0 +:+ s0')), (lower s2).
    by rewrite !lower_sapp, Hs1, !sapp_assoc.
  - intros (t1 & t2 & H).
    apply lower_split in H as (s1 & s' & -> & <- & H).
    apply lower_split in H as (s2 & s3 & -> & Hp & <-).
    unfold search.
    assert (forall at_start,
               search_from (Star Any :: tokens true p ++ [Star Any]) at_start
                 (s1 +:+ s2 +:+ s3) = true) as H; [|apply H].
    induction s1 as [|c s1 IH]; intros at_start.
    + rewrite sapp_nil_l. apply search_from_here. rewrite match_here_star.
      apply orb_true_iff. left. apply (match_literals _ _ Hw).
      exists s2, s3. split_and!; [done|by apply lower_chars_eq|].
      by rewrite match_here_star.
    + rewrite sapp_cons. by apply search_from_suffix.
Qed.

End LiteralFacts.

(** X8. Regular-expression signs in a pattern are matched as
    characters, on ASCII text. For an ASCII pattern with neither [?]
    nor [*], [compile_pattern] never fails; against an ASCII word its
    expression matches, in exact mode, exactly when the word equals
    the pattern, case apart, and in any other mode exactly when the
    word holds the pattern, case apart, as a run of neighbouring
    characters. *)
Theorem literal_pattern_matches_itself (p mode w : string) :
  isascii p = true -> isascii w = true ->
  forallb (fun c => negb (is_wild c)) (chars p) = true ->
  exists rx,
    compile_pattern p mode = Some rx
    /\ if String.eqb mode "exact"
       then Re.fullmatch rx w = String.eqb (lower p) (lower w)
       else Re.search rx w = contains (lower p) (lower w).
Proof.
  intros Hpattern Hword Hw.
  destruct (LiteralFacts.no_wild_chars p Hw) as [Hs Hq].
  destruct (String.eqb_spec mode "exact") as [->|Hm].
  - rewrite CoverFacts.compile_pattern_exact. eexists. split; [done|].
    rewrite RefineFacts.fullmatch_fixed by (done || by left).
    rewrite LiteralFacts.glob_fixed_literal by done.
    destruct (String.eqb_spec (lower p) (lower w)) as [He|Hne].
    + apply bool_decide_eq_true. by apply LiteralFacts.lower_chars_eq.
    + apply bool_decide_eq_false. by rewrite LiteralFacts.lower_chars_eq.
  - rewrite CoverFacts.compile_pattern_other by done. eexists. split; [done|].
    by apply LiteralFacts.search_literal.
Qed.

Lemma literal_pattern_matches_itself_witness :
  exists rx,
    compile_pattern "a.b(c)" "exact" = Some rx
    /\ Re.fullmatch rx "A.B(C)" = String.eqb (lower "a.b(c)") (lower "A.B(C)").
Proof.
  apply (literal_pattern_matches_itself "a.b(c)" "exact" "A.B(C)");
    reflexivity.
Defined.

(** ** [_letter_segments] *)

Module SegmentFacts.
Import PyFacts ReFacts MatchFacts.

Lemma eqb_empty s : String.eqb s "" = true <-> s = "".
Proof. by destruct s. Qed.

Lemma segments_go q :
  forall cur,
    forallb (fun c => negb (is_wild c)) (chars cur) = true ->
    Forall (fun seg => seg <> ""
                       /\ forallb (fun c => negb (is_wild c)) (chars seg) = true)
           (_letter_segments_go q cur)
    /\ concat (map chars (_letter_segments_go q cur))
       = chars cur ++ List.filter (fun c => negb (is_wild c)) q
    /\ (length (_letter_segments_go q cur)
        <= 1 + length (List.filter is_wild q))%nat.
Proof.
  induction q as [|ch q IH]; intros cur Hcur; simpl.
  - destruct (String.eqb cur "") eqn:He.
    + apply eqb_empty in He as ->. split_and!; [done|done|simpl; lia].
    + split_and!; [|reflexivity|simpl; lia].
      constructor; [|done]. split; [|done]. intros ->. done.
  - destruct (is_wild ch) eqn:Hw; simpl.
    + destruct (IH "" eq_refl) as (Hall & Hcat & Hn). simpl in Hcat.
      destruct (String.eqb cur "") eqn:He.
      * apply eqb_empty in He as ->. split_and!; [done|done|lia].
      * split_and!; [|simpl; by rewrite Hcat|simpl; lia].
        constructor; [|done]. split; [|done]. intros ->. done.
    + assert (forallb (fun c => negb (is_wild c)) (chars (cur +:+ String ch "")) = true)
        as Hcur'.
      { rewrite chars_sapp, forallb_app, Hcur. simpl. by rewrite Hw. }
      destruct (IH _ Hcur') as (Hall & Hcat & Hn).
      split_and!; [done| |done].
      rewrite Hcat, chars_sapp, <- app_assoc. done.
Qed.

End SegmentFacts.

(** X9. [_letter_segments] cuts a pattern at its wildcards. No segment
    is empty and none holds [?] or [*]; the segments, put end to end,
    are the characters of the pattern that are no wildcards, in their
    order; and there is at most one segment more than the pattern has
    wildcards. *)
Theorem letter_segments_cut_at_wildcards (pattern : string) :
  Forall (fun seg => seg <> ""
                     /\ has_char "?" seg = false /\ has_char "*" seg = false)
         (_letter_segments pattern)
  /\ concat (map chars (_letter_segments pattern))
     = List.filter (fun c => negb (is_wild c)) (chars pattern)
  /\ (length (_letter_segments pattern)
      <= S (count "?" pattern + count "*" pattern))%nat.
Proof.
  destruct (SegmentFacts.segments_go (chars pattern) "" eq_refl)
    as (Hall & Hcat & Hn).
  split_and!.
  - eapply Forall_impl; [apply Hall|]. intros seg [Hne Hw].
    destruct (LiteralFacts.no_wild_chars seg Hw) as [? ?]. done.
  - done.
  - etrans; [apply Hn|]. apply le_n_S. unfold count.
    assert (forall l, length (List.filter is_wild l)
                      = (length (List.filter (fun x => Ascii.eqb x "?") l)
                         + length (List.filter (fun x => Ascii.eqb x "*") l))%nat)
      as ->; [|lia].
    induction l as [|c l IH]; [done|]. simpl. unfold is_wild at 1.
    destruct (Ascii.eqb_spec c "?") as [->|]; simpl; [lia|].
    destruct (Ascii.eqb c "*"); simpl; lia.
Qed.

(** ** FIND_MULTI: the merge of the matches of several patterns *)

Module MultiFacts.
Import Server.

Lemma filter_all (l : list string) : filter (fun x => x ∉ @nil string) l = l.
Proof.
  induction l as [|x l IH]; [done|].
  rewrite filter_cons_True by apply not_elem_of_nil. by rewrite IH.
Qed.

Lemma keep_first_app l1 l2 :
  keep_first (l1 ++ l2)
  = keep_first l1 ++ filter (fun x => x ∉ l1) (keep_first l2).
Proof.
  induction l1 as [|w l1 IH]; simpl.
  - by rewrite filter_all.
  - f_equal. rewrite IH, filter_app. f_equal. rewrite list_filter_filter.
    apply list_filter_iff. intros x. rewrite not_elem_of_cons. tauto.
Qed.

Lemma keep_first_elem l w : w ∈ keep_first l <-> w ∈ l.
Proof.
  induction l as [|x l IH]; simpl; [done|].
  rewrite !elem_of_cons, list_elem_of_filter, IH.
  destruct (decide (w = x)); tauto.
Qed.

Lemma keep_first_NoDup l : NoDup (keep_first l).
Proof.
  induction l as [|x l IH]; simpl; constructor.
  - rewrite list_elem_of_filter. by intros [? _].
  - by apply NoDup_filter.
Qed.

Lemma keep_first_sublist l : keep_first l `sublist_of` l.
Proof.
  induction l as [|x l IH]; simpl; [done|].
  apply sublist_skip. etrans; [apply sublist_filter|done].
Qed.

(** The inner loop, with [seenl] listing what [seen] holds. *)
Lemma merge_unseen_spec ms :
  forall (seen : gset string) out (seenl : list string),
    (forall x, x ∈ seen <-> x ∈ seenl) ->
    exists seen',
      merge_unseen ms seen out
      = (seen', out ++ filter (fun x => x ∉ seenl) (keep_first ms))
      /\ forall x, x ∈ seen' <-> x ∈ seenl ++ ms.
Proof.
  induction ms as [|w ms IH]; intros seen out seenl Hseen; simpl.
  - exists seen. rewrite !app_nil_r. done.
  - destruct (decide (w ∈ seen)) as [Hw|Hw].
    + destruct (IH seen out seenl Hseen) as (seen' & -> & Hm).
      exists seen'. split.
      * f_equal. f_equal. rewrite filter_cons_False by (apply Hseen in Hw; tauto).
        rewrite list_filter_filter. apply list_filter_iff.
        intros x. split; [|tauto]. intros Hx. split; [done|].
        intros ->. by apply Hx, Hseen.
      * intros x. rewrite Hm, !elem_of_app, elem_of_cons.
        split; [tauto|]. intros [?|[->|?]]; [tauto| |tauto].
        left. by apply Hseen.
    + destruct (IH ({[w]} ∪ seen) (out ++ [w]) (seenl ++ [w])) as (seen' & -> & Hm).
      { intros x. rewrite elem_of_union, elem_of_singleton, elem_of_app,
          list_elem_of_singleton, Hseen. tauto. }
      exists seen'. split.
      * f_equal. rewrite <- app_assoc. f_equal.
        rewrite filter_cons_True by (by rewrite <- Hseen).
        simpl. f_equal. rewrite list_filter_filter. apply list_filter_iff.
        intros x. rewrite elem_of_app, list_elem_of_singleton. tauto.
      * intros x. rewrite Hm, !elem_of_app, list_elem_of_singleton, elem_of_cons.
        tauto.
Qed.

Lemma find_multi_spec find tokens :
  forall (seen : gset string) out (seenl : list string),
    (forall x, x ∈ seen <-> x ∈ seenl) ->
    find_multi find tokens seen out
    = results ← mapM find tokens;
      Some (out ++ filter (fun x => x ∉ seenl) (keep_first (concat results))).
Proof.
  induction tokens as [|pat tokens IH]; intros seen out seenl Hseen; simpl.
  - by rewrite app_nil_r.
  - destruct (find pat) as [ms|]; [|done]. simpl.
    destruct (merge_unseen_spec ms seen out seenl Hseen) as (seen' & -> & Hm).
    rewrite (IH seen' _ (seenl ++ ms) Hm).
    destruct (mapM find tokens) as [results|]; [|done]. simpl.
    f_equal. rewrite <- app_assoc. f_equal.
    rewrite keep_first_app, filter_app. f_equal.
    rewrite list_filter_filter. apply list_filter_iff.
    intros x. rewrite elem_of_app. tauto.
Qed.

End MultiFacts.

(** X10. FIND_MULTI merges in first-seen order. The loop over the
    patterns raises when a query raises, and otherwise returns the
    matches of the patterns put end to end, each word kept where it
    first shows: no word twice, every matched word, in the order and
    from the places of the first copies. *)
Theorem find_multi_keeps_first_copies (find : string -> option (list string))
    (tokens : list string) :
  Server.find_multi find tokens ∅ []
  = (results ← mapM find tokens; Some (keep_first (concat results)))
  /\ forall l,
       NoDup (keep_first l)
       /\ (forall w, w ∈ keep_first l <-> w ∈ l)
       /\ keep_first l `sublist_of` l
       /\ forall l', keep_first (l ++ l')
                     = keep_first l ++ filter (fun x => x ∉ l) (keep_first l').
Proof.
  split.
  - rewrite (MultiFacts.find_multi_spec find tokens ∅ [] []).
    2:{ intros x. split; [by intros ?%elem_of_empty|by intros ?%elem_of_nil]. }
    destruct (mapM find tokens) as [results|]; [|done]. simpl.
    by rewrite MultiFacts.filter_all.
  - intros l. split_and!.
    + apply MultiFacts.keep_first_NoDup.
    + intros w. apply MultiFacts.keep_first_elem.
    + apply MultiFacts.keep_first_sublist.
    + intros l'. apply MultiFacts.keep_first_app.
Qed.

(** ** The shape of the replies *)

Module ShapeFacts.
Import Server Wire ReFacts MatchFacts ServerFacts.

Lemma concat_cons x l : String.concat "" (x :: l) = x +:+ String.concat "" l.
Proof.
  destruct l as [|y l]; cbn [String.concat].
  - by rewrite sapp_nil_r.
  - by rewrite sapp_nil_l.
Qed.

Lemma prefix_sapp p s t :
  String.prefix p s = true -> String.prefix p (s +:+ t) = true.
Proof.
  revert s. induction p as [|c p IH]; intros s H; [by destruct (s +:+ t)|].
  destruct s as [|d s]; [done|].
  rewrite sapp_cons. cbn in *. destruct (ascii_dec c d); [by apply IH|done].
Qed.

(** The status line and the body lines end where a line ends. *)
Lemma body_head lines :
  forall status,
    exists t,
      status +:+ nl +:+ String.concat "" (map (fun s => s +:+ nl) lines)
      = (status +:+ t) +:+ nl.
Proof.
  induction lines as [|l lines IH]; intros status.
  - exists "". cbn [map String.concat]. by rewrite !sapp_nil_r.
  - destruct (IH (status +:+ nl +:+ l)) as [t Ht].
    exists (nl +:+ l +:+ t). cbn [map]. rewrite concat_cons.
    rewrite !sapp_assoc in Ht. by rewrite !sapp_assoc.
Qed.

Lemma framed_well status :
  (String.prefix "200 OK " status || String.prefix "400 BAD-REQUEST " status
   || String.eqb status "404 NOT-FOUND 0") = true ->
  well_framed (framed status).
Proof. intros H. by exists status. Qed.

Lemma fixed_framed text : text ∈ fixed_replies -> well_framed text.
Proof.
  unfold fixed_replies. rewrite !elem_of_cons.
  intros H. repeat destruct H as [->|H]; try (by apply framed_well).
  by apply elem_of_nil in H.
Qed.

Lemma complex_framed reason :
  well_framed (TOO_COMPLEX +:+ reason +:+ nl +:+ "END" +:+ nl).
Proof.
  exists (TOO_COMPLEX +:+ reason). split; [by rewrite sapp_assoc|].
  by rewrite (prefix_sapp "400 BAD-REQUEST " TOO_COMPLEX reason eq_refl), orb_true_r.
Qed.

Lemma ok_framed n lines : well_framed (ok_reply n lines).
Proof.
  unfold ok_reply.
  destruct (body_head lines ("200 OK " +:+ str_of_nat n)) as [t Ht].
  exists (("200 OK " +:+ str_of_nat n) +:+ t). split.
  - transitivity
      ((("200 OK " +:+ str_of_nat n) +:+ nl
        +:+ String.concat "" (map (fun s => s +:+ nl) lines)) +:+ "END" +:+ nl).
    + by rewrite !sapp_assoc.
    + rewrite Ht. by rewrite !sapp_assoc.
  - rewrite (prefix_sapp "200 OK " _ t); [done|].
    apply prefix_app.
Qed.

Lemma shape_framed text : reply_shape text -> well_framed text.
Proof.
  intros [H|[[reason ->]|(n & lines & -> & _)]].
  - by apply fixed_framed.
  - apply complex_framed.
  - apply ok_framed.
Qed.

(** *** Which reply is which *)

Lemma ok_not_too_long n lines : ok_reply n lines <> TOO_LONG.
Proof.
  intros H. apply (f_equal (String.get 0)) in H. vm_compute in H. discriminate.
Qed.

Lemma complex_not_too_long reason :
  TOO_COMPLEX +:+ reason +:+ nl +:+ "END" +:+ nl <> TOO_LONG.
Proof.
  intros H. apply (f_equal (String.get 28)) in H. vm_compute in H. discriminate.
Qed.

Lemma fixed_shape text : text ∈ fixed_replies -> reply_shape text.
Proof. by left. Qed.

Lemma ok_shape n lines :
  n = length lines \/ lines = [] -> reply_shape (ok_reply n lines).
Proof. intros H. right. right. by exists n, lines. Qed.

Lemma count_shape n : reply_shape (framed ("200 OK " +:+ str_of_nat n)).
Proof.
  replace (framed ("200 OK " +:+ str_of_nat n)) with (ok_reply n []).
  - apply ok_shape. by right.
  - unfold ok_reply, framed. cbn [map String.concat].
    by rewrite sapp_nil_l, !sapp_assoc.
Qed.

Lemma count_not_too_long n : framed ("200 OK " +:+ str_of_nat n) <> TOO_LONG.
Proof.
  intros H. apply (f_equal (String.get 0)) in H. vm_compute in H. discriminate.
Qed.

Lemma plain_fixed text :
  text ∈ fixed_replies -> text <> TOO_LONG -> plain text.
Proof. intros H Hne. split; [by left|done]. Qed.

Ltac fixed_reply :=
  apply plain_fixed;
  [unfold fixed_replies; rewrite !elem_of_cons; tauto
  |let H := fresh in intros H; vm_compute in H; discriminate H].

Lemma bind_holds {A B} (P : string -> Prop) (m : step A) (k : A -> step B) :
  step_holds P m -> (forall a, m = ret a -> step_holds P (k a)) ->
  step_holds P (bind m k).
Proof.
  intros Hm Hk. destruct m as [[o|a]|]; [done| |done]. by apply Hk.
Qed.

Lemma read_encoding_holds rest : step_holds plain (read_encoding rest).
Proof.
  unfold read_encoding. destruct (contains _ rest); [|done].
  destruct (rsplit1 _ rest) as [|a [|b [|c l]]]; try done.
  destruct (negb _); [|done]. cbn. fixed_reply.
Qed.

Lemma read_range_holds rest : step_holds plain (read_range rest).
Proof.
  unfold read_range. destruct (contains _ rest); [|done].
  destruct (rsplit1 _ rest) as [|a [|b [|c l]]]; try done.
  destruct (_ || _); [cbn; fixed_reply|].
  by destruct (split (strip b)) as [|t0 [|t1 [|t2 l]]].
Qed.

Lemma read_command_holds lines commands line :
  step_holds plain (read_command (stats_reply lines) commands line).
Proof.
  unfold read_command.
  destruct (String.eqb _ "QUIT"); [done|].
  destruct (String.eqb _ "STATS").
  { cbn. split; [|apply ok_not_too_long]. apply ok_shape. by left. }
  destruct (_ || _); [cbn; fixed_reply|].
  apply bind_holds; [apply read_encoding_holds|]. intros [rest gz] _.
  apply bind_holds; [apply read_range_holds|]. by intros [[rest' off] lim] _.
Qed.

Lemma read_mode_threaded_holds default_mode rest :
  step_holds plain (read_mode_threaded default_mode rest).
Proof.
  unfold read_mode_threaded. destruct (contains _ rest); [|done].
  destruct (rsplit1 _ rest) as [|a [|b [|c l]]]; try done.
  destruct (String.eqb a ""); [cbn; fixed_reply|].
  destruct (negb _); [cbn; fixed_reply|done].
Qed.

Lemma read_mode_basic_holds rest : step_holds plain (read_mode_basic rest).
Proof.
  unfold read_mode_basic. destruct (contains _ rest); [|done].
  destruct (rsplit1 _ rest) as [|a [|b [|c l]]]; try done.
  destruct (negb _); [cbn; fixed_reply|done].
Qed.

Lemma parse_threaded_holds lines default_mode line :
  step_holds plain (parse_threaded (stats_reply lines) default_mode line).
Proof.
  unfold parse_threaded. destruct (String.eqb line ""); [done|].
  apply bind_holds; [apply read_command_holds|].
  intros [[[[c rest] gz] off] lim] _.
  apply bind_holds; [apply read_mode_threaded_holds|]. by intros [p m] _.
Qed.

Lemma parse_basic_holds lines line :
  step_holds plain (parse_basic (stats_reply lines) line).
Proof.
  unfold parse_basic.
  apply bind_holds; [apply read_command_holds|].
  intros [[[[c rest] gz] off] lim] _.
  apply bind_holds; [apply read_mode_basic_holds|]. by intros p _.
Qed.

(** The guards: the size reply needs a pattern over the limit. *)
Lemma complexity_guard_holds CFG under_pressure pat :
  step_holds plain (complexity_guard CFG under_pressure pat).
Proof.
  unfold complexity_guard.
  destruct (is_pattern_too_complex _ _ _) as [[|] reason]; [|done].
  cbn. split; [|apply complex_not_too_long]. right. left. by exists reason.
Qed.

Lemma guard_threaded_holds CFG mem maxlen r :
  step_holds (fun text => reply_shape text
                          /\ (text = TOO_LONG -> (maxlen < len (pattern r))%nat))
             (guard_threaded CFG mem maxlen r).
Proof.
  unfold guard_threaded. destruct (Nat.ltb_spec maxlen (len (pattern r))).
  - cbn. split; [|done]. left. unfold fixed_replies. rewrite !elem_of_cons. tauto.
  - pose proof (complexity_guard_holds CFG (_memory_pressure_handler mem) (pattern r))
      as H'.
    destruct (complexity_guard _ _ _) as [[[t| |]|[]]|]; try done.
    destruct H' as [? ?]. done.
Qed.

Lemma guard_basic_holds CFG mem maxlen r :
  step_holds (fun text => reply_shape text
                          /\ (text = TOO_LONG -> (maxlen < len (pattern r))%nat))
             (guard_basic CFG mem maxlen r).
Proof. apply guard_threaded_holds. Qed.

Lemma imap_lines {A} (f : nat -> A -> string) (l : list A) :
  imap (fun i c => f i c +:+ nl) l = map (fun s => s +:+ nl) (imap f l).
Proof.
  revert f. induction l as [|x l IH]; intros f; [done|].
  cbn [imap map]. f_equal. apply IH.
Qed.

Lemma batch_shape counts : plain (batch_text counts).
Proof.
  unfold batch_text.
  replace (imap (fun i c => "COUNT " +:+ str_of_nat i +:+ " " +:+ str_of_nat c +:+ nl)
                counts)
    with (map (fun s => s +:+ nl)
              (imap (fun i c => "COUNT " +:+ str_of_nat i +:+ " " +:+ str_of_nat c)
                    counts)).
  - split; [|apply ok_not_too_long]. apply ok_shape. left. by rewrite length_imap.
  - rewrite <- imap_lines. apply imap_ext. intros i c _.
    by rewrite !sapp_assoc.
Qed.

Lemma send_matches_shape utf8 gzip ms r :
  exists text, send_matches utf8 gzip ms r = Reply text /\ plain text.
Proof.
  unfold send_matches.
  destruct (length _ =? 0)%nat; [eexists; split; [done|fixed_reply]|].
  destruct (request_gzip r); eexists; (split; [done|]).
  - set (b64 := string_of_list_ascii _).
    replace ("200 OK 1" +:+ nl +:+ "GZIP " +:+ b64 +:+ nl +:+ "END" +:+ nl)
      with (ok_reply 1 ["GZIP " +:+ b64]).
    + split; [|apply ok_not_too_long]. apply ok_shape. by left.
    + unfold ok_reply. cbn [map String.concat length].
      change (str_of_nat 1) with "1". by rewrite !sapp_assoc.
  - split; [|apply ok_not_too_long]. apply ok_shape. by left.
Qed.

Lemma count_reply_shape n :
  plain (if (n =? 0)%nat then NOT_FOUND else framed ("200 OK " +:+ str_of_nat n)).
Proof.
  destruct (n =? 0)%nat; [fixed_reply|].
  split; [apply count_shape|apply count_not_too_long].
Qed.

Section Execute.
Variable hash : string -> Z.
Variable g : Globals.t.
Variable index : WordIndex.
Variable json_string_list : string -> option (list string).
Variable encode_utf8 : string -> Codec.bytes.
Variable gzip_compress : Codec.bytes -> Codec.bytes.
Variable CFG : complexity.
Variable mem : memory.

Lemma execute_threaded_holds r text :
  settle (execute_threaded hash g index json_string_list encode_utf8
            gzip_compress CFG mem r) = Some (Reply text) ->
  plain text.
Proof.
  unfold execute_threaded.
  destruct (String.eqb (cmd r) "BATCH").
  { destruct (json_string_list (pattern r)) as [pats|];
      [|intros [= <-]; fixed_reply].
    destruct (batch_counts _ _ _ _ _ _ _) as [counts|]; [|done].
    intros [= <-]. apply batch_shape. }
  destruct (String.eqb (cmd r) "COUNT").
  { destruct (count_in_mode _ _ _ _ _) as [n|]; [|done]. cbn [call bind].
    pose proof (count_reply_shape n) as Hn.
    destruct (n =? 0)%nat; intros [= <-]; exact Hn. }
  unfold matches_threaded.
  destruct (String.eqb (cmd r) "FIND_MULTI").
  - destruct (split (strip (pattern r))) as [|t ts]; [intros [= <-]; fixed_reply|].
    destruct (find_multi _ _ _ _) as [ms|]; [|done]. cbn [call bind settle].
    destruct (send_matches_shape encode_utf8 gzip_compress ms r) as (t' & -> & H).
    by intros [= <-].
  - destruct (find_in_mode _ _ _ _ _) as [ms|]; [|done]. cbn [call bind settle].
    destruct (send_matches_shape encode_utf8 gzip_compress ms r) as (t' & -> & H).
    by intros [= <-].
Qed.

Lemma execute_basic_holds r text :
  settle (execute_basic hash g index encode_utf8 gzip_compress r)
  = Some (Reply text) ->
  plain text.
Proof.
  unfold execute_basic.
  destruct (String.eqb (cmd r) "COUNT").
  { destruct (count_exact _ _ _ _) as [n|]; [|done]. cbn [call bind].
    pose proof (count_reply_shape n) as Hn.
    destruct (n =? 0)%nat; intros [= <-]; exact Hn. }
  unfold matches_basic.
  destruct (String.eqb (cmd r) "FIND_MULTI").
  - destruct (split (strip (pattern r))) as [|t ts]; [intros [= <-]; fixed_reply|].
    destruct (find_multi _ _ _ _) as [ms|]; [|done]. cbn [call bind settle].
    destruct (send_matches_shape encode_utf8 gzip_compress ms r) as (t' & -> & H).
    by intros [= <-].
  - cbn [handle_find].
    destruct (find_exact _ _ _ _) as [ms|]; [|done]. cbn [call bind settle].
    destruct (send_matches_shape encode_utf8 gzip_compress ms r) as (t' & -> & H).
    by intros [= <-].
Qed.

End Execute.

(** *** The pattern is a part of the line *)

Lemma rsplit1_len sep s a b : rsplit1 sep s = [a; b] -> (len a <= len s)%nat.
Proof.
  revert a b. induction s as [|c s IH]; intros a b; cbn [rsplit1]; [done|].
  destruct (rsplit1 sep s) as [|a' [|b' [|x l]]] eqn:Hr.
  - destruct (String.prefix _ _); [|done]. intros [= <- _]. unfold len. simpl. lia.
  - destruct (String.prefix _ _); [|done]. intros [= <- _]. unfold len. simpl. lia.
  - intros [= <- <-]. specialize (IH _ _ eq_refl). unfold len in *. simpl. lia.
  - destruct (String.prefix _ _); [|done]. intros [= <- _]. unfold len. simpl. lia.
Qed.

Lemma split1_blank_rest s :
  (len (default "" (split1_blank s !! 1%nat)) <= len s)%nat.
Proof.
  induction s as [|c s IH]; [done|]. cbn [split1_blank].
  destruct (Ascii.eqb c " "); [unfold len; simpl; lia|].
  destruct (split1_blank s) as [|a rest]; [unfold len; simpl; lia|].
  cbn in *. unfold len in *. simpl. lia.
Qed.

Lemma read_encoding_len rest rest' gz :
  read_encoding rest = ret (rest', gz) -> (len rest' <= len rest)%nat.
Proof.
  unfold read_encoding. destruct (contains _ rest); [|by intros [= <- _]].
  destruct (rsplit1 _ rest) as [|a [|b [|c l]]] eqn:Hr; try done.
  destruct (negb _); [done|]. intros [= <- _]. by eapply rsplit1_len.
Qed.

Lemma read_range_len rest rest' off lim :
  read_range rest = ret (rest', off, lim) -> (len rest' <= len rest)%nat.
Proof.
  unfold read_range. destruct (contains _ rest); [|by intros [= <- _ _]].
  destruct (rsplit1 _ rest) as [|a [|b [|c l]]] eqn:Hr; try done.
  destruct (_ || _); [done|].
  destruct (split (strip b)) as [|t0 [|t1 [|t2 l]]]; try done.
  intros [= <- _ _]. by eapply rsplit1_len.
Qed.

Lemma read_command_len st commands line c rest gz off lim :
  read_command st commands line = ret (c, rest, gz, off, lim) ->
  (len rest <= len line)%nat.
Proof.
  unfold read_command.
  destruct (String.eqb _ "QUIT"); [done|].
  destruct (String.eqb _ "STATS"); [done|].
  destruct (_ || _); [done|].
  pose proof (split1_blank_rest line) as H0.
  destruct (read_encoding _) as [[o|[rest1 gz1]]|] eqn:H1; try done.
  apply read_encoding_len in H1. cbn [bind].
  destruct (read_range rest1) as [[o|[[rest2 off2] lim2]]|] eqn:H2; try done.
  apply read_range_len in H2. cbn [bind]. intros [= _ <- _ _ _]. lia.
Qed.

Lemma parse_threaded_len st default_mode line r :
  parse_threaded st default_mode line = ret r ->
  (len (pattern r) <= len line)%nat.
Proof.
  unfold parse_threaded. destruct (String.eqb line ""); [done|].
  destruct (read_command _ _ _) as [[o|[[[[c rest] gz] off] lim]]|] eqn:H1;
    try done.
  apply read_command_len in H1. cbn [bind].
  unfold read_mode_threaded. destruct (contains _ rest).
  - destruct (rsplit1 _ rest) as [|a [|b [|x l]]] eqn:Hr; try done.
    apply rsplit1_len in Hr.
    destruct (String.eqb a ""); [done|]. destruct (negb _); [done|].
    cbn [bind ret]. intros [= <-]. cbn [pattern]. lia.
  - cbn [bind ret]. intros [= <-]. cbn [pattern]. lia.
Qed.

Lemma parse_basic_len st line r :
  parse_basic st line = ret r -> (len (pattern r) <= len line)%nat.
Proof.
  unfold parse_basic.
  destruct (read_command _ _ _) as [[o|[[[[c rest] gz] off] lim]]|] eqn:H1;
    try done.
  apply read_command_len in H1. cbn [bind].
  unfold read_mode_basic. destruct (contains _ rest).
  - destruct (rsplit1 _ rest) as [|a [|b [|x l]]] eqn:Hr; try done.
    apply rsplit1_len in Hr. destruct (negb _); [done|].
    cbn [bind ret]. intros [= <-]. cbn [pattern]. lia.
  - cbn [bind ret]. intros [= <-]. cbn [pattern]. lia.
Qed.

Lemma rstrip_crlf_len s : (len (rstrip_crlf s) <= len s)%nat.
Proof.
  induction s as [|c s IH]; [done|]. cbn [rstrip_crlf].
  destruct (_ && _); unfold len in *; simpl; lia.
Qed.

Lemma non_utf8_shape : reply_shape NON_UTF8 /\ NON_UTF8 <> TOO_LONG.
Proof. fixed_reply. Qed.

Lemma too_long_shape : reply_shape TOO_LONG.
Proof. left. unfold fixed_replies. rewrite !elem_of_cons. tauto. Qed.

Section Lines.
Variable hash : string -> Z.
Variable g : Globals.t.
Variable index : WordIndex.
Variable stats_lines : list string.
Variable json_string_list : string -> option (list string).
Variable encode_utf8 : string -> Codec.bytes.
Variable gzip_compress : Codec.bytes -> Codec.bytes.
Variable decode_utf8 : Codec.bytes -> option string.
Variable CFG : complexity.
Variable mem : memory.
Variable max_pattern_length : nat.
Variable default_mode : string.

Lemma handle_line_holds line text :
  handle_line hash g index (stats_reply stats_lines) json_string_list
    encode_utf8 gzip_compress CFG mem max_pattern_length default_mode line
  = Some (Reply text) ->
  reply_shape text
  /\ (text = TOO_LONG -> (max_pattern_length < len line)%nat).
Proof.
  unfold handle_line.
  pose proof (parse_threaded_holds stats_lines default_mode line) as Hp.
  destruct (parse_threaded _ _ _) as [[o|r]|] eqn:Hparse; [| |done].
  { cbn. intros [= ->]. destruct Hp as [? ?]. done. }
  apply parse_threaded_len in Hparse. cbn [bind].
  pose proof (guard_threaded_holds CFG mem max_pattern_length r) as Hg.
  destruct (guard_threaded _ _ _ _) as [[o|[]]|]; [| |done].
  { cbn. intros [= ->]. destruct Hg as [Hshape Hlong]. split; [done|].
    intros Heq. apply Hlong in Heq. lia. }
  cbn [bind]. intros H. apply execute_threaded_holds in H as [? ?]. done.
Qed.

Lemma serve_once_holds line text :
  serve_once hash g index (stats_reply stats_lines) encode_utf8 gzip_compress
    CFG mem max_pattern_length line
  = Some (Reply text) ->
  reply_shape text
  /\ (text = TOO_LONG -> (max_pattern_length < len line)%nat).
Proof.
  unfold serve_once.
  pose proof (parse_basic_holds stats_lines line) as Hp.
  destruct (parse_basic _ _) as [[o|r]|] eqn:Hparse; [| |done].
  { cbn. intros [= ->]. destruct Hp as [? ?]. done. }
  apply parse_basic_len in Hparse. cbn [bind].
  pose proof (guard_basic_holds CFG mem max_pattern_length r) as Hg.
  destruct (guard_basic _ _ _ _) as [[o|[]]|]; [| |done].
  { cbn. intros [= ->]. destruct Hg as [Hshape Hlong]. split; [done|].
    intros Heq. apply Hlong in Heq. lia. }
  cbn [bind]. intros H. apply execute_basic_holds in H as [? ?]. done.
Qed.

End Lines.
End ShapeFacts.

Section WireProperties.
Import Server Wire.

Variable hash : string -> Z.
Variable g : Globals.t.
Variable index : WordIndex.
Variable stats_lines : list string.
Variable json_string_list : string -> option (list string).
Variable encode_utf8 : string -> Codec.bytes.
Variable gzip_compress : Codec.bytes -> Codec.bytes.
Variable decode_utf8 : Codec.bytes -> option string.
Variable CFG : complexity.
Variable mem : memory.
Variable max_pattern_length : nat.
Variable default_mode : string.

Let threaded :=
  receive_threaded hash g index stats_lines json_string_list encode_utf8
    gzip_compress decode_utf8 CFG mem max_pattern_length default_mode.
Let basic :=
  receive_basic hash g index stats_lines encode_utf8 gzip_compress decode_utf8
    CFG mem max_pattern_length.

(** X12. The reply [pattern too long] is about the raw line. With a
    decoder that gives no more characters than it reads bytes, a
    server answers [400 BAD-REQUEST pattern too long] exactly when the
    line it read, line end included, has more bytes than
    [max_pattern_length]: a line within the limit is never answered so,
    whatever its pattern, and the later check of the pattern's length
    never fires. *)
Theorem too_long_reply_counts_raw_bytes (raw : Codec.bytes) :
  (forall data s, decode_utf8 data = Some s -> (len s <= length data)%nat) ->
  (threaded raw = Some (Reply TOO_LONG) <-> (max_pattern_length < length raw)%nat)
  /\ (basic raw = Some (Reply TOO_LONG) <-> (max_pattern_length < length raw)%nat).
Proof.
  intros Hdec.
  unfold threaded, basic, receive_threaded, receive_basic.
  destruct raw as [|b raw]; [split; (split; [done|simpl; lia])|].
  destruct (Nat.ltb_spec max_pattern_length (length (b :: raw))) as [Hlt|Hle];
    [done|].
  destruct (decode_utf8 (b :: raw)) as [s|] eqn:Hs.
  - apply Hdec in Hs. pose proof (ShapeFacts.rstrip_crlf_len s) as Hstrip.
    split; (split; [|lia]); intros H.
    + apply ShapeFacts.handle_line_holds in H as [_ H].
      specialize (H eq_refl). lia.
    + apply ShapeFacts.serve_once_holds in H as [_ H].
      specialize (H eq_refl). lia.
  - pose proof ShapeFacts.non_utf8_shape as [_ Hne].
    split; (split; [|lia]); intros [= H]; done.
Qed.

End WireProperties.

Lemma sample_decode_len data s :
  sample_decode data = Some s -> (len s <= length data)%nat.
Proof.
  intros [= <-]. unfold len. induction data as [|c data IH]; simpl; lia.
Qed.

Lemma too_long_reply_counts_raw_bytes_witness :
  let raw := list_ascii_of_string "FIND hello world" ++ [LF] in
  (forall data s, sample_decode data = Some s -> (len s <= length data)%nat)
  /\ (Wire.receive_threaded sample_hash fixture_globals fixture_index []
        sample_json sample_utf8 sample_gzip sample_decode
        Server.CFG_COMPLEXITY_default sample_memory 10 "exact" raw
      = Some (Server.Reply Server.TOO_LONG)
      <-> (10 < length raw)%nat).
Proof.
  intros raw. split; [apply sample_decode_len|].
  apply (too_long_reply_counts_raw_bytes sample_hash fixture_globals
           fixture_index [] sample_json sample_utf8 sample_gzip sample_decode
           Server.CFG_COMPLEXITY_default sample_memory 10 "exact" raw
           sample_decode_len).
Defined.

(** ** The counters and the histogram of [Stats] *)

Module StatsFacts.
Import Stats.

Lemma keys_eq :
  keys = ["lt1"; "lt5"; "lt10"; "lt50"; "lt100"; "lt500"; "lt1000"; "ge1000"].
Proof. reflexivity. Qed.

Lemma init_hist key :
  latency_hist init !! key = if bool_decide (key ∈ keys) then Some 0 else None.
Proof.
  rewrite keys_eq. unfold init, latency_hist, LATENCY_BUCKETS_MS. cbn [map].
  change (lt_key 1) with "lt1". change (lt_key 5) with "lt5".
  change (lt_key 10) with "lt10". change (lt_key 50) with "lt50".
  change (lt_key 100) with "lt100". change (lt_key 500) with "lt500".
  change (lt_key 1000) with "lt1000". cbn [list_to_map foldr].
  repeat match goal with
         | |- <[?k := _]> _ !! key = _ =>
             destruct (decide (key = k)) as [->|?];
             [by rewrite lookup_insert_eq|rewrite lookup_insert_ne by done]
         end.
  rewrite lookup_empty, bool_decide_eq_false_2; [done|].
  cbn [fst] in *. rewrite !elem_of_cons, elem_of_nil. tauto.
Qed.

Lemma bucket_key_elem ms bs : bucket_key ms bs ∈ map lt_key bs ++ ["ge1000"].
Proof.
  induction bs as [|b bs IH]; simpl.
  - apply elem_of_cons. by left.
  - destruct (below ms b); apply elem_of_cons; [by left|by right].
Qed.

Lemma run_app l1 l2 s : run (l1 ++ l2) s = s' ← run l1 s; run l2 s'.
Proof.
  revert s. induction l1 as [|c l1 IH]; intros s; simpl; [done|].
  destruct (step s c) as [s1|]; [|done]. simpl. apply IH.
Qed.

Lemma opened_snoc l c :
  opened (l ++ [c])
  = (opened l + if c is Connection_opened then 1 else 0)%nat.
Proof.
  unfold opened. rewrite List.filter_app, length_app. simpl.
  by destruct c.
Qed.

Lemma recorded_snoc key l c :
  recorded key (l ++ [c])
  = (recorded key l
     + if c is Record_request_time ms
       then (if String.eqb (bucket_key ms LATENCY_BUCKETS_MS) key then 1 else 0)
       else 0)%nat.
Proof.
  unfold recorded. rewrite List.filter_app, length_app. simpl.
  destruct c as [| | |ms]; try done.
  by destruct (String.eqb _ key).
Qed.

(** What every run of calls leaves in a fresh [Stats] object. *)
Lemma run_spec calls :
  exists s,
    run calls init = Some s
    /\ 0 <= active_connections s <= connections s
    /\ connections s = Z.of_nat (opened calls)
    /\ forall key,
         latency_hist s !! key
         = if bool_decide (key ∈ keys)
           then Some (Z.of_nat (recorded key calls)) else None.
Proof.
  induction calls as [|c calls IH] using rev_ind.
  - exists init. split; [done|]. split; [done|]. split; [done|].
    intros key. apply init_hist.
  - destruct IH as (s & Hrun & Hact & Hconn & Hhist).
    rewrite run_app, Hrun. cbn [mbind option_bind run].
    destruct c as [attr delta| | |ms]; cbn [step].
    + eexists. split; [done|]. cbn. rewrite opened_snoc, Nat.add_0_r.
      split; [done|]. split; [done|].
      intros key. rewrite recorded_snoc, Nat.add_0_r. apply Hhist.
    + eexists. split; [done|]. cbn. rewrite opened_snoc.
      split; [lia|]. split; [lia|].
      intros key. rewrite recorded_snoc, Nat.add_0_r. apply Hhist.
    + eexists. split; [done|]. cbn. rewrite opened_snoc, Nat.add_0_r.
      split; [destruct (Z.ltb_spec 0 (active_connections s)); lia|].
      split; [done|].
      intros key. rewrite recorded_snoc, Nat.add_0_r. apply Hhist.
    + unfold record_request_time.
      set (key0 := bucket_key ms LATENCY_BUCKETS_MS).
      assert (key0 ∈ keys) as Hk0 by apply bucket_key_elem.
      rewrite (Hhist key0), bool_decide_eq_true_2 by done.
      cbn [mbind option_bind]. eexists. split; [done|].
      cbn [connections active_connections latency_hist].
      rewrite opened_snoc, Nat.add_0_r. split; [done|]. split; [done|].
      intros key. rewrite recorded_snoc. fold key0.
      destruct (String.eqb_spec key0 key) as [<-|Hne].
      * rewrite lookup_insert_eq, bool_decide_eq_true_2 by done. f_equal. lia.
      * rewrite lookup_insert_ne by done. rewrite Nat.add_0_r. apply Hhist.
Qed.

End StatsFacts.

(** X13. The connection counters of [Stats]. Whatever calls the
    servers make on a fresh [Stats] object, in whatever order their
    threads take the lock, no call raises, [active_connections] is
    never negative and never above [connections], and [connections] is
    the number of calls of [connection_opened]. *)
Theorem stats_connection_counters (calls : list Stats.call) :
  exists s,
    Stats.run calls Stats.init = Some s
    /\ 0 <= Stats.active_connections s <= Stats.connections s
    /\ Stats.connections s = Z.of_nat (Stats.opened calls).
Proof.
  destruct (StatsFacts.run_spec calls) as (s & Hrun & Hact & Hconn & _).
  by exists s.
Qed.

(** X14. The latency histogram of [Stats]. After any calls on a fresh
    object, [latency_hist] holds the eight keys [lt1] .. [lt1000],
    [ge1000] and no other, and under each key the number of recorded
    latencies that fall there: below 1 ms for [lt1], from the
    threshold before up to the threshold of the key for the other
    [lt] keys, 1000 ms and more for [ge1000]. So every recorded latency
    is counted once. *)
Theorem stats_latency_histogram (calls : list Stats.call) :
  (exists s,
      Stats.run calls Stats.init = Some s
      /\ forall key,
           Stats.latency_hist s !! key
           = if bool_decide (key ∈ Stats.keys)
             then Some (Z.of_nat (Stats.recorded key calls)) else None)
  /\ forall ms,
       let key := Stats.bucket_key ms Stats.LATENCY_BUCKETS_MS in
       (key = "lt1" <-> Stats.below ms 1 = true)
       /\ (key = "ge1000" <-> Stats.below ms 1000 = false)
       /\ Forall (fun '(lo, hi) =>
                    key = Stats.lt_key hi
                    <-> Stats.below ms lo = false /\ Stats.below ms hi = true)
                 [(1, 5); (5, 10); (10, 50); (50, 100); (100, 500); (500, 1000)].
Proof.
  split.
  - destruct (StatsFacts.run_spec calls) as (s & Hrun & _ & _ & Hhist).
    by exists s.
  - intros ms key. unfold key, Stats.LATENCY_BUCKETS_MS. cbn [Stats.bucket_key].
    change (Stats.lt_key 1) with "lt1". change (Stats.lt_key 5) with "lt5".
    change (Stats.lt_key 10) with "lt10". change (Stats.lt_key 50) with "lt50".
    change (Stats.lt_key 100) with "lt100". change (Stats.lt_key 500) with "lt500".
    change (Stats.lt_key 1000) with "lt1000".
    rewrite !Forall_cons, Forall_nil. split_and!; [..|done].
    all: cbv beta iota.
    all: change (Stats.lt_key 5) with "lt5"; change (Stats.lt_key 10) with "lt10";
      change (Stats.lt_key 50) with "lt50"; change (Stats.lt_key 100) with "lt100";
      change (Stats.lt_key 500) with "lt500";
      change (Stats.lt_key 1000) with "lt1000".
    all: unfold Stats.below.
    all: repeat match goal with
                | |- context [(?a <? ?b)] => destruct (Z.ltb_spec a b)
                end.
    all: try lia.
    all: split; intros; destruct_and?; done.
Qed.

(** ** The accept loop of the basic server *)

Module LoopFacts.
Import Stats BasicLoop.

Lemma run_served calls :
  forall s,
    (forall key, key ∈ keys -> is_Some (latency_hist s !! key)) ->
    exists s',
      run (map call_of calls) s = Some s'
      /\ active_connections s' = active_connections s
      /\ forall key, key ∈ keys -> is_Some (latency_hist s' !! key).
Proof.
  induction calls as [|c calls IH]; intros s Hkeys; [by exists s|].
  destruct c as [attr|ms]; cbn [map call_of run step].
  - cbn [mbind option_bind].
    destruct (IH (inc s attr 1)) as (s' & Hrun & Hact & Hk); [done|].
    by exists s'.
  - unfold record_request_time.
    destruct (Hkeys (bucket_key ms LATENCY_BUCKETS_MS)) as [v Hv];
      [apply StatsFacts.bucket_key_elem|].
    rewrite Hv. cbn [mbind option_bind].
    match goal with |- context [run _ ?s1] => destruct (IH s1) as (s' & Hrun & Hact & Hk) end.
    { intros key Hkey. cbn [latency_hist]. rewrite lookup_insert_is_Some.
      destruct (decide (bucket_key ms LATENCY_BUCKETS_MS = key)); [by left|].
      right. split; [done|]. by apply Hkeys. }
    by exists s'.
Qed.

Lemma serve_spec turns :
  forall s,
    active_connections s = 0 ->
    (forall key, key ∈ keys -> is_Some (latency_hist s !! key)) ->
    exists s',
      serve turns s = Some (s', map (fun _ => false) turns)
      /\ active_connections s' = 0.
Proof.
  induction turns as [|[cap calls] turns IH]; intros s Hact Hkeys; [by exists s|].
  cbn [serve map]. unfold turn. rewrite Hact.
  assert ((0 <? cap) && (cap <=? 0) = false) as ->.
  { destruct (Z.ltb_spec 0 cap); [|done]. destruct (Z.leb_spec cap 0); [lia|done]. }
  destruct (run_served calls (connection_opened s)) as (s1 & -> & Hact1 & Hk1);
    [done|].
  cbn [mbind option_bind].
  destruct (IH (connection_closed s1)) as (s' & -> & Hact'); [| |by exists s'].
  - cbn. rewrite Hact1. cbn. rewrite Hact. done.
  - done.
Qed.

End LoopFacts.

(** X15. The basic server never answers [503 BUSY]. Its loop opens a
    connection, serves it and closes it before it accepts the next, so
    at every accept [active_connections] is 0 and the test
    [cap > 0 and active_connections >= cap] fails, whatever [cap] the
    configuration gives and whatever the requests were. *)
Theorem basic_server_never_busy (turns : list (Z * list BasicLoop.served)) :
  exists s,
    BasicLoop.serve turns Stats.init = Some (s, map (fun _ => false) turns)
    /\ Stats.active_connections s = 0.
Proof.
  apply LoopFacts.serve_spec; [done|].
  intros key Hkey. rewrite StatsFacts.init_hist.
  by rewrite bool_decide_eq_true_2.
Qed.

(** ** The configuration values *)

Module ConfigFacts.
Import Config.

Lemma _clampi_range v lo hi z :
  lo <= hi -> _clampi v lo hi = Some z ->
  lo <= z <= hi /\ _clampi (Int_value z) lo hi = Some z.
Proof.
  intros Hle. destruct v as [z'| |]; cbn; [| |done].
  - intros [= <-]. split; [lia|]. f_equal. lia.
  - intros [= <-]. split; [lia|]. f_equal. lia.
Qed.

(** What [_clampf] returns between a tenth and 3600: one of the two
    bounds, or its argument when that lies strictly between them. *)
Lemma _clampf_cases v x :
  _clampf v TENTH HOUR = Some x ->
  x = TENTH \/ x = HOUR
  \/ exists a b, x = Finite a b /\ lt TENTH x = true /\ lt x HOUR = true.
Proof.
  destruct v as [y| |]; cbn [_clampf]; [| |done].
  - intros [= <-]. unfold max, min.
    destruct (lt y HOUR) eqn:Hhi; [|by right; left].
    destruct (lt TENTH y) eqn:Hlo; [|by left].
    right. right. destruct y as [a b|n|]; [by exists a, b|by destruct n|done].
  - intros [= <-]. by left.
Qed.

Lemma _clampf_range v x :
  _clampf v TENTH HOUR = Some x ->
  (exists num den,
      x = Finite num den
      /\ lt (Finite num den) TENTH = false /\ lt HOUR (Finite num den) = false)
  /\ _clampf (Float_value x) TENTH HOUR = Some x.
Proof.
  intros H. apply _clampf_cases in H as [->|[->|(a & b & -> & Hlo & Hhi)]].
  - split; [by eexists _, _|done].
  - split; [by eexists _, _|done].
  - split.
    + exists a, b. split; [done|]. unfold lt, TENTH, HOUR in *.
      apply Z.ltb_lt in Hlo, Hhi. split; apply Z.ltb_ge; lia.
    + cbn [_clampf]. unfold max, min. by rewrite Hhi, Hlo.
Qed.

Lemma clamped_int_fails cfg_in key d lo hi :
  clamped_int cfg_in key d lo hi = None <-> int_fails cfg_in key.
Proof.
  unfold clamped_int, int_fails. destruct (cfg_in !! key) as [v|]; cbn.
  - destruct (as_int v) eqn:E; cbn; split; try done.
    + by intros (v' & [= <-] & H); rewrite E in H.
    + by intros (v' & [= <-] & H); rewrite E in H.
    + intros _. by exists v.
  - split; [done|]. by intros (v & H & _).
Qed.

Lemma clamped_float_fails cfg_in key d lo hi :
  clamped_float cfg_in key d lo hi = None <-> float_fails cfg_in key.
Proof.
  unfold clamped_float, float_fails. destruct (cfg_in !! key) as [v|]; cbn.
  - destruct (as_float v) eqn:E; cbn; split; try done.
    + by intros (v' & [= <-] & H); rewrite E in H.
    + by intros (v' & [= <-] & H); rewrite E in H.
    + intros _. by exists v.
  - split; [done|]. by intros (v & H & _).
Qed.

Lemma entries_in_range rt mpl cs mcc v1 v2 v3 v4 :
  _clampf v1 TENTH HOUR = Some rt ->
  _clampi v2 1 1000000 = Some mpl ->
  _clampi v3 0 1000000 = Some cs ->
  _clampi v4 1 1000000 = Some mcc ->
  in_range {| request_timeout := rt; max_pattern_length := mpl;
              cache_size := cs; max_concurrent_connections := mcc |}.
Proof.
  intros H1 H2 H3 H4. unfold in_range.
  cbn [request_timeout max_pattern_length cache_size max_concurrent_connections].
  apply _clampf_range in H1 as [R1 F1].
  apply _clampi_range in H2; [|lia]. apply _clampi_range in H3; [|lia].
  apply _clampi_range in H4; [|lia]. done.
Qed.

End ConfigFacts.

(** X16. [_validate] keeps the settings in range, in both servers. It
    raises exactly when [float] fails on the request timeout, or [int]
    on one of the integer settings, with an exception other than
    [TypeError] and [ValueError] (an [OverflowError], say). Otherwise
    the request timeout is a finite number between a tenth and 3600,
    the pattern length limit is between 1 and 1,000,000, the cache
    size between 0 and 1,000,000 and the connection limit between 1
    and 1,000,000; the threaded server, which alone has the setting,
    keeps the number of workers between 1 and 10,000; and each
    validated value is what its clamp makes of it again. *)
Theorem validate_keeps_limits_in_range (cfg_in : gmap string Config.value) :
  (Config._validate_threaded cfg_in = None
   <-> Config.float_fails cfg_in "request_timeout"
       \/ exists key,
            key ∈ ["max_pattern_length"; "cache_size"; "max_workers";
                   "max_concurrent_connections"]
            /\ Config.int_fails cfg_in key)
  /\ (Config._validate_basic cfg_in = None
      <-> Config.float_fails cfg_in "request_timeout"
          \/ exists key,
               key ∈ ["max_pattern_length"; "cache_size";
                      "max_concurrent_connections"]
               /\ Config.int_fails cfg_in key)
  /\ (forall l workers,
        Config._validate_threaded cfg_in = Some (l, workers) ->
        Config.in_range l
        /\ 1 <= workers <= 10000
        /\ Config._clampi (Config.Int_value workers) 1 10000 = Some workers)
  /\ (forall l, Config._validate_basic cfg_in = Some l -> Config.in_range l).
Proof.
  unfold Config._validate_threaded, Config._validate_basic.
  pose proof (ConfigFacts.clamped_float_fails cfg_in "request_timeout" 30
                Config.TENTH Config.HOUR) as F0.
  pose proof (ConfigFacts.clamped_int_fails cfg_in "max_pattern_length" 1000
                1 1000000) as F1.
  pose proof (ConfigFacts.clamped_int_fails cfg_in "cache_size" 100 0 1000000)
    as F2.
  pose proof (ConfigFacts.clamped_int_fails cfg_in "max_workers" 50 1 10000)
    as F3.
  pose proof (ConfigFacts.clamped_int_fails cfg_in "max_concurrent_connections"
                1000 1 1000000) as F4.
  assert ((exists key,
             key ∈ ["max_pattern_length"; "cache_size"; "max_workers";
                    "max_concurrent_connections"]
             /\ Config.int_fails cfg_in key)
          <-> Config.int_fails cfg_in "max_pattern_length"
              \/ Config.int_fails cfg_in "cache_size"
              \/ Config.int_fails cfg_in "max_workers"
              \/ Config.int_fails cfg_in "max_concurrent_connections") as K5.
  { split.
    - intros (key & Hkey & H). rewrite !elem_of_cons, elem_of_nil in Hkey.
      destruct Hkey as [->|[->|[->|[->|[]]]]]; tauto.
    - intros [H|[H|[H|H]]]; eexists; (split; [|exact H]);
        rewrite !elem_of_cons; tauto. }
  assert ((exists key,
             key ∈ ["max_pattern_length"; "cache_size";
                    "max_concurrent_connections"]
             /\ Config.int_fails cfg_in key)
          <-> Config.int_fails cfg_in "max_pattern_length"
              \/ Config.int_fails cfg_in "cache_size"
              \/ Config.int_fails cfg_in "max_concurrent_connections") as K4.
  { split.
    - intros (key & Hkey & H). rewrite !elem_of_cons, elem_of_nil in Hkey.
      destruct Hkey as [->|[->|[->|[]]]]; tauto.
    - intros [H|[H|H]]; eexists; (split; [|exact H]);
        rewrite !elem_of_cons; tauto. }
  rewrite K5, K4, <- F0, <- F1, <- F2, <- F3, <- F4. clear K5 K4 F0 F1 F2 F3 F4.
  unfold Config.clamped_float, Config.clamped_int in *.
  set (v0 := Config.as_float _) in *.
  set (v1 := Config.as_int (default _ (cfg_in !! "max_pattern_length"))) in *.
  set (v2 := Config.as_int (default _ (cfg_in !! "cache_size"))) in *.
  set (v3 := Config.as_int (default _ (cfg_in !! "max_workers"))) in *.
  set (v4 := Config.as_int (default _ (cfg_in !! "max_concurrent_connections")))
    in *.
  destruct (Config._clampf v0 _ _) as [rt|] eqn:H0;
    destruct (Config._clampi v1 _ _) as [mpl|] eqn:H1;
    destruct (Config._clampi v2 _ _) as [cs|] eqn:H2;
    destruct (Config._clampi v3 _ _) as [mw|] eqn:H3;
    destruct (Config._clampi v4 _ _) as [mcc|] eqn:H4;
    cbn [mbind option_bind].
  all: split_and!;
    try (split;
         [intros Hx; try discriminate Hx;
          solve [by left | right; by left | right; right; by left
                | right; right; right; by left | by do 4 right | by do 3 right]
         |intros Hx; try reflexivity; repeat destruct Hx as [Hx|Hx];
          discriminate Hx]);
    try (intros ? ? [=]); try (intros ? [=]); subst.
  - split; [by eapply ConfigFacts.entries_in_range|].
    by apply ConfigFacts._clampi_range in H3; [|lia].
  - by eapply ConfigFacts.entries_in_range.
  - by eapply ConfigFacts.entries_in_range.
Qed.

(** ** [load_wordlist] *)

Module StripFacts.
Import PyFacts ReFacts MatchFacts.

Lemma rstrip_idem s : rstrip (rstrip s) = rstrip s.
Proof.
  induction s as [|c s IH]; [done|]. cbn [rstrip].
  destruct (String.eqb (rstrip s) "" && isspace c) eqn:H; [done|].
  cbn [rstrip]. by rewrite IH, H.
Qed.

Lemma lstrip_idem s : lstrip (lstrip s) = lstrip s.
Proof.
  induction s as [|c s IH]; [done|]. cbn [lstrip].
  destruct (isspace c) eqn:H; [done|]. cbn [lstrip]. by rewrite H.
Qed.

Lemma rstrip_lstrip s : rstrip s = s -> rstrip (lstrip s) = lstrip s.
Proof.
  induction s as [|c s IH]; [done|]. cbn [lstrip rstrip].
  destruct (isspace c) eqn:Hc.
  - destruct (String.eqb (rstrip s) "") eqn:He; cbn [andb]; [done|].
    intros [= H]. by apply IH.
  - rewrite andb_false_r. intros H. cbn [rstrip]. by rewrite Hc, andb_false_r.
Qed.

Lemma strip_idem s : strip (strip s) = strip s.
Proof.
  unfold strip. rewrite (rstrip_lstrip (rstrip s)) by apply rstrip_idem.
  apply lstrip_idem.
Qed.

Lemma has_char_lstrip c s : has_char c (lstrip s) = true -> has_char c s = true.
Proof.
  induction s as [|d s IH]; [done|]. cbn [lstrip].
  destruct (isspace d); [|done]. intros H. rewrite has_char_cons, IH by done.
  apply orb_true_r.
Qed.

Lemma has_char_rstrip c s : has_char c (rstrip s) = true -> has_char c s = true.
Proof.
  induction s as [|d s IH]; [done|]. cbn [rstrip].
  destruct (_ && _); [done|]. rewrite !has_char_cons.
  intros [->|H]%orb_true_iff; [done|]. rewrite IH by done. apply orb_true_r.
Qed.

Lemma rstrip_nl s : rstrip (s +:+ nl) = rstrip s.
Proof.
  induction s as [|c s IH]; [done|]. rewrite sapp_cons. cbn [rstrip].
  by rewrite IH.
Qed.

Lemma file_line_strip line :
  file_line line -> has_char LF (strip line) = false.
Proof.
  intros (body & Hbody & Hline).
  assert (strip line = strip body) as ->.
  { destruct Hline as [->| ->]; [done|]. unfold strip. by rewrite rstrip_nl. }
  destruct (has_char LF (strip body)) eqn:H; [|done].
  apply has_char_lstrip, has_char_rstrip in H. congruence.
Qed.

End StripFacts.

(** X17. [load_wordlist] hands over clean words. Every word it returns
    is not empty and has no white space at either end (stripping it
    again changes nothing); the words keep the order of their lines;
    and when the lines are those of a text file, each with no line feed
    but the one that ends it, no word holds a line feed, which is what
    the agreement of the index with the scan asks of a corpus. *)
Theorem load_wordlist_words_are_clean (lines : list string) :
  Forall (fun w => w <> "" /\ strip w = w) (load_wordlist lines)
  /\ (forall more, load_wordlist (lines ++ more)
                   = load_wordlist lines ++ load_wordlist more)
  /\ (Forall file_line lines ->
      forallb single_line (load_wordlist lines) = true).
Proof.
  split_and!.
  - unfold load_wordlist. apply Forall_forall. intros w Hw.
    apply list_elem_of_In, in_map_iff in Hw as (line & <- & Hin).
    apply filter_In in Hin as [_ Hne]. split.
    + intros He. by rewrite He in Hne.
    + apply StripFacts.strip_idem.
  - intros more. unfold load_wordlist. by rewrite List.filter_app, map_app.
  - intros Hlines. apply forallb_forall. intros w Hw.
    unfold load_wordlist in Hw. apply in_map_iff in Hw as (line & <- & Hin).
    apply filter_In in Hin as [Hin _]. rewrite Forall_forall in Hlines.
    unfold single_line. rewrite StripFacts.file_line_strip; [done|].
    by apply Hlines, list_elem_of_In.
Qed.

(** ** The decimal text of an integer *)

Module DigitFacts.

Lemma uint_digits d : digits (NilEmpty.string_of_uint d).
Proof.
  unfold digits. induction d; cbn [NilEmpty.string_of_uint chars list_ascii_of_string];
    [constructor|..]; by constructor.
Qed.

Lemma uint_value_acc d acc :
  fold_left (fun a c => 10 * a + digit_val c) (chars (NilEmpty.string_of_uint d))
            (Z.pos acc)
  = Z.pos (Pos.of_uint_acc d acc).
Proof.
  revert acc. induction d; intros acc;
    cbn [NilEmpty.string_of_uint chars list_ascii_of_string fold_left Pos.of_uint_acc];
    [done|..].
  all: rewrite <- IHd; f_equal; unfold digit_val; cbn; lia.
Qed.

Lemma uint_value d :
  fold_left (fun a c => 10 * a + digit_val c) (chars (NilEmpty.string_of_uint d)) 0
  = Z.of_N (Pos.of_uint d).
Proof.
  induction d;
    cbn [NilEmpty.string_of_uint chars list_ascii_of_string fold_left Pos.of_uint];
    [done|..].
  { rewrite <- IHd. f_equal. }
  all: cbn [Z.of_N]; rewrite <- uint_value_acc; f_equal.
Qed.

Lemma to_uint_text p :
  NilZero.string_of_uint (Pos.to_uint p) = NilEmpty.string_of_uint (Pos.to_uint p).
Proof.
  pose proof (DecimalPos.Unsigned.of_to p) as H.
  by destruct (Pos.to_uint p).
Qed.

(** [str(z)] of a natural number is a non-empty run of digits, and
    [int] reads the number back. *)
Lemma str_of_Z_digits z : 0 <= z -> digits (str_of_Z z).
Proof.
  intros Hz. unfold str_of_Z. destruct z as [|p|p]; [|cbn [Z.to_int NilZero.string_of_int]|lia].
  - by repeat constructor.
  - rewrite to_uint_text. apply uint_digits.
Qed.

Lemma str_of_Z_nonempty z : str_of_Z z <> "".
Proof.
  unfold str_of_Z. destruct z as [|p|p]; cbn [Z.to_int NilZero.string_of_int]; [done| |done].
  rewrite to_uint_text. pose proof (DecimalPos.Unsigned.of_to p) as H.
  by destruct (Pos.to_uint p).
Qed.

Lemma int_of_str z : 0 <= z -> int_of_digits (str_of_Z z) = z.
Proof.
  intros Hz. unfold str_of_Z, int_of_digits.
  destruct z as [|p|p]; [done|cbn [Z.to_int NilZero.string_of_int]|lia].
  by rewrite to_uint_text, uint_value, DecimalPos.Unsigned.of_to.
Qed.

Lemma digits_isdigit s : digits s -> s <> "" -> isdigit s = true.
Proof.
  intros Hd Hs. destruct s as [|c s]; [done|]. unfold isdigit.
  apply forallb_forall. intros x Hx. unfold digits in Hd.
  rewrite Forall_forall in Hd.
  apply Hd. by apply list_elem_of_In.
Qed.

Lemma digit_not_space c : isdigit_char c = true -> isspace c = false.
Proof.
  unfold isdigit_char, isspace. destruct (N_of_ascii c) eqn:E; [done|].
  intros [H1 H2]%andb_true_iff. apply N.leb_le in H1, H2.
  apply orb_false_iff. split; apply andb_false_iff.
  - right. apply N.leb_gt. lia.
  - right. apply N.leb_gt. lia.
Qed.

End DigitFacts.

(** ** The request line of the clients, read by the servers *)

Module RequestFacts.
Import Server ReFacts MatchFacts LiteralFacts DigitFacts.

Lemma no_space_blank w : no_space w = true -> has_char " " w = false.
Proof.
  unfold no_space, has_char. induction (chars w) as [|c l IH]; [done|].
  cbn [forallb existsb]. intros [Hc Hl]%andb_true_iff. rewrite (IH Hl), orb_false_r.
  destruct (Ascii.eqb_spec c " ") as [->|]; done.
Qed.

Lemma digits_no_space d : digits d -> no_space d = true.
Proof.
  unfold digits, no_space. induction 1 as [|c l Hc _ IH]; [done|].
  cbn [forallb]. by rewrite (digit_not_space _ Hc), IH.
Qed.

Lemma no_space_cons c w :
  no_space (String c w) = true <-> isspace c = false /\ no_space w = true.
Proof.
  unfold no_space. cbn [chars list_ascii_of_string forallb].
  rewrite andb_true_iff, negb_true_iff. done.
Qed.

(** An option marker starts with a blank: it does not start inside a
    word. *)
Lemma contains_word sep w t :
  has_char " " w = false ->
  contains (String " " sep) (w +:+ t) = contains (String " " sep) t.
Proof.
  unfold has_char. induction w as [|c w IH]; [done|].
  cbn [chars list_ascii_of_string existsb]. intros [Hc Hw]%orb_false_iff.
  rewrite sapp_cons. cbn [contains String.prefix].
  destruct (ascii_dec " " c) as [<-|_]; [done|]. by apply IH.
Qed.

Lemma contains_word_only sep w :
  has_char " " w = false -> contains (String " " sep) w = false.
Proof.
  intros H. rewrite <- (sapp_nil_r w). by rewrite contains_word.
Qed.

Lemma prefix_refl s t : String.prefix s (s +:+ t) = true.
Proof.
  induction s as [|c s IH]; [by destruct t|]. rewrite sapp_cons.
  cbn [String.prefix]. by destruct (ascii_dec c c).
Qed.

Lemma sdrop_sapp s t : sdrop (len s) (s +:+ t) = t.
Proof. induction s as [|c s IH]; [done|]. by rewrite sapp_cons. Qed.

Lemma rsplit1_none sep s : contains sep s = false -> rsplit1 sep s = [s].
Proof.
  induction s as [|c s IH]; [done|].
  cbn [contains]. intros [Hp Hc]%orb_false_iff.
  cbn [rsplit1]. by rewrite (IH Hc), Hp.
Qed.

Lemma rsplit1_app sep x s a b :
  rsplit1 sep s = [a; b] -> rsplit1 sep (x +:+ s) = [x +:+ a; b].
Proof.
  intros H. induction x as [|c x IH]; [done|].
  rewrite !sapp_cons. cbn [rsplit1]. by rewrite IH.
Qed.

(** The text is cut at the last marker. *)
Lemma rsplit1_at_marker c sep x y :
  contains (String c sep) (sep +:+ y) = false ->
  rsplit1 (String c sep) (x +:+ String c sep +:+ y) = [x; y].
Proof.
  intros H. rewrite <- (sapp_nil_r x) at 2. apply rsplit1_app.
  rewrite sapp_cons. cbn [rsplit1]. rewrite (rsplit1_none _ _ H).
  rewrite <- sapp_cons, prefix_refl, sdrop_sapp. done.
Qed.

Lemma contains_here sep x y : contains sep (x +:+ sep +:+ y) = true.
Proof. apply contains_split. by exists x, y. Qed.

(** Words that are not white space pass [rstrip], [strip] and the
    removal of the line end unchanged, and so does a text that ends
    with one. *)
Lemma rstrip_word w : no_space w = true -> rstrip w = w.
Proof.
  induction w as [|c w IH]; [done|]. intros [Hc Hw]%no_space_cons.
  cbn [rstrip]. by rewrite (IH Hw), Hc, andb_false_r.
Qed.

Lemma rstrip_sapp a b : rstrip b = b -> b <> "" -> rstrip (a +:+ b) = a +:+ b.
Proof.
  intros Hb Hne. induction a as [|c a IH]; [done|].
  rewrite sapp_cons. cbn [rstrip]. rewrite IH.
  destruct (a +:+ b) eqn:E; [|done].
  destruct a; [|done]. by rewrite sapp_nil_l in E.
Qed.

Lemma crlf_space c : (Ascii.eqb c CR || Ascii.eqb c LF) = true -> isspace c = true.
Proof.
  intros [H|H]%orb_true_iff; apply Ascii.eqb_eq in H; by subst.
Qed.

Lemma rstrip_crlf_word w : no_space w = true -> rstrip_crlf w = w.
Proof.
  induction w as [|c w IH]; [done|]. intros [Hc Hw]%no_space_cons.
  cbn [rstrip_crlf]. rewrite (IH Hw).
  destruct (Ascii.eqb c CR || Ascii.eqb c LF) eqn:E;
    [by rewrite (crlf_space _ E) in Hc|by rewrite andb_false_r].
Qed.

Lemma rstrip_crlf_sapp a b :
  rstrip_crlf a = a -> rstrip_crlf b = b -> rstrip_crlf (a +:+ b) = a +:+ b.
Proof.
  intros Ha Hb. destruct b as [|d b]; [by rewrite sapp_nil_r|].
  clear Ha. induction a as [|c a IH]; [done|].
  rewrite sapp_cons. cbn [rstrip_crlf]. rewrite IH.
  destruct (a +:+ String d b) eqn:E; [|done].
  destruct a; [|done]. by rewrite sapp_nil_l in E.
Qed.

Lemma rstrip_crlf_nl s : rstrip_crlf s = s -> rstrip_crlf (s +:+ nl) = s.
Proof.
  induction s as [|c s IH]; [done|].
  cbn [rstrip_crlf]. rewrite sapp_cons. cbn [rstrip_crlf].
  destruct (String.eqb (rstrip_crlf s) "" && _) eqn:E; [done|].
  intros [= Hs]. rewrite (IH Hs). rewrite Hs in E. by rewrite E.
Qed.

(** [split] on two words with one blank between them. *)
Lemma split_go_word w t cur :
  no_space w = true -> split_go (w +:+ t) cur = split_go t (cur +:+ w).
Proof.
  revert cur. induction w as [|c w IH]; intros cur.
  - by rewrite sapp_nil_r.
  - intros [Hc Hw]%no_space_cons. rewrite sapp_cons. cbn [split_go].
    rewrite Hc, (IH _ Hw), sapp_assoc. done.
Qed.

Lemma split_two a b :
  no_space a = true -> a <> "" -> no_space b = true -> b <> "" ->
  split (a +:+ " " +:+ b) = [a; b].
Proof.
  intros Ha Hane Hb Hbne. unfold split.
  rewrite (split_go_word a _ "" Ha), sapp_nil_l, sapp_cons, sapp_nil_l.
  cbn [split_go]. change (isspace " ") with true. cbv iota.
  destruct (String.eqb_spec a ""); [done|]. f_equal.
  transitivity (split_go (b +:+ "") ""); [by rewrite sapp_nil_r|].
  rewrite (split_go_word b "" "" Hb), sapp_nil_l.
  cbn [split_go]. by destruct (String.eqb_spec b "").
Qed.

Lemma strip_two a b :
  no_space a = true -> a <> "" -> no_space b = true -> b <> "" ->
  strip (a +:+ " " +:+ b) = a +:+ " " +:+ b.
Proof.
  intros Ha Hane Hb Hbne. unfold strip.
  rewrite <- sapp_assoc, (rstrip_sapp _ b (rstrip_word _ Hb) Hbne), sapp_assoc.
  destruct a as [|c a]; [done|]. apply no_space_cons in Ha as [Hc _].
  rewrite sapp_cons. cbn [lstrip]. by rewrite Hc.
Qed.

Lemma request_line_parts q mode range gzip :
  Client.request_line q mode range gzip
  = "FIND " +:+ ((q +:+ mode_option mode) +:+ range_option range)
    +:+ gzip_option gzip.
Proof.
  unfold Client.request_line, mode_option, range_option, gzip_option.
  destruct mode as [m|], range as [[off lim]|], gzip;
    rewrite ?sapp_nil_l, ?sapp_nil_r, <- ?sapp_assoc; reflexivity.
Qed.

Lemma contains_cons sep c s :
  contains sep (String c s) = String.prefix sep (String c s) || contains sep s.
Proof. done. Qed.

(** No marker of an option starts in the two numbers of RANGE. *)
Lemma range_tail c sep d1 d2 :
  isdigit_char c = false ->
  digits d1 -> d1 <> "" -> digits d2 -> d2 <> "" ->
  contains (String " " (String c sep)) (" " +:+ d1 +:+ " " +:+ d2) = false.
Proof.
  intros Hc H1 N1 H2 N2.
  assert (forall x r t, isdigit_char x = true ->
            String.prefix (String " " (String c sep)) (String " " (String x r +:+ t))
            = false) as Hpre.
  { intros x r t Hx. rewrite sapp_cons. cbn [String.prefix].
    destruct (ascii_dec " " " "); [|done].
    destruct (ascii_dec c x) as [->|]; [congruence|done]. }
  pose proof (no_space_blank _ (digits_no_space _ H1)) as B1.
  pose proof (no_space_blank _ (digits_no_space _ H2)) as B2.
  rewrite sapp_cons, sapp_nil_l.
  destruct d1 as [|x1 r1]; [done|]. destruct d2 as [|x2 r2]; [done|].
  apply Forall_cons in H1 as [X1 _]. apply Forall_cons in H2 as [X2 _].
  rewrite contains_cons, Hpre by done. cbn [orb].
  rewrite (contains_word _ _ _ B1), sapp_cons, sapp_nil_l, contains_cons.
  rewrite (contains_word_only _ _ B2), orb_false_r.
  rewrite <- (sapp_nil_r (String x2 r2)). by apply Hpre.
Qed.

Lemma mode_cases (mode : option string) :
  mode ∈ [None; Some "exact"; Some "partial"] ->
  mode = None \/ mode = Some "exact" \/ mode = Some "partial".
Proof. rewrite !elem_of_cons, elem_of_nil. tauto. Qed.

Lemma no_encoding q mode range :
  has_char " " q = false ->
  mode ∈ [None; Some "exact"; Some "partial"] ->
  natural_range range ->
  contains " --accept-encoding " ((q +:+ mode_option mode) +:+ range_option range)
  = false.
Proof.
  intros Hq Hm Hr. rewrite sapp_assoc, contains_word by done.
  destruct range as [[off lim]|]; cbn [range_option].
  - destruct Hr as [Ho Hl].
    transitivity (contains " --accept-encoding "
                    (" " +:+ str_of_Z off +:+ " " +:+ str_of_Z lim)).
    { by destruct (mode_cases _ Hm) as [->|[->| ->]]. }
    apply range_tail;
      auto using str_of_Z_digits, str_of_Z_nonempty.
  - by destruct (mode_cases _ Hm) as [->|[->| ->]].
Qed.

Lemma no_range q mode :
  has_char " " q = false ->
  mode ∈ [None; Some "exact"; Some "partial"] ->
  contains " RANGE " (q +:+ mode_option mode) = false.
Proof.
  intros Hq Hm. rewrite contains_word by done.
  by destruct (mode_cases _ Hm) as [->|[->| ->]].
Qed.

Lemma read_encoding_line x gzip :
  contains " --accept-encoding " x = false ->
  read_encoding (x +:+ gzip_option gzip) = ret (x, gzip).
Proof.
  intros H. unfold read_encoding. destruct gzip; cbn [gzip_option].
  - change (x +:+ " --accept-encoding gzip")
      with (x +:+ " --accept-encoding " +:+ "gzip").
    by rewrite contains_here, rsplit1_at_marker.
  - by rewrite sapp_nil_r, H.
Qed.

Lemma read_range_line x range :
  contains " RANGE " x = false ->
  natural_range range ->
  read_range (x +:+ range_option range)
  = ret (x, offset (asked "" "" range false), limit (asked "" "" range false)).
Proof.
  intros H Hr. unfold read_range.
  destruct range as [[off lim]|]; cbn [range_option asked offset limit].
  - destruct Hr as [Ho Hl].
    pose proof (str_of_Z_digits _ Ho) as D1. pose proof (str_of_Z_digits _ Hl) as D2.
    pose proof (str_of_Z_nonempty off) as N1. pose proof (str_of_Z_nonempty lim) as N2.
    rewrite contains_here, rsplit1_at_marker.
    + rewrite strip_two, split_two by auto using digits_no_space.
      cbn [length Nat.eqb negb forallb orb].
      rewrite !digits_isdigit by done. cbn [andb negb].
      by rewrite !int_of_str.
    + transitivity (contains " RANGE " (" " +:+ str_of_Z off +:+ " " +:+ str_of_Z lim));
        [done|]. by apply range_tail.
  - by rewrite sapp_nil_r, H.
Qed.

Lemma read_mode_threaded_line dm q mode :
  q <> "" -> has_char " " q = false ->
  mode ∈ [None; Some "exact"; Some "partial"] ->
  read_mode_threaded dm (q +:+ mode_option mode) = ret (q, default dm mode).
Proof.
  intros Hne Hq Hm. unfold read_mode_threaded.
  destruct (mode_cases _ Hm) as [->|[->| ->]]; cbn [mode_option].
  - by rewrite sapp_nil_r, contains_word_only.
  - rewrite contains_here, rsplit1_at_marker by done.
    by destruct (String.eqb_spec q "").
  - rewrite contains_here, rsplit1_at_marker by done.
    by destruct (String.eqb_spec q "").
Qed.

Lemma read_mode_basic_line q :
  has_char " " q = false -> read_mode_basic (q +:+ mode_option None) = ret q.
Proof.
  intros Hq. unfold read_mode_basic. cbn [mode_option].
  by rewrite sapp_nil_r, contains_word_only.
Qed.

(** The line is sent with a line feed and read without it. *)
Lemma line_kept q mode range gzip :
  no_space q = true ->
  mode ∈ [None; Some "exact"; Some "partial"] ->
  natural_range range ->
  rstrip_crlf (Client.request_line q mode range gzip +:+ nl)
  = Client.request_line q mode range gzip.
Proof.
  intros Hq Hm Hr. apply rstrip_crlf_nl. rewrite request_line_parts.
  repeat apply rstrip_crlf_sapp.
  - done.
  - by apply rstrip_crlf_word.
  - by destruct (mode_cases _ Hm) as [->|[->| ->]].
  - destruct range as [[off lim]|]; [|done]. destruct Hr as [Ho Hl].
    cbn [range_option]. repeat apply rstrip_crlf_sapp; try done.
    all: apply rstrip_crlf_word, digits_no_space; by apply str_of_Z_digits.
  - by destruct gzip.
Qed.

Lemma rest_nonempty q t : q <> "" -> String.eqb (q +:+ t) "" = false.
Proof. by destruct q. Qed.

End RequestFacts.


(** ** The request line, as the servers read it *)

Module FindLineFacts.

Lemma find_line_read (stats_text default_mode q : string)
    (mode : option string) (range : option (Z * Z)) (gzip : bool) :
  q <> "" -> no_space q = true ->
  mode ∈ [None; Some "exact"; Some "partial"] ->
  natural_range range ->
  let line := rstrip_crlf (Client.request_line q mode range gzip +:+ nl) in
  Server.parse_threaded stats_text default_mode line
  = Server.ret (asked q (default default_mode mode) range gzip)
  /\ (mode = None ->
      Server.parse_basic stats_text line = Server.ret (asked q "exact" range gzip)).
Proof.
  intros Hne Hq Hm Hr line. subst line.
  rewrite RequestFacts.line_kept, RequestFacts.request_line_parts by done.
  pose proof (RequestFacts.no_space_blank _ Hq) as Hb.
  assert (forall commands,
            Server.one_of "FIND" commands = true ->
            Server.read_command stats_text commands
              ("FIND " +:+ ((q +:+ mode_option mode) +:+ range_option range)
               +:+ gzip_option gzip)
            = Server.ret ("FIND", q +:+ mode_option mode, gzip,
                          Server.offset (asked "" "" range false),
                          Server.limit (asked "" "" range false))) as Hcmd.
  { intros commands Hc. unfold Server.read_command.
    change (split1_blank ("FIND " +:+ ?r)) with ["FIND"; r].
    cbn [lookup list_lookup default from_option id].
    change (upper "FIND") with "FIND". rewrite Hc.
    change (String.eqb "FIND" "QUIT") with false.
    change (String.eqb "FIND" "STATS") with false.
    cbn [negb orb length Nat.eqb].
    rewrite !ReFacts.sapp_assoc, RequestFacts.rest_nonempty by done.
    rewrite <- !ReFacts.sapp_assoc.
    rewrite RequestFacts.read_encoding_line
      by (by apply RequestFacts.no_encoding).
    cbn [Server.bind Server.ret].
    rewrite RequestFacts.read_range_line
      by (done || by apply RequestFacts.no_range).
    done. }
  split.
  - unfold Server.parse_threaded.
    change (String.eqb ("FIND " +:+ ?r) "") with false. cbv iota.
    rewrite Hcmd by done. cbn [Server.bind Server.ret].
    rewrite RequestFacts.read_mode_threaded_line by done.
    by destruct range as [[off lim]|].
  - intros ->. unfold Server.parse_basic.
    rewrite Hcmd by done. cbn [Server.bind Server.ret].
    rewrite RequestFacts.read_mode_basic_line by done.
    by destruct range as [[off lim]|].
Qed.

End FindLineFacts.

(** X18. What a client sends is read back in full. The query is an
    ASCII word without white space, the mode absent, [exact] or
    [partial], the range two numbers that are not negative.
    [client_multi.py] sends nothing for an empty query; for the word
    [quit], in any case, it sends [QUIT], which the threaded server
    reads as the end of the session; for any other query it sends a
    FIND line, of which the threaded server makes a FIND request with
    just that query, that mode (its default when none was given), that
    range and that encoding. [client_basic.py] sends a FIND line for
    every query, [quit] too, and the basic server makes of it the FIND
    request with that query, that range and that encoding. No option
    is taken for a part of the pattern, and the pattern for none. *)
Theorem client_request_is_read_back (stats_text default_mode : string)
    (typed : option string) (query : string)
    (mode : option string) (range : option (Z * Z)) (gzip : bool) :
  mode ∈ [None; Some "exact"; Some "partial"] ->
  natural_range range ->
  (let q := Client.typed_query typed in
   isascii q = true -> no_space q = true ->
   match Client.multi_sends typed mode range gzip with
   | None => q = ""
   | Some line =>
       q <> ""
       /\ Server.parse_threaded stats_text default_mode (rstrip_crlf line)
          = if String.eqb (lower q) "quit" then Server.leave Server.Quit
            else Server.ret (asked q (default default_mode mode) range gzip)
   end)
  /\ (query <> "" -> isascii query = true -> no_space query = true ->
      Server.parse_basic stats_text
        (rstrip_crlf (Client.basic_sends query range gzip))
      = Server.ret (asked query "exact" range gzip)).
Proof.
  intros Hm Hr. split.
  - intros q Hascii Hq. unfold Client.multi_sends. fold q.
    destruct (String.eqb_spec q "") as [He|Hne]; [done|].
    destruct (String.eqb (lower q) "quit"); (split; [done|]); [reflexivity|].
    by apply (FindLineFacts.find_line_read stats_text default_mode q mode range gzip).
  - intros Hne Hascii Hq. unfold Client.basic_sends.
    apply (FindLineFacts.find_line_read stats_text default_mode query None range gzip);
      try done.
    apply elem_of_cons. by left.
Qed.

Lemma client_request_is_read_back_witness :
  Server.parse_threaded "" "exact"
    (rstrip_crlf ("FIND c?t --mode partial RANGE 20 10 --accept-encoding gzip"
                  +:+ nl))
  = Server.ret (asked "c?t" "partial" (Some (20, 10)) true).
Proof.
  refine (proj2 (proj1 (client_request_is_read_back "" "exact" (Some " c?t ") "c?t"
                          (Some "partial") (Some (20, 10)) true _ _)
                   eq_refl eq_refl)).
  - right. right. left.
  - split; lia.
Defined.

(** ** What the clients read of a reply *)

Module ReplyFacts.
Import Server Codec ReFacts MatchFacts LiteralFacts DigitFacts RequestFacts.

Lemma b64_char_plain s : isspace (b64_char s) = false.
Proof. by destruct s as [[] [] [] [] [] [] [] []]. Qed.

Lemma b64_plain_upto n data :
  (length data <= n)%nat ->
  forallb (fun c => negb (isspace c)) (b64encode data) = true.
Proof.
  revert data. induction n as [|n IH]; intros data Hlen.
  { destruct data; [done|cbn in Hlen; lia]. }
  destruct data as [|[a0 a1 a2 a3 a4 a5 a6 a7] data]; [done|].
  destruct data as [|[b0 b1 b2 b3 b4 b5 b6 b7] data].
  { cbn [b64encode forallb]. by rewrite !b64_char_plain. }
  destruct data as [|[c0 c1 c2 c3 c4 c5 c6 c7] data].
  { cbn [b64encode forallb]. by rewrite !b64_char_plain. }
  cbn [b64encode forallb]. rewrite !b64_char_plain.
  cbn [negb andb]. apply IH. cbn in Hlen. lia.
Qed.

(** The encoded text is one word. *)
Lemma b64_word data : no_space (string_of_list_ascii (b64encode data)) = true.
Proof.
  unfold no_space, chars. rewrite list_ascii_of_string_of_list_ascii.
  by apply (b64_plain_upto (length data)).
Qed.

Lemma no_space_LF w : no_space w = true -> has_char LF w = false.
Proof.
  unfold no_space, has_char. induction (chars w) as [|c l IH]; [done|].
  cbn [forallb existsb]. intros [Hc Hl]%andb_true_iff. rewrite (IH Hl), orb_false_r.
  destruct (Ascii.eqb_spec c LF) as [->|]; done.
Qed.

(** The lines of a text. *)
Lemma lines_of_go_line w t cur :
  has_char LF w = false ->
  Client.lines_of_go (w +:+ nl +:+ t) cur
  = (cur +:+ w +:+ nl) :: Client.lines_of_go t "".
Proof.
  unfold has_char. revert cur. induction w as [|c w IH]; intros cur.
  - intros _. by rewrite !sapp_nil_l.
  - cbn [chars list_ascii_of_string existsb]. intros [Hc Hw]%orb_false_iff.
    rewrite sapp_cons. cbn [Client.lines_of_go]. rewrite Hc.
    rewrite (IH _ Hw), !sapp_assoc. done.
Qed.

Lemma lines_of_line w t :
  has_char LF w = false ->
  Client.lines_of (w +:+ nl +:+ t) = (w +:+ nl) :: Client.lines_of t.
Proof. intros H. unfold Client.lines_of. by rewrite lines_of_go_line. Qed.

Lemma lines_of_words ws t :
  Forall (fun w => has_char LF w = false) ws ->
  Client.lines_of (String.concat "" (map (fun w => w +:+ nl) ws) +:+ t)
  = map (fun w => w +:+ nl) ws ++ Client.lines_of t.
Proof.
  induction 1 as [|w ws Hw _ IH]; [done|].
  rewrite map_cons, ShapeFacts.concat_cons, !sapp_assoc.
  rewrite lines_of_line by done. by rewrite IH.
Qed.

Lemma strip_line w : no_space w = true -> strip (w +:+ nl) = w.
Proof.
  intros Hw. unfold strip.
  assert (rstrip (w +:+ nl) = w) as ->.
  { induction w as [|c w IH]; [done|]. apply no_space_cons in Hw as [Hc Hw].
    rewrite sapp_cons. cbn [rstrip]. by rewrite (IH Hw), Hc, andb_false_r. }
  destruct w as [|c w]; [done|]. apply no_space_cons in Hw as [Hc _].
  cbn [lstrip]. by rewrite Hc.
Qed.

Lemma body_lines_words ws rest :
  Forall plain_word ws ->
  Client.body_lines (map (fun w => w +:+ nl) ws ++ ("END" +:+ nl) :: rest) = ws.
Proof.
  induction 1 as [|w ws (Hne & Hw & Hend) _ IH]; [done|].
  rewrite map_cons, <- app_comm_cons. cbn [Client.body_lines].
  rewrite (strip_line _ Hw). destruct (String.eqb_spec w "END"); [done|].
  rewrite IH. f_equal. apply rstrip_crlf_nl. by apply rstrip_crlf_word.
Qed.

Lemma prefix_blank p q w :
  String.prefix (p +:+ " " +:+ q) w = true -> has_char " " w = true.
Proof.
  revert w. induction p as [|c p IH]; intros w.
  - rewrite sapp_nil_l. destruct w as [|d w]; [done|]. rewrite sapp_cons.
    cbn [String.prefix]. by destruct (ascii_dec " " d) as [<-|].
  - destruct w as [|d w]; [done|]. rewrite sapp_cons. cbn [String.prefix].
    destruct (ascii_dec c d); [|done]. intros H%IH.
    unfold has_char in *. cbn [chars list_ascii_of_string existsb].
    apply orb_true_iff. by right.
Qed.

(** [split('\n')] undoes the join of words that hold no line feed. *)
Lemma split_lf_go_word w t cur :
  has_char LF w = false ->
  Client.split_lf_go (w +:+ t) cur = Client.split_lf_go t (cur +:+ w).
Proof.
  unfold has_char. revert cur. induction w as [|c w IH]; intros cur.
  - by rewrite sapp_nil_r.
  - cbn [chars list_ascii_of_string existsb]. intros [Hc Hw]%orb_false_iff.
    rewrite sapp_cons. cbn [Client.split_lf_go]. rewrite Hc.
    by rewrite (IH _ Hw), sapp_assoc.
Qed.

Lemma split_lf_join w ws :
  Forall (fun w => has_char LF w = false) (w :: ws) ->
  Client.split_lf (join nl (w :: ws)) = w :: ws.
Proof.
  unfold Client.split_lf. revert w. induction ws as [|v ws IH]; intros w Hall.
  - apply Forall_cons in Hall as [Hw _]. cbn [join].
    rewrite <- (sapp_nil_r w) at 1. by rewrite split_lf_go_word.
  - apply Forall_cons in Hall as [Hw Hall].
    change (join nl (w :: v :: ws)) with (w +:+ nl +:+ join nl (v :: ws)).
    rewrite split_lf_go_word, sapp_nil_l by done.
    change (nl +:+ ?t) with (String LF t). cbn [Client.split_lf_go].
    change (Ascii.eqb LF LF) with true. cbv iota. f_equal. by apply IH.
Qed.

Lemma join_nonempty w ws : w <> "" -> String.eqb (join nl (w :: ws)) "" = false.
Proof.
  intros Hw. destruct ws as [|v ws]; cbn [join].
  - by destruct (String.eqb_spec w "").
  - by destruct w.
Qed.

Lemma strip_not_end s : String.eqb (strip (String "G" s)) "END" = false.
Proof.
  unfold strip. cbn [rstrip]. change (isspace "G") with false.
  rewrite andb_false_r. cbn [lstrip]. by change (isspace "G") with false.
Qed.

Lemma plain_page matches off lim :
  Forall plain_word matches -> Forall plain_word (paginate matches off lim).
Proof.
  intros H. unfold paginate, slice. destruct lim; [|done].
  by apply Forall_take, Forall_drop.
Qed.

Lemma plain_word_LF ws :
  Forall plain_word ws -> Forall (fun w => has_char LF w = false) ws.
Proof.
  intros H. eapply Forall_impl; [exact H|].
  intros w (_ & Hw & _). by apply no_space_LF.
Qed.

Lemma count_word n : no_space (str_of_nat n) = true.
Proof. apply digits_no_space, str_of_Z_digits. lia. Qed.

End ReplyFacts.

Module ReadFacts.

Section Read.
Variable encode_utf8 : string -> Codec.bytes.
Variable gzip_compress : Codec.bytes -> Codec.bytes.
Variable gzip_decompress : Codec.bytes -> Client.inflated.
Variable decode_utf8 : Codec.bytes -> option string.

Lemma read_back (matches : list string) (r : Server.request) :
  (forall data, gzip_decompress (gzip_compress data) = Client.Inflated data) ->
  (forall s, decode_utf8 (encode_utf8 s) = Some s) ->
  Forall plain_word matches ->
  let page := Server.paginate matches (Server.offset r) (Server.limit r) in
  exists text,
    Server.send_matches encode_utf8 gzip_compress matches r = Server.Reply text
    /\ Client.read_reply gzip_decompress decode_utf8 text
       = (find_status page (Server.request_gzip r), Some page).
Proof.
  intros Hgz Hutf Hall page.
  pose proof (ReplyFacts.plain_page _ (Server.offset r) (Server.limit r) Hall)
    as Hpage.
  fold page in Hpage. unfold Server.send_matches. fold page.
  destruct page as [|w ws] eqn:Epage; [by eexists|].
  change (length (w :: ws) =? 0)%nat with false. cbv iota.
  pose proof (ReplyFacts.plain_word_LF _ Hpage) as HLF.
  destruct (Server.request_gzip r); eexists; (split; [reflexivity|]).
  - set (b64 := string_of_list_ascii _).
    unfold Client.read_reply, find_status.
    rewrite (ReplyFacts.lines_of_line "200 OK 1") by done.
    rewrite <- (ReFacts.sapp_assoc "GZIP ").
    rewrite ReplyFacts.lines_of_line by apply CodecFacts.b64_one_line.
    change (Client.lines_of ("END" +:+ nl)) with ["END" +:+ nl].
    f_equal. unfold Client.recv_until_end.
    cbn [Client.body_lines].
    change (strip (("GZIP " +:+ b64) +:+ nl))
      with (strip (String "G" (("ZIP " +:+ b64) +:+ nl))).
    rewrite ReplyFacts.strip_not_end.
    change (String.eqb (strip ("END" +:+ nl)) "END") with true. cbv iota.
    rewrite RequestFacts.rstrip_crlf_nl
      by (apply RequestFacts.rstrip_crlf_sapp;
          [done|apply RequestFacts.rstrip_crlf_word, ReplyFacts.b64_word]).
    rewrite RequestFacts.prefix_refl.
    change 5%nat with (len "GZIP "). rewrite RequestFacts.sdrop_sapp.
    unfold b64, chars. rewrite list_ascii_of_string_of_list_ascii.
    rewrite CodecFacts.b64_roundtrip, Hgz, Hutf.
    apply Forall_cons in Hpage as Hw. destruct Hw as [(Hne & _) _].
    rewrite ReplyFacts.join_nonempty by done.
    by rewrite ReplyFacts.split_lf_join.
  - unfold Client.read_reply, find_status.
    rewrite <- (ReFacts.sapp_assoc "200 OK ").
    rewrite ReplyFacts.lines_of_line
      by (change (has_char LF (str_of_nat (length (w :: ws))) = false);
          apply ReplyFacts.no_space_LF, ReplyFacts.count_word).
    rewrite ReplyFacts.lines_of_words by done.
    change (Client.lines_of ("END" +:+ nl)) with ["END" +:+ nl].
    rewrite RequestFacts.rstrip_crlf_nl
      by (apply RequestFacts.rstrip_crlf_sapp;
          [done|apply RequestFacts.rstrip_crlf_word, ReplyFacts.count_word]).
    f_equal. unfold Client.recv_until_end.
    rewrite ReplyFacts.body_lines_words by done. cbv zeta.
    destruct ws as [|v ws]; [|done].
    destruct (String.prefix "GZIP " w) eqn:Hp; [|done].
    apply (ReplyFacts.prefix_blank "GZIP" "") in Hp.
    apply Forall_cons in Hpage as [(_ & Hw & _) _].
    by rewrite (RequestFacts.no_space_blank _ Hw) in Hp.
Qed.

End Read.

End ReadFacts.

Section ClientReads.
Variable encode_utf8 : string -> Codec.bytes.
Variable gzip_compress : Codec.bytes -> Codec.bytes.
Variable gzip_decompress : Codec.bytes -> Client.inflated.
Variable decode_utf8 : Codec.bytes -> option string.

(** X19. The clients read back the page the server sent. Whatever a
    FIND or FIND_MULTI request matched, when the matches are plain
    words (not empty, without white space, none of them [END]),
    [recv_until_end] returns exactly the page of the reply, in order,
    for a plain reply and for a compressed one, and the empty list for
    the reply 404; the status line read before it is [200 OK] with the
    number of words of the page, [200 OK 1] for a compressed reply.
    [gzip.decompress] is taken to undo [gzip.compress], and decoding
    to undo encoding. *)
Theorem client_reads_back_the_page (matches : list string) (r : Server.request) :
  (forall data, gzip_decompress (gzip_compress data) = Client.Inflated data) ->
  (forall s, decode_utf8 (encode_utf8 s) = Some s) ->
  Forall plain_word matches ->
  let page := Server.paginate matches (Server.offset r) (Server.limit r) in
  exists text,
    Server.send_matches encode_utf8 gzip_compress matches r = Server.Reply text
    /\ Client.read_reply gzip_decompress decode_utf8 text
       = (find_status page (Server.request_gzip r), Some page).
Proof. apply ReadFacts.read_back. Qed.

End ClientReads.

Lemma sample_inflate_undoes data :
  sample_inflate (sample_gzip data) = Client.Inflated data.
Proof. done. Qed.

Lemma sample_decode_undoes s : sample_decode_text (sample_utf8 s) = Some s.
Proof.
  unfold sample_decode_text, sample_utf8.
  by rewrite string_of_list_ascii_of_string.
Qed.

Lemma client_reads_back_the_page_witness :
  let r := asked "?ell*" "exact" (Some (1, 2)) true in
  exists text,
    Server.send_matches sample_utf8 sample_gzip ["bell"; "cello"; "hello"; "jelly"] r
    = Server.Reply text
    /\ Client.read_reply sample_inflate sample_decode_text text
       = ("200 OK 1", Some ["cello"; "hello"]).
Proof.
  intros r.
  apply (client_reads_back_the_page sample_utf8 sample_gzip sample_inflate
           sample_decode_text ["bell"; "cello"; "hello"; "jelly"] r
           sample_inflate_undoes sample_decode_undoes).
  repeat constructor; discriminate.
Defined.

Module PrintFacts.

Lemma split_status d :
  no_space d = true -> d <> "" -> split ("200 OK " +:+ d) = ["200"; "OK"; d].
Proof.
  intros Hd Hne.
  change (split ("200 OK " +:+ d)) with ("200" :: "OK" :: split_go d "").
  do 2 f_equal.
  transitivity (split_go (d +:+ "") ""); [by rewrite MatchFacts.sapp_nil_r|].
  rewrite RequestFacts.split_go_word, ReFacts.sapp_nil_l by done.
  cbn [split_go]. by destruct (String.eqb_spec d "").
Qed.

Lemma upto_all lines : Client.upto lines (Z.of_nat (length lines)) = lines.
Proof.
  unfold Client.upto. destruct (Z.leb_spec 0 (Z.of_nat (length lines))); [|lia].
  rewrite Nat2Z.id. by apply take_ge.
Qed.

End PrintFacts.

Section ClientPrints.
Variable encode_utf8 : string -> Codec.bytes.
Variable gzip_compress : Codec.bytes -> Codec.bytes.
Variable gzip_decompress : Codec.bytes -> Client.inflated.
Variable decode_utf8 : Codec.bytes -> option string.
Variable int_of : string -> option Z.

(** X20. What the clients print of a page. For matches that are plain
    words, a client prints the status line, the words of the page,
    [END] and the number of words, when the reply is not compressed;
    of a compressed reply it prints the first word of the page alone
    and the total 1, however many words it decoded, since the status
    line [200 OK 1] counts the one [GZIP] line. For the reply 404 it
    prints the status line, [END] and the total 0. [int] is taken to
    read back the decimal text of a natural number. *)
Theorem client_prints_first_word_of_compressed_page
    (matches : list string) (r : Server.request) :
  (forall data, gzip_decompress (gzip_compress data) = Client.Inflated data) ->
  (forall s, decode_utf8 (encode_utf8 s) = Some s) ->
  (forall n : nat, int_of (str_of_nat n) = Some (Z.of_nat n)) ->
  Forall plain_word matches ->
  let page := Server.paginate matches (Server.offset r) (Server.limit r) in
  let gzip := Server.request_gzip r in
  exists text,
    Server.send_matches encode_utf8 gzip_compress matches r = Server.Reply text
    /\ Client.main_prints gzip_decompress decode_utf8 int_of text
       = Some (find_status page gzip
               :: shown page gzip
               ++ ["END";
                   "(client) total words: "
                   +:+ str_of_nat (length (shown page gzip))]).
Proof.
  intros Hgz Hutf Hint Hall page gzip.
  destruct (ReadFacts.read_back encode_utf8 gzip_compress gzip_decompress
              decode_utf8 matches r Hgz Hutf Hall) as (text & Hsend & Hread).
  exists text. split; [done|].
  unfold Client.main_prints. rewrite Hread. fold page gzip. f_equal.
  unfold Client.report, find_status, shown.
  destruct page as [|w ws]; [|destruct gzip].
  - change (split "404 NOT-FOUND 0") with ["404"; "NOT-FOUND"; "0"].
    change (List.last ["404"; "NOT-FOUND"; "0"] "") with (str_of_nat 0).
    rewrite Hint. by destruct gzip.
  - change (split "200 OK 1") with ["200"; "OK"; "1"].
    change (List.last ["200"; "OK"; "1"] "") with (str_of_nat 1).
    by rewrite Hint.
  - rewrite PrintFacts.split_status
      by (apply ReplyFacts.count_word || apply DigitFacts.str_of_Z_nonempty).
    change (List.last ["200"; "OK"; ?d] "") with d.
    rewrite Hint, PrintFacts.upto_all. done.
Qed.

End ClientPrints.

Lemma sample_int_reads n : sample_int (str_of_nat n) = Some (Z.of_nat n).
Proof.
  unfold sample_int, str_of_nat.
  rewrite DigitFacts.digits_isdigit
    by (apply DigitFacts.str_of_Z_digits || apply DigitFacts.str_of_Z_nonempty; lia).
  by rewrite DigitFacts.int_of_str by lia.
Qed.

Lemma client_prints_first_word_of_compressed_page_witness :
  let r := asked "?ell*" "exact" None true in
  exists text,
    Server.send_matches sample_utf8 sample_gzip ["bell"; "cello"; "hello"] r
    = Server.Reply text
    /\ Client.main_prints sample_inflate sample_decode_text sample_int text
       = Some ["200 OK 1"; "bell"; "END"; "(client) total words: 1"].
Proof.
  intros r.
  apply (client_prints_first_word_of_compressed_page sample_utf8 sample_gzip
           sample_inflate sample_decode_text sample_int
           ["bell"; "cello"; "hello"] r
           sample_inflate_undoes sample_decode_undoes sample_int_reads).
  repeat constructor; discriminate.
Defined.

(** ** The numbers of RANGE *)

Module RangeFacts.
Import Server.

Lemma digit_val_nonneg c : isdigit_char c = true -> 0 <= digit_val c.
Proof.
  unfold isdigit_char, digit_val. intros [H _]%andb_true_iff.
  apply N.leb_le in H. lia.
Qed.

Lemma int_of_digits_nonneg s : isdigit s = true -> 0 <= int_of_digits s.
Proof.
  intros H. assert (forallb isdigit_char (chars s) = true) as Hall
    by (by destruct s).
  unfold int_of_digits. clear H.
  assert (forall acc, 0 <= acc ->
            0 <= fold_left (fun a c => 10 * a + digit_val c) (chars s) acc) as Hfold.
  { induction (chars s) as [|c l IH]; intros acc Hacc; [done|].
    cbn [forallb] in Hall. apply andb_true_iff in Hall as [Hc Hl].
    cbn [fold_left]. apply IH; [done|].
    pose proof (digit_val_nonneg _ Hc). lia. }
  by apply Hfold.
Qed.

Lemma bind_ret {A B} (m : step A) (k : A -> step B) b :
  bind m k = ret b -> exists a, m = ret a /\ k a = ret b.
Proof.
  unfold bind, ret. destruct m as [[o|a]|]; [done| |done]. intros H. by exists a.
Qed.

Lemma read_range_natural x rest off lim :
  read_range x = ret (rest, off, lim) ->
  0 <= off /\ match lim with Some l => 0 <= l | None => off = 0 end.
Proof.
  unfold read_range. destruct (contains " RANGE " x); [|by intros [= _ <- <-]].
  destruct (rsplit1 " RANGE " x) as [|a [|b [|? ?]]]; try done.
  destruct (split (strip b)) as [|t0 [|t1 [|? ?]]]; try done.
  cbn [length Nat.eqb negb orb forallb].
  destruct (isdigit t0) eqn:H0; [|done]. destruct (isdigit t1) eqn:H1; [|done].
  cbn [andb negb]. intros [= _ <- <-].
  split; by apply int_of_digits_nonneg.
Qed.

Lemma read_command_natural stats_text commands line c rest gz off lim :
  read_command stats_text commands line = ret (c, rest, gz, off, lim) ->
  0 <= off /\ match lim with Some l => 0 <= l | None => off = 0 end.
Proof.
  unfold read_command.
  destruct (String.eqb _ "QUIT"); [done|]. destruct (String.eqb _ "STATS"); [done|].
  destruct (_ || _); [done|].
  intros ([rest1 gz1] & _ & H)%bind_ret.
  apply bind_ret in H as ([[rest2 off2] lim2] & Hr & H).
  injection H as _ _ _ <- <-. by eapply read_range_natural.
Qed.

Lemma paginate_natural matches off lim :
  0 <= off -> 0 <= lim ->
  paginate matches off (Some lim) = slice matches off lim.
Proof.
  intros Ho Hl. unfold paginate.
  destruct (Z.ltb_spec off 0); [lia|]. by destruct (Z.ltb_spec lim 0); [lia|].
Qed.

End RangeFacts.

(** X21. A parsed range is never negative. Whatever the line, the
    offset and the limit of a request either server has parsed are
    natural numbers, the offset 0 when the line had no RANGE: the
    numbers must pass [isdigit], which refuses a sign. So the two
    clamps of negative values before the slice never change anything,
    and the page is [matches[offset : offset + limit]] as parsed. *)
Theorem parsed_range_is_natural (stats_text default_mode line : string)
    (r : Server.request) :
  Server.parse_threaded stats_text default_mode line = Server.ret r
  \/ Server.parse_basic stats_text line = Server.ret r ->
  0 <= Server.offset r
  /\ match Server.limit r with
     | Some l =>
         0 <= l
         /\ forall matches,
              Server.paginate matches (Server.offset r) (Some l)
              = slice matches (Server.offset r) l
     | None => Server.offset r = 0
     end.
Proof.
  assert (forall off lim,
            0 <= off /\ match lim with Some l => 0 <= l | None => off = 0 end ->
            0 <= off
            /\ match lim with
               | Some l =>
                   0 <= l
                   /\ forall matches,
                        Server.paginate matches off (Some l) = slice matches off l
               | None => off = 0
               end) as Hpage.
  { intros off [l|] [Ho Hl]; [|done].
    split_and!; [done..|]. intros matches. by apply RangeFacts.paginate_natural. }
  intros [H|H].
  - unfold Server.parse_threaded in H. destruct (String.eqb line ""); [done|].
    apply RangeFacts.bind_ret in H as ([[[[c rest] gz] off] lim] & Hc & H).
    apply RangeFacts.bind_ret in H as ([p m] & _ & H).
    injection H as <-. cbn [Server.offset Server.limit].
    apply Hpage. by eapply RangeFacts.read_command_natural.
  - unfold Server.parse_basic in H.
    apply RangeFacts.bind_ret in H as ([[[[c rest] gz] off] lim] & Hc & H).
    apply RangeFacts.bind_ret in H as (p & _ & H).
    injection H as <-. cbn [Server.offset Server.limit].
    apply Hpage. by eapply RangeFacts.read_command_natural.
Qed.

Lemma parsed_range_is_natural_witness :
  0 <= 20
  /\ 0 <= 10
     /\ (forall matches,
           Server.paginate matches 20 (Some 10) = slice matches 20 10).
Proof.
  apply (parsed_range_is_natural "" "exact" "FIND c?t RANGE 20 10"
           (asked "c?t" "exact" (Some (20, 10)) false)).
  left. reflexivity.
Defined.

(** ** The complexity limits under memory pressure *)

Module PressureFacts.
Import Server.

(** The guard lets a pattern through exactly when both counts are
    within the limits in force. *)
Lemma guard_passes cfg under_pressure pat :
  complexity_guard cfg under_pressure pat = ret tt
  <-> Z.of_nat (count "?" pat)
      <= max_questions (_effective_complexity_limits under_pressure cfg)
      /\ Z.of_nat (count "*" pat)
         <= max_stars (_effective_complexity_limits under_pressure cfg).
Proof.
  unfold complexity_guard, is_pattern_too_complex.
  set (limits := _effective_complexity_limits under_pressure cfg).
  destruct (Z.ltb_spec (max_questions limits) (Z.of_nat (count "?" pat)));
    [split; [done|lia]|].
  destruct (Z.ltb_spec (max_stars limits) (Z.of_nat (count "*" pat)));
    [split; [done|lia]|].
  split; [lia|done].
Qed.

Lemma halved_below x : 1 <= x -> Z.max 1 (x / 2) <= x.
Proof.
  intros Hx. apply Z.max_lub; [done|].
  apply Z.div_le_upper_bound; lia.
Qed.

End PressureFacts.

(** X22. Memory pressure only tightens the complexity guard, as long
    as the configured limits are 1 or more: a pattern the guard lets
    through under pressure it also lets through without. With a
    configured limit below 1 it is the other way round for that
    limit: under pressure the limit in force is 1, so a pattern with
    one [?] and no [*] passes under pressure and is refused
    without. *)
Theorem memory_pressure_only_tightens (cfg : Server.complexity) (pat : string) :
  (1 <= Server.max_questions cfg -> 1 <= Server.max_stars cfg ->
   Server.complexity_guard cfg true pat = Server.ret tt ->
   Server.complexity_guard cfg false pat = Server.ret tt)
  /\ (Server.max_questions cfg < 1 ->
      count "?" pat = 1%nat -> count "*" pat = 0%nat ->
      Server.complexity_guard cfg true pat = Server.ret tt
      /\ Server.complexity_guard cfg false pat <> Server.ret tt).
Proof.
  rewrite !PressureFacts.guard_passes.
  unfold Server._effective_complexity_limits.
  cbn [Server.max_questions Server.max_stars].
  split.
  - intros Hq Hs [H1 H2].
    pose proof (PressureFacts.halved_below _ Hq).
    pose proof (PressureFacts.halved_below _ Hs). lia.
  - intros Hq -> ->. split; lia.
Qed.

Lemma memory_pressure_only_tightens_witness :
  Server.complexity_guard Server.CFG_COMPLEXITY_default false "c?t*"
  = Server.ret tt.
Proof.
  apply (proj1 (memory_pressure_only_tightens Server.CFG_COMPLEXITY_default "c?t*")).
  - cbn. lia.
  - cbn. lia.
  - reflexivity.
Defined.

(** ** The bits of a filter *)

Module BitFacts.
Import Bloom BloomFacts.

Lemma one_bit h k : 0 <= h -> Z.testbit (Z.shiftl 1 h) k = (k =? h).
Proof.
  intros Hh. destruct (Z.ltb_spec k 0) as [Hk|Hk].
  - rewrite Z.testbit_neg_r by done. symmetry. apply Z.eqb_neq. lia.
  - rewrite Z.shiftl_spec by done.
    destruct (Z.eqb_spec k h) as [->|Hne]; [by rewrite Z.sub_diag|].
    destruct (k - h) as [|p|p] eqn:E; [lia|by destruct p|done].
Qed.

Lemma set_bits_spec hs bits k :
  Forall (fun h => 0 <= h) hs ->
  Z.testbit (fold_left (fun a h => Z.lor a (Z.shiftl 1 h)) hs bits) k
  = Z.testbit bits k || existsb (Z.eqb k) hs.
Proof.
  intros Hall. revert bits. induction Hall as [|h hs Hh _ IH]; intros bits.
  - by rewrite orb_false_r.
  - cbn [fold_left existsb]. rewrite IH, Z.lor_spec, one_bit by done.
    by rewrite orb_assoc.
Qed.

Lemma add_size hash b s : _size (add hash b s) = _size b.
Proof. done. Qed.

Lemma add_all_size hash b l : _size (add_all hash b l) = _size b.
Proof.
  revert b. induction l as [|x l IH]; intros b; [done|].
  cbn. unfold add_all in IH. by rewrite IH.
Qed.

(** A bit is set after a run of [add] when it was set before or is
    one of the positions of an added string, and only then. *)
Lemma add_all_bits hash b l k :
  Z.testbit (_bits (add_all hash b l)) k
  = Z.testbit (_bits b) k
    || existsb (fun s => existsb (Z.eqb k) (_hashes hash b s)) l.
Proof.
  revert b. induction l as [|s l IH]; intros b.
  - by rewrite orb_false_r.
  - change (add_all hash b (s :: l)) with (add_all hash (add hash b s) l).
    rewrite IH, add_bits, set_bits_spec by apply _hashes_nonneg.
    cbn [existsb]. by rewrite <- orb_assoc.
Qed.

Lemma existsb_same {A} (f : A -> bool) (l l' : list A) :
  (forall x, x ∈ l <-> x ∈ l') -> existsb f l = existsb f l'.
Proof.
  intros H. apply eq_true_iff_eq. rewrite !existsb_exists.
  split; intros (x & Hin & Hx); exists x; (split; [|done]);
    apply list_elem_of_In, H, list_elem_of_In, Hin.
Qed.

End BitFacts.

(** X23. What a filter holds. After a run of [add] calls, a bit of
    [_bits] is set exactly when it was set before or is one of the
    three positions of a string of the run; [_size] and [_mask] are
    as before. So the filter depends on which strings were added and
    on nothing else: two runs with the same strings, in any order and
    with any repeats, leave the same filter, as the walk over
    [set(wl)] in [_init_blooms] needs. *)
Theorem bloom_holds_the_added_positions (hash : string -> Z) (b : Bloom.t)
    (l : list string) :
  (forall k,
     Z.testbit (Bloom._bits (Bloom.add_all hash b l)) k
     = Z.testbit (Bloom._bits b) k
       || existsb (fun s => existsb (Z.eqb k) (Bloom._hashes hash b s)) l)
  /\ Bloom._size (Bloom.add_all hash b l) = Bloom._size b
  /\ Bloom._mask (Bloom.add_all hash b l) = Bloom._mask b
  /\ forall l',
       (forall s, s ∈ l <-> s ∈ l') ->
       Bloom.add_all hash b l = Bloom.add_all hash b l'.
Proof.
  split_and!.
  - apply BitFacts.add_all_bits.
  - apply BitFacts.add_all_size.
  - apply BloomFacts.add_all_mask.
  - intros l' Hsame.
    pose proof (BitFacts.add_all_size hash b l) as S1.
    pose proof (BitFacts.add_all_size hash b l') as S2.
    pose proof (BloomFacts.add_all_mask hash b l) as M1.
    pose proof (BloomFacts.add_all_mask hash b l') as M2.
    assert (Bloom._bits (Bloom.add_all hash b l)
            = Bloom._bits (Bloom.add_all hash b l')) as B.
    { apply Z.bits_inj'. intros k _. rewrite !BitFacts.add_all_bits.
      f_equal. by apply BitFacts.existsb_same. }
    destruct (Bloom.add_all hash b l), (Bloom.add_all hash b l').
    cbn in *. congruence.
Qed.

(** ** The worker pool of the threaded server *)

Module PoolFacts.
Import Pool.

Lemma step_bounded max_workers s e s' :
  bounded max_workers s -> step max_workers s e = Some s' ->
  bounded max_workers s'.
Proof.
  unfold bounded. intros [Ha Hw] Hstep. destruct e as [cap| | | |]; cbn [step] in Hstep.
  - destruct (_ && _); injection Hstep as <-; cbn; lia.
  - destruct (queued s) as [|q]; [done|].
    destruct (Nat.ltb_spec (started s + opened s) max_workers); [|done].
    injection Hstep as <-. cbn. lia.
  - destruct (started s) as [|n] eqn:E; [done|].
    injection Hstep as <-. cbn. lia.
  - destruct (started s) as [|n] eqn:E; [done|].
    injection Hstep as <-. cbn.
    destruct (Z.ltb_spec 0 (Stats.active_connections (stats s))); lia.
  - destruct (opened s) as [|n] eqn:E; [done|].
    injection Hstep as <-. cbn.
    destruct (Z.ltb_spec 0 (Stats.active_connections (stats s))); lia.
Qed.

Lemma run_bounded max_workers events s s' :
  bounded max_workers s -> run max_workers events s = Some s' ->
  bounded max_workers s'.
Proof.
  revert s. induction events as [|e r IH]; intros s Hs; cbn [run].
  - by intros [= <-].
  - destruct (step max_workers s e) as [s1|] eqn:E; [|done].
    cbn [mbind option_bind]. apply IH. by eapply step_bounded.
Qed.

Lemma run_events_app max_workers l1 l2 s :
  run max_workers (l1 ++ l2) s
  = run max_workers l1 s ≫= run max_workers l2.
Proof.
  revert s. induction l1 as [|e l1 IH]; intros s; [done|].
  cbn [app run]. destruct (step max_workers s e); [|done].
  cbn [mbind option_bind]. apply IH.
Qed.

(** The three phases of a burst. *)
Lemma run_accepts max_workers cap n s :
  Stats.active_connections (stats s) = 0 ->
  exists s',
    run max_workers (replicate n (Accept cap)) s = Some s'
    /\ stats s' = stats s /\ queued s' = (queued s + n)%nat
    /\ started s' = started s /\ opened s' = opened s
    /\ refused s' = refused s.
Proof.
  revert s. induction n as [|n IH]; intros s Ha.
  - exists s. cbn. split_and!; (done || lia).
  - cbn [replicate run step]. rewrite Ha.
    replace ((0 <? cap) && (cap <=? 0)) with false
      by (destruct (Z.ltb_spec 0 cap), (Z.leb_spec cap 0); (done || lia)).
    cbn [mbind option_bind].
    match goal with
    | |- context [run _ _ ?st] =>
        destruct (IH st) as (s' & Hrun & H1 & H2 & H3 & H4 & H5); [by cbn|]
    end.
    exists s'. cbn in *. split_and!; (done || lia).
Qed.

Lemma run_begins max_workers n s :
  (n <= queued s)%nat -> (started s + opened s + n <= max_workers)%nat ->
  exists s',
    run max_workers (replicate n Begin) s = Some s'
    /\ stats s' = stats s /\ (queued s' + n)%nat = queued s
    /\ started s' = (started s + n)%nat /\ opened s' = opened s
    /\ refused s' = refused s.
Proof.
  revert s. induction n as [|n IH]; intros s Hq Hw.
  - exists s. cbn. split_and!; (done || lia).
  - cbn [replicate run step]. destruct (queued s) as [|q] eqn:E; [lia|].
    destruct (Nat.ltb_spec (started s + opened s) max_workers); [|lia].
    cbn [mbind option_bind].
    match goal with
    | |- context [run _ _ ?st] =>
        destruct (IH st) as (s' & Hrun & H1 & H2 & H3 & H4 & H5);
          [cbn; lia..|]
    end.
    exists s'. cbn in *. split_and!; (done || lia).
Qed.

Lemma run_opens max_workers n s :
  (n <= started s)%nat ->
  exists s',
    run max_workers (replicate n Open) s = Some s'
    /\ Stats.active_connections (stats s')
       = Stats.active_connections (stats s) + Z.of_nat n
    /\ queued s' = queued s /\ (started s' + n)%nat = started s
    /\ opened s' = (opened s + n)%nat /\ refused s' = refused s.
Proof.
  revert s. induction n as [|n IH]; intros s Hn.
  - exists s. cbn. split_and!; (done || lia).
  - cbn [replicate run step]. destruct (started s) as [|k] eqn:E; [lia|].
    cbn [mbind option_bind].
    match goal with
    | |- context [run _ _ ?st] =>
        destruct (IH st) as (s' & Hrun & H1 & H2 & H3 & H4 & H5);
          [cbn; lia|]
    end.
    exists s'. cbn in *. split_and!; (done || lia).
Qed.

Lemma run_burst max_workers cap n :
  (n <= max_workers)%nat ->
  exists s,
    run max_workers (burst cap n) init = Some s
    /\ Stats.active_connections (stats s) = Z.of_nat n
    /\ refused s = 0%nat.
Proof.
  intros Hn. unfold burst. rewrite run_events_app.
  destruct (run_accepts max_workers cap n init eq_refl)
    as (s1 & -> & A1 & A2 & A3 & A4 & A5).
  cbn [mbind option_bind]. rewrite run_events_app.
  destruct (run_begins max_workers n s1)
    as (s2 & -> & B1 & B2 & B3 & B4 & B5);
    [rewrite ?A2, ?A3, ?A4; cbn; lia..|].
  cbn [mbind option_bind].
  destruct (run_opens max_workers n s2)
    as (s3 & -> & C1 & C2 & C3 & C4 & C5);
    [rewrite B3, A3; cbn; lia|].
  exists s3. split; [done|]. rewrite C1, C5, B1, B5, A1, A5. by cbn.
Qed.

End PoolFacts.

(** X24. The worker pool, not the backpressure test, bounds the open
    connections of the threaded server. However the accepts and the
    workers interleave, [active_connections] is never negative and
    never above the number of connections the workers hold open,
    which is never above [max_workers]. The test that answers
    [503 BUSY] reads the counter when a connection is accepted, before
    any worker has opened it: for every value of
    [max_concurrent_connections], a burst of [max_workers] or fewer
    connections is accepted without one refusal and leaves that many
    connections active. *)
Theorem threaded_pool_bounds_connections (max_workers : nat)
    (events : list Pool.event) (s : Pool.state) :
  Pool.run max_workers events Pool.init = Some s ->
  (0 <= Stats.active_connections (Pool.stats s) <= Z.of_nat (Pool.opened s)
   /\ (Pool.started s + Pool.opened s <= max_workers)%nat)
  /\ forall cap n,
       (n <= max_workers)%nat ->
       exists s',
         Pool.run max_workers (Pool.burst cap n) Pool.init = Some s'
         /\ Stats.active_connections (Pool.stats s') = Z.of_nat n
         /\ Pool.refused s' = 0%nat.
Proof.
  intros Hrun. split.
  - apply (PoolFacts.run_bounded max_workers events Pool.init s); [|done].
    unfold Pool.bounded. cbn. lia.
  - intros cap n Hn. by apply PoolFacts.run_burst.
Qed.

Lemma threaded_pool_bounds_connections_witness :
  exists s,
    Pool.run 2 (Pool.burst 1 2) Pool.init = Some s
    /\ Stats.active_connections (Pool.stats s) = 2
    /\ Pool.refused s = 0%nat.
Proof.
  apply (proj2 (threaded_pool_bounds_connections 2 [] Pool.init eq_refl) 1 2%nat).
  lia.
Defined.

(** ** The replies, command by command *)

Module StrictFacts.
Import Server Wire ReFacts MatchFacts ServerFacts ShapeFacts.

Lemma has_char_sapp c a b :
  has_char c (a +:+ b) = has_char c a || has_char c b.
Proof.
  induction a as [|d a IH]; [by rewrite sapp_nil_l|].
  by rewrite sapp_cons, !has_char_cons, IH, orb_assoc.
Qed.

Lemma single_lines_Forall lines :
  forallb single_line lines = true
  <-> Forall (fun l => has_char LF l = false) lines.
Proof.
  rewrite forallb_forall, Forall_forall. unfold single_line.
  split; intros H w Hw; [apply list_elem_of_In, H in Hw|apply list_elem_of_In, H in Hw];
    by destruct (has_char LF w).
Qed.

(** *** What the index finds is in the corpus *)

Section Found.
Variable hash : string -> Z.
Variable g : Globals.t.
Variable self : WordIndex.

Lemma scan_bucket_words test idxs :
  forall result res,
    scan_bucket self test idxs result = Some res ->
    (forall w, w ∈ result -> w ∈ words self) ->
    forall w, w ∈ res -> w ∈ words self.
Proof.
  induction idxs as [|i idxs IH]; intros result res; cbn [scan_bucket].
  - by intros [= <-].
  - destruct (words self !! i) as [w|] eqn:Hw; [|done]. cbn.
    intros H Hres. eapply IH; [exact H|].
    intros x Hx. destruct (test w); [|by apply Hres].
    apply elem_of_app in Hx as [Hx|Hx]; [by apply Hres|].
    apply list_elem_of_singleton in Hx as ->. by eapply list_elem_of_lookup_2.
Qed.

Lemma scan_buckets_words test min_len items :
  forall result res,
    scan_buckets self test min_len items result = Some res ->
    (forall w, w ∈ result -> w ∈ words self) ->
    forall w, w ∈ res -> w ∈ words self.
Proof.
  induction items as [|[L idxs] items IH]; intros result res; cbn [scan_buckets].
  - by intros [= <-].
  - destruct (L <? min_len)%nat; [apply IH|].
    destruct (scan_bucket self test idxs result) as [result'|] eqn:Hb; [|done].
    cbn. intros H Hres. eapply IH; [exact H|].
    by eapply scan_bucket_words.
Qed.

Lemma lookup_all_words idxs ms :
  mapM (fun i => words self !! i) idxs = Some ms ->
  forall w, w ∈ ms -> w ∈ words self.
Proof.
  intros H%mapM_Some w Hw.
  apply list_elem_of_lookup in Hw as [k Hk].
  destruct (Forall2_lookup_r _ _ _ _ _ H Hk) as (i & _ & Hi).
  by eapply list_elem_of_lookup_2.
Qed.

Lemma find_exact_words p ms :
  find_exact hash g self p = Some ms -> forall w, w ∈ ms -> w ∈ words self.
Proof.
  unfold find_exact. destruct (should_skip_pattern _ _ _).
  { intros [= <-] w Hw. by apply elem_of_nil in Hw. }
  destruct (negb _).
  - destruct (_exact_indices_via_pos_index self p) as [idxs|]; [|done]. cbn.
    apply lookup_all_words.
  - destruct (_compile_regex_body _ _) as [rx|]; [|done]. cbn.
    intros H. eapply scan_buckets_words; [exact H|].
    intros w Hw. by apply elem_of_nil in Hw.
Qed.

Lemma find_partial_words p ms :
  find_partial hash g self p = Some ms -> forall w, w ∈ ms -> w ∈ words self.
Proof.
  unfold find_partial. destruct (should_skip_pattern _ _ _).
  { intros [= <-] w Hw. by apply elem_of_nil in Hw. }
  destruct (negb _).
  - destruct (all_questions p).
    { intros [= <-] w Hw. apply list_elem_of_In, filter_In in Hw as [Hw _].
      by apply list_elem_of_In. }
    destruct (_compile_regex_body _ _) as [rx|]; [|done]. cbn.
    intros H. eapply scan_buckets_words; [exact H|].
    intros w Hw. by apply elem_of_nil in Hw.
  - destruct (_compile_regex_body _ _) as [rx|]; [|done]. cbn.
    intros H. eapply scan_buckets_words; [exact H|].
    intros w Hw. by apply elem_of_nil in Hw.
Qed.

End Found.

Lemma find_multi_words (W : list string) find tokens ms :
  (forall p found, find p = Some found -> forall w, w ∈ found -> w ∈ W) ->
  find_multi find tokens ∅ [] = Some ms ->
  forall w, w ∈ ms -> w ∈ W.
Proof.
  intros Hfind.
  rewrite (MultiFacts.find_multi_spec find tokens ∅ [] []);
    [|intros x; rewrite elem_of_nil; set_unfold; tauto].
  destruct (mapM find tokens) as [results|] eqn:Hm; [|done]. cbn.
  intros [= <-] w Hw.
  apply list_elem_of_filter in Hw as [_ Hw].
  apply (proj1 (MultiFacts.keep_first_elem _ _)) in Hw.
  apply list_elem_of_In, in_concat in Hw as (found & Hfound & Hw).
  apply list_elem_of_In in Hfound, Hw.
  apply mapM_Some in Hm.
  apply list_elem_of_lookup in Hfound as [k Hk].
  destruct (Forall2_lookup_r _ _ _ _ _ Hm Hk) as (p & _ & Hp).
  by eapply Hfind.
Qed.

Lemma paginate_words matches off lim w :
  w ∈ paginate matches off lim -> w ∈ matches.
Proof.
  unfold paginate, slice. destruct lim as [lim|]; [|done].
  intros H. by eapply subseteq_drop, subseteq_take.
Qed.

(** *** The replies with a body *)

Lemma listing_lines n lines :
  n = length lines -> forallb single_line lines = true ->
  listing (ok_reply n lines).
Proof. intros -> H. by exists lines. Qed.

Lemma send_matches_listing utf8 gzip ms r :
  (forall w, w ∈ ms -> has_char LF w = false) ->
  exists text,
    send_matches utf8 gzip ms r = Reply text
    /\ (text = NOT_FOUND \/ listing text).
Proof.
  intros Hms. unfold send_matches.
  destruct (length _ =? 0)%nat; [eexists; split; [done|by left]|].
  destruct (request_gzip r); eexists; (split; [done|right]).
  - set (b64 := string_of_list_ascii _).
    replace ("200 OK 1" +:+ nl +:+ "GZIP " +:+ b64 +:+ nl +:+ "END" +:+ nl)
      with (ok_reply 1 ["GZIP " +:+ b64]).
    + apply listing_lines; [done|]. cbn [forallb]. unfold single_line.
      rewrite has_char_sapp. unfold b64. by rewrite CodecFacts.b64_one_line.
    + unfold ok_reply. cbn [map String.concat length].
      change (str_of_nat 1) with "1". by rewrite !sapp_assoc.
  - apply listing_lines; [done|]. apply single_lines_Forall, Forall_forall.
    intros w Hw. by eapply Hms, paginate_words.
Qed.

Lemma number_one_line n : has_char LF (str_of_nat n) = false.
Proof. apply ReplyFacts.no_space_LF, ReplyFacts.count_word. Qed.

Lemma batch_lines_single {A} (l : list A) (f : nat -> A -> string) :
  (forall i c, has_char LF (f i c) = false) ->
  forallb single_line (imap f l) = true.
Proof.
  revert f. induction l as [|x l IH]; intros f Hf; [done|].
  cbn [imap forallb]. unfold single_line at 1. rewrite Hf. cbn [negb andb].
  apply IH. intros i c. apply Hf.
Qed.

Lemma batch_listing counts : listing (batch_text counts).
Proof.
  unfold batch_text.
  replace (imap (fun i c => "COUNT " +:+ str_of_nat i +:+ " " +:+ str_of_nat c +:+ nl)
                counts)
    with (map (fun s => s +:+ nl)
              (imap (fun i c => "COUNT " +:+ str_of_nat i +:+ " " +:+ str_of_nat c)
                    counts)).
  - apply listing_lines; [by rewrite length_imap|].
    apply batch_lines_single. intros i c.
    by rewrite !has_char_sapp, !number_one_line.
  - rewrite <- imap_lines. apply imap_ext. intros i c _.
    by rewrite !sapp_assoc.
Qed.

(** *** From the strict shape to the frame *)

Lemma strict_loose command text : strict_shape command text -> reply_shape text.
Proof.
  intros [H|[H|[[_ (lines & -> & _)]|[_ (n & _ & ->)]]]].
  - by left.
  - right. by left.
  - apply ok_shape. by left.
  - apply count_shape.
Qed.

Lemma fixed_strict command text :
  text ∈ fixed_replies -> strict_shape command text.
Proof. by left. Qed.

Lemma step_holds_impl {A} (P Q : string -> Prop) (m : step A) :
  (forall text, P text -> Q text) -> step_holds P m -> step_holds Q m.
Proof. intros H. destruct m as [[[text| |]|a]|]; try done. apply H. Qed.

Ltac one_fixed := unfold fixed_replies; rewrite !elem_of_cons; tauto.

(** *** The stages of the request loop *)

Lemma read_encoding_fixed rest :
  step_holds (fun text => text ∈ fixed_replies) (read_encoding rest).
Proof.
  unfold read_encoding. destruct (contains _ rest); [|done].
  destruct (rsplit1 _ rest) as [|a [|b [|c l]]]; try done.
  destruct (negb _); [|done]. cbn. one_fixed.
Qed.

Lemma read_range_fixed rest :
  step_holds (fun text => text ∈ fixed_replies) (read_range rest).
Proof.
  unfold read_range. destruct (contains _ rest); [|done].
  destruct (rsplit1 _ rest) as [|a [|b [|c l]]]; try done.
  destruct (_ || _); [cbn; one_fixed|].
  by destruct (split (strip b)) as [|t0 [|t1 [|t2 l]]].
Qed.

Lemma read_mode_threaded_fixed default_mode rest :
  step_holds (fun text => text ∈ fixed_replies)
             (read_mode_threaded default_mode rest).
Proof.
  unfold read_mode_threaded. destruct (contains _ rest); [|done].
  destruct (rsplit1 _ rest) as [|a [|b [|c l]]]; try done.
  destruct (String.eqb a ""); [cbn; one_fixed|].
  destruct (negb _); [cbn; one_fixed|done].
Qed.

Lemma read_mode_basic_fixed rest :
  step_holds (fun text => text ∈ fixed_replies) (read_mode_basic rest).
Proof.
  unfold read_mode_basic. destruct (contains _ rest); [|done].
  destruct (rsplit1 _ rest) as [|a [|b [|c l]]]; try done.
  destruct (negb _); [cbn; one_fixed|done].
Qed.

Lemma stats_listing lines :
  forallb single_line lines = true -> listing (stats_reply lines).
Proof. intros H. by exists lines. Qed.

Lemma read_command_strict lines commands line :
  forallb single_line lines = true ->
  step_holds (strict_shape (command_of line))
             (read_command (stats_reply lines) commands line).
Proof.
  intros Hlines. unfold read_command. fold (command_of line).
  destruct (String.eqb _ "QUIT"); [done|].
  destruct (String.eqb_spec (command_of line) "STATS") as [He|_].
  { cbn. right. right. left. split; [by rewrite He|by apply stats_listing]. }
  destruct (_ || _); [cbn; left; one_fixed|].
  apply bind_holds.
  { eapply step_holds_impl; [apply fixed_strict|apply read_encoding_fixed]. }
  intros [rest gz] _.
  apply bind_holds; [|by intros [[rest' off] lim] _].
  eapply step_holds_impl; [apply fixed_strict|apply read_range_fixed].
Qed.

Lemma read_command_word st commands line c rest gz off lim :
  read_command st commands line = ret (c, rest, gz, off, lim) ->
  c = command_of line.
Proof.
  unfold read_command. fold (command_of line).
  destruct (String.eqb _ "QUIT"); [done|].
  destruct (String.eqb _ "STATS"); [done|].
  destruct (_ || _); [done|].
  destruct (read_encoding _) as [[o|[rest1 gz1]]|]; try done. cbn [bind].
  destruct (read_range rest1) as [[o|[[rest2 off2] lim2]]|]; try done.
  cbn [bind]. by intros [= <- _ _ _ _].
Qed.

Lemma parse_threaded_strict lines default_mode line :
  forallb single_line lines = true ->
  step_holds (strict_shape (command_of line))
             (parse_threaded (stats_reply lines) default_mode line).
Proof.
  intros Hlines. unfold parse_threaded. destruct (String.eqb line ""); [done|].
  apply bind_holds; [by apply read_command_strict|].
  intros [[[[c rest] gz] off] lim] _.
  apply bind_holds; [|by intros [p m] _].
  eapply step_holds_impl; [apply fixed_strict|apply read_mode_threaded_fixed].
Qed.

Lemma parse_basic_strict lines line :
  forallb single_line lines = true ->
  step_holds (strict_shape (command_of line))
             (parse_basic (stats_reply lines) line).
Proof.
  intros Hlines. unfold parse_basic.
  apply bind_holds; [by apply read_command_strict|].
  intros [[[[c rest] gz] off] lim] _.
  apply bind_holds; [|by intros p _].
  eapply step_holds_impl; [apply fixed_strict|apply read_mode_basic_fixed].
Qed.

Lemma parse_threaded_word st default_mode line r :
  parse_threaded st default_mode line = ret r -> cmd r = command_of line.
Proof.
  unfold parse_threaded. destruct (String.eqb line ""); [done|].
  destruct (read_command _ _ _) as [[o|[[[[c rest] gz] off] lim]]|] eqn:H1;
    try done.
  apply read_command_word in H1 as ->. cbn [bind].
  destruct (read_mode_threaded _ _) as [[o|[p m]]|]; try done.
  cbn [bind ret]. by intros [= <-].
Qed.

Lemma parse_basic_word st line r :
  parse_basic st line = ret r -> cmd r = command_of line.
Proof.
  unfold parse_basic.
  destruct (read_command _ _ _) as [[o|[[[[c rest] gz] off] lim]]|] eqn:H1;
    try done.
  apply read_command_word in H1 as ->. cbn [bind].
  destruct (read_mode_basic _) as [[o|p]|]; try done.
  cbn [bind ret]. by intros [= <-].
Qed.

Lemma guard_strict command CFG mem maxlen r :
  step_holds (strict_shape command) (guard_threaded CFG mem maxlen r).
Proof.
  unfold guard_threaded. destruct (_ <? _)%nat; [cbn; left; one_fixed|].
  unfold complexity_guard.
  destruct (is_pattern_too_complex _ _ _) as [[|] reason]; [|done].
  cbn. right. left. by exists reason.
Qed.

Lemma count_strict command n :
  command = "COUNT" ->
  strict_shape command
    (if (n =? 0)%nat then NOT_FOUND else framed ("200 OK " +:+ str_of_nat n)).
Proof.
  intros ->. destruct (Nat.eqb_spec n 0); [left; one_fixed|].
  right. right. right. split; [done|]. by exists n.
Qed.

Section Execute.
Variable hash : string -> Z.
Variable g : Globals.t.
Variable index : WordIndex.
Variable json_string_list : string -> option (list string).
Variable encode_utf8 : string -> Codec.bytes.
Variable gzip_compress : Codec.bytes -> Codec.bytes.
Variable CFG : complexity.
Variable mem : memory.
Hypothesis corpus_lines : forallb single_line (words index) = true.

Lemma corpus_word_line w : w ∈ words index -> has_char LF w = false.
Proof.
  intros Hw. apply list_elem_of_In in Hw.
  pose proof (proj1 (forallb_forall _ _) corpus_lines w Hw) as H.
  unfold single_line in H. by destruct (has_char LF w).
Qed.

Lemma found_strict command ms r text :
  command <> "COUNT" ->
  (forall w, w ∈ ms -> w ∈ words index) ->
  send_matches encode_utf8 gzip_compress ms r = Reply text ->
  strict_shape command text.
Proof.
  intros Hc Hms.
  destruct (send_matches_listing encode_utf8 gzip_compress ms r)
    as (text' & -> & [->|H]).
  { intros w Hw. by apply corpus_word_line, Hms. }
  - intros [= <-]. left. one_fixed.
  - intros [= <-]. right. right. by left.
Qed.

Lemma find_in_mode_words mode p ms :
  find_in_mode hash g index mode p = Some ms ->
  forall w, w ∈ ms -> w ∈ words index.
Proof.
  unfold find_in_mode. destruct (String.eqb mode "exact").
  - apply find_exact_words.
  - apply find_partial_words.
Qed.

Lemma execute_threaded_strict r text :
  settle (execute_threaded hash g index json_string_list encode_utf8
            gzip_compress CFG mem r) = Some (Reply text) ->
  strict_shape (cmd r) text.
Proof.
  unfold execute_threaded.
  destruct (String.eqb_spec (cmd r) "BATCH") as [Hb|_].
  { destruct (json_string_list (pattern r)) as [pats|];
      [|intros [= <-]; left; one_fixed].
    destruct (batch_counts _ _ _ _ _ _ _) as [counts|]; [|done].
    intros [= <-]. right. right. left.
    split; [by rewrite Hb|apply batch_listing]. }
  destruct (String.eqb_spec (cmd r) "COUNT") as [Hc|Hc].
  { destruct (count_in_mode _ _ _ _ _) as [n|]; [|done]. cbn [call bind].
    pose proof (count_strict (cmd r) n Hc) as Hn.
    destruct (n =? 0)%nat; intros [= <-]; exact Hn. }
  unfold matches_threaded.
  destruct (String.eqb (cmd r) "FIND_MULTI").
  - destruct (split (strip (pattern r))) as [|t ts];
      [intros [= <-]; left; one_fixed|].
    destruct (find_multi _ _ _ _) as [ms|] eqn:Hm; [|done]. cbn [call bind settle].
    intros [= H]. eapply found_strict; [done| |exact H].
    eapply find_multi_words; [|exact Hm]. apply find_in_mode_words.
  - destruct (find_in_mode _ _ _ _ _) as [ms|] eqn:Hm; [|done].
    cbn [call bind settle].
    intros [= H]. eapply found_strict; [done| |exact H].
    by eapply find_in_mode_words.
Qed.

Lemma execute_basic_strict r text :
  settle (execute_basic hash g index encode_utf8 gzip_compress r)
  = Some (Reply text) ->
  strict_shape (cmd r) text.
Proof.
  unfold execute_basic.
  destruct (String.eqb_spec (cmd r) "COUNT") as [Hc|Hc].
  { destruct (count_exact _ _ _ _) as [n|]; [|done]. cbn [call bind].
    pose proof (count_strict (cmd r) n Hc) as Hn.
    destruct (n =? 0)%nat; intros [= <-]; exact Hn. }
  unfold matches_basic.
  destruct (String.eqb (cmd r) "FIND_MULTI").
  - destruct (split (strip (pattern r))) as [|t ts];
      [intros [= <-]; left; one_fixed|].
    destruct (find_multi _ _ _ _) as [ms|] eqn:Hm; [|done]. cbn [call bind settle].
    intros [= H]. eapply found_strict; [done| |exact H].
    eapply find_multi_words; [|exact Hm]. apply find_exact_words.
  - cbn [handle_find].
    destruct (find_exact _ _ _ _) as [ms|] eqn:Hm; [|done]. cbn [call bind settle].
    intros [= H]. eapply found_strict; [done| |exact H].
    by eapply find_exact_words.
Qed.

Variable stats_lines : list string.
Variable CFGmax : nat.
Variable default_mode : string.
Hypothesis stats_single : forallb single_line stats_lines = true.

Lemma handle_line_strict line text :
  handle_line hash g index (stats_reply stats_lines) json_string_list
    encode_utf8 gzip_compress CFG mem CFGmax default_mode line
  = Some (Reply text) ->
  strict_shape (command_of line) text.
Proof.
  unfold handle_line.
  pose proof (parse_threaded_strict stats_lines default_mode line stats_single)
    as Hp.
  destruct (parse_threaded _ _ _) as [[o|r]|] eqn:Hparse; [| |done].
  { cbn. by intros [= ->]. }
  apply parse_threaded_word in Hparse as <-. cbn [bind].
  pose proof (guard_strict (cmd r) CFG mem CFGmax r) as Hg.
  destruct (guard_threaded _ _ _ _) as [[o|[]]|]; [| |done].
  { cbn. by intros [= ->]. }
  cbn [bind]. apply execute_threaded_strict.
Qed.

Lemma serve_once_strict line text :
  serve_once hash g index (stats_reply stats_lines) encode_utf8 gzip_compress
    CFG mem CFGmax line
  = Some (Reply text) ->
  strict_shape (command_of line) text.
Proof.
  unfold serve_once.
  pose proof (parse_basic_strict stats_lines line stats_single) as Hp.
  destruct (parse_basic _ _) as [[o|r]|] eqn:Hparse; [| |done].
  { cbn. by intros [= ->]. }
  apply parse_basic_word in Hparse as <-. cbn [bind].
  pose proof (guard_strict (cmd r) CFG mem CFGmax r) as Hg.
  unfold guard_basic. fold (guard_threaded CFG mem CFGmax r).
  destruct (guard_threaded _ _ _ _) as [[o|[]]|]; [| |done].
  { cbn. by intros [= ->]. }
  cbn [bind]. apply execute_basic_strict.
Qed.

End Execute.
End StrictFacts.

Section ReplyShapes.
Import Server Wire.

Variable hash : string -> Z.
Variable g : Globals.t.
Variable index : WordIndex.
Variable stats_lines : list string.
Variable json_string_list : string -> option (list string).
Variable encode_utf8 : string -> Codec.bytes.
Variable gzip_compress : Codec.bytes -> Codec.bytes.
Variable decode_utf8 : Codec.bytes -> option string.
Variable CFG : complexity.
Variable mem : memory.
Variable max_pattern_length : nat.
Variable default_mode : string.

Let threaded :=
  receive_threaded hash g index stats_lines json_string_list encode_utf8
    gzip_compress decode_utf8 CFG mem max_pattern_length default_mode.
Let basic :=
  receive_basic hash g index stats_lines encode_utf8 gzip_compress decode_utf8
    CFG mem max_pattern_length.

(** X11. Every reply follows the protocol, command by command. Let no
    word of the corpus and no line of the statistics hold a line feed
    (the words [load_wordlist] returns hold none). Then whatever bytes
    a server reads as a line, and whatever the configuration is, a
    reply it sends is one of the fixed error or 404 texts, or the
    complexity error with its reason, or, when the command word of the
    line is not COUNT, a 200 reply whose status line carries exactly
    the number of its body lines, none of which holds a line feed
    (FIND, FIND_MULTI, BATCH, STATS; the one [GZIP] line of a
    compressed body), or, when the command word is COUNT, the line
    [200 OK n] with a count that is not zero and no body; and it
    starts with the status 200, 400 or 404 and ends with the line
    [END]. The two texts that answer no line, [400 BAD-REQUEST timeout]
    for a read that times out and [503 BUSY 0] at accept time, are not
    part of this statement. *)
Theorem replies_have_protocol_shape (raw : Codec.bytes) :
  forallb single_line (words index) = true ->
  forallb single_line stats_lines = true ->
  let command := command_read decode_utf8 raw in
  outcome_strict command (threaded raw) /\ outcome_strict command (basic raw).
Proof.
  intros Hwords Hstats command.
  assert (forall c text, strict_shape c text ->
                         strict_shape c text /\ well_framed text) as Hboth.
  { intros c text H. split; [done|].
    by eapply ShapeFacts.shape_framed, StrictFacts.strict_loose. }
  assert (forall c, strict_shape c TOO_LONG) as Hlong.
  { intros c. left. unfold fixed_replies. rewrite !elem_of_cons. tauto. }
  assert (forall c, strict_shape c NON_UTF8) as Hutf.
  { intros c. left. unfold fixed_replies. rewrite !elem_of_cons. tauto. }
  unfold command, command_read, threaded, basic, receive_threaded, receive_basic.
  destruct raw as [|b raw]; [done|].
  destruct (_ <? _)%nat.
  { cbn [outcome_strict]. split; apply Hboth, Hlong. }
  destruct (decode_utf8 (b :: raw)) as [s|].
  2:{ cbn [outcome_strict]. split; apply Hboth, Hutf. }
  split.
  - destruct (handle_line _ _ _ _ _ _ _ _ _ _ _ _) as [[text| |]|] eqn:H; try done.
    apply StrictFacts.handle_line_strict in H; [by apply Hboth|done..].
  - destruct (serve_once _ _ _ _ _ _ _ _ _ _) as [[text| |]|] eqn:H; try done.
    apply StrictFacts.serve_once_strict in H; [by apply Hboth|done..].
Qed.

End ReplyShapes.

Lemma replies_have_protocol_shape_witness :
  let raw := list_ascii_of_string "COUNT h?llo" ++ [LF] in
  forallb single_line (words fixture_index) = true
  /\ forallb single_line ["uptime 3"] = true
  /\ command_read sample_decode raw = "COUNT"
  /\ outcome_strict "COUNT"
       (Wire.receive_threaded sample_hash fixture_globals fixture_index
          ["uptime 3"] sample_json sample_utf8 sample_gzip sample_decode
          Server.CFG_COMPLEXITY_default sample_memory 4096 "exact" raw)
  /\ outcome_strict "COUNT"
       (Wire.receive_basic sample_hash fixture_globals fixture_index
          ["uptime 3"] sample_utf8 sample_gzip sample_decode
          Server.CFG_COMPLEXITY_default sample_memory 4096 raw).
Proof.
  intros raw.
  assert (forallb single_line (words fixture_index) = true) as Hwords
    by reflexivity.
  split; [exact Hwords|]. split; [reflexivity|]. split; [reflexivity|].
  exact (replies_have_protocol_shape sample_hash fixture_globals fixture_index
           ["uptime 3"] sample_json sample_utf8 sample_gzip sample_decode
           Server.CFG_COMPLEXITY_default sample_memory 4096 "exact" raw
           Hwords eq_refl).
Defined.
